(** * monte-canvas: the quantitative core, embedded and verified

    The development covers the numerical library of the dashboard:
    - [src/lib/monteCarlo.ts] (plain geometric Brownian motion),
    - the jump-diffusion variant of the same module,
    - the correlated portfolio simulator,
    - the Black-Scholes calculator [OptionsCalculator],
    - the return-series ratios of [RiskManager].

    Numbers.  A JavaScript number is modelled by [num]: a finite value is
    an exact real (no rounding, no overflow, no signed zero), and the three
    special values [Infinity], [-Infinity] and [NaN] follow the IEEE-754
    rules that JavaScript applies to them.  Quantities that the code can
    only ever compute from finite operands with total operations stay in
    [R]; anything behind a division, a square root, a logarithm or an
    array read is a [num].  Every statement about a computed value is
    therefore a statement in exact arithmetic.

    Ranks.  One product is kept in double precision, because its rounding
    decides which element of an array is read: the rank
    [Math.floor(n * p)] of a percentile.  There [p] is a binary64 number
    ([float]), [n * p] is the IEEE-754 product and [Math.floor] is taken
    of the rounded product.

    Randomness.  [Math.random()] is a tape of reals; reading past the end
    of the tape is the only way a model run yields [None]. *)

From Stdlib Require Import Floats.
From Stdlib Require Import String Reals Lra Lia ZArith List Bool.
From Stdlib Require Import Permutation Sorted.
Import ListNotations.
Open Scope R_scope.
Set Warnings "-inexact-float".

(* ===================================================================== *)
(** ** JavaScript numbers *)
(* ===================================================================== *)

Module JsNum.

Inductive num : Type :=
| Fin (r : R)
| PInf
| NInf
| NaN.

(** [Infinity * r] and [r / 0] for a finite [r]: the sign of [r] decides,
    and a zero [r] gives [NaN].  [pos] is the sign of the infinity. *)
Definition scale_inf (pos : bool) (r : R) : num :=
  match total_order_T r 0 with
  | inleft (left _) => if pos then NInf else PInf
  | inleft (right _) => NaN
  | inright _ => if pos then PInf else NInf
  end.

Definition nneg (x : num) : num :=
  match x with
  | Fin a => Fin (- a)
  | PInf => NInf
  | NInf => PInf
  | NaN => NaN
  end.

Definition nadd (x y : num) : num :=
  match x, y with
  | NaN, _ | _, NaN => NaN
  | Fin a, Fin b => Fin (a + b)
  | PInf, NInf | NInf, PInf => NaN
  | PInf, _ | _, PInf => PInf
  | NInf, _ | _, NInf => NInf
  end.

Definition nsub (x y : num) : num := nadd x (nneg y).

Definition nmul (x y : num) : num :=
  match x, y with
  | NaN, _ | _, NaN => NaN
  | Fin a, Fin b => Fin (a * b)
  | Fin a, PInf | PInf, Fin a => scale_inf true a
  | Fin a, NInf | NInf, Fin a => scale_inf false a
  | PInf, PInf | NInf, NInf => PInf
  | PInf, NInf | NInf, PInf => NInf
  end.

(** Division.  A finite number divided by zero is [NaN] for [0/0] and an
    infinity otherwise (the zero divisor is taken as [+0]). *)
Definition ndiv (x y : num) : num :=
  match x, y with
  | NaN, _ | _, NaN => NaN
  | Fin a, Fin b => if Req_dec_T b 0 then scale_inf true a else Fin (a / b)
  | Fin _, PInf | Fin _, NInf => Fin 0
  | PInf, Fin b => if Rlt_dec b 0 then NInf else PInf
  | NInf, Fin b => if Rlt_dec b 0 then PInf else NInf
  | PInf, PInf | PInf, NInf | NInf, PInf | NInf, NInf => NaN
  end.

(** [Math.sqrt] *)
Definition nsqrt (x : num) : num :=
  match x with
  | Fin a => if Rlt_dec a 0 then NaN else Fin (sqrt a)
  | PInf => PInf
  | NInf => NaN
  | NaN => NaN
  end.

(** [Math.exp] *)
Definition nexp (x : num) : num :=
  match x with
  | Fin a => Fin (exp a)
  | PInf => PInf
  | NInf => Fin 0
  | NaN => NaN
  end.

(** [Math.log] *)
Definition nlog (x : num) : num :=
  match x with
  | Fin a =>
      match total_order_T a 0 with
      | inleft (left _) => NaN
      | inleft (right _) => NInf
      | inright _ => Fin (ln a)
      end
  | PInf => PInf
  | NInf => NaN
  | NaN => NaN
  end.

(** [Math.abs] *)
Definition nabs (x : num) : num :=
  match x with
  | Fin a => Fin (Rabs a)
  | PInf | NInf => PInf
  | NaN => NaN
  end.

(** [Math.max(x, y)] and [Math.min(x, y)]: [NaN] is contagious. *)
Definition nmax (x y : num) : num :=
  match x, y with
  | NaN, _ | _, NaN => NaN
  | PInf, _ | _, PInf => PInf
  | NInf, z | z, NInf => z
  | Fin a, Fin b => Fin (Rmax a b)
  end.

Definition nmin (x y : num) : num :=
  match x, y with
  | NaN, _ | _, NaN => NaN
  | NInf, _ | _, NInf => NInf
  | PInf, z | z, PInf => z
  | Fin a, Fin b => Fin (Rmin a b)
  end.

(** [x < y]; every comparison with [NaN] is false. *)
Definition nltb (x y : num) : bool :=
  match x, y with
  | NaN, _ | _, NaN => false
  | Fin a, Fin b => if Rlt_dec a b then true else false
  | NInf, NInf | PInf, _ | _, NInf => false
  | NInf, _ | _, PInf => true
  end.

(** [x <= y] *)
Definition nleb (x y : num) : bool :=
  match x, y with
  | NaN, _ | _, NaN => false
  | Fin a, Fin b => if Rle_dec a b then true else false
  | NInf, _ | _, PInf => true
  | PInf, _ | _, NInf => false
  end.

(** [x > y] is [y < x]. *)
Definition ngtb (x y : num) : bool := nltb y x.

(** [x === y] on numbers. *)
Definition neqb (x y : num) : bool :=
  match x, y with
  | Fin a, Fin b => if Req_dec_T a b then true else false
  | PInf, PInf | NInf, NInf => true
  | _, _ => false
  end.

(** [Math.pow(x, n)] and [x ** n] for the literal exponents 2, 3 and 4 the
    sources use: iterated multiplication. *)
Fixpoint npow (x : num) (n : nat) : num :=
  match n with
  | O => Fin 1
  | S O => x
  | S n' => nmul x (npow x n')
  end.

(** An array read or an absent value used as a number: [undefined] turns
    into [NaN]. *)
Definition to_number (v : option num) : num :=
  match v with
  | Some x => x
  | None => NaN
  end.

Definition is_nan (x : num) : bool :=
  match x with
  | NaN => true
  | _ => false
  end.

Definition is_finite (x : num) : bool :=
  match x with
  | Fin _ => true
  | _ => false
  end.

End JsNum.
Export JsNum.

Declare Scope num_scope.
Delimit Scope num_scope with num.
Bind Scope num_scope with num.
Infix "+" := nadd : num_scope.
Infix "-" := nsub : num_scope.
Infix "*" := nmul : num_scope.
Infix "/" := ndiv : num_scope.
Notation "- x" := (nneg x) : num_scope.

(* ===================================================================== *)
(** ** Arrays, completions and the random tape *)
(* ===================================================================== *)

Module JsArray.

(** [a[i]] for a numeric index: [undefined] outside the array. *)
Definition js_index {A : Type} (a : list A) (i : Z) : option A :=
  if (i <? 0)%Z then None else nth_error a (Z.to_nat i).

(** [a.slice(0, e)]: a negative [e] counts from the end, and the bound is
    clipped to the array. *)
Definition js_slice0 {A : Type} (a : list A) (e : Z) : list A :=
  if (e <? 0)%Z
  then firstn (Z.to_nat (Z.max (Z.of_nat (length a) + e) 0)) a
  else firstn (Z.to_nat e) a.

(** [a[a.length - 1]] *)
Definition js_last {A : Type} (a : list A) : option A :=
  js_index a (Z.of_nat (length a) - 1).

(** [Math.floor] of a finite number. *)
Definition js_floor (x : R) : Z := Zfloor x.

(** [a.length] as a number. *)
Definition js_length {A : Type} (a : list A) : R := INR (length a).

Section Sort.
Context {A : Type} (cmp : A -> A -> num).

(** [a.sort(cmp)] is a stable sort: [x] goes after [y] exactly when
    [cmp(x, y) > 0] (a [NaN] verdict counts as a tie).  For a comparator
    that is not a consistent order, ECMAScript leaves the result to the
    implementation; the model is then one admissible result. *)
Fixpoint sort_insert (x : A) (a : list A) : list A :=
  match a with
  | [] => [x]
  | y :: a' =>
      if ngtb (cmp x y) (Fin 0) then y :: sort_insert x a'
      else x :: y :: a'
  end.

Fixpoint js_sort (a : list A) : list A :=
  match a with
  | [] => []
  | x :: a' => sort_insert x (js_sort a')
  end.
End Sort.

(** The comparator [(a, b) => a - b] on finite numbers and on numbers. *)
Definition cmp_sub (a b : R) : num := Fin (a - b).
Definition cmp_nsub (a b : num) : num := nsub a b.

(** [a.reduce((sum, v) => sum + v, 0)] *)
Definition sumR (a : list R) : R := fold_left Rplus a 0.
Definition sumN (a : list num) : num := fold_left nadd a (Fin 0).

(** [Math.max(...a)] and [Math.min(...a)] *)
Definition max_of (a : list num) : num := fold_left nmax a NInf.
Definition min_of (a : list num) : num := fold_left nmin a PInf.

End JsArray.
Export JsArray.

(* ===================================================================== *)
(** ** Ranks in double precision *)
(* ===================================================================== *)

Module JsDouble.

(** The value of [Math.floor(x)] for a double [x]: a whole number, or [x]
    itself when it is [NaN] or an infinity. *)
Inductive integral : Type :=
| Whole (z : Z)
| NotANumber
| PlusInfinity
| MinusInfinity.

(** [Math.floor]: a finite double is [(-1)^s * m * 2^e], and shifting by
    [e] (to the right when [e] is negative) rounds towards minus
    infinity. *)
Definition Math_floor (x : float) : integral :=
  match Prim2SF x with
  | S754_zero _ => Whole 0
  | S754_infinity false => PlusInfinity
  | S754_infinity true => MinusInfinity
  | S754_nan => NotANumber
  | S754_finite s m e => Whole (Z.shiftl (if s then Z.neg m else Z.pos m) e)
  end.

(** [a.length] as a double; an array holds fewer than [2^32] elements, so
    the conversion is exact. *)
Definition double_of_length (n : nat) : float :=
  PrimFloat.of_uint63 (Uint63.of_Z (Z.of_nat n)).

(** [Math.floor(a.length * p)] and [Math.floor(p * a.length)] *)
Definition rank (n : nat) (p : float) : integral :=
  Math_floor (double_of_length n * p)%float.

Definition rank_of (p : float) (n : nat) : integral :=
  Math_floor (p * double_of_length n)%float.

(** The whole number, [NaN] or infinity as a number. *)
Definition number_of (k : integral) : num :=
  match k with
  | Whole z => Fin (IZR z)
  | NotANumber => NaN
  | PlusInfinity => PInf
  | MinusInfinity => NInf
  end.

(** [k + 1] for a rank [k], used as the end of a slice.  Where the double
    sum is rounded, beyond [2^53], both [k] and [k + 1] lie past the end
    of the array (or before its start) and the slice is the same. *)
Definition next (k : integral) : integral :=
  match k with
  | Whole z => Whole (z + 1)
  | _ => k
  end.

(** [a[k]]: [undefined] when [k] is [NaN] or an infinity. *)
Definition js_at {A : Type} (a : list A) (k : integral) : option A :=
  match k with
  | Whole z => js_index a z
  | _ => None
  end.

(** [a.slice(0, k)]: [NaN] and [-Infinity] count as 0 and [-Infinity],
    [Infinity] is clipped to the length. *)
Definition js_slice_to {A : Type} (a : list A) (k : integral) : list A :=
  match k with
  | Whole z => js_slice0 a z
  | PlusInfinity => a
  | NotANumber | MinusInfinity => []
  end.

(** The real number that a finite double stands for. *)
Definition value_of (x : float) : R :=
  match Prim2SF x with
  | S754_finite s m e =>
      (if s then - IZR (Z.pos m) else IZR (Z.pos m)) * powerRZ 2 e
  | _ => 0
  end.

End JsDouble.
Export JsDouble.

(** A call either returns a value or throws. *)
Inductive completion (A : Type) : Type :=
| Returns (a : A)
| Throws (message : string).
Arguments Returns {A} a.
Arguments Throws {A} message.

Module Random.

(** Successive results of [Math.random()], each in [0, 1). *)
Definition tape := list R.

Definition valid_tape (t : tape) : Prop := Forall (fun u => 0 <= u < 1) t.

(** A computation that reads the tape: [None] when the tape runs out. *)
Definition Rand (A : Type) : Type := tape -> option (A * tape).

Definition ret {A : Type} (a : A) : Rand A := fun t => Some (a, t).

Definition bind {A B : Type} (c : Rand A) (k : A -> Rand B) : Rand B :=
  fun t =>
    match c t with
    | Some (a, t') => k a t'
    | None => None
    end.

(** [Math.random()] *)
Definition random : Rand R :=
  fun t =>
    match t with
    | [] => None
    | u :: t' => Some (u, t')
    end.

(** [let u = 0; while (u === 0) u = Math.random();] *)
Fixpoint random_nonzero (t : tape) : option (R * tape) :=
  match t with
  | [] => None
  | u :: t' => if Req_dec_T u 0 then random_nonzero t' else Some (u, t')
  end.

(** A [for] loop whose body reads the tape, over the index values [idx],
    threading the loop-carried variables [s]. *)
Fixpoint for_each {S : Type} (idx : list nat) (body : nat -> S -> Rand S)
  (s : S) : Rand S :=
  match idx with
  | [] => ret s
  | i :: idx' => bind (body i s) (for_each idx' body)
  end.

End Random.
Export Random.

Notation "x <- c ;; k" := (bind c (fun x => k))
  (at level 61, c at next level, right associativity).
Notation "' pat <- c ;; k" := (bind c (fun x => match x with pat => k end))
  (at level 61, pat pattern, c at next level, right associativity).

(** Box-Muller transform, shared verbatim by the three simulators. *)
Definition randomNormal : Rand R :=
  u <- random_nonzero ;;
  v <- random_nonzero ;;
  ret (sqrt (-2 * ln u) * cos (2 * PI * v)).

(** [for (let i = 1; i <= n; i++)] visits [1 .. n]; [for (let i = 0; i < n;
    i++)] visits [0 .. n-1]; neither runs for [n <= 0]. *)
Definition from_1_to (n : Z) : list nat := seq 1 (Z.to_nat n).
Definition from_0_below (n : Z) : list nat := seq 0 (Z.to_nat n).

(* ===================================================================== *)
(** ** src/lib/monteCarlo.ts: geometric Brownian motion *)
(* ===================================================================== *)

Record SimulationParams : Type := {
  currentPrice : R;
  expectedReturn : R;
  volatility : R;
  timeHorizon : Z;
  numSimulations : Z
}.

Record Statistics : Type := {
  averageEndingPrice : num;
  probabilityOfGain : num;
  percentile5 : option R;
  percentile95 : option R;
  maxPrice : num;
  minPrice : num
}.

Record SimulationResults : Type := {
  paths : list (list R);
  finalPrices : list R;
  statistics : Statistics
}.

(** The statistics block, common to both versions of
    [runMonteCarloSimulation]; [finalPrices] is the array after the
    in-place sort. *)
Definition summarize (currentPrice : R) (finalPrices : list R) : Statistics :=
  {| averageEndingPrice :=
       ndiv (Fin (sumR finalPrices)) (Fin (js_length finalPrices));
     probabilityOfGain :=
       ndiv (Fin (js_length
                    (filter (fun price => ngtb (Fin price) (Fin currentPrice))
                            finalPrices)))
            (Fin (js_length finalPrices));
     percentile5 := js_at finalPrices (rank (length finalPrices) 0.05);
     percentile95 := js_at finalPrices (rank (length finalPrices) 0.95);
     maxPrice := max_of (map Fin finalPrices);
     minPrice := min_of (map Fin finalPrices) |}.

Module MonteCarlo.

(** One trading day of one path: the loop-carried pair is [(price, path)]. *)
Definition day_step (drift diffusion : R) (day : nat) (s : R * list R)
  : Rand (R * list R) :=
  let '(price, path) := s in
  randomShock <- randomNormal ;;
  let priceChange := drift + diffusion * randomShock in
  let price := price * exp priceChange in
  ret (price, path ++ [price]).

Definition runMonteCarloSimulation (params : SimulationParams)
  : Rand (completion SimulationResults) :=
  let paths : list (list R) := [] in
  let finalPrices : list R := [] in
  let dt := 1 / 252 in
  let drift :=
    (expectedReturn params - 0.5 * volatility params * volatility params) * dt in
  let diffusion := volatility params * sqrt dt in
  '(paths, finalPrices) <-
    for_each (from_0_below (numSimulations params))
      (fun sim '(paths, finalPrices) =>
         '(price, path) <-
           for_each (from_1_to (timeHorizon params))
             (day_step drift diffusion)
             (currentPrice params, [currentPrice params]) ;;
         ret (paths ++ [path], finalPrices ++ [price]))
      (paths, finalPrices) ;;
  let finalPrices := js_sort cmp_sub finalPrices in
  ret (Returns {| paths := paths;
                  finalPrices := finalPrices;
                  statistics := summarize (currentPrice params) finalPrices |}).

End MonteCarlo.

(** Default value of the [confidence] parameter of [calculateRiskMetrics]. *)
Definition default_confidence : float := 0.05.

(** [returns.reduce((sum, ret) => sum + Math.pow(ret - mean, 2), 0)] *)
Definition sum_sq_dev (mean : num) (a : list num) : num :=
  fold_left (fun sum ret => nadd sum (npow (nsub ret mean) 2)) a (Fin 0).

Module RiskBasic.

Record RiskMetrics : Type := {
  valueAtRisk : num;
  expectedShortfall : num;
  sharpeRatio : num;
  maxDrawdown : num
}.

(** [calculateRiskMetrics] of src/lib/monteCarlo.ts. *)
Definition calculateRiskMetrics (finalPrices : list R) (currentPrice : R)
  (confidence : float) : RiskMetrics :=
  let sortedPrices := js_sort cmp_sub finalPrices in
  let returns :=
    map (fun price => ndiv (Fin (price - currentPrice)) (Fin currentPrice))
        finalPrices in
  let varIndex := rank (length sortedPrices) confidence in
  let valueAtRisk :=
    nsub (Fin currentPrice)
         (to_number (option_map Fin (js_at sortedPrices varIndex))) in
  let worstReturns := js_slice_to returns (next varIndex) in
  let expectedShortfall :=
    ndiv (sumN worstReturns) (Fin (js_length worstReturns)) in
  let averageReturn := ndiv (sumN returns) (Fin (js_length returns)) in
  let returnStd :=
    nsqrt (ndiv (sum_sq_dev averageReturn returns)
                (Fin (js_length returns))) in
  let sharpeRatio := ndiv (nsub averageReturn (Fin 0.03)) returnStd in
  {| valueAtRisk := valueAtRisk;
     expectedShortfall := expectedShortfall;
     sharpeRatio := sharpeRatio;
     maxDrawdown :=
       ndiv (nsub (Fin currentPrice) (min_of (map Fin sortedPrices)))
            (Fin currentPrice) |}.

End RiskBasic.

(* ===================================================================== *)
(** ** The jump-diffusion version of the Monte Carlo module *)
(* ===================================================================== *)

Module Enhanced.

Definition jumpIntensity : R := 0.02.
Definition jumpMean : R := -0.05.
Definition jumpStd : R := 0.1.

Definition day_step (drift diffusion : R) (day : nat) (s : R * list R)
  : Rand (R * list R) :=
  let '(price, path) := s in
  randomShock <- randomNormal ;;
  let priceChange := drift + diffusion * randomShock in
  gate <- random ;;
  priceChange <-
    (if Rlt_dec gate jumpIntensity
     then (shock' <- randomNormal ;;
           let jumpSize := jumpMean + jumpStd * shock' in
           ret (priceChange + jumpSize))
     else ret priceChange) ;;
  let price := price * exp priceChange in
  ret (price, path ++ [price]).

Definition runMonteCarloSimulation (params : SimulationParams)
  : Rand (completion SimulationResults) :=
  let paths : list (list R) := [] in
  let finalPrices : list R := [] in
  let dt := 1 / 252 in
  let drift :=
    (expectedReturn params - 0.5 * volatility params * volatility params) * dt in
  let diffusion := volatility params * sqrt dt in
  '(paths, finalPrices) <-
    for_each (from_0_below (numSimulations params))
      (fun sim '(paths, finalPrices) =>
         '(price, path) <-
           for_each (from_1_to (timeHorizon params))
             (day_step drift diffusion)
             (currentPrice params, [currentPrice params]) ;;
         ret (paths ++ [path], finalPrices ++ [price]))
      (paths, finalPrices) ;;
  let finalPrices := js_sort cmp_sub finalPrices in
  ret (Returns {| paths := paths;
                  finalPrices := finalPrices;
                  statistics := summarize (currentPrice params) finalPrices |}).

Record RiskMetrics : Type := {
  valueAtRisk : num;
  expectedShortfall : num;
  sharpeRatio : num;
  sortinoRatio : num;
  maxDrawdown : num;
  volatility_ : num;
  skewness : num;
  kurtosis : num
}.

(** [data.reduce((sum, val) => sum + Math.pow((val - mean) / std, k), 0)] *)
Definition sum_std_pow (mean std : num) (k : nat) (data : list num) : num :=
  fold_left
    (fun sum val => nadd sum (npow (ndiv (nsub val mean) std) k))
    data (Fin 0).

Definition calculateSkewness (data : list num) : num :=
  let mean := ndiv (sumN data) (Fin (js_length data)) in
  let variance := ndiv (sum_sq_dev mean data) (Fin (js_length data)) in
  let std := nsqrt variance in
  ndiv (sum_std_pow mean std 3 data) (Fin (js_length data)).

Definition calculateKurtosis (data : list num) : num :=
  let mean := ndiv (sumN data) (Fin (js_length data)) in
  let variance := ndiv (sum_sq_dev mean data) (Fin (js_length data)) in
  let std := nsqrt variance in
  let kurtosis := ndiv (sum_std_pow mean std 4 data) (Fin (js_length data)) in
  nsub kurtosis (Fin 3).

Definition calculateRiskMetrics (finalPrices : list R) (currentPrice : R)
  (confidence : float) : RiskMetrics :=
  let sortedPrices := js_sort cmp_sub finalPrices in
  let returns :=
    map (fun price => ndiv (Fin (price - currentPrice)) (Fin currentPrice))
        finalPrices in
  let varIndex := rank (length sortedPrices) confidence in
  let valueAtRisk :=
    nsub (Fin currentPrice)
         (to_number (option_map Fin (js_at sortedPrices varIndex))) in
  let worstReturns := js_slice_to returns (next varIndex) in
  let expectedShortfall :=
    ndiv (sumN worstReturns) (Fin (js_length worstReturns)) in
  let averageReturn := ndiv (sumN returns) (Fin (js_length returns)) in
  let returnStd :=
    nsqrt (ndiv (sum_sq_dev averageReturn returns)
                (Fin (js_length returns))) in
  let sharpeRatio := ndiv (nsub averageReturn (Fin 0.03)) returnStd in
  let negativeReturns := filter (fun ret => nltb ret (Fin 0)) returns in
  let downsideStd :=
    if (0 <? length negativeReturns)%nat
    then nsqrt (ndiv (fold_left (fun sum ret => nadd sum (npow ret 2))
                                negativeReturns (Fin 0))
                     (Fin (js_length negativeReturns)))
    else Fin 0 in
  let sortinoRatio :=
    if ngtb downsideStd (Fin 0)
    then ndiv (nsub averageReturn (Fin 0.03)) downsideStd
    else Fin 0 in
  {| valueAtRisk := valueAtRisk;
     expectedShortfall := expectedShortfall;
     sharpeRatio := sharpeRatio;
     sortinoRatio := sortinoRatio;
     maxDrawdown :=
       ndiv (nsub (Fin currentPrice) (min_of (map Fin sortedPrices)))
            (Fin currentPrice);
     volatility_ := returnStd;
     skewness := calculateSkewness returns;
     kurtosis := calculateKurtosis returns |}.

End Enhanced.

(* ===================================================================== *)
(** ** RiskManager: ratios over a return series *)
(* ===================================================================== *)

Module RiskManager.

Definition default_periods : R := 252.
Definition default_riskFreeRate : R := 0.02.
Definition default_targetReturn : R := 0.

(** [returns.reduce((a, b) => a + b, 0) / returns.length] *)
Definition mean_of (returns : list R) : num :=
  ndiv (Fin (sumR returns)) (Fin (js_length returns)).

Definition calculateVolatility (returns : list R) (periods : R) : num :=
  let mean := mean_of returns in
  let variance :=
    ndiv (fold_left
            (fun acc ret => nadd acc (npow (nsub (Fin ret) mean) 2))
            returns (Fin 0))
         (Fin (js_length returns - 1)) in
  nsqrt (nmul variance (Fin periods)).

Definition calculateSharpeRatio (returns : list R) (riskFreeRate periods : R)
  : num :=
  let meanReturn := nmul (mean_of returns) (Fin periods) in
  let volatility := calculateVolatility returns periods in
  if ngtb volatility (Fin 0)
  then ndiv (nsub meanReturn (Fin riskFreeRate)) volatility
  else Fin 0.

Definition calculateSortino (returns : list R) (targetReturn periods : R)
  : num :=
  let meanReturn := nmul (mean_of returns) (Fin periods) in
  let downsideReturns :=
    filter (fun r => nltb (Fin r) (Fin targetReturn)) returns in
  if (length downsideReturns =? 0)%nat then Fin 0
  else
    let downsideDeviation :=
      nsqrt (nmul
               (ndiv (fold_left
                        (fun acc ret =>
                           nadd acc (npow (nsub (Fin ret) (Fin targetReturn)) 2))
                        downsideReturns (Fin 0))
                     (Fin (js_length downsideReturns)))
               (Fin periods)) in
    if ngtb downsideDeviation (Fin 0)
    then ndiv (nsub meanReturn (Fin targetReturn)) downsideDeviation
    else Fin 0.

End RiskManager.

(* ===================================================================== *)
(** ** OptionsCalculator: Black-Scholes prices and Greeks *)
(* ===================================================================== *)

Module OptionsCalculator.

Record OptionParameters : Type := {
  spot : R;
  strike : R;
  timeToExpiry : R;
  riskFreeRate : R;
  volatility : R;
  dividendYield : option R
}.

Record OptionPrice : Type := { call : num; put : num }.

Record GreeksResult : Type := {
  delta : num;
  gamma : num;
  theta : num;
  vega : num;
  rho : num
}.

Inductive OptionType : Type := Call | Put.

Definition a1 : R := 0.254829592.
Definition a2 : R := -0.284496736.
Definition a3 : R := 1.421413741.
Definition a4 : R := -1.453152027.
Definition a5 : R := 1.061405429.
Definition p : R := 0.3275911.

Local Open Scope num_scope.

Definition normCDF (x : num) : num :=
  let sign := if nltb x (Fin 0) then Fin (-1) else Fin 1 in
  let x := nabs x / nsqrt (Fin 2) in
  let t := Fin 1 / (Fin 1 + Fin p * x) in
  let y :=
    Fin 1 -
    (((((Fin a5 * t + Fin a4) * t) + Fin a3) * t + Fin a2) * t + Fin a1) * t
    * nexp (- x * x) in
  Fin 0.5 * (Fin 1 + sign * y).

Definition normPDF (x : num) : num :=
  nexp (Fin (-0.5) * x * x) / nsqrt (Fin 2 * Fin PI).

(** [const { ..., dividendYield = 0 } = params] *)
Definition dividend (params : OptionParameters) : R :=
  match dividendYield params with
  | Some q => q
  | None => 0
  end.

Definition d1_of (params : OptionParameters) : num :=
  let spot := Fin (spot params) in
  let strike := Fin (strike params) in
  let timeToExpiry := Fin (timeToExpiry params) in
  let riskFreeRate := Fin (riskFreeRate params) in
  let volatility := Fin (volatility params) in
  let dividendYield := Fin (dividend params) in
  (nlog (spot / strike)
   + (riskFreeRate - dividendYield + Fin 0.5 * volatility * volatility)
     * timeToExpiry)
  / (volatility * nsqrt timeToExpiry).

Definition d2_of (params : OptionParameters) : num :=
  d1_of params - Fin (volatility params) * nsqrt (Fin (timeToExpiry params)).

Definition blackScholes (params : OptionParameters) : OptionPrice :=
  let spot := Fin (spot params) in
  let strike := Fin (strike params) in
  let timeToExpiry := Fin (timeToExpiry params) in
  let riskFreeRate := Fin (riskFreeRate params) in
  let dividendYield := Fin (dividend params) in
  if nleb timeToExpiry (Fin 0) then
    let intrinsicCall := nmax (spot - strike) (Fin 0) in
    let intrinsicPut := nmax (strike - spot) (Fin 0) in
    {| call := intrinsicCall; put := intrinsicPut |}
  else
    let d1 := d1_of params in
    let d2 := d2_of params in
    let nd1 := normCDF d1 in
    let nd2 := normCDF d2 in
    let nMinusd1 := normCDF (- d1) in
    let nMinusd2 := normCDF (- d2) in
    let callPrice :=
      spot * nexp (- dividendYield * timeToExpiry) * nd1
      - strike * nexp (- riskFreeRate * timeToExpiry) * nd2 in
    let putPrice :=
      strike * nexp (- riskFreeRate * timeToExpiry) * nMinusd2
      - spot * nexp (- dividendYield * timeToExpiry) * nMinusd1 in
    {| call := nmax callPrice (Fin 0); put := nmax putPrice (Fin 0) |}.

Definition calculateGreeks (params : OptionParameters) (optionType : OptionType)
  : GreeksResult :=
  let spot := Fin (spot params) in
  let strike := Fin (strike params) in
  let timeToExpiry := Fin (timeToExpiry params) in
  let riskFreeRate := Fin (riskFreeRate params) in
  let volatility := Fin (volatility params) in
  let dividendYield := Fin (dividend params) in
  if nleb timeToExpiry (Fin 0) then
    {| delta := Fin 0; gamma := Fin 0; theta := Fin 0; vega := Fin 0;
       rho := Fin 0 |}
  else
    let d1 := d1_of params in
    let d2 := d2_of params in
    let nd1 := normCDF d1 in
    let nMinusd1 := normCDF (- d1) in
    let nd2 := normCDF d2 in
    let nMinusd2 := normCDF (- d2) in
    let pdf1 := normPDF d1 in
    let delta :=
      match optionType with
      | Call => nexp (- dividendYield * timeToExpiry) * nd1
      | Put => - nexp (- dividendYield * timeToExpiry) * nMinusd1
      end in
    let gamma :=
      nexp (- dividendYield * timeToExpiry) * pdf1
      / (spot * volatility * nsqrt timeToExpiry) in
    let term1 :=
      - spot * pdf1 * volatility * nexp (- dividendYield * timeToExpiry)
      / (Fin 2 * nsqrt timeToExpiry) in
    let term2 := riskFreeRate * strike * nexp (- riskFreeRate * timeToExpiry) in
    let term3 := dividendYield * spot * nexp (- dividendYield * timeToExpiry) in
    let theta :=
      match optionType with
      | Call => term1 - term2 * nd2 + term3 * nd1
      | Put => term1 + term2 * nMinusd2 - term3 * nMinusd1
      end in
    let theta := theta / Fin 365 in
    let vega :=
      spot * nexp (- dividendYield * timeToExpiry) * pdf1 * nsqrt timeToExpiry
      / Fin 100 in
    let rho :=
      match optionType with
      | Call =>
          strike * timeToExpiry * nexp (- riskFreeRate * timeToExpiry) * nd2
          / Fin 100
      | Put =>
          - strike * timeToExpiry * nexp (- riskFreeRate * timeToExpiry)
          * nMinusd2 / Fin 100
      end in
    {| delta := delta; gamma := gamma; theta := theta; vega := vega;
       rho := rho |}.

End OptionsCalculator.

(* ===================================================================== *)
(** ** The correlated portfolio simulator *)
(* ===================================================================== *)

Module Portfolio.

(** An asset after [fetchRealStockData] has filled in its market data. *)
Record Asset : Type := {
  ticker : string;
  name : string;
  weight : R;
  currentPrice : R;
  expectedReturn : R;
  volatility : R
}.

Inductive Sector : Type := tech | finance | healthcare | energy.

Definition techStocks : list string :=
  ["AAPL"; "MSFT"; "GOOGL"; "AMZN"; "TSLA"; "NVDA"; "META"]%string.
Definition financeStocks : list string :=
  ["JPM"; "BAC"; "WFC"; "GS"; "MS"]%string.
Definition healthcareStocks : list string :=
  ["JNJ"; "PFE"; "UNH"; "ABBV"]%string.
Definition energyStocks : list string := ["XOM"; "CVX"; "COP"]%string.

(** [list.includes(ticker)] *)
Definition includes (l : list string) (s : string) : bool :=
  existsb (String.eqb s) l.

Definition getSector (ticker : string) : Sector :=
  if includes techStocks ticker then tech
  else if includes financeStocks ticker then finance
  else if includes healthcareStocks ticker then healthcare
  else if includes energyStocks ticker then energy
  else tech.

Definition sectorCorrelations (s1 s2 : Sector) : R :=
  match s1, s2 with
  | tech, tech => 1.0
  | tech, finance => 0.3
  | tech, healthcare => 0.2
  | tech, energy => 0.1
  | finance, tech => 0.3
  | finance, finance => 1.0
  | finance, healthcare => 0.15
  | finance, energy => 0.25
  | healthcare, tech => 0.2
  | healthcare, finance => 0.15
  | healthcare, healthcare => 1.0
  | healthcare, energy => 0.1
  | energy, tech => 0.1
  | energy, finance => 0.25
  | energy, healthcare => 0.1
  | energy, energy => 1.0
  end.

(** [v || 0.3]: zero is falsy. *)
Definition or_default (v d : R) : R := if Req_dec_T v 0 then d else v.

Definition calculateCorrelationMatrix (assets : list Asset) : list (list R) :=
  map (fun ai =>
         map (fun aj =>
                if (fst ai =? fst aj)%nat then 1.0
                else
                  let sector1 := getSector (ticker (snd ai)) in
                  let sector2 := getSector (ticker (snd aj)) in
                  or_default (sectorCorrelations sector1 sector2) 0.3)
             (combine (seq 0 (length assets)) assets))
      (combine (seq 0 (length assets)) assets).

(** [L[i][j]]; the rows read always exist, a missing column is
    [undefined]. *)
Definition cell (L : list (list num)) (i j : nat) : num :=
  to_number (match nth_error L i with
             | Some row => nth_error row j
             | None => None
             end).

Definition cellR (m : list (list R)) (i j : nat) : num :=
  to_number (match nth_error m i with
             | Some row => option_map Fin (nth_error row j)
             | None => None
             end).

(** [a[i] = v] for an index inside the array. *)
Fixpoint list_set {A : Type} (a : list A) (i : nat) (v : A) : list A :=
  match a, i with
  | [], _ => []
  | _ :: a', O => v :: a'
  | x :: a', S i' => x :: list_set a' i' v
  end.

(** [L[i][j] = v] for a cell inside the square array [L]. *)
Definition set_cell (L : list (list num)) (i j : nat) (v : num)
  : list (list num) :=
  match nth_error L i with
  | Some row => list_set L i (list_set row j v)
  | None => L
  end.

(** One iteration of the inner [j] loop of [choleskyDecomposition]. *)
Definition cholesky_cell (matrix : list (list R)) (i : nat)
  (L : list (list num)) (j : nat) : list (list num) :=
  if (i =? j)%nat then
    let sum :=
      fold_left (fun sum k => nadd sum (npow (cell L j k) 2)) (seq 0 j) (Fin 0) in
    set_cell L i j (nsqrt (nsub (cellR matrix i i) sum))
  else
    let sum :=
      fold_left (fun sum k => nadd sum (nmul (cell L i k) (cell L j k)))
                (seq 0 j) (Fin 0) in
    set_cell L i j (ndiv (nsub (cellR matrix i j) sum) (cell L j j)).

Definition choleskyDecomposition (matrix : list (list R)) : list (list num) :=
  let n := length matrix in
  let L := repeat (repeat (Fin 0) n) n in
  fold_left
    (fun L i => fold_left (cholesky_cell matrix i) (seq 0 (S i)) L)
    (seq 0 n) L.

(** [Array.from({ length: n }, () => randomNormal())] *)
Fixpoint draw_normals (n : nat) : Rand (list R) :=
  match n with
  | O => ret []
  | S n' =>
      z <- randomNormal ;;
      zs <- draw_normals n' ;;
      ret (z :: zs)
  end.

(** [generateCorrelatedRandoms(n, correlationMatrix)], called with
    [n = correlationMatrix.length]. *)
Definition generateCorrelatedRandoms (n : nat) (correlationMatrix : list (list R))
  : Rand (list num) :=
  let L := choleskyDecomposition correlationMatrix in
  uncorrelatedRandoms <- draw_normals n ;;
  ret (map (fun i =>
              fold_left
                (fun acc j =>
                   nadd acc
                     (nmul (cell L i j)
                           (to_number
                              (option_map Fin (nth_error uncorrelatedRandoms j)))))
                (seq 0 (S i)) (Fin 0))
           (seq 0 n)).

(** [calculateMaxDrawdown(paths)] *)
Definition path_drawdown (path : list num) : num :=
  snd (fold_left
         (fun '(peak, maxDD) value =>
            let peak := if ngtb value peak then value else peak in
            let drawdown := ndiv (nsub peak value) peak in
            let maxDD := if ngtb drawdown maxDD then drawdown else maxDD in
            (peak, maxDD))
         path (to_number (nth_error path 0), Fin 0)).

Definition calculateMaxDrawdown (paths : list (list num)) : num :=
  fold_left
    (fun maxDrawdown path =>
       let maxDD := path_drawdown path in
       if ngtb maxDD maxDrawdown then maxDD else maxDrawdown)
    paths (Fin 0).

(** An object used as a map from ticker to value: assignment replaces the
    value of an existing key and appends a new key. *)
Fixpoint obj_set {V : Type} (o : list (string * V)) (k : string) (v : V)
  : list (string * V) :=
  match o with
  | [] => [(k, v)]
  | (k', v') :: o' =>
      if String.eqb k k' then (k, v) :: o' else (k', v') :: obj_set o' k v
  end.

Fixpoint obj_get {V : Type} (o : list (string * V)) (k : string) : option V :=
  match o with
  | [] => None
  | (k', v') :: o' => if String.eqb k k' then Some v' else obj_get o' k
  end.

(** [o[k].push(v)], for a key that is present. *)
Definition obj_push {V : Type} (o : list (string * list V)) (k : string) (v : V)
  : list (string * list V) :=
  match obj_get o k with
  | Some a => obj_set o k (a ++ [v])
  | None => o
  end.

Record PortfolioStatistics : Type := {
  averageEndingValue : num;
  probabilityOfGain : num;
  percentile5 : option num;
  percentile95 : option num;
  maxValue : num;
  minValue : num;
  stat_expectedReturn : num;
  stat_volatility : num;
  sharpeRatio : num
}.

Record PortfolioRiskMetrics : Type := {
  var95 : num;
  var99 : num;
  expectedShortfall : num;
  maxDrawdown : num
}.

Record PortfolioResults : Type := {
  paths : list (list num);
  finalValues : list num;
  initialValue : R;
  assetPaths : list (string * list (list num));
  statistics : PortfolioStatistics;
  riskMetrics : PortfolioRiskMetrics
}.

(** The body of [assetData.forEach((asset, index) => ...)] inside the day
    loop; the state is [(currentAssetPaths, portfolioValue)]. *)
Definition asset_step (day : nat) (randomNumbers : list num)
  (s : list (string * list num) * num) (ia : nat * Asset)
  : list (string * list num) * num :=
  let '(currentAssetPaths, portfolioValue) := s in
  let '(index, asset) := ia in
  let dt := 1 / 252 in
  let drift := (expectedReturn asset - 0.5 * (volatility asset * volatility asset)) * dt in
  let diffusion :=
    nmul (Fin (volatility asset * sqrt dt))
         (to_number (nth_error randomNumbers index)) in
  let previousPrice :=
    to_number (match obj_get currentAssetPaths (ticker asset) with
               | Some path => nth_error path (day - 1)
               | None => None
               end) in
  let newPrice := nmul previousPrice (nexp (nadd (Fin drift) diffusion)) in
  (obj_push currentAssetPaths (ticker asset) newPrice,
   nadd portfolioValue (nmul newPrice (Fin (weight asset)))).

Definition indexed (assetData : list Asset) : list (nat * Asset) :=
  combine (seq 0 (length assetData)) assetData.

(** One trading day of one portfolio path; the state is
    [(portfolioPath, currentAssetPaths)]. *)
Definition day_step (assetData : list Asset) (correlations : list (list R))
  (day : nat) (s : list num * list (string * list num))
  : Rand (list num * list (string * list num)) :=
  let '(portfolioPath, currentAssetPaths) := s in
  let portfolioValue := Fin 0 in
  randomNumbers <- generateCorrelatedRandoms (length assetData) correlations ;;
  let '(currentAssetPaths, portfolioValue) :=
    fold_left (asset_step day randomNumbers) (indexed assetData)
              (currentAssetPaths, portfolioValue) in
  ret (portfolioPath ++ [portfolioValue], currentAssetPaths).

(** The statistics and risk blocks at the end of
    [runPortfolioSimulation]. *)
Definition portfolio_statistics (finalValues : list num) (initialValue : R)
  : PortfolioStatistics :=
  let sortedFinalValues := js_sort cmp_nsub finalValues in
  let averageEndingValue := ndiv (sumN finalValues) (Fin (js_length finalValues)) in
  let returns :=
    map (fun val => ndiv (nsub val (Fin initialValue)) (Fin initialValue))
        finalValues in
  let averageReturn := ndiv (sumN returns) (Fin (js_length returns)) in
  let returnStd :=
    nsqrt (ndiv (sum_sq_dev averageReturn returns) (Fin (js_length returns))) in
  {| averageEndingValue := averageEndingValue;
     probabilityOfGain :=
       ndiv (Fin (js_length
                    (filter (fun val => ngtb val (Fin initialValue)) finalValues)))
            (Fin (js_length finalValues));
     percentile5 :=
       js_at sortedFinalValues (rank_of 0.05 (length finalValues));
     percentile95 :=
       js_at sortedFinalValues (rank_of 0.95 (length finalValues));
     maxValue := max_of finalValues;
     minValue := min_of finalValues;
     stat_expectedReturn := nmul averageReturn (Fin 252);
     stat_volatility := nmul returnStd (Fin (sqrt 252));
     sharpeRatio :=
       ndiv (nmul averageReturn (Fin 252)) (nmul returnStd (Fin (sqrt 252))) |}.

Definition portfolio_riskMetrics (portfolioPaths : list (list num))
  (finalValues : list num) (initialValue : R) : PortfolioRiskMetrics :=
  let sortedFinalValues := js_sort cmp_nsub finalValues in
  {| var95 :=
       nsub (Fin initialValue)
            (to_number (js_at sortedFinalValues
                              (rank_of 0.05 (length finalValues))));
     var99 :=
       nsub (Fin initialValue)
            (to_number (js_at sortedFinalValues
                              (rank_of 0.01 (length finalValues))));
     expectedShortfall :=
       nsub (Fin initialValue)
            (ndiv (sumN (js_slice_to sortedFinalValues
                                     (rank_of 0.05 (length finalValues))))
                  (number_of (rank_of 0.05 (length finalValues))));
     maxDrawdown := calculateMaxDrawdown portfolioPaths |}.

(** [runPortfolioSimulation] from the point where the market data of every
    asset has been fetched. *)
Definition runPortfolioSimulation (assetData : list Asset)
  (timeHorizon numSimulations : Z) : Rand (completion PortfolioResults) :=
  let initialValue :=
    fold_left (fun sum asset => sum + currentPrice asset * weight asset)
              assetData 0 in
  let correlations := calculateCorrelationMatrix assetData in
  let portfolioPaths : list (list num) := [] in
  let finalValues : list num := [] in
  let assetPaths : list (string * list (list num)) :=
    fold_left (fun o asset => obj_set o (ticker asset) []) assetData [] in
  '(portfolioPaths, finalValues, assetPaths) <-
    for_each (from_0_below numSimulations)
      (fun sim '(portfolioPaths, finalValues, assetPaths) =>
         let portfolioPath := [Fin initialValue] in
         let currentAssetPaths : list (string * list num) :=
           fold_left
             (fun o asset => obj_set o (ticker asset) [Fin (currentPrice asset)])
             assetData [] in
         '(portfolioPath, currentAssetPaths) <-
           for_each (from_1_to timeHorizon)
             (day_step assetData correlations)
             (portfolioPath, currentAssetPaths) ;;
         let assetPaths :=
           fold_left
             (fun o asset =>
                match obj_get currentAssetPaths (ticker asset) with
                | Some path => obj_push o (ticker asset) path
                | None => o
                end)
             assetData assetPaths in
         ret (portfolioPaths ++ [portfolioPath],
              finalValues ++ [to_number (js_last portfolioPath)],
              assetPaths))
      (portfolioPaths, finalValues, assetPaths) ;;
  ret (Returns
         {| paths := portfolioPaths;
            finalValues := finalValues;
            initialValue := initialValue;
            assetPaths := assetPaths;
            statistics := portfolio_statistics finalValues initialValue;
            riskMetrics :=
              portfolio_riskMetrics portfolioPaths finalValues initialValue |}).

End Portfolio.

(* ===================================================================== *)
(** ** Vocabulary of the statements and example inputs *)
(* ===================================================================== *)

Module OC := OptionsCalculator.

Definition expiring_itm_call : OC.OptionParameters :=
  {| OC.spot := 110; OC.strike := 100; OC.timeToExpiry := 0; OC.riskFreeRate := 0.05;
     OC.volatility := 0.2; OC.dividendYield := None |}.

(** A tape without zeros: no draw is ever repeated. *)
Definition zero_free (t : tape) : Prop := Forall (fun u => u <> 0) t.

(** The computation [c] returns on every zero-free tape of at least [k]
    draws, and reads at most [k] of them. *)
Definition within_draws {A : Type} (k : nat) (c : Rand A) : Prop :=
  forall t,
    zero_free t -> (k <= length t)%nat ->
    exists a t',
      c t = Some (a, t') /\ zero_free t' /\ (length t <= length t' + k)%nat.

(** The body of [for (let sim = 0; sim < numSimulations; sim++)], as both
    versions of [runMonteCarloSimulation] have it. *)
Definition sim_body (step : nat -> R * list R -> Rand (R * list R))
  (days : list nat) (cur : R) (sim : nat) (s : list (list R) * list R)
  : Rand (list (list R) * list R) :=
  let '(paths, finalPrices) := s in
  ' (price, path) <- for_each days step (cur, [cur]) ;;
  ret (paths ++ [path], finalPrices ++ [price]).

(** Both versions of [runMonteCarloSimulation] are the simulation loop
    followed by the in-place sort and the statistics. *)
Definition finish (cur : R) (s : list (list R) * list R)
  : Rand (completion SimulationResults) :=
  let '(paths, finalPrices) := s in
  let finalPrices := js_sort cmp_sub finalPrices in
  ret (Returns {| paths := paths;
                  finalPrices := finalPrices;
                  statistics := summarize cur finalPrices |}).

Definition drift_of (params : SimulationParams) : R :=
  (expectedReturn params - 0.5 * volatility params * volatility params)
  * (1 / 252).

Definition diffusion_of (params : SimulationParams) : R :=
  volatility params * sqrt (1 / 252).

(** The path [currentPrice * exp(drift * d)], [d = 0 .. days], with
    [drift = expectedReturn * (1/252)]. *)
Definition drift_path (cur er : R) (days : nat) : list R :=
  map (fun d => cur * exp (er * (1 / 252) * INR d)) (seq 0 (S days)).

Definition drift_final (cur er : R) (days : nat) : R :=
  cur * exp (er * (1 / 252) * INR days).

(** The path as the code compounds it at zero volatility: every day
    multiplies the price by [exp(expectedReturn * (1/252))]. *)
Fixpoint compound (price growth : R) (days : nat) : list R :=
  match days with
  | O => []
  | S d => price * growth :: compound (price * growth) growth d
  end.

Definition compounded_path (cur er : R) (days : nat) : list R :=
  cur :: compound cur (exp (er * (1 / 252))) days.

(** No jump fires on the first [days] simulated days that tape [t]
    supplies to the jump-diffusion version: each day reads the draws of its
    shock and then the gate draw, and that gate draw is at or above
    [jumpIntensity], so the next day starts right after it.  The draws of
    the shocks are not constrained. *)
Fixpoint no_jump (days : nat) (t : tape) : Prop :=
  match days with
  | O => True
  | S d =>
      match randomNormal t with
      | Some (_, t1) =>
          match random t1 with
          | Some (gate, t2) => Enhanced.jumpIntensity <= gate /\ no_jump d t2
          | None => True
          end
      | None => True
      end
  end.

(** A gate draw of [0.5] after a first shock draw of [0.01]: no jump. *)
Definition quiet_tape : tape := [0.01; 0.5; 0.5].

(** What both versions return once every path is the drift path. *)
Definition all_drift_paths (params : SimulationParams)
  (c : completion SimulationResults) : Prop :=
  let n := Z.to_nat (numSimulations params) in
  let h := Z.to_nat (timeHorizon params) in
  exists r,
    c = Returns r
    /\ paths r = repeat (drift_path (currentPrice params) (expectedReturn params) h) n
    /\ finalPrices r
       = repeat (drift_final (currentPrice params) (expectedReturn params) h) n.

Definition flat_one_day : SimulationParams :=
  {| currentPrice := 100; expectedReturn := 0; volatility := 0;
     timeHorizon := 1; numSimulations := 1 |}.

(** Draws [u, v] of the shock, a gate draw below [jumpIntensity], and the
    draws [u', v'] of the jump. *)
Definition jump_tape : tape := [0.5; 0.25; 0.01; 0.5; 0.25].

(** The example of the specification: one path of ten days at price 100
    with no return and no volatility. *)
Definition flat_ten_days : SimulationParams :=
  {| currentPrice := 100; expectedReturn := 0; volatility := 0;
     timeHorizon := 10; numSimulations := 1 |}.

(** The last element of each path, in path order. *)
Definition terminal_prices (ps : list (list R)) : list R :=
  map (fun path => last path 0) ps.

Definition sorted_view (c : completion SimulationResults) : Prop :=
  exists r,
    c = Returns r
    /\ Sorted Rle (finalPrices r)
    /\ Permutation (finalPrices r) (terminal_prices (paths r)).

(** Two paths of one day: the first draws a zero shock, the second a
    negative one, so the first path ends above the second. *)
Definition two_paths : SimulationParams :=
  {| currentPrice := 100; expectedReturn := 0; volatility := 0.2;
     timeHorizon := 1; numSimulations := 2 |}.

Definition two_paths_tape : tape := [0.5; 0.25; 0.5; 0.5].

(** The same two shocks for the jump-diffusion version, each followed by a
    gate draw of [0.5], so that no jump fires. *)
Definition two_paths_gated_tape : tape := [0.5; 0.25; 0.5; 0.5; 0.5; 0.5].

(** One path and one final price per simulation. *)
Definition one_per_simulation (params : SimulationParams)
  (c : completion SimulationResults) : Prop :=
  exists r,
    c = Returns r
    /\ length (paths r) = Z.to_nat (numSimulations params)
    /\ length (finalPrices r) = Z.to_nat (numSimulations params).

(** The first final price is not the last element of the first path. *)
Definition first_price_displaced (r : SimulationResults) : Prop :=
  exists x y,
    nth_error (finalPrices r) 0 = Some x
    /\ option_map (fun path => last path 0) (nth_error (paths r) 0) = Some y
    /\ x <> y.

(** The nearest-rank percentile [p] of an ascending array [s]: the element
    at index [Math.floor(N * p)], with no interpolation; [nearest_rank_of]
    has the product as [runPortfolioSimulation] writes it, [p * N]. *)
Definition nearest_rank (s : list R) (p : float) : option R :=
  js_at s (rank (length s) p).

Definition nearest_rank_of (p : float) (s : list R) : option R :=
  js_at s (rank_of p (length s)).

(** [initialValue - s[Math.floor(N * confidence)]] *)
Definition var_at (s : list R) (initialValue : R) (confidence : float) : num :=
  nsub (Fin initialValue) (to_number (option_map Fin (nearest_rank s confidence))).

Definition var_of (confidence : float) (s : list R) (initialValue : R) : num :=
  nsub (Fin initialValue)
       (to_number (option_map Fin (nearest_rank_of confidence s))).

(** The claim's index, in its own words: the floor of the exact product
    [p * N]; and the claim's value at risk, [initialValue] minus the
    element of the ascending array at that index. *)
Definition exact_rank (p : R) (n : nat) : Z := Zfloor (p * INR n).

Definition var_as_claimed (finalValues : list R) (initialValue confidence : R)
  : num :=
  let ascending := js_sort cmp_sub finalValues in
  nsub (Fin initialValue)
       (to_number
          (option_map Fin
             (js_index ascending (exact_rank confidence (length finalValues))))).

(** The prices [1, 2, ..., n]. *)
Definition one_to (n : nat) : list R :=
  map (fun k => IZR (Z.of_nat k)) (seq 1 n).

Definition percentiles_by_rank (c : completion SimulationResults) : Prop :=
  exists r,
    c = Returns r
    /\ Sorted Rle (finalPrices r)
    /\ percentile5 (statistics r) = nearest_rank (finalPrices r) 0.05
    /\ percentile95 (statistics r) = nearest_rank (finalPrices r) 0.95.

(** The fractional return of a final value. *)
Definition fractional_return (initialValue v : R) : num :=
  ndiv (Fin (v - initialValue)) (Fin initialValue).

(** The claim, in its own words: the mean of the [floor(confidence * N) + 1]
    smallest fractional returns, whatever the order of [finalValues]. *)
Definition cvar_as_claimed (finalValues : list R) (initialValue confidence : R)
  : num :=
  let returns := map (fractional_return initialValue) finalValues in
  let ascending := js_sort cmp_nsub returns in
  let k := Zfloor (confidence * INR (length finalValues)) in
  let worst := js_slice0 ascending (k + 1) in
  ndiv (sumN worst) (Fin (INR (length worst))).

(** What [calculateRiskMetrics] computes on ascending prices: the mean of
    the [Math.floor(N * confidence) + 1] smallest fractional returns. *)
Definition cvar_by_rank (finalValues : list R) (initialValue : R)
  (confidence : float) : num :=
  let returns := map (fractional_return initialValue) finalValues in
  let ascending := js_sort cmp_nsub returns in
  let worst :=
    js_slice_to ascending (next (rank (length finalValues) confidence)) in
  ndiv (sumN worst) (Fin (INR (length worst))).

Definition rejects {A : Type} (c : completion A) : Prop :=
  exists message, c = Throws message.

Definition returns_normally {A : Type} (c : completion A) : Prop :=
  exists r, c = Returns r.

(** The body of the simulation loop of [runPortfolioSimulation]. *)
Definition portfolio_sim_body (assetData : list Portfolio.Asset)
  (correlations : list (list R)) (timeHorizon : Z) (initialValue : R)
  (sim : nat)
  (s : list (list num) * list num * list (string * list (list num)))
  : Rand (list (list num) * list num * list (string * list (list num))) :=
  let '(portfolioPaths, finalValues, assetPaths) := s in
  let portfolioPath := [Fin initialValue] in
  let currentAssetPaths : list (string * list num) :=
    fold_left
      (fun o asset =>
         Portfolio.obj_set o (Portfolio.ticker asset)
                           [Fin (Portfolio.currentPrice asset)])
      assetData [] in
  ' (portfolioPath, currentAssetPaths) <-
    for_each (from_1_to timeHorizon)
      (Portfolio.day_step assetData correlations)
      (portfolioPath, currentAssetPaths) ;;
  let assetPaths :=
    fold_left
      (fun o asset =>
         match Portfolio.obj_get currentAssetPaths (Portfolio.ticker asset) with
         | Some path => Portfolio.obj_push o (Portfolio.ticker asset) path
         | None => o
         end)
      assetData assetPaths in
  ret (portfolioPaths ++ [portfolioPath],
       finalValues ++ [to_number (js_last portfolioPath)],
       assetPaths).

Definition portfolio_initial_value (assetData : list Portfolio.Asset) : R :=
  fold_left
    (fun sum asset =>
       sum + Portfolio.currentPrice asset * Portfolio.weight asset)
    assetData 0.

Definition portfolio_finish (initialValue : R)
  (s : list (list num) * list num * list (string * list (list num)))
  : Rand (completion Portfolio.PortfolioResults) :=
  let '(portfolioPaths, finalValues, assetPaths) := s in
  ret (Returns
         {| Portfolio.paths := portfolioPaths;
            Portfolio.finalValues := finalValues;
            Portfolio.initialValue := initialValue;
            Portfolio.assetPaths := assetPaths;
            Portfolio.statistics :=
              Portfolio.portfolio_statistics finalValues initialValue;
            Portfolio.riskMetrics :=
              Portfolio.portfolio_riskMetrics portfolioPaths finalValues
                                              initialValue |}).

Definition negative_price_no_days : SimulationParams :=
  {| currentPrice := -5; expectedReturn := 0.1; volatility := 0.2;
     timeHorizon := 0; numSimulations := 1 |}.

Definition worthless_asset : Portfolio.Asset :=
  {| Portfolio.ticker := "AAPL"; Portfolio.name := "Apple Inc.";
     Portfolio.weight := 1; Portfolio.currentPrice := -5;
     Portfolio.expectedReturn := 0.1; Portfolio.volatility := 0.2 |}.

(** The factor has a [NaN] in row [i], on or left of the diagonal. *)
Definition factor_nan_in_row (matrix : list (list R)) (i : nat) : Prop :=
  exists j, (j <= i)%nat
            /\ Portfolio.cell (Portfolio.choleskyDecomposition matrix) i j = NaN.

Definition square (matrix : list (list R)) (L : list (list num)) : Prop :=
  length L = length matrix
  /\ Forall (fun row => length row = length matrix) L.

(** The right-hand sides the algorithm assigns. *)
Definition diagonal_term (matrix : list (list R)) (L : list (list num))
  (i : nat) : num :=
  nsub (Portfolio.cellR matrix i i)
       (fold_left (fun sum k => nadd sum (npow (Portfolio.cell L i k) 2))
                  (seq 0 i) (Fin 0)).

Definition off_diagonal (matrix : list (list R)) (L : list (list num))
  (i j : nat) : num :=
  ndiv (nsub (Portfolio.cellR matrix i j)
             (fold_left
                (fun sum k =>
                   nadd sum (nmul (Portfolio.cell L i k) (Portfolio.cell L j k)))
                (seq 0 j) (Fin 0)))
       (Portfolio.cell L j j).

Definition cell_equation (matrix : list (list R)) (L : list (list num))
  (a b : nat) : Prop :=
  Portfolio.cell L a b
  = if (a =? b)%nat then nsqrt (diagonal_term matrix L a)
    else off_diagonal matrix L a b.

(** The cells assigned before cell [(i, j)] is. *)
Definition assigned_before (matrix : list (list R)) (i j a b : nat) : Prop :=
  (b <= a)%nat /\ (a < length matrix)%nat /\ ((a < i)%nat \/ (a = i /\ (b < j)%nat)).

Definition factor_so_far (matrix : list (list R)) (i j : nat)
  (L : list (list num)) : Prop :=
  square matrix L
  /\ forall a b, assigned_before matrix i j a b -> cell_equation matrix L a b.

Definition overflowed (x : num) : Prop := x = PInf \/ x = NaN.

Definition non_psd : list (list R) := [[1; 2]; [2; 1]].

Definition three_tech : list Portfolio.Asset :=
  [ {| Portfolio.ticker := "AAPL"; Portfolio.name := "Apple Inc.";
       Portfolio.weight := 0.4; Portfolio.currentPrice := 175.25;
       Portfolio.expectedReturn := 0.12; Portfolio.volatility := 0.25 |};
    {| Portfolio.ticker := "MSFT"; Portfolio.name := "Microsoft Corporation";
       Portfolio.weight := 0.3; Portfolio.currentPrice := 378.50;
       Portfolio.expectedReturn := 0.11; Portfolio.volatility := 0.28 |};
    {| Portfolio.ticker := "GOOGL"; Portfolio.name := "Alphabet Inc.";
       Portfolio.weight := 0.3; Portfolio.currentPrice := 142.30;
       Portfolio.expectedReturn := 0.13; Portfolio.volatility := 0.30 |} ].

(** [normCDF] on a finite argument, as a real function. *)
Definition normCDF_poly (t : R) : R :=
  ((((OC.a5 * t + OC.a4) * t + OC.a3) * t + OC.a2) * t + OC.a1) * t.

Definition normCDF_tail (x : R) : R :=
  let x' := Rabs x / sqrt 2 in
  let t := 1 / (1 + OC.p * x') in
  1 - normCDF_poly t * exp (- x' * x').

Definition normCDF_real (x : R) : R :=
  0.5 * (1 + (if Rlt_dec x 0 then -1 else 1) * normCDF_tail x).

Definition forward_spot (params : OC.OptionParameters) : R :=
  OC.spot params * exp (- OC.dividend params * OC.timeToExpiry params).

Definition discounted_strike (params : OC.OptionParameters) : R :=
  OC.strike params * exp (- OC.riskFreeRate params * OC.timeToExpiry params).

(** [d1] and [d2] as real numbers. *)
Definition d1_real (params : OC.OptionParameters) : R :=
  (ln (OC.spot params / OC.strike params)
   + (OC.riskFreeRate params + - OC.dividend params
      + 0.5 * OC.volatility params * OC.volatility params)
     * OC.timeToExpiry params)
  / (OC.volatility params * sqrt (OC.timeToExpiry params)).

Definition d2_real (params : OC.OptionParameters) : R :=
  d1_real params + - (OC.volatility params * sqrt (OC.timeToExpiry params)).

(** The parameters the claim calls valid. *)
Definition valid_option (params : OC.OptionParameters) : Prop :=
  0 < OC.spot params /\ 0 < OC.strike params /\ 0 < OC.timeToExpiry params
  /\ 0 <= OC.volatility params /\ 0 <= OC.dividend params.

(** The prices before clamping, for a positive volatility. *)
Definition call_unclamped (params : OC.OptionParameters) : R :=
  forward_spot params * normCDF_real (d1_real params)
  - discounted_strike params * normCDF_real (d2_real params).

Definition put_unclamped (params : OC.OptionParameters) : R :=
  discounted_strike params * normCDF_real (- d2_real params)
  - forward_spot params * normCDF_real (- d1_real params).

(** The difference [call - put] minus [spot * exp(-q T) - strike *
    exp(-r T)], and what "within a tolerance" means for a number. *)
Definition parity_gap (params : OC.OptionParameters) : num :=
  nsub (nsub (OC.call (OC.blackScholes params)) (OC.put (OC.blackScholes params)))
       (Fin (forward_spot params - discounted_strike params)).

Definition within (tolerance : R) (x : num) : Prop :=
  match x with
  | Fin r => Rabs r <= tolerance
  | _ => False
  end.

(** An at-the-money option with 40% volatility and a year to run. *)
Definition at_the_money : OC.OptionParameters :=
  {| OC.spot := 100; OC.strike := 100; OC.timeToExpiry := 1;
     OC.riskFreeRate := 0; OC.volatility := 0.4; OC.dividendYield := None |}.

(** Zero volatility, at the money, no rates: [d1 = 0 / 0]. *)
Definition zero_volatility_option : OC.OptionParameters :=
  {| OC.spot := 100; OC.strike := 100; OC.timeToExpiry := 1;
     OC.riskFreeRate := 0; OC.volatility := 0; OC.dividendYield := None |}.

(** A strike equal to the spot and a dividend yield that cancels the
    volatility term: [d1 = 0] and [d2 = -0.5]. *)
Definition high_dividend_option : OC.OptionParameters :=
  {| OC.spot := 10000; OC.strike := 10000; OC.timeToExpiry := 1;
     OC.riskFreeRate := 0; OC.volatility := 0.5;
     OC.dividendYield := Some 0.125 |}.


(* ===================================================================== *)
(** * The rest of the library

    Risk measures and position sizing ([RiskManager], [PositionSizer],
    [PortfolioOptimizer]), implied volatility and option strategies, the
    efficient frontier, the technical indicators and the backtesting
    engine. *)
(* ===================================================================== *)

(* ===================================================================== *)
(** ** RiskManager: value at risk, drawdown and benchmark measures *)
(* ===================================================================== *)

Module RiskMeasures.

(** [a[i] || 0] on an array of finite numbers: [undefined] and [0] are the
    falsy values, and both give [0]. *)
Definition or_zero (v : option R) : R :=
  match v with
  | Some r => r
  | None => 0
  end.

Definition calculateVaR (returns : list R) (confidence : float) : R :=
  let sortedReturns := js_sort cmp_sub returns in
  let index := rank (length returns) confidence in
  Rabs (or_zero (js_at sortedReturns index)).

Definition calculateCVaR (returns : list R) (confidence : float) : R :=
  let var95 := calculateVaR returns confidence in
  let worstReturns :=
    filter (fun r => if Rle_dec r (- var95) then true else false) returns in
  if (0 <? length worstReturns)%nat
  then Rabs (sumR worstReturns / js_length worstReturns)
  else 0.

(** The body of [for (const ret of returns)] in [calculateMaxDrawdown];
    the state is [(peak, maxDD, cumulative)]. *)
Definition drawdown_step (s : R * num * R) (ret : R) : R * num * R :=
  let '(peak, maxDD, cumulative) := s in
  let cumulative := cumulative * (1 + ret) in
  let peak := if Rlt_dec peak cumulative then cumulative else peak in
  let drawdown := ndiv (Fin (peak - cumulative)) (Fin peak) in
  let maxDD := if ngtb drawdown maxDD then drawdown else maxDD in
  (peak, maxDD, cumulative).

Definition calculateMaxDrawdown (returns : list R) : num :=
  let '(_, maxDD, _) := fold_left drawdown_step returns (0, Fin 0, 1) in
  maxDD.

Definition calculateCalmar (returns : list R) (periods : R) : num :=
  let annualizedReturn := nmul (RiskManager.mean_of returns) (Fin periods) in
  let maxDrawdown := calculateMaxDrawdown returns in
  if ngtb maxDrawdown (Fin 0) then ndiv annualizedReturn maxDrawdown
  else Fin 0.

(** [a[i]] used as a number. *)
Definition at_index (a : list R) (i : nat) : num :=
  to_number (option_map Fin (nth_error a i)).

(** The body of the index loop of [calculateBeta]; the state is
    [(covariance, benchmarkVariance)]. *)
Definition beta_step (assetReturns benchmarkReturns : list R)
  (assetMean benchmarkMean : num) (s : num * num) (i : nat) : num * num :=
  let '(covariance, benchmarkVariance) := s in
  (nadd covariance
        (nmul (nsub (at_index assetReturns i) assetMean)
              (nsub (at_index benchmarkReturns i) benchmarkMean)),
   nadd benchmarkVariance
        (npow (nsub (at_index benchmarkReturns i) benchmarkMean) 2)).

Definition calculateBeta (assetReturns benchmarkReturns : list R) : num :=
  if negb (length assetReturns =? length benchmarkReturns)%nat then Fin 0
  else
    let assetMean := RiskManager.mean_of assetReturns in
    let benchmarkMean := RiskManager.mean_of benchmarkReturns in
    let '(covariance, benchmarkVariance) :=
      fold_left (beta_step assetReturns benchmarkReturns assetMean benchmarkMean)
                (seq 0 (length assetReturns)) (Fin 0, Fin 0) in
    if ngtb benchmarkVariance (Fin 0) then ndiv covariance benchmarkVariance
    else Fin 0.

Definition calculateAlpha (assetReturns benchmarkReturns : list R)
  (riskFreeRate : R) : num :=
  let assetReturn := nmul (RiskManager.mean_of assetReturns) (Fin 252) in
  let benchmarkReturn := nmul (RiskManager.mean_of benchmarkReturns) (Fin 252) in
  let beta := calculateBeta assetReturns benchmarkReturns in
  nsub assetReturn
       (nadd (Fin riskFreeRate)
             (nmul beta (nsub benchmarkReturn (Fin riskFreeRate)))).

(** [assetReturns.map((ret, i) => ret - benchmarkReturns[i])], which both
    callers reach only after checking that the two arrays have the same
    length: every [benchmarkReturns[i]] read exists. *)
Definition excess (assetReturns benchmarkReturns : list R) : list R :=
  map (fun '(ret, b) => ret - b) (combine assetReturns benchmarkReturns).

Definition calculateInformationRatio (assetReturns benchmarkReturns : list R)
  : num :=
  if negb (length assetReturns =? length benchmarkReturns)%nat then Fin 0
  else
    let excessReturns := excess assetReturns benchmarkReturns in
    let meanExcess := nmul (RiskManager.mean_of excessReturns) (Fin 252) in
    let trackingError :=
      RiskManager.calculateVolatility excessReturns
                                      RiskManager.default_periods in
    if ngtb trackingError (Fin 0) then ndiv meanExcess trackingError
    else Fin 0.

Definition calculateTrackingError (assetReturns benchmarkReturns : list R)
  : num :=
  if negb (length assetReturns =? length benchmarkReturns)%nat then Fin 0
  else
    RiskManager.calculateVolatility (excess assetReturns benchmarkReturns)
                                    RiskManager.default_periods.

Record RiskMetrics : Type := {
  var : R;
  cvar : R;
  maxDrawdown : num;
  volatility : num;
  sharpeRatio : num;
  sortino : num;
  calmar : num;
  beta : num;
  alpha : num;
  informationRatio : num;
  trackingError : num
}.

(** [calculateRiskMetrics(assetReturns, benchmarkReturns?)]: every measure
    is called with its default arguments. *)
Definition calculateRiskMetrics (assetReturns : list R)
  (benchmarkReturns : option (list R)) : RiskMetrics :=
  let var95 := calculateVaR assetReturns default_confidence in
  let cvar := calculateCVaR assetReturns default_confidence in
  let maxDrawdown := calculateMaxDrawdown assetReturns in
  let volatility :=
    RiskManager.calculateVolatility assetReturns RiskManager.default_periods in
  let sharpeRatio :=
    RiskManager.calculateSharpeRatio assetReturns
      RiskManager.default_riskFreeRate RiskManager.default_periods in
  let sortino :=
    RiskManager.calculateSortino assetReturns
      RiskManager.default_targetReturn RiskManager.default_periods in
  let calmar := calculateCalmar assetReturns RiskManager.default_periods in
  let '(beta, alpha, informationRatio, trackingError) :=
    match benchmarkReturns with
    | Some benchmarkReturns =>
        if (length benchmarkReturns =? length assetReturns)%nat
        then (calculateBeta assetReturns benchmarkReturns,
              calculateAlpha assetReturns benchmarkReturns
                             RiskManager.default_riskFreeRate,
              calculateInformationRatio assetReturns benchmarkReturns,
              calculateTrackingError assetReturns benchmarkReturns)
        else (Fin 0, Fin 0, Fin 0, Fin 0)
    | None => (Fin 0, Fin 0, Fin 0, Fin 0)
    end in
  {| var := var95; cvar := cvar; maxDrawdown := maxDrawdown;
     volatility := volatility; sharpeRatio := sharpeRatio;
     sortino := sortino; calmar := calmar; beta := beta; alpha := alpha;
     informationRatio := informationRatio; trackingError := trackingError |}.

End RiskMeasures.

(** A series that takes at least two different values. *)
Definition not_constant (a : list R) : Prop :=
  exists x y, In x a /\ In y a /\ x <> y.

(** A return series that is an exact linear function of a benchmark. *)
Definition linear_in (intercept slope : R) (benchmarkReturns : list R)
  : list R :=
  map (fun b => intercept + slope * b) benchmarkReturns.

(** Every number of a [RiskMetrics] record is finite. *)
Definition all_finite (m : RiskMeasures.RiskMetrics) : Prop :=
  is_finite (RiskMeasures.maxDrawdown m) = true
  /\ is_finite (RiskMeasures.volatility m) = true
  /\ is_finite (RiskMeasures.sharpeRatio m) = true
  /\ is_finite (RiskMeasures.sortino m) = true
  /\ is_finite (RiskMeasures.calmar m) = true
  /\ is_finite (RiskMeasures.beta m) = true
  /\ is_finite (RiskMeasures.alpha m) = true
  /\ is_finite (RiskMeasures.informationRatio m) = true
  /\ is_finite (RiskMeasures.trackingError m) = true.

(* ===================================================================== *)
(** ** PositionSizer and PortfolioOptimizer *)
(* ===================================================================== *)

Module PositionSizer.

Definition kellyCalculation (winRate avgWin avgLoss : R) : num :=
  if Rle_dec avgLoss 0 then Fin 0
  else
    let winLossRatio := ndiv (Fin avgWin) (nabs (Fin avgLoss)) in
    nmax (Fin 0)
         (nmin (Fin 1)
               (ndiv (nsub (nmul (Fin winRate) winLossRatio)
                           (Fin (1 - winRate)))
                     winLossRatio)).

End PositionSizer.

Module PortfolioOptimizer.

Record PortfolioOptimization : Type := {
  weights : list num;
  expectedReturn : num;
  volatility : num;
  sharpeRatio : num;
  diversificationRatio : num
}.

(** [new Array(n).fill(1 / n)] *)
Definition equal_weights (n : nat) : list num :=
  repeat (ndiv (Fin 1) (Fin (INR n))) n.

(** [a.reduce((sum, w, i) => sum + w * f(i), 0)] *)
Definition weighted_sum (a : list num) (f : nat -> num) : num :=
  fold_left (fun sum wi => nadd sum (nmul (snd wi) (f (fst wi))))
            (combine (seq 0 (length a)) a) (Fin 0).

(** [weights[i]] *)
Definition weight_at (weights : list num) (i : nat) : num :=
  to_number (nth_error weights i).

Definition meanVarianceOptimization (expectedReturns : list R)
  (covarianceMatrix : list (list R)) (riskFreeRate : R)
  : PortfolioOptimization :=
  let n := length expectedReturns in
  if ((n =? 0)%nat || negb (length covarianceMatrix =? n)%nat)%bool then
    {| weights := []; expectedReturn := Fin 0; volatility := Fin 0;
       sharpeRatio := Fin 0; diversificationRatio := Fin 0 |}
  else
    let weights := equal_weights n in
    let expectedReturn :=
      weighted_sum weights (RiskMeasures.at_index expectedReturns) in
    let variance :=
      fold_left
        (fun variance i =>
           fold_left
             (fun variance j =>
                nadd variance
                     (nmul (nmul (weight_at weights i) (weight_at weights j))
                           (Portfolio.cellR covarianceMatrix i j)))
             (seq 0 n) variance)
        (seq 0 n) (Fin 0) in
    let volatility := nsqrt variance in
    let sharpeRatio :=
      if ngtb volatility (Fin 0)
      then ndiv (nsub expectedReturn (Fin riskFreeRate)) volatility
      else Fin 0 in
    let weightedAvgVol :=
      weighted_sum weights
                   (fun i => nsqrt (Portfolio.cellR covarianceMatrix i i)) in
    let diversificationRatio :=
      if ngtb weightedAvgVol (Fin 0) then ndiv volatility weightedAvgVol
      else Fin 1 in
    {| weights := weights; expectedReturn := expectedReturn;
       volatility := volatility; sharpeRatio := sharpeRatio;
       diversificationRatio := diversificationRatio |}.

(** [covarianceMatrix.map((row, i) => f(row[i]))] *)
Definition map_diagonal (f : num -> num) (covarianceMatrix : list (list R))
  : list num :=
  map (fun ir =>
         f (to_number (option_map Fin (nth_error (snd ir) (fst ir)))))
      (combine (seq 0 (length covarianceMatrix)) covarianceMatrix).

(** The last line of both heuristics: normalise the inverse measures, or
    fall back to equal weights. *)
Definition normalised (n : nat) (inverses : list num) : list num :=
  let total := sumN inverses in
  if ngtb total (Fin 0) then map (fun inv => ndiv inv total) inverses
  else equal_weights n.

Definition riskParityWeights (covarianceMatrix : list (list R)) : list num :=
  let n := length covarianceMatrix in
  if (n =? 0)%nat then []
  else
    let volatilities := map_diagonal nsqrt covarianceMatrix in
    let invVols :=
      map (fun vol => if ngtb vol (Fin 0) then ndiv (Fin 1) vol else Fin 0)
          volatilities in
    normalised n invVols.

Definition minimumVarianceWeights (covarianceMatrix : list (list R))
  : list num :=
  let n := length covarianceMatrix in
  if (n =? 0)%nat then []
  else
    let invCovDiag :=
      map_diagonal
        (fun v => if ngtb v (Fin 0) then ndiv (Fin 1) v else Fin 0)
        covarianceMatrix in
    normalised n invCovDiag.

End PortfolioOptimizer.

(** A list of weights: finite, none negative, adding up to 1. *)
Definition fully_invested (n : nat) (weights : list num) : Prop :=
  exists ws : list R,
    weights = map Fin ws
    /\ length ws = n
    /\ Forall (fun w => 0 <= w) ws
    /\ sumR ws = 1.

(* ===================================================================== *)
(** ** OptionsCalculator.impliedVolatility and OptionsStrategyBuilder *)
(* ===================================================================== *)

Module ImpliedVolatility.

Definition tolerance : R := 0.0001.
Definition maxIterations : nat := 100.

(** [{ ...params, volatility: vol }] *)
Definition with_volatility (params : OC.OptionParameters) (vol : R)
  : OC.OptionParameters :=
  {| OC.spot := OC.spot params;
     OC.strike := OC.strike params;
     OC.timeToExpiry := OC.timeToExpiry params;
     OC.riskFreeRate := OC.riskFreeRate params;
     OC.volatility := vol;
     OC.dividendYield := OC.dividendYield params |}.

(** What one pass through the loop body does: leave the loop with the
    value to return ([return vol], or [break] followed by [return vol]),
    or go on with the updated [vol]. *)
Inductive outcome : Type :=
| Leave (vol : num)
| Continue (vol : num).

Definition iteration (marketPrice : R) (params : OC.OptionParameters)
  (optionType : OC.OptionType) (vol : R) : outcome :=
  let fullParams := with_volatility params vol in
  let price := OC.blackScholes fullParams in
  let currentPrice :=
    match optionType with
    | OC.Call => OC.call price
    | OC.Put => OC.put price
    end in
  let priceDiff := nsub currentPrice (Fin marketPrice) in
  if nltb (nabs priceDiff) (Fin tolerance) then Leave (Fin vol)
  else
    let greeks := OC.calculateGreeks fullParams optionType in
    let vega := nmul (OC.vega greeks) (Fin 100) in
    if neqb vega (Fin 0) then Leave (Fin vol)
    else
      let vol := nsub (Fin vol) (ndiv priceDiff vega) in
      Continue (nmax (Fin 0.001) (nmin vol (Fin 5.0))).

(** The [for] loop.  The clamp keeps [vol] finite unless it is [NaN]; with
    [vol = NaN] every price and Greek computed from it is [NaN], neither
    test of the body holds and the update is [NaN] again, so the loop runs
    out and [NaN] is returned. *)
Fixpoint iterate (iterations : nat) (marketPrice : R)
  (params : OC.OptionParameters) (optionType : OC.OptionType) (vol : num)
  : num :=
  match iterations with
  | O => vol
  | S iterations' =>
      match vol with
      | Fin v =>
          match iteration marketPrice params optionType v with
          | Leave result => result
          | Continue vol' =>
              iterate iterations' marketPrice params optionType vol'
          end
      | _ => vol
      end
  end.

(** [impliedVolatility(marketPrice, params, optionType)]; the
    [volatility] of [params], if any, is replaced by the loop's. *)
Definition impliedVolatility (marketPrice : R) (params : OC.OptionParameters)
  (optionType : OC.OptionType) : num :=
  iterate maxIterations marketPrice params optionType (Fin 0.2).

End ImpliedVolatility.

Module OptionsStrategyBuilder.

Inductive Action : Type := buy | sell.

Record OptionLeg : Type := {
  type : OC.OptionType;
  action : Action;
  strike : R;
  quantity : R;
  premium : R
}.

Inductive StrategyType : Type := bullish | bearish | neutral | volatile.

(** [OptionStrategy]; its own [type] field is [strategy_type] here. *)
Record OptionStrategy : Type := {
  id : string;
  name : string;
  description : string;
  legs : list OptionLeg;
  maxProfit : option R;
  maxLoss : option R;
  breakevens : list R;
  strategy_type : StrategyType
}.

(** The body of [strategy.legs.forEach] in [calculatePayoff]. *)
Definition add_leg_payoff (spot : R) (totalPayoff : R) (leg : OptionLeg) : R :=
  let legPayoff :=
    match type leg with
    | OC.Call =>
        let intrinsic := Rmax (spot - strike leg) 0 in
        match action leg with
        | buy => intrinsic - premium leg
        | sell => premium leg - intrinsic
        end
    | OC.Put =>
        let intrinsic := Rmax (strike leg - spot) 0 in
        match action leg with
        | buy => intrinsic - premium leg
        | sell => premium leg - intrinsic
        end
    end in
  totalPayoff + legPayoff * quantity leg.

(** The result is the list of [{ spot, payoff }] pairs. *)
Definition calculatePayoff (strategy : OptionStrategy) (spotPrices : list R)
  : list (R * R) :=
  map (fun spot => (spot, fold_left (add_leg_payoff spot) (legs strategy) 0))
      spotPrices.

(** [{ ...params, strike: leg.strike }] *)
Definition with_strike (params : OC.OptionParameters) (strike : R)
  : OC.OptionParameters :=
  {| OC.spot := OC.spot params;
     OC.strike := strike;
     OC.timeToExpiry := OC.timeToExpiry params;
     OC.riskFreeRate := OC.riskFreeRate params;
     OC.volatility := OC.volatility params;
     OC.dividendYield := OC.dividendYield params |}.

(** The body of [strategy.legs.forEach] in [calculateStrategyGreeks]; the
    five running totals are kept in a [GreeksResult]. *)
Definition add_leg_greeks (params : OC.OptionParameters)
  (totals : OC.GreeksResult) (leg : OptionLeg) : OC.GreeksResult :=
  let legParams := with_strike params (strike leg) in
  let greeks := OC.calculateGreeks legParams (type leg) in
  let multiplier :=
    match action leg with
    | buy => Fin 1
    | sell => Fin (-1)
    end in
  let quantity := Fin (quantity leg) in
  {| OC.delta :=
       nadd (OC.delta totals) (nmul (nmul (OC.delta greeks) multiplier) quantity);
     OC.gamma :=
       nadd (OC.gamma totals) (nmul (nmul (OC.gamma greeks) multiplier) quantity);
     OC.theta :=
       nadd (OC.theta totals) (nmul (nmul (OC.theta greeks) multiplier) quantity);
     OC.vega :=
       nadd (OC.vega totals) (nmul (nmul (OC.vega greeks) multiplier) quantity);
     OC.rho :=
       nadd (OC.rho totals) (nmul (nmul (OC.rho greeks) multiplier) quantity) |}.

Definition calculateStrategyGreeks (strategy : OptionStrategy)
  (params : OC.OptionParameters) : OC.GreeksResult :=
  fold_left (add_leg_greeks params) (legs strategy)
            {| OC.delta := Fin 0; OC.gamma := Fin 0; OC.theta := Fin 0;
               OC.vega := Fin 0; OC.rho := Fin 0 |}.

End OptionsStrategyBuilder.

Module OSB := OptionsStrategyBuilder.

(** A strategy made of the given legs; the descriptive fields play no
    part in the computations. *)
Definition strategy_of (legs : list OSB.OptionLeg) : OSB.OptionStrategy :=
  {| OSB.id := "custom"; OSB.name := "Custom"; OSB.description := "Custom legs";
     OSB.legs := legs; OSB.maxProfit := None; OSB.maxLoss := None;
     OSB.breakevens := []; OSB.strategy_type := OSB.neutral |}.

(** The same leg, taken on the other side. *)
Definition opposite (leg : OSB.OptionLeg) : OSB.OptionLeg :=
  {| OSB.type := OSB.type leg;
     OSB.action := match OSB.action leg with
                   | OSB.buy => OSB.sell
                   | OSB.sell => OSB.buy
                   end;
     OSB.strike := OSB.strike leg;
     OSB.quantity := OSB.quantity leg;
     OSB.premium := OSB.premium leg |}.

Definition long_call (strike premium : R) : OSB.OptionLeg :=
  {| OSB.type := OC.Call; OSB.action := OSB.buy; OSB.strike := strike;
     OSB.quantity := 1; OSB.premium := premium |}.

Definition short_put (strike premium : R) : OSB.OptionLeg :=
  {| OSB.type := OC.Put; OSB.action := OSB.sell; OSB.strike := strike;
     OSB.quantity := 1; OSB.premium := premium |}.

(** The payoff that [calculatePayoff] reports at one spot price. *)
Definition payoff_at (legs : list OSB.OptionLeg) (spot : R) : R :=
  fold_left (OSB.add_leg_payoff spot) legs 0.

Definition zero_greeks : OC.GreeksResult :=
  {| OC.delta := Fin 0; OC.gamma := Fin 0; OC.theta := Fin 0;
     OC.vega := Fin 0; OC.rho := Fin 0 |}.

(** An option a year from expiry, and the same option at expiry. *)
Definition one_year_option : OC.OptionParameters :=
  {| OC.spot := 100; OC.strike := 105; OC.timeToExpiry := 1;
     OC.riskFreeRate := 0.05; OC.volatility := 0.2;
     OC.dividendYield := None |}.

Definition expired_option : OC.OptionParameters :=
  {| OC.spot := 100; OC.strike := 105; OC.timeToExpiry := 0;
     OC.riskFreeRate := 0.05; OC.volatility := 0.2;
     OC.dividendYield := None |}.

(* ===================================================================== *)
(** ** The efficient frontier of the portfolio module *)
(* ===================================================================== *)

Module Frontier.

Record EfficientFrontierPoint : Type := {
  expectedReturn : num;
  volatility : num;
  sharpeRatio : num;
  weights : list num
}.

(** [optimizePortfolio]: [Array(n).fill(1 / n)], whatever the target. *)
Definition optimizePortfolio (assets : list Portfolio.Asset)
  (correlations : list (list R)) (targetReturn : num) : list num :=
  let n := length assets in
  repeat (ndiv (Fin 1) (Fin (INR n))) n.

(** [assets[i].volatility!]; the only caller passes one weight per
    asset, so [assets[i]] exists for every index visited. *)
Definition volatility_at (assets : list Portfolio.Asset) (i : nat) : num :=
  to_number (option_map (fun a => Fin (Portfolio.volatility a))
                        (nth_error assets i)).

Definition calculatePortfolioVolatility (weights : list num)
  (assets : list Portfolio.Asset) (correlations : list (list R)) : num :=
  let n := length weights in
  let variance :=
    fold_left
      (fun variance i =>
         fold_left
           (fun variance j =>
              nadd variance
                   (nmul (nmul (nmul (nmul (to_number (nth_error weights i))
                                           (to_number (nth_error weights j)))
                                     (volatility_at assets i))
                               (volatility_at assets j))
                         (Portfolio.cellR correlations i j)))
           (seq 0 n) variance)
      (seq 0 n) (Fin 0) in
  nsqrt variance.

(** The point pushed by iteration [i] of the loop. *)
Definition frontier_point (assetData : list Portfolio.Asset)
  (correlations : list (list R)) (numPoints : Z) (i : nat)
  : EfficientFrontierPoint :=
  let targetReturn :=
    nadd (Fin 0.05)
         (nmul (ndiv (Fin (INR i)) (Fin (IZR numPoints))) (Fin 0.25)) in
  let weights := optimizePortfolio assetData correlations targetReturn in
  let portfolioReturn :=
    fold_left
      (fun sum iw =>
         nadd sum
              (nmul (snd iw)
                    (to_number
                       (option_map (fun a => Fin (Portfolio.expectedReturn a))
                                   (nth_error assetData (fst iw))))))
      (combine (seq 0 (length weights)) weights) (Fin 0) in
  let portfolioVolatility :=
    calculatePortfolioVolatility weights assetData correlations in
  {| expectedReturn := portfolioReturn;
     volatility := portfolioVolatility;
     sharpeRatio := ndiv portfolioReturn portfolioVolatility;
     weights := weights |}.

(** [calculateEfficientFrontier] from the point where the market data of
    every asset has been fetched; [for (let i = 0; i <= numPoints; i++)]
    visits [0 .. numPoints]. *)
Definition calculateEfficientFrontier (assetData : list Portfolio.Asset)
  (numPoints : Z) : list EfficientFrontierPoint :=
  let correlations := Portfolio.calculateCorrelationMatrix assetData in
  let points :=
    map (frontier_point assetData correlations numPoints)
        (seq 0 (Z.to_nat (numPoints + 1))) in
  js_sort (fun a b => nsub (volatility a) (volatility b)) points.

End Frontier.

(** The product of the factor with its transpose, at cell [(a, b)] with
    [b <= a]: the sum runs over the columns [0 .. b], the later cells of
    row [b] of the factor being zero. *)
Definition factor_product (L : list (list num)) (a b : nat) : num :=
  fold_left (fun sum k => nadd sum (nmul (Portfolio.cell L a k) (Portfolio.cell L b k)))
            (seq 0 (S b)) (Fin 0).

(** The correlation matrix of a technology stock and a bank. *)
Definition tech_and_bank : list (list R) := [[1.0; 0.3]; [0.3; 1.0]].

(** Paths of finite, positive values. *)
Definition positive_paths (paths : list (list num)) : Prop :=
  Forall (Forall (fun v => exists r, v = Fin r /\ 0 < r)) paths.

(** What a run of [runMonteCarloSimulation] returns, in exact arithmetic,
    when the start price is positive: one path per simulation, each of
    [timeHorizon + 1] positive prices starting at the current price, and
    as many positive final prices. *)
Definition positive_price_paths (params : SimulationParams)
  (c : completion SimulationResults) : Prop :=
  exists r,
    c = Returns r
    /\ length (paths r) = Z.to_nat (numSimulations params)
    /\ Forall (fun path =>
                 length path = S (Z.to_nat (timeHorizon params))
                 /\ hd 0 path = currentPrice params
                 /\ Forall (fun price => 0 < price) path)
              (paths r)
    /\ length (finalPrices r) = Z.to_nat (numSimulations params)
    /\ Forall (fun price => 0 < price) (finalPrices r).

(** The two percentile indices of an array of [n] prices fall inside the
    array, the 5% one not after the 95% one. *)
Definition ranks_in_order (n : nat) : bool :=
  match rank n 0.05, rank n 0.95 with
  | Whole k5, Whole k95 =>
      ((0 <=? k5)%Z && (k5 <=? k95)%Z && (k95 <? Z.of_nat n)%Z)%bool
  | _, _ => false
  end.

(** The largest number of simulations that the simulator's form accepts. *)
Definition most_simulations : nat := Z.to_nat 10000.

(** The same test with the length given in binary, and on the lengths
    [n], [n + 1], ..., [count] of them. *)
Definition ranks_in_order_at (n : Z) : bool :=
  let length := PrimFloat.of_uint63 (Uint63.of_Z n) in
  match Math_floor (length * 0.05)%float, Math_floor (length * 0.95)%float with
  | Whole k5, Whole k95 =>
      ((0 <=? k5)%Z && (k5 <=? k95)%Z && (k95 <? n)%Z)%bool
  | _, _ => false
  end.

Fixpoint ranks_in_order_from (count : nat) (n : Z) : bool :=
  match count with
  | O => true
  | S count' =>
      (ranks_in_order_at n && ranks_in_order_from count' (n + 1))%bool
  end.

(** Statistics that agree with one another. *)
Definition consistent_statistics (s : Statistics) : Prop :=
  exists lo p5 p95 hi avg gain,
    minPrice s = Fin lo
    /\ percentile5 s = Some p5
    /\ percentile95 s = Some p95
    /\ maxPrice s = Fin hi
    /\ averageEndingPrice s = Fin avg
    /\ probabilityOfGain s = Fin gain
    /\ lo <= p5 /\ p5 <= p95 /\ p95 <= hi
    /\ lo <= avg <= hi
    /\ 0 <= gain <= 1.

(* ===================================================================== *)
(** ** TechnicalAnalysis: moving averages, bands and oscillators *)
(* ===================================================================== *)

(** [a.slice(start, end)]: a negative bound counts from the end, and both
    bounds are clipped to the array. *)
Definition js_slice {A : Type} (a : list A) (s e : Z) : list A :=
  let len := Z.of_nat (length a) in
  let from := if (s <? 0)%Z then Z.max (len + s) 0 else Z.min s len in
  let to := if (e <? 0)%Z then Z.max (len + e) 0 else Z.min e len in
  firstn (Z.to_nat (to - from)) (skipn (Z.to_nat from) a).

(** The values [from, from + 1, ..., to - 1] of a loop variable. *)
Definition indices (from to : Z) : list Z :=
  map (fun k => (from + Z.of_nat k)%Z) (seq 0 (Z.to_nat (to - from))).

(** A [for] loop whose body may throw: the first exception ends the loop
    and the call. *)
Fixpoint for_indices {S : Type} (idx : list Z) (body : Z -> S -> completion S)
  (s : S) : completion S :=
  match idx with
  | [] => Returns s
  | i :: idx' =>
      match body i s with
      | Returns s' => for_indices idx' body s'
      | Throws message => Throws message
      end
  end.

(** Reading a property of [undefined]. *)
Definition type_error : string :=
  "TypeError: Cannot read properties of undefined".

Module TechnicalAnalysis.

Record CandlestickData : Type := {
  time : string;
  open : R;
  high : R;
  low : R;
  close : R;
  volume : R
}.

(** [{ time: string; value: number }]; the [time] field is [stamp] here,
    the candles having a [time] already. *)
Record IndicatorPoint : Type := {
  stamp : string;
  value : num
}.

(** The periods are integers. *)
Definition sma (data : list CandlestickData) (period : Z)
  : completion (list IndicatorPoint) :=
  for_indices (indices (period - 1) (Z.of_nat (length data)))
    (fun i result =>
       let slice := js_slice data (i - period + 1) (i + 1) in
       let sum := fold_left (fun acc candle => acc + close candle) slice 0 in
       let average := ndiv (Fin sum) (Fin (IZR period)) in
       match js_index data i with
       | Some candle =>
           Returns (result ++ [{| stamp := time candle; value := average |}])
       | None => Throws type_error
       end)
    [].

Definition ema (data : list CandlestickData) (period : Z)
  : completion (list IndicatorPoint) :=
  let result : list IndicatorPoint := [] in
  let multiplier := ndiv (Fin 2) (Fin (IZR period + 1)) in
  if (length data =? 0)%nat then Returns result
  else
    let ema :=
      ndiv (Fin (fold_left (fun acc candle => acc + close candle)
                           (js_slice data 0 period) 0))
           (Fin (IZR period)) in
    match js_index data (period - 1) with
    | None => Throws type_error
    | Some first =>
        let result := result ++ [{| stamp := time first; value := ema |}] in
        match
          for_indices (indices period (Z.of_nat (length data)))
            (fun i '(ema, result) =>
               match js_index data i with
               | Some candle =>
                   let ema :=
                     nadd (nmul (nsub (Fin (close candle)) ema) multiplier)
                          ema in
                   Returns (ema,
                            result ++ [{| stamp := time candle; value := ema |}])
               | None => Throws type_error
               end)
            (ema, result)
        with
        | Returns (_, result) => Returns result
        | Throws message => Throws message
        end
    end.

Record Bands : Type := {
  upper : list IndicatorPoint;
  middle : list IndicatorPoint;
  lower : list IndicatorPoint
}.

Definition bollingerBands (data : list CandlestickData) (period : Z)
  (stdDev : R) : completion Bands :=
  match sma data period with
  | Throws message => Throws message
  | Returns sma =>
      match
        for_indices (indices 0 (Z.of_nat (length sma)))
          (fun i '(upper, lower) =>
             let dataIndex := (i + period - 1)%Z in
             let slice :=
               js_slice data (dataIndex - period + 1) (dataIndex + 1) in
             match js_index sma i with
             | None => Throws type_error
             | Some point =>
                 let mean := value point in
                 let variance :=
                   ndiv (fold_left
                           (fun acc candle =>
                              nadd acc (npow (nsub (Fin (close candle)) mean) 2))
                           slice (Fin 0))
                        (Fin (IZR period)) in
                 let standardDeviation := nsqrt variance in
                 Returns
                   (upper ++ [{| stamp := stamp point;
                                 value := nadd mean
                                            (nmul (Fin stdDev)
                                                  standardDeviation) |}],
                    lower ++ [{| stamp := stamp point;
                                 value := nsub mean
                                            (nmul (Fin stdDev)
                                                  standardDeviation) |}])
             end)
          ([], [])
      with
      | Returns (upper, lower) =>
          Returns {| upper := upper; middle := sma; lower := lower |}
      | Throws message => Throws message
      end
  end.

(** [gains[i]] and [losses[i]].  The first loop of [rsi] visits the
    pairs [(data[i - 1], data[i])] for [i = 1 .. length - 1], which are the
    pairs of [combine data (tl data)]. *)
Definition change_at (a : list R) (i : Z) : num :=
  to_number (option_map Fin (js_index a i)).

Definition rsi (data : list CandlestickData) (period : Z)
  : completion (list IndicatorPoint) :=
  let changes :=
    map (fun pair => close (snd pair) - close (fst pair))
        (combine data (tl data)) in
  let gains := map (fun change => if Rlt_dec 0 change then change else 0)
                   changes in
  let losses := map (fun change => if Rlt_dec change 0 then Rabs change else 0)
                    changes in
  let avgGain :=
    ndiv (Fin (sumR (js_slice gains 0 period))) (Fin (IZR period)) in
  let avgLoss :=
    ndiv (Fin (sumR (js_slice losses 0 period))) (Fin (IZR period)) in
  match
    for_indices (indices period (Z.of_nat (length data)))
      (fun i '(avgGain, avgLoss, result) =>
         let avgGain :=
           ndiv (nadd (nmul avgGain (Fin (IZR period - 1)))
                      (change_at gains (i - 1)))
                (Fin (IZR period)) in
         let avgLoss :=
           ndiv (nadd (nmul avgLoss (Fin (IZR period - 1)))
                      (change_at losses (i - 1)))
                (Fin (IZR period)) in
         let rs := ndiv avgGain avgLoss in
         let rsi := nsub (Fin 100) (ndiv (Fin 100) (nadd (Fin 1) rs)) in
         match js_index data i with
         | Some candle =>
             Returns (avgGain, avgLoss,
                      result ++ [{| stamp := time candle; value := rsi |}])
         | None => Throws type_error
         end)
      (avgGain, avgLoss, [])
  with
  | Returns (_, _, result) => Returns result
  | Throws message => Throws message
  end.

End TechnicalAnalysis.

Module TA := TechnicalAnalysis.

(** The default of [nth] on candles and points; never read inside the
    bounds the statements give. *)
Definition blank_candle : TA.CandlestickData :=
  {| TA.time := "-"; TA.open := 0; TA.high := 0; TA.low := 0; TA.close := 0;
     TA.volume := 0 |}.

Definition blank_point : TA.IndicatorPoint :=
  {| TA.stamp := "-"; TA.value := NaN |}.

(** The closing prices of the [p] candles from position [k] on. *)
Definition window (data : list TA.CandlestickData) (k p : nat) : list R :=
  map TA.close (firstn p (skipn k data)).

(** Every closing price lies in [lo, hi]. *)
Definition closes_within (lo hi : R) (data : list TA.CandlestickData) : Prop :=
  Forall (fun candle => lo <= TA.close candle <= hi) data.

(** Every value of an indicator is a finite number in [lo, hi]. *)
Definition values_within (lo hi : R) (points : list TA.IndicatorPoint) : Prop :=
  Forall (fun point => exists v, TA.value point = Fin v /\ lo <= v <= hi) points.

Definition three_candles : list TA.CandlestickData :=
  [ {| TA.time := "2024-01-02"; TA.open := 10; TA.high := 12; TA.low := 9;
       TA.close := 11; TA.volume := 1000 |};
    {| TA.time := "2024-01-03"; TA.open := 11; TA.high := 13; TA.low := 10;
       TA.close := 12; TA.volume := 1500 |};
    {| TA.time := "2024-01-04"; TA.open := 12; TA.high := 12; TA.low := 8;
       TA.close := 9; TA.volume := 3000 |} ].

(** What [rsi] may push: a number between 0 and 100, or [NaN] when
    neither gains nor losses were seen. *)
Definition rsi_value (x : num) : Prop :=
  x = NaN \/ exists v, x = Fin v /\ 0 <= v <= 100.

(* ===================================================================== *)
(** ** The backtesting module: strategies, engine and statistics *)
(* ===================================================================== *)

(** [!v] is false for a value [v: number | null | undefined]: the truthy
    values are the numbers other than [0] and [NaN]. *)
Definition truthy (v : option num) : bool :=
  match v with
  | Some (Fin r) => if Req_dec_T r 0 then false else true
  | Some PInf | Some NInf => true
  | Some NaN | None => false
  end.

(** [v || 0] *)
Definition or_0 (v : option num) : num :=
  if truthy v then to_number v else Fin 0.

(** [Math.floor] of a number. *)
Definition nfloor (x : num) : num :=
  match x with
  | Fin r => Fin (IZR (js_floor r))
  | _ => x
  end.

Definition is_integer (y : R) : bool :=
  if Req_dec_T (IZR (Zfloor y)) y then true else false.

Definition is_odd_integer (y : R) : bool :=
  (is_integer y && Z.odd (Zfloor y))%bool.

(** [Math.pow(x, y)] for any two numbers.  A finite result is the exact
    real power; a zero base is taken as [+0]. *)
Definition Math_pow (x y : num) : num :=
  match y with
  | NaN => NaN
  | Fin b =>
      if Req_dec_T b 0 then Fin 1
      else
        match x with
        | NaN => NaN
        | PInf => if Rlt_dec 0 b then PInf else Fin 0
        | NInf =>
            if Rlt_dec 0 b
            then if is_odd_integer b then NInf else PInf
            else Fin 0
        | Fin a =>
            match total_order_T a 0 with
            | inright _ => Fin (Rpower a b)
            | inleft (right _) => if Rlt_dec 0 b then Fin 0 else PInf
            | inleft (left _) =>
                if is_integer b
                then if Z.odd (Zfloor b) then Fin (- Rpower (- a) b)
                     else Fin (Rpower (- a) b)
                else NaN
            end
        end
  | PInf =>
      match x with
      | NaN => NaN
      | Fin a =>
          if Rlt_dec 1 (Rabs a) then PInf
          else if Req_dec_T (Rabs a) 1 then NaN else Fin 0
      | PInf | NInf => PInf
      end
  | NInf =>
      match x with
      | NaN => NaN
      | Fin a =>
          if Rlt_dec 1 (Rabs a) then Fin 0
          else if Req_dec_T (Rabs a) 1 then NaN else PInf
      | PInf | NInf => Fin 0
      end
  end.

Module Backtest.

Module HistoricalPrice.
Record t : Type := {
  date : string;
  open : R;
  high : R;
  low : R;
  close : R;
  volume : R;
  adjustedClose : R
}.
End HistoricalPrice.

Inductive Signal : Type := BUY | SELL | HOLD.

Inductive TradeType : Type := Buy | Sell.

Module Trade.
Record t : Type := {
  id : string;
  type : TradeType;
  symbol : string;
  price : R;
  quantity : num;
  timestamp : string;
  commission : R;
  slippage : num
}.
End Trade.

Module Position.
Record t : Type := {
  symbol : string;
  quantity : num;
  avgPrice : num;
  unrealizedPnL : num;
  realizedPnL : num
}.
End Position.

Record PerformanceMetrics : Type := {
  totalReturn : num;
  annualizedReturn : num;
  sharpeRatio : num;
  sortinoRatio : num;
  maxDrawdown : num;
  volatility : num;
  winRate : num;
  profitFactor : num;
  calmarRatio : num;
  totalTrades : nat;
  avgTrade : num;
  bestTrade : num;
  worstTrade : num;
  avgWinningTrade : num;
  avgLosingTrade : num;
  consecutiveWins : nat;
  consecutiveLosses : nat
}.

(** An entry of [portfolioValues] and an entry of [signals]. *)
Module PortfolioValue.
Record t : Type := {
  date : string;
  value : num;
  drawdown : num
}.
End PortfolioValue.

Module SignalPoint.
Record t : Type := {
  date : string;
  signal : Signal;
  price : R
}.
End SignalPoint.

(** A trade object in the [trades] array: the object's identity and its
    fields.  [Array.prototype.includes] compares identities. *)
Definition TradeObject : Type := (nat * Trade.t)%type.

Record BacktestResult : Type := {
  trades : list TradeObject;
  positions : list Position.t;
  portfolioValues : list PortfolioValue.t;
  performance : PerformanceMetrics;
  signals : list SignalPoint.t
}.

(** [!position || position.quantity === 0] and
    [position && position.quantity > 0] *)
Definition flat (position : option Position.t) : bool :=
  match position with
  | None => true
  | Some p => neqb (Position.quantity p) (Fin 0)
  end.

Definition holding (position : option Position.t) : bool :=
  match position with
  | None => false
  | Some p => ngtb (Position.quantity p) (Fin 0)
  end.

(** *** The indicator helpers of the base class [TradingStrategy];
    [null] is [None]. *)

Definition price_at (prices : list R) (i : Z) : num :=
  to_number (option_map Fin (js_index prices i)).

Definition sma (prices : list R) (period index : Z) : option num :=
  if (index <? period - 1)%Z then None
  else
    let sum := sumR (js_slice prices (index - period + 1) (index + 1)) in
    Some (ndiv (Fin sum) (Fin (IZR period))).

(** The body of the loop of [rsi]; the state is [(gains, losses)]. *)
Definition rsi_step (prices : list R) (s : num * num) (i : Z) : num * num :=
  let change := nsub (price_at prices i) (price_at prices (i - 1)) in
  if ngtb change (Fin 0) then (nadd (fst s) change, snd s)
  else (fst s, nsub (snd s) change).

Definition rsi (prices : list R) (period index : Z) : option num :=
  if (index <? period)%Z then None
  else
    let sums :=
      fold_left (rsi_step prices) (indices (index - period + 1) (index + 1))
                (Fin 0, Fin 0) in
    let avgGain := ndiv (fst sums) (Fin (IZR period)) in
    let avgLoss := ndiv (snd sums) (Fin (IZR period)) in
    if neqb avgLoss (Fin 0) then Some (Fin 100)
    else
      let rs := ndiv avgGain avgLoss in
      Some (nsub (Fin 100) (ndiv (Fin 100) (nadd (Fin 1) rs))).

Record BollingerValues : Type := {
  upper : num;
  middle : num;
  lower : num
}.

Definition bollinger (prices : list R) (period : Z) (stdDev : R) (index : Z)
  : option BollingerValues :=
  let sma := sma prices period index in
  if negb (truthy sma) then None
  else
    let sma := to_number sma in
    let slice := js_slice prices (index - period + 1) (index + 1) in
    let variance :=
      ndiv (fold_left (fun sum price => nadd sum (npow (nsub (Fin price) sma) 2))
                      slice (Fin 0))
           (Fin (IZR period)) in
    let std := nsqrt variance in
    Some {| upper := nadd sma (nmul std (Fin stdDev));
            middle := sma;
            lower := nsub sma (nmul std (Fin stdDev)) |}.

(** [getPositionSize], which the three strategies implement with the same
    code, up to the [positionSize] parameter. *)
Definition position_size (positionSize : R) (signal : Signal)
  (currentPrice : R) (availableCash : num)
  (currentPosition : option Position.t) : num :=
  match signal, currentPosition with
  | BUY, _ =>
      let cashToUse := nmul availableCash (Fin positionSize) in
      nfloor (ndiv cashToUse (Fin currentPrice))
  | SELL, Some position => Position.quantity position
  | _, _ => Fin 0
  end.

(** The base class: a strategy has a name and a description, gives a
    signal at an index of the price history, and sizes the order. *)
Class TradingStrategy (S : Type) : Type := {
  name : S -> string;
  description : S -> string;
  generateSignal :
    S -> list HistoricalPrice.t -> Z -> option Position.t -> completion Signal;
  getPositionSize : S -> Signal -> R -> num -> option Position.t -> num
}.

Module MovingAverageCrossover.

Record parameters : Type := {
  fastPeriod : Z;
  slowPeriod : Z;
  positionSize : R
}.

(** [constructor(fastPeriod = 20, slowPeriod = 50)] *)
Definition make (fastPeriod slowPeriod : option Z) : parameters :=
  {| fastPeriod := match fastPeriod with Some v => v | None => 20%Z end;
     slowPeriod := match slowPeriod with Some v => v | None => 50%Z end;
     positionSize := 0.95 |}.

Definition generateSignal (this : parameters)
  (prices : list HistoricalPrice.t) (currentIndex : Z)
  (position : option Position.t) : completion Signal :=
  let closePrices := map HistoricalPrice.close prices in
  let fastMA := sma closePrices (fastPeriod this) currentIndex in
  let slowMA := sma closePrices (slowPeriod this) currentIndex in
  let prevFastMA := sma closePrices (fastPeriod this) (currentIndex - 1) in
  let prevSlowMA := sma closePrices (slowPeriod this) (currentIndex - 1) in
  if (negb (truthy fastMA) || negb (truthy slowMA)
      || negb (truthy prevFastMA) || negb (truthy prevSlowMA))%bool
  then Returns HOLD
  else if (nleb (to_number prevFastMA) (to_number prevSlowMA)
           && ngtb (to_number fastMA) (to_number slowMA)
           && flat position)%bool
  then Returns BUY
  else if (nleb (to_number prevSlowMA) (to_number prevFastMA)
           && nltb (to_number fastMA) (to_number slowMA)
           && holding position)%bool
  then Returns SELL
  else Returns HOLD.

End MovingAverageCrossover.

Module RSIMeanReversion.

Record parameters : Type := {
  rsiPeriod : Z;
  oversoldLevel : R;
  overboughtLevel : R;
  positionSize : R
}.

(** [constructor(rsiPeriod = 14, oversoldLevel = 30, overboughtLevel = 70)] *)
Definition make (rsiPeriod : option Z) (oversoldLevel overboughtLevel : option R)
  : parameters :=
  {| rsiPeriod := match rsiPeriod with Some v => v | None => 14%Z end;
     oversoldLevel := match oversoldLevel with Some v => v | None => 30 end;
     overboughtLevel := match overboughtLevel with Some v => v | None => 70 end;
     positionSize := 0.5 |}.

Definition generateSignal (this : parameters)
  (prices : list HistoricalPrice.t) (currentIndex : Z)
  (position : option Position.t) : completion Signal :=
  let closePrices := map HistoricalPrice.close prices in
  let rsi := rsi closePrices (rsiPeriod this) currentIndex in
  if negb (truthy rsi) then Returns HOLD
  else if (nltb (to_number rsi) (Fin (oversoldLevel this)) && flat position)%bool
  then Returns BUY
  else if (ngtb (to_number rsi) (Fin (overboughtLevel this))
           && holding position)%bool
  then Returns SELL
  else Returns HOLD.

End RSIMeanReversion.

Module BollingerBands.

Record parameters : Type := {
  period : Z;
  stdDev : R;
  positionSize : R
}.

(** [constructor(period = 20, stdDev = 2)] *)
Definition make (period : option Z) (stdDev : option R) : parameters :=
  {| period := match period with Some v => v | None => 20%Z end;
     stdDev := match stdDev with Some v => v | None => 2 end;
     positionSize := 0.8 |}.

(** [prices[currentIndex].close] throws when the index is outside the
    history. *)
Definition generateSignal (this : parameters)
  (prices : list HistoricalPrice.t) (currentIndex : Z)
  (position : option Position.t) : completion Signal :=
  let closePrices := map HistoricalPrice.close prices in
  match bollinger closePrices (period this) (stdDev this) currentIndex with
  | None => Returns HOLD
  | Some bands =>
      match js_index prices currentIndex with
      | None => Throws type_error
      | Some bar =>
          let currentPrice := Fin (HistoricalPrice.close bar) in
          if (nleb currentPrice (lower bands) && flat position)%bool
          then Returns BUY
          else if (nleb (upper bands) currentPrice && holding position)%bool
          then Returns SELL
          else Returns HOLD
      end
  end.

End BollingerBands.

#[global] Instance MovingAverageCrossover_strategy
  : TradingStrategy MovingAverageCrossover.parameters :=
  {| name := fun _ => "Moving Average Crossover"%string;
     description := fun _ =>
       "Buy when fast MA crosses above slow MA, sell when it crosses below"%string;
     generateSignal := MovingAverageCrossover.generateSignal;
     getPositionSize :=
       fun this => position_size (MovingAverageCrossover.positionSize this) |}.

#[global] Instance RSIMeanReversion_strategy
  : TradingStrategy RSIMeanReversion.parameters :=
  {| name := fun _ => "RSI Mean Reversion"%string;
     description := fun _ =>
       "Buy when RSI is oversold, sell when overbought"%string;
     generateSignal := RSIMeanReversion.generateSignal;
     getPositionSize :=
       fun this => position_size (RSIMeanReversion.positionSize this) |}.

#[global] Instance BollingerBands_strategy
  : TradingStrategy BollingerBands.parameters :=
  {| name := fun _ => "Bollinger Bands"%string;
     description := fun _ => "Buy at lower band, sell at upper band"%string;
     generateSignal := BollingerBands.generateSignal;
     getPositionSize :=
       fun this => position_size (BollingerBands.positionSize this) |}.

(** *** The strategy factory *)

(** An object of one of the three classes. *)
Inductive Strategy : Type :=
| MovingAverage (this : MovingAverageCrossover.parameters)
| RSI (this : RSIMeanReversion.parameters)
| Bollinger (this : BollingerBands.parameters).

#[global] Instance Strategy_strategy : TradingStrategy Strategy :=
  {| name := fun s =>
       match s with
       | MovingAverage this => name this
       | RSI this => name this
       | Bollinger this => name this
       end;
     description := fun s =>
       match s with
       | MovingAverage this => description this
       | RSI this => description this
       | Bollinger this => description this
       end;
     generateSignal := fun s =>
       match s with
       | MovingAverage this => generateSignal this
       | RSI this => generateSignal this
       | Bollinger this => generateSignal this
       end;
     getPositionSize := fun s =>
       match s with
       | MovingAverage this => getPositionSize this
       | RSI this => getPositionSize this
       | Bollinger this => getPositionSize this
       end |}.

(** The [parameters?: any] argument of [createStrategy], for the fields
    the factory reads; an absent field is [undefined]. *)
Record FactoryParameters : Type := {
  p_fastPeriod : option Z;
  p_slowPeriod : option Z;
  p_rsiPeriod : option Z;
  p_oversoldLevel : option R;
  p_overboughtLevel : option R;
  p_period : option Z;
  p_stdDev : option R
}.

(** [parameters?.field] *)
Definition field {A : Type} (parameters : option FactoryParameters)
  (get : FactoryParameters -> option A) : option A :=
  match parameters with
  | Some p => get p
  | None => None
  end.

Definition getAvailableStrategies : list Strategy :=
  [ MovingAverage (MovingAverageCrossover.make None None);
    RSI (RSIMeanReversion.make None None None);
    Bollinger (BollingerBands.make None None) ].

Definition createStrategy (name : string)
  (parameters : option FactoryParameters) : option Strategy :=
  if String.eqb name "Moving Average Crossover" then
    Some (MovingAverage
            (MovingAverageCrossover.make (field parameters p_fastPeriod)
                                         (field parameters p_slowPeriod)))
  else if String.eqb name "RSI Mean Reversion" then
    Some (RSI (RSIMeanReversion.make (field parameters p_rsiPeriod)
                                     (field parameters p_oversoldLevel)
                                     (field parameters p_overboughtLevel)))
  else if String.eqb name "Bollinger Bands" then
    Some (Bollinger (BollingerBands.make (field parameters p_period)
                                         (field parameters p_stdDev)))
  else None.

(** *** [BacktestEngine.calculatePerformanceMetrics] *)

Definition getEmptyMetrics : PerformanceMetrics :=
  {| totalReturn := Fin 0; annualizedReturn := Fin 0; sharpeRatio := Fin 0;
     sortinoRatio := Fin 0; maxDrawdown := Fin 0; volatility := Fin 0;
     winRate := Fin 0; profitFactor := Fin 0; calmarRatio := Fin 0;
     totalTrades := 0; avgTrade := Fin 0; bestTrade := Fin 0;
     worstTrade := Fin 0; avgWinningTrade := Fin 0; avgLosingTrade := Fin 0;
     consecutiveWins := 0; consecutiveLosses := 0 |}.

Definition includes (a : list TradeObject) (t : TradeObject) : bool :=
  existsb (fun u => (fst u =? fst t)%nat) a.

Definition is_sell (t : TradeObject) : bool :=
  match Trade.type (snd t) with
  | Sell => true
  | Buy => false
  end.

(** [trade.price * trade.quantity] *)
Definition turnover (t : TradeObject) : num :=
  nmul (Fin (Trade.price (snd t))) (Trade.quantity (snd t)).

Definition calculatePerformanceMetrics (trades : list TradeObject)
  (portfolioValues : list PortfolioValue.t) (initialCapital : R)
  : PerformanceMetrics :=
  match js_last portfolioValues with
  | None => getEmptyMetrics
  | Some last =>
      let finalValue := PortfolioValue.value last in
      let totalReturn :=
        ndiv (nsub finalValue (Fin initialCapital)) (Fin initialCapital) in
      let returns :=
        map (fun p =>
               ndiv (nsub (PortfolioValue.value (fst p))
                          (PortfolioValue.value (snd p)))
                    (PortfolioValue.value (snd p)))
            (combine (tl portfolioValues) portfolioValues) in
      let avgReturn := ndiv (sumN returns) (Fin (js_length returns)) in
      let annualizedReturn :=
        nsub (Math_pow (nadd (Fin 1) totalReturn)
                       (Fin (252 / js_length portfolioValues)))
             (Fin 1) in
      let variance :=
        ndiv (fold_left (fun sum ret => nadd sum (npow (nsub ret avgReturn) 2))
                        returns (Fin 0))
             (Fin (js_length returns)) in
      let volatility := nsqrt (nmul variance (Fin 252)) in
      let riskFreeRate := 0.02 in
      let sharpeRatio :=
        if ngtb volatility (Fin 0)
        then ndiv (nsub annualizedReturn (Fin riskFreeRate)) volatility
        else Fin 0 in
      let downsideReturns := filter (fun ret => nltb ret (Fin 0)) returns in
      let downsideVariance :=
        ndiv (fold_left (fun sum ret => nadd sum (nmul ret ret))
                        downsideReturns (Fin 0))
             (Fin (js_length returns)) in
      let downsideDeviation := nsqrt (nmul downsideVariance (Fin 252)) in
      let sortinoRatio :=
        if ngtb downsideDeviation (Fin 0)
        then ndiv (nsub annualizedReturn (Fin riskFreeRate)) downsideDeviation
        else Fin 0 in
      let maxDrawdown := max_of (map PortfolioValue.drawdown portfolioValues) in
      let calmarRatio :=
        if ngtb maxDrawdown (Fin 0) then ndiv annualizedReturn maxDrawdown
        else Fin 0 in
      let winningTrades := filter is_sell trades in
      let losingTrades :=
        filter (fun trade => negb (includes winningTrades trade))
               (filter is_sell trades) in
      let winRate :=
        if (0 <? length trades)%nat
        then ndiv (Fin (js_length winningTrades))
                  (Fin (js_length winningTrades + js_length losingTrades))
        else Fin 0 in
      let totalProfit :=
        fold_left (fun sum trade => nadd sum (turnover trade))
                  winningTrades (Fin 0) in
      let totalLoss :=
        fold_left (fun sum trade => nadd sum (turnover trade))
                  losingTrades (Fin 0) in
      let profitFactor :=
        if ngtb totalLoss (Fin 0) then ndiv totalProfit totalLoss
        else if ngtb totalProfit (Fin 0) then PInf
        else Fin 0 in
      {| totalReturn := totalReturn;
         annualizedReturn := annualizedReturn;
         sharpeRatio := sharpeRatio;
         sortinoRatio := sortinoRatio;
         maxDrawdown := maxDrawdown;
         volatility := volatility;
         winRate := winRate;
         profitFactor := profitFactor;
         calmarRatio := calmarRatio;
         totalTrades := length trades;
         avgTrade :=
           if (0 <? length trades)%nat
           then ndiv totalReturn (Fin (js_length trades))
           else Fin 0;
         bestTrade :=
           max_of (map (fun t => Fin (Trade.price (snd t))) trades ++ [Fin 0]);
         worstTrade :=
           min_of (map (fun t => Fin (Trade.price (snd t))) trades ++ [Fin 0]);
         avgWinningTrade :=
           if (0 <? length winningTrades)%nat
           then ndiv totalProfit (Fin (js_length winningTrades))
           else Fin 0;
         avgLosingTrade :=
           if (0 <? length losingTrades)%nat
           then ndiv totalLoss (Fin (js_length losingTrades))
           else Fin 0;
         consecutiveWins := 0;
         consecutiveLosses := 0 |}
  end.

(** *** [BacktestEngine.runBacktest] *)

Module Params.
Record t (S : Type) : Type := {
  symbol : string;
  startDate : string;
  endDate : string;
  initialCapital : R;
  commission : R;
  slippage : R;
  strategy : S
}.
Arguments symbol {S} _.
Arguments startDate {S} _.
Arguments endDate {S} _.
Arguments initialCapital {S} _.
Arguments commission {S} _.
Arguments slippage {S} _.
Arguments strategy {S} _.
End Params.

(** The variables of the loop of [runBacktest]; [created] counts the trade
    objects built so far, which gives each new one its identity. *)
Record Run : Type := {
  cash : num;
  position : option Position.t;
  peak : num;
  run_trades : list TradeObject;
  run_signals : list SignalPoint.t;
  run_values : list PortfolioValue.t;
  created : nat
}.

Section Engine.
Context {S : Type} `{TradingStrategy S}.

(** [generateTradeId] reads the clock and the random generator: the
    identifier of the [n]-th trade object is a parameter. *)
Variable generateTradeId : nat -> string.

Variable params : Params.t S.

(** The body of [if (quantity > 0) { ... }]: builds the trade and executes
    it if the cash or the position covers it. *)
Definition execute (signal : TradeType) (currentPrice : HistoricalPrice.t)
  (quantity : num) (r : Run) : Run :=
  let close := HistoricalPrice.close currentPrice in
  let trade :=
    (created r,
     {| Trade.id := generateTradeId (created r);
        Trade.type := signal;
        Trade.symbol := Params.symbol params;
        Trade.price :=
          close * (1 + match signal with
                       | Buy => Params.slippage params
                       | Sell => - Params.slippage params
                       end);
        Trade.quantity := quantity;
        Trade.timestamp := HistoricalPrice.date currentPrice;
        Trade.commission := Params.commission params;
        Trade.slippage := nmul (Fin (close * Params.slippage params)) quantity |}) in
  let price := Fin (Trade.price (snd trade)) in
  let r := {| cash := cash r; position := position r; peak := peak r;
              run_trades := run_trades r; run_signals := run_signals r;
              run_values := run_values r; created := Datatypes.S (created r) |} in
  match signal with
  | Buy =>
      let totalCost := nadd (nmul price quantity) (Fin (Params.commission params)) in
      if nleb totalCost (cash r) then
        {| cash := nsub (cash r) totalCost;
           position :=
             Some {| Position.symbol := Params.symbol params;
                     Position.quantity :=
                       nadd (or_0 (option_map Position.quantity (position r)))
                            quantity;
                     Position.avgPrice :=
                       match position r with
                       | Some p =>
                           ndiv (nadd (nmul (Position.avgPrice p)
                                            (Position.quantity p))
                                      (nmul price quantity))
                                (nadd (Position.quantity p) quantity)
                       | None => price
                       end;
                     Position.unrealizedPnL := Fin 0;
                     Position.realizedPnL :=
                       or_0 (option_map Position.realizedPnL (position r)) |};
           peak := peak r;
           run_trades := run_trades r ++ [trade];
           run_signals := run_signals r;
           run_values := run_values r;
           created := created r |}
      else r
  | Sell =>
      match position r with
      | Some p =>
          if nleb quantity (Position.quantity p) then
            let totalReceived :=
              nsub (nmul price quantity) (Fin (Params.commission params)) in
            let realizedPnL :=
              nsub (nmul (nsub price (Position.avgPrice p)) quantity)
                   (Fin (Params.commission params)) in
            let p' :=
              {| Position.symbol := Position.symbol p;
                 Position.quantity := nsub (Position.quantity p) quantity;
                 Position.avgPrice := Position.avgPrice p;
                 Position.unrealizedPnL := Position.unrealizedPnL p;
                 Position.realizedPnL :=
                   nadd (Position.realizedPnL p) realizedPnL |} in
            {| cash := nadd (cash r) totalReceived;
               position :=
                 if neqb (Position.quantity p') (Fin 0) then None else Some p';
               peak := peak r;
               run_trades := run_trades r ++ [trade];
               run_signals := run_signals r;
               run_values := run_values r;
               created := created r |}
          else r
      | None => r
      end
  end.

(** [if (signal !== 'HOLD') { ... }] *)
Definition trade_on (signal : Signal) (currentPrice : HistoricalPrice.t)
  (r : Run) : Run :=
  match signal with
  | HOLD => r
  | BUY | SELL =>
      let quantity :=
        getPositionSize (Params.strategy params) signal
                        (HistoricalPrice.close currentPrice) (cash r)
                        (position r) in
      if ngtb quantity (Fin 0)
      then execute (match signal with BUY => Buy | _ => Sell end)
                   currentPrice quantity r
      else r
  end.

(** The part of the loop body after the trade: portfolio value, peak,
    drawdown and unrealized profit. *)
Definition mark (currentPrice : HistoricalPrice.t) (r : Run) : Run :=
  let close := Fin (HistoricalPrice.close currentPrice) in
  let positionValue :=
    match position r with
    | Some p => nmul (Position.quantity p) close
    | None => Fin 0
    end in
  let portfolioValue := nadd (cash r) positionValue in
  let peak := if ngtb portfolioValue (peak r) then portfolioValue else peak r in
  let drawdown := ndiv (nsub peak portfolioValue) peak in
  {| cash := cash r;
     position :=
       match position r with
       | Some p =>
           Some {| Position.symbol := Position.symbol p;
                   Position.quantity := Position.quantity p;
                   Position.avgPrice := Position.avgPrice p;
                   Position.unrealizedPnL :=
                     nmul (nsub close (Position.avgPrice p))
                          (Position.quantity p);
                   Position.realizedPnL := Position.realizedPnL p |}
       | None => None
       end;
     peak := peak;
     run_trades := run_trades r;
     run_signals := run_signals r;
     run_values :=
       run_values r
       ++ [{| PortfolioValue.date := HistoricalPrice.date currentPrice;
              PortfolioValue.value := portfolioValue;
              PortfolioValue.drawdown := drawdown |}];
     created := created r |}.

(** The loop body for the bar at index [i]. *)
Definition bar_step (historicalData : list HistoricalPrice.t) (i : Z)
  (r : Run) : completion Run :=
  match js_index historicalData i with
  | None => Throws type_error
  | Some currentPrice =>
      match generateSignal (Params.strategy params) historicalData i
                           (position r) with
      | Throws message => Throws message
      | Returns signal =>
          let r :=
            {| cash := cash r; position := position r; peak := peak r;
               run_trades := run_trades r;
               run_signals :=
                 run_signals r
                 ++ [{| SignalPoint.date := HistoricalPrice.date currentPrice;
                        SignalPoint.signal := signal;
                        SignalPoint.price := HistoricalPrice.close currentPrice |}];
               run_values := run_values r;
               created := created r |} in
          Returns (mark currentPrice (trade_on signal currentPrice r))
      end
  end.

Definition initial_run : Run :=
  {| cash := Fin (Params.initialCapital params);
     position := None;
     peak := Fin (Params.initialCapital params);
     run_trades := [];
     run_signals := [];
     run_values := [];
     created := 0 |}.

(** [runBacktest] on the history that [generateHistoricalData] produced;
    a thrown exception is the rejection of the promise. *)
Definition runBacktest (historicalData : list HistoricalPrice.t)
  : completion BacktestResult :=
  match for_indices (indices 0 (Z.of_nat (length historicalData)))
                    (bar_step historicalData) initial_run with
  | Throws message => Throws message
  | Returns r =>
      Returns
        {| trades := run_trades r;
           positions := match position r with Some p => [p] | None => [] end;
           portfolioValues := run_values r;
           performance :=
             calculatePerformanceMetrics (run_trades r) (run_values r)
                                         (Params.initialCapital params);
           signals := run_signals r |}
  end.

End Engine.

End Backtest.

Module BT := Backtest.

(** Every price in the look-back window of [rsi] at [index] is below the
    price before it. *)
Definition falling_window (prices : list R) (period index : Z) : Prop :=
  forall i, (index - period + 1 <= i <= index)%Z ->
            exists now before,
              js_index prices i = Some now
              /\ js_index prices (i - 1) = Some before
              /\ now < before.

Definition bar (close : R) : BT.HistoricalPrice.t :=
  {| BT.HistoricalPrice.date := "2024-01-02";
     BT.HistoricalPrice.open := close;
     BT.HistoricalPrice.high := close;
     BT.HistoricalPrice.low := close;
     BT.HistoricalPrice.close := close;
     BT.HistoricalPrice.volume := 1000;
     BT.HistoricalPrice.adjustedClose := close |}.

(** Three bars, each closing below the one before. *)
Definition falling_bars : list BT.HistoricalPrice.t := [bar 12; bar 11; bar 10].


(** *** What the loop of [runBacktest] maintains *)

Definition positive_quantity (q : num) : Prop :=
  exists v, q = Fin v /\ 0 < v.

(** A recorded portfolio value is a finite number and its drawdown is a
    finite number that is not negative; without commission the value is
    not negative either and the drawdown is at most 1. *)
Definition sound_value (commission : R) (v : BT.PortfolioValue.t) : Prop :=
  exists x d,
    BT.PortfolioValue.value v = Fin x
    /\ BT.PortfolioValue.drawdown v = Fin d
    /\ 0 <= d
    /\ (commission = 0 -> 0 <= x /\ d <= 1).

Definition sound_run {S : Type} (params : BT.Params.t S) (r : BT.Run) : Prop :=
  exists c pk,
    BT.cash r = Fin c
    /\ BT.peak r = Fin pk
    /\ BT.Params.initialCapital params <= pk
    /\ (BT.Params.commission params = 0 -> 0 <= c)
    /\ (forall p, BT.position r = Some p ->
                  positive_quantity (BT.Position.quantity p))
    /\ Forall (sound_value (BT.Params.commission params)) (BT.run_values r)
    /\ Forall (fun t => positive_quantity (BT.Trade.quantity (snd t)))
              (BT.run_trades r).

(** One signal and one portfolio value are recorded per bar, with the
    bar's date and close. *)
Definition one_entry_per_bar (historicalData : list BT.HistoricalPrice.t)
  (result : BT.BacktestResult) : Prop :=
  map BT.SignalPoint.date (BT.signals result)
  = map BT.HistoricalPrice.date historicalData
  /\ map BT.SignalPoint.price (BT.signals result)
     = map BT.HistoricalPrice.close historicalData
  /\ map BT.PortfolioValue.date (BT.portfolioValues result)
     = map BT.HistoricalPrice.date historicalData.

(** A strategy that buys at the first bar: with a period of 1 the three
    bands coincide with the close. *)
Definition trading_params : BT.Params.t BT.Strategy :=
  {| BT.Params.symbol := "DEMO";
     BT.Params.startDate := "2024-01-02";
     BT.Params.endDate := "2024-01-02";
     BT.Params.initialCapital := 10000;
     BT.Params.commission := 1;
     BT.Params.slippage := 0.001;
     BT.Params.strategy :=
       BT.Bollinger (BT.BollingerBands.make (Some 1%Z) None) |}.

(* ===================================================================== *)
(** ** Facts about numbers *)
(* ===================================================================== *)

Section NumFacts.

Lemma ndiv_fin (a b : R) : b <> 0 -> ndiv (Fin a) (Fin b) = Fin (a / b).
Proof.
  intros Hb. unfold ndiv. destruct (Req_dec_T b 0); [contradiction | reflexivity].
Qed.

Lemma ndiv_zero_zero (a b : R) : a = 0 -> b = 0 -> ndiv (Fin a) (Fin b) = NaN.
Proof.
  intros -> ->. unfold ndiv, scale_inf.
  destruct (Req_dec_T 0 0) as [_ | H]; [| now elim H].
  destruct (total_order_T 0 0) as [[H | _] | H]; try reflexivity; lra.
Qed.

Lemma nsqrt_fin (a : R) : 0 <= a -> nsqrt (Fin a) = Fin (sqrt a).
Proof.
  intros Ha. unfold nsqrt. destruct (Rlt_dec a 0); [lra | reflexivity].
Qed.

Lemma nsqrt_neg (a : R) : a < 0 -> nsqrt (Fin a) = NaN.
Proof.
  intros Ha. unfold nsqrt. destruct (Rlt_dec a 0); [reflexivity | lra].
Qed.

Lemma nlog_fin (a : R) : 0 < a -> nlog (Fin a) = Fin (ln a).
Proof.
  intros Ha. unfold nlog.
  destruct (total_order_T a 0) as [[H | H] | H]; try lra. reflexivity.
Qed.

Lemma nleb_fin_true (a b : R) : a <= b -> nleb (Fin a) (Fin b) = true.
Proof. intros H. unfold nleb. destruct (Rle_dec a b); [reflexivity | lra]. Qed.

Lemma nleb_fin_false (a b : R) : b < a -> nleb (Fin a) (Fin b) = false.
Proof. intros H. unfold nleb. destruct (Rle_dec a b); [lra | reflexivity]. Qed.

Lemma nltb_fin_true (a b : R) : a < b -> nltb (Fin a) (Fin b) = true.
Proof. intros H. unfold nltb. destruct (Rlt_dec a b); [reflexivity | lra]. Qed.

Lemma nltb_fin_false (a b : R) : b <= a -> nltb (Fin a) (Fin b) = false.
Proof. intros H. unfold nltb. destruct (Rlt_dec a b); [lra | reflexivity]. Qed.

Lemma Fin_inj (a b : R) : Fin a = Fin b -> a = b.
Proof.
  intros H.
  apply (f_equal (fun x => match x with Fin r => r | _ => 0 end)) in H.
  exact H.
Qed.

Lemma nadd_nan_r (x : num) : nadd x NaN = NaN.
Proof. now destruct x. Qed.

Lemma nmul_nan_r (x : num) : nmul x NaN = NaN.
Proof. now destruct x. Qed.

Lemma nmul_nan_fin (z : R) : nmul NaN (Fin z) = NaN.
Proof. reflexivity. Qed.

Lemma ngtb_nan_l (x : num) : ngtb NaN x = false.
Proof. now destruct x. Qed.

End NumFacts.

(** Evaluation of a closed numeric expression: each partial operation is
    rewritten once its side condition is settled by linear arithmetic. *)
Ltac num_step :=
  first
    [ rewrite ndiv_fin by lra
    | rewrite ndiv_zero_zero by lra
    | rewrite nsqrt_neg by lra
    | rewrite nlog_fin by lra
    | rewrite nleb_fin_true by lra
    | rewrite nleb_fin_false by lra
    | rewrite nltb_fin_true by lra
    | rewrite nltb_fin_false by lra ].

Ltac num_eval :=
  repeat first
    [ progress cbn [nadd nsub nneg nmul npow nexp nabs to_number option_map
                    fold_left map sumN sumR length INR]
    | num_step ].

(* ===================================================================== *)
(** ** Black-Scholes at expiry *)
(* ===================================================================== *)

(** C2.  When [timeToExpiry <= 0], [blackScholes] returns the intrinsic
    values, call = max(spot - strike, 0) and put = max(strike - spot, 0);
    both are finite numbers: the branch returns before [d1] and its
    division by [volatility * sqrt(timeToExpiry)] are evaluated. *)
Theorem blackScholes_expired_is_intrinsic (params : OC.OptionParameters) :
  OC.timeToExpiry params <= 0 ->
  OC.blackScholes params =
    {| OC.call := Fin (Rmax (OC.spot params - OC.strike params) 0);
       OC.put := Fin (Rmax (OC.strike params - OC.spot params) 0) |}.
Proof.
  intros HT. unfold OC.blackScholes.
  rewrite nleb_fin_true by exact HT.
  reflexivity.
Qed.

Lemma blackScholes_expired_is_intrinsic_witness :
  OC.blackScholes expiring_itm_call =
    {| OC.call := Fin (Rmax (110 - 100) 0); OC.put := Fin (Rmax (100 - 110) 0) |}.
Proof.
  apply (blackScholes_expired_is_intrinsic expiring_itm_call).
  simpl. lra.
Defined.

(** C9.  When [timeToExpiry <= 0], [calculateGreeks] returns zero for all
    five Greeks, for calls and puts alike, whatever the moneyness (so also
    for an in-the-money option at expiry). *)
Theorem calculateGreeks_expired_all_zero
  (params : OC.OptionParameters) (optionType : OC.OptionType) :
  OC.timeToExpiry params <= 0 ->
  OC.calculateGreeks params optionType =
    {| OC.delta := Fin 0; OC.gamma := Fin 0; OC.theta := Fin 0; OC.vega := Fin 0;
       OC.rho := Fin 0 |}.
Proof.
  intros HT. unfold OC.calculateGreeks.
  rewrite nleb_fin_true by exact HT.
  reflexivity.
Qed.

Lemma calculateGreeks_expired_all_zero_witness :
  OC.delta (OC.calculateGreeks expiring_itm_call OC.Call) = Fin 0
  /\ OC.delta (OC.calculateGreeks expiring_itm_call OC.Put) = Fin 0.
Proof.
  split.
  - rewrite (calculateGreeks_expired_all_zero expiring_itm_call OC.Call);
      [reflexivity | simpl; lra].
  - rewrite (calculateGreeks_expired_all_zero expiring_itm_call OC.Put);
      [reflexivity | simpl; lra].
Defined.

(* ===================================================================== *)
(** ** The random tape *)
(* ===================================================================== *)

Section TapeFacts.

Lemma zero_free_skipn (k : nat) (t : tape) : zero_free t -> zero_free (skipn k t).
Proof.
  revert t. induction k as [| k IH]; intros t Ht; [exact Ht |].
  destruct t as [| u t]; [constructor |].
  simpl. apply IH. now inversion Ht.
Qed.

Lemma valid_tape_skipn (k : nat) (t : tape) : valid_tape t -> valid_tape (skipn k t).
Proof.
  revert t. induction k as [| k IH]; intros t Ht; [exact Ht |].
  destruct t as [| u t]; [constructor |].
  simpl. apply IH. now inversion Ht.
Qed.

Lemma random_nonzero_some (u : R) (t : tape) :
  u <> 0 -> random_nonzero (u :: t) = Some (u, t).
Proof.
  intros Hu. simpl. destruct (Req_dec_T u 0); [contradiction | reflexivity].
Qed.

(** On a zero-free tape [randomNormal] reads exactly two draws. *)
Lemma randomNormal_reads_two (u v : R) (t : tape) :
  u <> 0 -> v <> 0 ->
  randomNormal (u :: v :: t)
  = Some (sqrt (-2 * ln u) * cos (2 * PI * v), t).
Proof.
  intros Hu Hv. unfold randomNormal, bind.
  rewrite (random_nonzero_some u) by exact Hu.
  rewrite (random_nonzero_some v) by exact Hv.
  reflexivity.
Qed.

Lemma randomNormal_total (t : tape) :
  zero_free t -> (2 <= length t)%nat ->
  exists z, randomNormal t = Some (z, skipn 2 t).
Proof.
  intros Hz Hlen.
  destruct t as [| u [| v t]]; simpl in Hlen; try lia.
  inversion Hz as [| ? ? Hu Hz']; subst.
  inversion Hz' as [| ? ? Hv _]; subst.
  eexists. now apply randomNormal_reads_two.
Qed.

Lemma skipn_skipn_add {A : Type} (a b : nat) (l : list A) :
  skipn a (skipn b l) = skipn (b + a) l.
Proof.
  revert l. induction b as [| b IH]; intros l; [reflexivity |].
  destruct l as [| x l]; simpl.
  - now rewrite skipn_nil.
  - apply IH.
Qed.

Lemma length_skipn_ge {A : Type} (k m : nat) (l : list A) :
  (k + m <= length l)%nat -> (m <= length (skipn k l))%nat.
Proof. intros H. rewrite length_skipn. lia. Qed.

End TapeFacts.

Lemma for_each_nil {S : Type} (body : nat -> S -> Rand S) (s : S) (t : tape) :
  for_each [] body s t = Some (s, t).
Proof. reflexivity. Qed.

Lemma for_each_cons {S : Type} (i : nat) (idx : list nat)
  (body : nat -> S -> Rand S) (s : S) (t : tape) :
  for_each (i :: idx) body s t
  = match body i s t with
    | Some (s', t') => for_each idx body s' t'
    | None => None
    end.
Proof. reflexivity. Qed.

(* ===================================================================== *)
(** ** Paths of the plain simulator *)
(* ===================================================================== *)

Section PlainPaths.

Variables drift diffusion : R.

(** The loop over the days keeps [price] equal to the last element of
    [path] and appends one element per day. *)
Lemma plain_days_shape (days : list nat) :
  forall price path t price' path' t',
    for_each days (MonteCarlo.day_step drift diffusion) (price, path) t
    = Some ((price', path'), t') ->
    last path 0 = price ->
    last path' 0 = price'
    /\ length path' = (length path + length days)%nat.
Proof.
  induction days as [| d days IH]; intros price path t price' path' t' Hrun Hlast.
  - simpl in Hrun. unfold ret in Hrun. inversion Hrun; subst.
    split; [reflexivity | simpl; lia].
  - simpl in Hrun. unfold bind at 1 in Hrun.
    unfold MonteCarlo.day_step at 1 in Hrun. unfold bind at 1 in Hrun.
    destruct (randomNormal t) as [[z t1] |]; [| discriminate].
    unfold ret at 1 in Hrun.
    apply IH in Hrun.
    + destruct Hrun as (Hl & Hlen).
      split; [exact Hl |].
      rewrite Hlen, length_app. simpl. lia.
    + now rewrite last_last.
Qed.

(** A jump-diffusion day, with or without a jump, appends the new price. *)
Lemma enhanced_day_shape (day : nat) (price : R) (path : list R) (t : tape)
  price' path' t' :
  Enhanced.day_step drift diffusion day (price, path) t
  = Some ((price', path'), t') ->
  path' = path ++ [price'].
Proof.
  unfold Enhanced.day_step. unfold bind at 1.
  destruct (randomNormal t) as [[z t1] |]; [| discriminate].
  unfold bind at 1. destruct (random t1) as [[g t2] |]; [| discriminate].
  unfold bind at 1.
  destruct (Rlt_dec g Enhanced.jumpIntensity).
  - unfold bind at 1. destruct (randomNormal t2) as [[z' t3] |]; [| discriminate].
    unfold ret. intros H. now inversion H.
  - unfold ret. intros H. now inversion H.
Qed.

Lemma enhanced_days_shape (days : list nat) :
  forall price path t price' path' t',
    for_each days (Enhanced.day_step drift diffusion) (price, path) t
    = Some ((price', path'), t') ->
    last path 0 = price ->
    last path' 0 = price'
    /\ length path' = (length path + length days)%nat.
Proof.
  induction days as [| d days IH]; intros price path t price' path' t' Hrun Hlast.
  - simpl in Hrun. unfold ret in Hrun. inversion Hrun; subst.
    split; [reflexivity | simpl; lia].
  - rewrite for_each_cons in Hrun.
    destruct (Enhanced.day_step drift diffusion d (price, path) t)
      as [[[p1 path1] t1] |] eqn:Hday; [| discriminate].
    apply enhanced_day_shape in Hday. subst path1.
    apply IH in Hrun.
    + destruct Hrun as (Hl & Hlen).
      split; [exact Hl |].
      rewrite Hlen, length_app. simpl. lia.
    + now rewrite last_last.
Qed.

Lemma plain_days_total (days : list nat) :
  forall s t,
    zero_free t -> (2 * length days <= length t)%nat ->
    exists s',
      for_each days (MonteCarlo.day_step drift diffusion) s t
      = Some (s', skipn (2 * length days) t).
Proof.
  induction days as [| d days IH]; intros [price path] t Hz Hlen.
  - exists (price, path). reflexivity.
  - cbn [length] in Hlen.
    assert (H2 : (2 <= length t)%nat) by lia.
    destruct (randomNormal_total t Hz H2) as [z Hzr].
    cbn [for_each]. unfold bind at 1.
    unfold MonteCarlo.day_step at 1. unfold bind at 1. rewrite Hzr.
    unfold ret at 1.
    destruct (IH (price * exp (drift + diffusion * z),
                  path ++ [price * exp (drift + diffusion * z)])
                 (skipn 2 t)) as [s' Hs'].
    + now apply zero_free_skipn.
    + apply length_skipn_ge. lia.
    + exists s'. rewrite Hs'. rewrite skipn_skipn_add.
      cbn [length].
      replace (2 * S (length days))%nat with (2 + 2 * length days)%nat by lia.
      reflexivity.
Qed.

End PlainPaths.

(* ===================================================================== *)
(** ** The loop over the simulations *)
(* ===================================================================== *)

Section SimulationLoop.

Variable step : nat -> R * list R -> Rand (R * list R).
Variable days : list nat.
Variable cur : R.

Variable good : list R -> R -> Prop.
Variable suitable : tape -> Prop.

Hypothesis inner_good :
  forall t price path t',
    suitable t ->
    for_each days step (cur, [cur]) t = Some ((price, path), t') ->
    good path price /\ suitable t'.

Lemma sim_loop_inv (sims : list nat) :
  forall paths finals t paths' finals' t',
    suitable t ->
    for_each sims (sim_body step days cur) (paths, finals) t = Some ((paths', finals'), t') ->
    Forall2 good paths finals ->
    Forall2 good paths' finals'
    /\ length paths' = (length paths + length sims)%nat.
Proof.
  induction sims as [| sim sims IH];
    intros paths finals t paths' finals' t' Hsuit Hrun Hinv.
  - simpl in Hrun. unfold ret in Hrun. inversion Hrun; subst.
    split; [exact Hinv | simpl; lia].
  - cbn [for_each] in Hrun. unfold bind at 1 in Hrun.
    unfold sim_body at 1 in Hrun. unfold bind at 1 in Hrun.
    destruct (for_each days step (cur, [cur]) t) as [[[price path] t1] |] eqn:Hin;
      [| discriminate].
    unfold ret at 1 in Hrun.
    destruct (inner_good _ _ _ _ Hsuit Hin) as [Hgood Hsuit1].
    apply IH in Hrun.
    + destruct Hrun as [HF Hlen]. split; [exact HF |].
      rewrite Hlen, length_app. simpl. lia.
    + exact Hsuit1.
    + apply Forall2_app; [exact Hinv |].
      constructor; [exact Hgood | constructor].
Qed.

(** If one path reads [k] draws of any suitable tape, [n] paths read
    [n * k] draws. *)
Variable k : nat.
Hypothesis suitable_skipn : forall m t, suitable t -> suitable (skipn m t).
Hypothesis inner_total :
  forall t, suitable t -> (k <= length t)%nat ->
    exists s', for_each days step (cur, [cur]) t = Some (s', skipn k t).

Lemma sim_loop_total (sims : list nat) :
  forall s t,
    suitable t -> (length sims * k <= length t)%nat ->
    exists s',
      for_each sims (sim_body step days cur) s t = Some (s', skipn (length sims * k) t).
Proof.
  induction sims as [| sim sims IH]; intros [paths finals] t Hs Hlen.
  - exists (paths, finals). reflexivity.
  - cbn [length] in Hlen.
    destruct (inner_total t Hs ltac:(lia)) as [[price path] Hin].
    cbn [for_each]. unfold bind at 1.
    unfold sim_body at 1. unfold bind at 1. rewrite Hin. unfold ret at 1.
    destruct (IH (paths ++ [path], finals ++ [price]) (skipn k t)) as [s' Hs'].
    + now apply suitable_skipn.
    + rewrite length_skipn. lia.
    + exists s'. rewrite Hs', skipn_skipn_add. cbn [length].
      replace (S (length sims) * k)%nat with (k + length sims * k)%nat by lia.
      reflexivity.
Qed.

End SimulationLoop.

(** The same loop with an invariant of the tape that counts the
    simulations still to run. *)
Section CountedLoop.

Variable step : nat -> R * list R -> Rand (R * list R).
Variable days : list nat.
Variable cur : R.

Variable good : list R -> R -> Prop.
Variable suitable : nat -> tape -> Prop.

Hypothesis inner_good :
  forall m t price path t',
    suitable (S m) t ->
    for_each days step (cur, [cur]) t = Some ((price, path), t') ->
    good path price /\ suitable m t'.

Lemma sim_loop_counted (sims : list nat) :
  forall paths finals t paths' finals' t',
    suitable (length sims) t ->
    for_each sims (sim_body step days cur) (paths, finals) t
    = Some ((paths', finals'), t') ->
    Forall2 good paths finals ->
    Forall2 good paths' finals'
    /\ length paths' = (length paths + length sims)%nat.
Proof.
  induction sims as [| sim sims IH];
    intros paths finals t paths' finals' t' Hsuit Hrun Hinv.
  - simpl in Hrun. unfold ret in Hrun. inversion Hrun; subst.
    split; [exact Hinv | simpl; lia].
  - cbn [for_each] in Hrun. unfold bind at 1 in Hrun.
    unfold sim_body at 1 in Hrun. unfold bind at 1 in Hrun.
    destruct (for_each days step (cur, [cur]) t) as [[[price path] t1] |] eqn:Hin;
      [| discriminate].
    unfold ret at 1 in Hrun.
    destruct (inner_good _ _ _ _ _ Hsuit Hin) as [Hgood Hsuit1].
    apply IH in Hrun.
    + destruct Hrun as [HF Hlen]. split; [exact HF |].
      rewrite Hlen, length_app. simpl. lia.
    + exact Hsuit1.
    + apply Forall2_app; [exact Hinv |].
      constructor; [exact Hgood | constructor].
Qed.

End CountedLoop.

Lemma plain_run_unfold (params : SimulationParams) :
  MonteCarlo.runMonteCarloSimulation params
  = bind (for_each (from_0_below (numSimulations params))
            (sim_body (MonteCarlo.day_step (drift_of params) (diffusion_of params))
                      (from_1_to (timeHorizon params)) (currentPrice params))
            ([], []))
         (finish (currentPrice params)).
Proof. reflexivity. Qed.

Lemma enhanced_run_unfold (params : SimulationParams) :
  Enhanced.runMonteCarloSimulation params
  = bind (for_each (from_0_below (numSimulations params))
            (sim_body (Enhanced.day_step (drift_of params) (diffusion_of params))
                      (from_1_to (timeHorizon params)) (currentPrice params))
            ([], []))
         (finish (currentPrice params)).
Proof. reflexivity. Qed.

(* ===================================================================== *)
(** ** Zero volatility *)
(* ===================================================================== *)

Section ZeroVolatility.

Variable drift : R.

Lemma compound_shift (price : R) (n : nat) :
  map (fun j => price * exp (drift * INR j)) (seq 1 (S n))
  = price * exp drift
    :: map (fun j => price * exp drift * exp (drift * INR j)) (seq 1 n).
Proof.
  cbn [seq map]. f_equal.
  - simpl INR. now rewrite Rmult_1_r.
  - rewrite <- seq_shift, map_map. apply map_ext. intros j.
    rewrite S_INR, Rmult_plus_distr_l, Rmult_1_r, exp_plus. ring.
Qed.

Lemma plain_days_no_diffusion (days : list nat) :
  forall price path t price' path' t',
    for_each days (MonteCarlo.day_step drift 0) (price, path) t
    = Some ((price', path'), t') ->
    price' = price * exp (drift * INR (length days))
    /\ path' = path ++ map (fun j => price * exp (drift * INR j))
                           (seq 1 (length days)).
Proof.
  induction days as [| d days IH]; intros price path t price' path' t' Hrun.
  - simpl in Hrun. unfold ret in Hrun. inversion Hrun; subst.
    simpl. rewrite Rmult_0_r, exp_0, Rmult_1_r, app_nil_r. now split.
  - cbn [for_each] in Hrun. unfold bind at 1 in Hrun.
    unfold MonteCarlo.day_step at 1 in Hrun. unfold bind at 1 in Hrun.
    destruct (randomNormal t) as [[z t1] |]; [| discriminate].
    unfold ret at 1 in Hrun.
    replace (drift + 0 * z) with drift in Hrun by ring.
    apply IH in Hrun. destruct Hrun as [Hp Hpath]. split.
    + rewrite Hp. cbn [length]. rewrite S_INR, Rmult_plus_distr_l, exp_plus.
      rewrite Rmult_1_r. ring.
    + rewrite Hpath. cbn [length]. rewrite compound_shift.
      now rewrite <- app_assoc.
Qed.

(** A day of the jump-diffusion version on which no jump fires is the
    plain day followed by the gate draw. *)
Lemma enhanced_day_quiet (diffusion : R) (day : nat) (price : R)
  (path : list R) (t : tape) (s' : R * list R) (t' : tape) (d : nat) :
  Enhanced.day_step drift diffusion day (price, path) t = Some (s', t') ->
  no_jump (S d) t ->
  (exists z,
      s' = (price * exp (drift + diffusion * z),
            path ++ [price * exp (drift + diffusion * z)]))
  /\ no_jump d t'.
Proof.
  unfold Enhanced.day_step. cbn [no_jump].
  unfold bind at 1.
  destruct (randomNormal t) as [[z t1] |]; [| discriminate].
  unfold bind at 1.
  destruct (random t1) as [[gate t2] |]; [| discriminate].
  intros Hrun [Hgate Hquiet].
  unfold bind at 1 in Hrun.
  destruct (Rlt_dec gate Enhanced.jumpIntensity) as [Hlt | _]; [lra |].
  unfold ret in Hrun. inversion Hrun; subst.
  split; [exists z; reflexivity | exact Hquiet].
Qed.

Lemma enhanced_days_quiet (days : list nat) :
  forall price path t price' path' t' m,
    for_each days (Enhanced.day_step drift 0) (price, path) t
    = Some ((price', path'), t') ->
    no_jump (length days + m) t ->
    price' = price * exp (drift * INR (length days))
    /\ path' = path ++ map (fun j => price * exp (drift * INR j))
                           (seq 1 (length days))
    /\ no_jump m t'.
Proof.
  induction days as [| d days IH]; intros price path t price' path' t' m Hrun Hq.
  - simpl in Hrun. unfold ret in Hrun. inversion Hrun; subst.
    simpl. rewrite Rmult_0_r, exp_0, Rmult_1_r, app_nil_r. now repeat split.
  - cbn [for_each] in Hrun. unfold bind at 1 in Hrun.
    destruct (Enhanced.day_step drift 0 d (price, path) t)
      as [[s1 t1] |] eqn:Hday; [| discriminate].
    cbn [length Nat.add] in Hq.
    destruct (enhanced_day_quiet _ _ _ _ _ _ _ _ Hday Hq) as [[z ->] Hq1].
    replace (drift + 0 * z) with drift in Hrun by ring.
    apply (IH _ _ _ _ _ _ m) in Hrun; [| exact Hq1].
    destruct Hrun as (Hp & Hpath & Hq'). repeat split.
    + rewrite Hp. cbn [length]. rewrite S_INR, Rmult_plus_distr_l, exp_plus.
      rewrite Rmult_1_r. ring.
    + rewrite Hpath. cbn [length]. rewrite compound_shift.
      now rewrite <- app_assoc.
    + exact Hq'.
Qed.

(** The compounded path is, in exact arithmetic, the closed form. *)
Lemma compound_closed_form (price : R) (n : nat) :
  compound price (exp drift) n
  = map (fun j => price * exp (drift * INR j)) (seq 1 n).
Proof.
  revert price. induction n as [| n IH]; intros price; [reflexivity |].
  rewrite compound_shift. cbn [compound]. f_equal. apply IH.
Qed.

End ZeroVolatility.

(* ===================================================================== *)
(** ** Sorting *)
(* ===================================================================== *)

Section SortFacts.

Lemma sort_insert_perm {A : Type} (cmp : A -> A -> num) (x : A) (a : list A) :
  Permutation (sort_insert cmp x a) (x :: a).
Proof.
  induction a as [| y a IH]; cbn [sort_insert]; [apply Permutation_refl |].
  destruct (ngtb (cmp x y) (Fin 0)).
  - apply perm_trans with (y :: x :: a); [now apply perm_skip | apply perm_swap].
  - apply Permutation_refl.
Qed.

Lemma js_sort_perm {A : Type} (cmp : A -> A -> num) (a : list A) :
  Permutation (js_sort cmp a) a.
Proof.
  induction a as [| x a IH]; simpl; [constructor |].
  apply perm_trans with (x :: js_sort cmp a);
    [apply sort_insert_perm | now apply perm_skip].
Qed.

Lemma js_sort_length {A : Type} (cmp : A -> A -> num) (a : list A) :
  length (js_sort cmp a) = length a.
Proof. apply Permutation_length, js_sort_perm. Qed.

(** The verdict of [(a, b) => a - b] on finite numbers. *)
Lemma cmp_sub_after (x y : R) :
  ngtb (cmp_sub x y) (Fin 0) = if Rlt_dec y x then true else false.
Proof.
  unfold ngtb, cmp_sub, nltb.
  destruct (Rlt_dec 0 (x - y)), (Rlt_dec y x); try reflexivity; lra.
Qed.

Lemma sort_insert_sorted (x : R) (a : list R) :
  Sorted Rle a -> Sorted Rle (sort_insert cmp_sub x a).
Proof.
  induction a as [| y a IH]; intros Hs; cbn [sort_insert].
  - repeat constructor.
  - rewrite cmp_sub_after. destruct (Rlt_dec y x) as [Hlt | Hge].
    + inversion Hs as [| ? ? Hs' Hhd]; subst.
      constructor; [now apply IH |].
      destruct a as [| z a]; cbn [sort_insert].
      * constructor. lra.
      * rewrite cmp_sub_after. inversion Hhd; subst.
        destruct (Rlt_dec z x); constructor; lra.
    + constructor; [exact Hs | constructor; lra].
Qed.

Lemma js_sort_sorted (a : list R) : Sorted Rle (js_sort cmp_sub a).
Proof.
  induction a as [| x a IH]; simpl; [constructor |].
  now apply sort_insert_sorted.
Qed.

(** An array that is already ascending is left as it is. *)
Lemma js_sort_of_sorted (a : list R) : Sorted Rle a -> js_sort cmp_sub a = a.
Proof.
  induction a as [| x a IH]; intros Hs; [reflexivity |].
  inversion Hs as [| ? ? Hs' Hhd]; subst. simpl. rewrite IH by exact Hs'.
  destruct a as [| y a]; [reflexivity |]. cbn [sort_insert].
  rewrite cmp_sub_after. inversion Hhd; subst.
  destruct (Rlt_dec y x); [lra | reflexivity].
Qed.

Lemma js_sort_repeat (x : R) (n : nat) :
  js_sort cmp_sub (repeat x n) = repeat x n.
Proof.
  apply js_sort_of_sorted.
  induction n as [| n IH]; simpl; [constructor |].
  constructor; [exact IH |]. destruct n; simpl; constructor. lra.
Qed.

Lemma Rle_transitive : Relations_1.Transitive Rle.
Proof. intros x y z. apply Rle_trans. Qed.

(** There is one ascending arrangement of an array of finite numbers. *)
Lemma ascending_unique (s1 : list R) :
  forall s2, Sorted Rle s1 -> Sorted Rle s2 -> Permutation s1 s2 -> s1 = s2.
Proof.
  induction s1 as [| x s1 IH]; intros s2 H1 H2 Hp.
  - apply Permutation_nil in Hp. now subst.
  - destruct s2 as [| y s2].
    + apply Permutation_sym, Permutation_nil in Hp. discriminate.
    + apply Sorted_StronglySorted in H1; [| exact Rle_transitive].
      apply Sorted_StronglySorted in H2; [| exact Rle_transitive].
      inversion H1 as [| ? ? Hs1 Hall1]; subst.
      inversion H2 as [| ? ? Hs2 Hall2]; subst.
      assert (Hxy : x = y).
      { assert (Hx : In x (y :: s2))
          by (eapply Permutation_in; [exact Hp | now left]).
        assert (Hy : In y (x :: s1))
          by (eapply Permutation_in; [apply Permutation_sym; exact Hp | now left]).
        rewrite Forall_forall in Hall1, Hall2.
        destruct Hx as [-> | Hx]; [reflexivity |].
        destruct Hy as [-> | Hy]; [reflexivity |].
        apply Rle_antisym; [now apply Hall1 | now apply Hall2]. }
      subst y. f_equal. apply IH.
      * now apply StronglySorted_Sorted.
      * now apply StronglySorted_Sorted.
      * eapply Permutation_cons_inv; exact Hp.
Qed.

Lemma js_sort_is_the_ascending (a s : list R) :
  Sorted Rle s -> Permutation s a -> js_sort cmp_sub a = s.
Proof.
  intros Hs Hp. apply ascending_unique.
  - apply js_sort_sorted.
  - exact Hs.
  - apply perm_trans with a; [apply js_sort_perm | now apply Permutation_sym].
Qed.

(** Sorting finite numbers as numbers. *)
Lemma sort_insert_map_Fin (x : R) (a : list R) :
  sort_insert cmp_nsub (Fin x) (map Fin a) = map Fin (sort_insert cmp_sub x a).
Proof.
  induction a as [| y a IH]; [reflexivity |].
  cbn [map sort_insert]. change (cmp_nsub (Fin x) (Fin y)) with (cmp_sub x y).
  destruct (ngtb (cmp_sub x y) (Fin 0)); cbn [map]; [now rewrite IH | reflexivity].
Qed.

Lemma js_sort_map_Fin (a : list R) :
  js_sort cmp_nsub (map Fin a) = map Fin (js_sort cmp_sub a).
Proof.
  induction a as [| x a IH]; [reflexivity |].
  simpl. now rewrite IH, sort_insert_map_Fin.
Qed.

(** Sorting commutes with an increasing map. *)
Lemma js_sort_map_increasing (g : R -> R) (a : list R) :
  (forall x y, x < y <-> g x < g y) ->
  js_sort cmp_sub (map g a) = map g (js_sort cmp_sub a).
Proof.
  intros Hg.
  assert (Hins : forall x l,
             sort_insert cmp_sub (g x) (map g l) = map g (sort_insert cmp_sub x l)).
  { intros x l. induction l as [| y l IH]; [reflexivity |].
    cbn [map sort_insert]. rewrite !cmp_sub_after.
    destruct (Rlt_dec (g y) (g x)) as [H | H], (Rlt_dec y x) as [H' | H'].
    - cbn [map]. now rewrite IH.
    - apply Hg in H. contradiction.
    - apply Hg in H'. contradiction.
    - reflexivity. }
  induction a as [| x a IH]; [reflexivity |].
  cbn [map js_sort]. now rewrite IH, Hins.
Qed.

End SortFacts.

Lemma Forall2_eq_repeat {A B : Type} (P : A -> B -> Prop) (a : A) (b : B)
  (l : list A) (m : list B) :
  (forall x y, P x y -> x = a /\ y = b) ->
  Forall2 P l m -> l = repeat a (length l) /\ m = repeat b (length l).
Proof.
  intros HP HF. induction HF as [| x y l m Hxy _ [IHl IHm]]; [now split |].
  destruct (HP _ _ Hxy) as [-> ->]. simpl. now rewrite <- IHl, <- IHm.
Qed.

Lemma from_0_below_length (n : Z) : length (from_0_below n) = Z.to_nat n.
Proof. apply length_seq. Qed.

Lemma from_1_to_length (n : Z) : length (from_1_to n) = Z.to_nat n.
Proof. apply length_seq. Qed.

Lemma zero_vol_drift (params : SimulationParams) :
  volatility params = 0 ->
  drift_of params = expectedReturn params * (1 / 252)
  /\ diffusion_of params = 0.
Proof.
  intros Hv. unfold drift_of, diffusion_of. rewrite Hv. split; ring.
Qed.

Lemma drift_path_unfold (cur er : R) (h : nat) :
  [cur] ++ map (fun j => cur * exp (er * (1 / 252) * INR j)) (seq 1 h)
  = drift_path cur er h.
Proof.
  unfold drift_path. cbn [seq map app]. f_equal.
  simpl INR. now rewrite Rmult_0_r, exp_0, Rmult_1_r.
Qed.

Lemma finish_all_drift (params : SimulationParams)
  (ps : list (list R)) (fs : list R) (t : tape) c t' :
  let h := Z.to_nat (timeHorizon params) in
  Forall2 (fun path price =>
             path = drift_path (currentPrice params) (expectedReturn params) h
             /\ price = drift_final (currentPrice params) (expectedReturn params) h)
          ps fs ->
  length ps = Z.to_nat (numSimulations params) ->
  finish (currentPrice params) (ps, fs) t = Some (c, t') ->
  all_drift_paths params c.
Proof.
  intros h HF Hlen Hfin.
  unfold finish, ret in Hfin. inversion Hfin; subst. clear Hfin.
  apply Forall2_eq_repeat with (a := drift_path (currentPrice params) (expectedReturn params) h)
                               (b := drift_final (currentPrice params) (expectedReturn params) h)
    in HF; [| now intros x y [-> ->]].
  destruct HF as [Hps Hfs]. rewrite Hlen in Hps, Hfs.
  eexists. split; [reflexivity |]. cbn [paths finalPrices]. split; [exact Hps |].
  rewrite Hfs. apply js_sort_repeat.
Qed.

(* ===================================================================== *)
(** ** Running the loops on a given tape *)
(* ===================================================================== *)

Lemma sim_body_run (step : nat -> R * list R -> Rand (R * list R))
  (days : list nat) (cur : R) (sim : nat) (ps : list (list R)) (fs : list R)
  (t : tape) :
  sim_body step days cur sim (ps, fs) t
  = match for_each days step (cur, [cur]) t with
    | Some ((price, path), t') => Some ((ps ++ [path], fs ++ [price]), t')
    | None => None
    end.
Proof.
  unfold sim_body, bind.
  destruct (for_each days step (cur, [cur]) t) as [[[price path] t'] |];
    reflexivity.
Qed.

Lemma plain_day_run (drift diffusion : R) (day : nat) (price : R)
  (path : list R) (u v : R) (t : tape) :
  u <> 0 -> v <> 0 ->
  MonteCarlo.day_step drift diffusion day (price, path) (u :: v :: t)
  = let z := sqrt (-2 * ln u) * cos (2 * PI * v) in
    Some ((price * exp (drift + diffusion * z),
           path ++ [price * exp (drift + diffusion * z)]), t).
Proof.
  intros Hu Hv. unfold MonteCarlo.day_step, bind.
  rewrite randomNormal_reads_two by assumption. reflexivity.
Qed.

(** A day on which the gate draw is below [jumpIntensity]: five draws. *)
Lemma enhanced_day_jump (drift diffusion : R) (day : nat) (price : R)
  (path : list R) (u v g u' v' : R) (t : tape) :
  u <> 0 -> v <> 0 -> g < Enhanced.jumpIntensity -> u' <> 0 -> v' <> 0 ->
  Enhanced.day_step drift diffusion day (price, path) (u :: v :: g :: u' :: v' :: t)
  = let z := sqrt (-2 * ln u) * cos (2 * PI * v) in
    let z' := sqrt (-2 * ln u') * cos (2 * PI * v') in
    let priceChange :=
      drift + diffusion * z + (Enhanced.jumpMean + Enhanced.jumpStd * z') in
    Some ((price * exp priceChange, path ++ [price * exp priceChange]), t).
Proof.
  intros Hu Hv Hg Hu' Hv'. unfold Enhanced.day_step.
  unfold bind at 1. rewrite randomNormal_reads_two by assumption.
  unfold bind at 1. unfold random.
  unfold bind at 1.
  destruct (Rlt_dec g Enhanced.jumpIntensity) as [_ | Hn]; [| contradiction].
  unfold bind at 1. rewrite randomNormal_reads_two by assumption.
  reflexivity.
Qed.

(** A day on which the gate draw is at or above [jumpIntensity]: three
    draws. *)
Lemma enhanced_day_gate_closed (drift diffusion : R) (day : nat) (price : R)
  (path : list R) (u v g : R) (t : tape) :
  u <> 0 -> v <> 0 -> Enhanced.jumpIntensity <= g ->
  Enhanced.day_step drift diffusion day (price, path) (u :: v :: g :: t)
  = let z := sqrt (-2 * ln u) * cos (2 * PI * v) in
    let priceChange := drift + diffusion * z in
    Some ((price * exp priceChange, path ++ [price * exp priceChange]), t).
Proof.
  intros Hu Hv Hg. unfold Enhanced.day_step.
  unfold bind at 1. rewrite randomNormal_reads_two by assumption.
  unfold bind at 1. unfold random.
  unfold bind at 1.
  destruct (Rlt_dec g Enhanced.jumpIntensity) as [Hlt | _]; [lra |].
  reflexivity.
Qed.

Lemma cos_quarter_turn : cos (2 * PI * 0.25) = 0.
Proof.
  replace (2 * PI * 0.25) with (PI / 2) by lra. apply cos_PI2.
Qed.

Lemma cos_half_turn : cos (2 * PI * 0.5) = -1.
Proof.
  replace (2 * PI * 0.5) with PI by lra. apply cos_PI.
Qed.

Lemma enhanced_jump_run :
  exists r,
    Enhanced.runMonteCarloSimulation flat_one_day jump_tape = Some (Returns r, [])
    /\ paths r = [[100; 100 * exp (-0.05)]].
Proof.
  eexists. split.
  - rewrite enhanced_run_unfold.
    unfold jump_tape, flat_one_day. cbn [numSimulations timeHorizon currentPrice].
    unfold from_0_below, from_1_to.
    change (Z.to_nat 1) with 1%nat. cbn [seq].
    unfold bind. rewrite for_each_cons, sim_body_run, for_each_cons.
    rewrite enhanced_day_jump by (unfold Enhanced.jumpIntensity; lra).
    cbv beta iota zeta. rewrite for_each_nil.
    cbv beta iota zeta. rewrite for_each_nil.
    unfold finish, ret. reflexivity.
  - cbn [paths app]. do 2 f_equal. f_equal. f_equal.
    unfold drift_of, diffusion_of, Enhanced.jumpMean, Enhanced.jumpStd.
    cbn [expectedReturn volatility].
    rewrite cos_quarter_turn. f_equal. rewrite !Rmult_0_r. lra.
Qed.

(* ===================================================================== *)
(** ** Enough draws give a result *)
(* ===================================================================== *)

Lemma within_draws_ret {A : Type} (a : A) : within_draws 0 (ret a).
Proof.
  intros t Hz _. exists a, t. repeat split; [exact Hz | lia].
Qed.

Lemma within_draws_bind {A B : Type} (k1 k2 : nat) (c : Rand A)
  (f : A -> Rand B) :
  within_draws k1 c -> (forall a, within_draws k2 (f a)) ->
  within_draws (k1 + k2) (bind c f).
Proof.
  intros Hc Hf t Hz Hlen.
  destruct (Hc t Hz ltac:(lia)) as (a & t1 & Hrun & Hz1 & Hl1).
  destruct (Hf a t1 Hz1 ltac:(lia)) as (b & t2 & Hrun2 & Hz2 & Hl2).
  exists b, t2. unfold bind. rewrite Hrun. repeat split; [exact Hrun2 | exact Hz2 | lia].
Qed.

Lemma within_draws_weaken {A : Type} (k k' : nat) (c : Rand A) :
  (k <= k')%nat -> within_draws k c -> within_draws k' c.
Proof.
  intros Hk Hc t Hz Hlen.
  destruct (Hc t Hz ltac:(lia)) as (a & t1 & Hrun & Hz1 & Hl1).
  exists a, t1. repeat split; [exact Hrun | exact Hz1 | lia].
Qed.

Lemma within_draws_random : within_draws 1 random.
Proof.
  intros [| u t] Hz Hlen; [simpl in Hlen; lia |].
  exists u, t. repeat split; [now inversion Hz | simpl; lia].
Qed.

Lemma within_draws_randomNormal : within_draws 2 randomNormal.
Proof.
  intros t Hz Hlen. destruct (randomNormal_total t Hz Hlen) as [z Hrun].
  exists z, (skipn 2 t). repeat split;
    [exact Hrun | now apply zero_free_skipn | rewrite length_skipn; lia].
Qed.

Lemma within_draws_for_each {St : Type} (k : nat) (body : nat -> St -> Rand St) :
  (forall i s, within_draws k (body i s)) ->
  forall idx s, within_draws (length idx * k) (for_each idx body s).
Proof.
  intros Hbody. induction idx as [| i idx IH]; intros s.
  - apply within_draws_ret.
  - cbn [length for_each]. replace (S (length idx) * k)%nat
      with (k + length idx * k)%nat by lia.
    apply within_draws_bind; [apply Hbody | exact IH].
Qed.

(** A jump-diffusion day reads three draws, or five when a jump fires. *)
Lemma within_draws_enhanced_day (drift diffusion : R) (day : nat)
  (s : R * list R) :
  within_draws 5 (Enhanced.day_step drift diffusion day s).
Proof.
  destruct s as [price path]. unfold Enhanced.day_step.
  apply (within_draws_bind 2 3); [apply within_draws_randomNormal |].
  intros z. apply (within_draws_bind 1 2); [apply within_draws_random |].
  intros g. apply (within_draws_bind 2 0).
  - destruct (Rlt_dec g Enhanced.jumpIntensity).
    + apply (within_draws_bind 2 0); [apply within_draws_randomNormal |].
      intros z'. apply within_draws_ret.
    + apply (within_draws_weaken 0); [lia | apply within_draws_ret].
  - intros pc. apply within_draws_ret.
Qed.

Lemma within_draws_plain_day (drift diffusion : R) (day : nat) (s : R * list R) :
  within_draws 2 (MonteCarlo.day_step drift diffusion day s).
Proof.
  destruct s as [price path]. unfold MonteCarlo.day_step.
  apply (within_draws_bind 2 0); [apply within_draws_randomNormal |].
  intros z. apply within_draws_ret.
Qed.

Lemma within_draws_sim_body (k : nat)
  (step : nat -> R * list R -> Rand (R * list R)) (days : list nat) (cur : R)
  (sim : nat) (s : list (list R) * list R) :
  (forall day s, within_draws k (step day s)) ->
  within_draws (length days * k) (sim_body step days cur sim s).
Proof.
  intros Hstep. destruct s as [ps fs]. unfold sim_body.
  replace (length days * k)%nat with (length days * k + 0)%nat by lia.
  apply within_draws_bind; [now apply within_draws_for_each |].
  intros [price path]. apply within_draws_ret.
Qed.

(** Both versions return a result holding [numSimulations] paths once the
    tape is long enough: two draws per simulated day for the plain one,
    five for the jump-diffusion one. *)
Lemma monte_carlo_returns (params : SimulationParams) (t : tape) :
  let n := Z.to_nat (numSimulations params) in
  let h := Z.to_nat (timeHorizon params) in
  zero_free t ->
  ((n * (h * 2) <= length t)%nat ->
   exists r t',
     MonteCarlo.runMonteCarloSimulation params t = Some (Returns r, t')
     /\ length (paths r) = n)
  /\ ((n * (h * 5) <= length t)%nat ->
      exists r t',
        Enhanced.runMonteCarloSimulation params t = Some (Returns r, t')
        /\ length (paths r) = n).
Proof.
  intros n h Hz.
  assert (Hgen : forall (k : nat) (step : nat -> R * list R -> Rand (R * list R)),
             (forall day s, within_draws k (step day s)) ->
             (n * (h * k) <= length t)%nat ->
             exists r t',
               bind (for_each (from_0_below (numSimulations params))
                       (sim_body step (from_1_to (timeHorizon params))
                                 (currentPrice params))
                       ([], []))
                    (finish (currentPrice params)) t
               = Some (Returns r, t')
               /\ length (paths r) = n).
  { intros k step Hstep Hlen.
    destruct (within_draws_for_each (length (from_1_to (timeHorizon params)) * k)
                (sim_body step (from_1_to (timeHorizon params)) (currentPrice params))
                (fun sim s => within_draws_sim_body k step _ _ sim s Hstep)
                (from_0_below (numSimulations params)) ([], []) t Hz)
      as ([ps fs] & t1 & Hloop & _ & _).
    - rewrite from_0_below_length, from_1_to_length. exact Hlen.
    - unfold bind. rewrite Hloop. unfold finish, ret.
      eexists. eexists. split; [reflexivity |]. cbn [paths].
      eapply sim_loop_inv
        with (suitable := fun _ => True) (good := fun _ _ => True)
        in Hloop; [| | exact I | constructor].
      + destruct Hloop as [_ Hl]. rewrite Hl, from_0_below_length. reflexivity.
      + intros. split; exact I. }
  split; intros Hlen.
  - rewrite plain_run_unfold. apply (Hgen 2%nat); [| exact Hlen].
    intros day s. apply within_draws_plain_day.
  - rewrite enhanced_run_unfold. apply (Hgen 5%nat); [| exact Hlen].
    intros day s. apply within_draws_enhanced_day.
Qed.

(* ===================================================================== *)
(** ** C1: zero volatility *)
(* ===================================================================== *)

(** C1, as stated, fails on the jump-diffusion version: with
    [volatility = 0], one day, one path and a gate draw of [0.01] (below
    [jumpIntensity = 0.02]) the day's log-return gets the jump
    [jumpMean + jumpStd * 0 = -0.05], so the path is
    [[100, 100 * exp(-0.05)]] and not [[100, 100]]. *)
Lemma zero_volatility_jump_counterexample :
  volatility flat_one_day = 0
  /\ valid_tape jump_tape
  /\ exists c,
       Enhanced.runMonteCarloSimulation flat_one_day jump_tape = Some (c, [])
       /\ ~ all_drift_paths flat_one_day c.
Proof.
  split; [reflexivity |]. split.
  - unfold valid_tape, jump_tape. repeat constructor; lra.
  - destruct enhanced_jump_run as (r & Hrun & Hpaths).
    exists (Returns r). split; [exact Hrun |].
    intros (r' & Heq & Hp & _). inversion Heq; subst r'. clear Heq.
    rewrite Hpaths in Hp. unfold flat_one_day in Hp.
    cbn [numSimulations timeHorizon currentPrice expectedReturn] in Hp.
    change (Z.to_nat 1) with 1%nat in Hp.
    unfold drift_path in Hp. cbn [repeat seq map] in Hp.
    injection Hp as _ H1.
    assert (Hlt : exp (-0.05) < exp 0) by (apply exp_increasing; lra).
    rewrite exp_0 in Hlt.
    replace (0 * (1 / 252) * 1) with 0 in H1 by lra.
    rewrite exp_0 in H1. lra.
Qed.

Lemma compounded_path_closed_form (cur er : R) (h : nat) :
  compounded_path cur er h = drift_path cur er h.
Proof.
  unfold compounded_path. rewrite compound_closed_form.
  apply drift_path_unfold.
Qed.

Lemma enhanced_quiet_run :
  exists r,
    Enhanced.runMonteCarloSimulation flat_one_day quiet_tape
    = Some (Returns r, []).
Proof.
  eexists.
  rewrite enhanced_run_unfold.
  unfold quiet_tape, flat_one_day. cbn [numSimulations timeHorizon currentPrice].
  unfold from_0_below, from_1_to.
  change (Z.to_nat 1) with 1%nat. cbn [seq].
  unfold bind. rewrite for_each_cons, sim_body_run, for_each_cons.
  rewrite enhanced_day_gate_closed by (unfold Enhanced.jumpIntensity; lra).
  cbv beta iota zeta. rewrite for_each_nil.
  cbv beta iota zeta. rewrite for_each_nil.
  unfold finish, ret. reflexivity.
Qed.

Lemma quiet_tape_no_jump : no_jump 1 quiet_tape.
Proof.
  unfold quiet_tape. cbn [no_jump].
  rewrite randomNormal_reads_two by lra. cbn [random].
  unfold Enhanced.jumpIntensity. split; [lra | exact I].
Qed.

(** C1, amended.  With [volatility = 0]:
    - the plain [runMonteCarloSimulation] returns, whatever the draws,
      [numSimulations] copies of the path that starts at [currentPrice]
      and is multiplied by [exp(drift)] every day,
      [drift = expectedReturn * (1/252)]; in exact arithmetic that is the
      path [currentPrice * exp(drift * d)], [d = 0 .. timeHorizon]; and it
      does return when the tape holds two non-zero draws per day;
    - the jump-diffusion version returns the same result on every run in
      which no jump fires, that is, each simulated day's gate draw is at
      or above [jumpIntensity], whatever the draws of the shocks; and it
      does return when the tape holds five non-zero draws per day;
    - on a day whose gate draw is below [jumpIntensity] the
      jump-diffusion version multiplies the price by
      [exp(drift + jumpMean + jumpStd * z)] instead, [z] being the shock of
      the jump. *)
Theorem zero_volatility_paths (params : SimulationParams) :
  volatility params = 0 ->
  let n := Z.to_nat (numSimulations params) in
  let h := Z.to_nat (timeHorizon params) in
  let drift := expectedReturn params * (1 / 252) in
  (forall t c t',
      MonteCarlo.runMonteCarloSimulation params t = Some (c, t') ->
      all_drift_paths params c)
  /\ (forall t,
         zero_free t -> (n * (2 * h) <= length t)%nat ->
         exists c,
           MonteCarlo.runMonteCarloSimulation params t
           = Some (c, skipn (n * (2 * h)) t))
  /\ (forall t c t',
         no_jump (n * h) t ->
         Enhanced.runMonteCarloSimulation params t = Some (c, t') ->
         all_drift_paths params c)
  /\ (forall t,
         zero_free t -> (n * (h * 5) <= length t)%nat ->
         exists c t',
           Enhanced.runMonteCarloSimulation params t = Some (c, t'))
  /\ drift_path (currentPrice params) (expectedReturn params) h
     = compounded_path (currentPrice params) (expectedReturn params) h
  /\ (forall day price path u v gate u' v' t,
         u <> 0 -> v <> 0 -> gate < Enhanced.jumpIntensity ->
         u' <> 0 -> v' <> 0 ->
         let z := sqrt (-2 * ln u') * cos (2 * PI * v') in
         let price' :=
           price * exp (drift + (Enhanced.jumpMean + Enhanced.jumpStd * z)) in
         Enhanced.day_step (drift_of params) (diffusion_of params) day
                           (price, path) (u :: v :: gate :: u' :: v' :: t)
         = Some ((price', path ++ [price']), t)).
Proof.
  intros Hv n h drift.
  destruct (zero_vol_drift params Hv) as [Hdrift Hdiff].
  split; [| split; [| split; [| split; [| split]]]].
  - intros t c t' Hrun.
    rewrite plain_run_unfold, Hdrift, Hdiff in Hrun. unfold bind in Hrun.
    destruct (for_each _ _ _ t) as [[[ps fs] t1] |] eqn:Hloop; [| discriminate].
    eapply sim_loop_inv
      with (suitable := fun _ => True)
           (good := fun path price =>
              path = drift_path (currentPrice params) (expectedReturn params) h
              /\ price = drift_final (currentPrice params) (expectedReturn params) h)
      in Hloop; [| | exact I | constructor].
    + destruct Hloop as [HF Hlen].
      eapply finish_all_drift; [exact HF | | exact Hrun].
      rewrite Hlen, from_0_below_length. reflexivity.
    + intros t0 price path t0' _ Hin.
      apply plain_days_no_diffusion in Hin. destruct Hin as [Hp Hpath].
      rewrite from_1_to_length in Hp, Hpath. split; [| exact I]. split.
      * rewrite Hpath. apply drift_path_unfold.
      * exact Hp.
  - intros t Hz Hlen. rewrite plain_run_unfold. unfold bind.
    destruct (sim_loop_total
                (MonteCarlo.day_step (drift_of params) (diffusion_of params))
                (from_1_to (timeHorizon params)) (currentPrice params)
                zero_free (2 * h)%nat
                (fun m t0 => zero_free_skipn m t0)) with
      (sims := from_0_below (numSimulations params)) (s := (@nil (list R), @nil R)) (t := t)
      as [[ps fs] Hloop].
    + intros t0 Hz0 Hlen0.
      destruct (plain_days_total (drift_of params) (diffusion_of params)
                  (from_1_to (timeHorizon params)) (currentPrice params, [currentPrice params]) t0 Hz0)
        as [s' Hs'].
      * rewrite from_1_to_length. exact Hlen0.
      * exists s'. rewrite Hs', from_1_to_length. reflexivity.
    + exact Hz.
    + rewrite from_0_below_length. exact Hlen.
    + rewrite Hloop, from_0_below_length. eexists. reflexivity.
  - intros t c t' Hq Hrun.
    rewrite enhanced_run_unfold, Hdrift, Hdiff in Hrun. unfold bind in Hrun.
    destruct (for_each _ _ _ t) as [[[ps fs] t1] |] eqn:Hloop; [| discriminate].
    eapply sim_loop_counted
      with (suitable := fun m t0 => no_jump (m * h) t0)
           (good := fun path price =>
              path = drift_path (currentPrice params) (expectedReturn params) h
              /\ price = drift_final (currentPrice params) (expectedReturn params) h)
      in Hloop; [| | rewrite from_0_below_length; exact Hq | constructor].
    + destruct Hloop as [HF Hlen].
      eapply finish_all_drift; [exact HF | | exact Hrun].
      rewrite Hlen, from_0_below_length. reflexivity.
    + intros m t0 price path t0' Hq0 Hin.
      apply (enhanced_days_quiet _ _ _ _ _ _ _ _ (m * h)%nat) in Hin.
      * destruct Hin as (Hp & Hpath & Hq').
        rewrite from_1_to_length in Hp, Hpath. split; [| exact Hq']. split.
        -- rewrite Hpath. apply drift_path_unfold.
        -- exact Hp.
      * rewrite from_1_to_length. exact Hq0.
  - intros t Hz Hlen.
    destruct (monte_carlo_returns params t Hz) as [_ Henh].
    destruct Henh as (r & t' & Hrun & _); [exact Hlen |]. eauto.
  - symmetry. apply compounded_path_closed_form.
  - intros day price path u v gate u' v' t Hu Hnv Hgate Hu' Hv' z price'.
    rewrite enhanced_day_jump by assumption. cbv zeta.
    rewrite Hdrift, Hdiff. unfold price', z, drift.
    replace (expectedReturn params * (1 / 252)
             + 0 * (sqrt (-2 * ln u) * cos (2 * PI * v))
             + (Enhanced.jumpMean
                + Enhanced.jumpStd * (sqrt (-2 * ln u') * cos (2 * PI * v'))))
      with (expectedReturn params * (1 / 252)
            + (Enhanced.jumpMean
               + Enhanced.jumpStd * (sqrt (-2 * ln u') * cos (2 * PI * v'))))
      by ring.
    reflexivity.
Qed.

Lemma zero_free_repeat (u : R) (n : nat) : u <> 0 -> zero_free (repeat u n).
Proof.
  intros Hu. induction n as [| n IH]; simpl; constructor; assumption.
Qed.

Lemma zero_volatility_paths_witness :
  (exists r,
      MonteCarlo.runMonteCarloSimulation flat_ten_days (repeat 0.5 20)
      = Some (Returns r, [])
      /\ finalPrices r = [100])
  /\ (exists r,
         Enhanced.runMonteCarloSimulation flat_one_day quiet_tape
         = Some (Returns r, [])
         /\ paths r = [[100; 100]]).
Proof.
  split.
  - destruct (zero_volatility_paths flat_ten_days eq_refl) as (Hdet & Htot & _).
    destruct (Htot (repeat 0.5 20)) as [c Hc].
    + apply zero_free_repeat. lra.
    + vm_compute. lia.
    + destruct (Hdet _ _ _ Hc) as (r & -> & _ & Hfinal).
      exists r. split.
      * exact Hc.
      * rewrite Hfinal. unfold drift_final, flat_ten_days.
        cbn [numSimulations timeHorizon currentPrice expectedReturn].
        change (Z.to_nat 1) with 1%nat. cbn [repeat]. f_equal.
        rewrite !Rmult_0_l, exp_0. lra.
  - destruct (zero_volatility_paths flat_one_day eq_refl) as (_ & _ & Hquiet & _).
    destruct enhanced_quiet_run as [r Hr].
    destruct (Hquiet _ _ _ quiet_tape_no_jump Hr) as (r' & Heq & Hp & _).
    inversion Heq; subst r'. exists r. split; [exact Hr |].
    rewrite Hp. unfold flat_one_day, drift_path.
    cbn [numSimulations timeHorizon currentPrice expectedReturn].
    change (Z.to_nat 1) with 1%nat. cbn [repeat seq map INR].
    rewrite !Rmult_0_l, exp_0, !Rmult_1_r. reflexivity.
Defined.

(* ===================================================================== *)
(** ** C10: the final prices are sorted in place *)
(* ===================================================================== *)

Lemma Forall2_terminal (ps : list (list R)) (fs : list R) :
  Forall2 (fun path price => last path 0 = price) ps fs ->
  fs = terminal_prices ps.
Proof.
  intros HF. induction HF as [| path price ps fs Hl _ IH]; [reflexivity |].
  simpl. now rewrite Hl, IH.
Qed.

Lemma finish_sorted_view (cur : R) (ps : list (list R)) (fs : list R)
  (t : tape) c t' :
  Forall2 (fun path price => last path 0 = price) ps fs ->
  finish cur (ps, fs) t = Some (c, t') ->
  sorted_view c.
Proof.
  intros HF Hfin. unfold finish, ret in Hfin. inversion Hfin; subst. clear Hfin.
  eexists. split; [reflexivity |]. cbn [paths finalPrices]. split.
  - apply js_sort_sorted.
  - rewrite <- (Forall2_terminal ps fs HF). apply js_sort_perm.
Qed.

Lemma two_paths_run :
  let lo := 100 * exp (drift_of two_paths
                       + diffusion_of two_paths * (sqrt (-2 * ln 0.5) * -1)) in
  let hi := 100 * exp (drift_of two_paths
                       + diffusion_of two_paths * (sqrt (-2 * ln 0.5) * 0)) in
  lo < hi
  /\ MonteCarlo.runMonteCarloSimulation two_paths two_paths_tape
     = Some (Returns {| paths := [[100; hi]; [100; lo]];
                        finalPrices := [lo; hi];
                        statistics := summarize 100 [lo; hi] |}, []).
Proof.
  intros lo hi.
  assert (Hlt : lo < hi).
  { unfold lo, hi. apply Rmult_lt_compat_l; [lra |]. apply exp_increasing.
    apply Rplus_lt_compat_l.
    assert (Hs : 0 < sqrt (-2 * ln 0.5)).
    { apply sqrt_lt_R0.
      assert (ln 0.5 < ln 1) by (apply ln_increasing; lra).
      rewrite ln_1 in H. lra. }
    assert (Hd : 0 < diffusion_of two_paths).
    { unfold diffusion_of, two_paths. cbn [volatility].
      apply Rmult_lt_0_compat; [lra |]. apply sqrt_lt_R0. lra. }
    nra. }
  split; [exact Hlt |].
  rewrite plain_run_unfold. unfold lo, hi in *. clear lo hi.
  set (dr := drift_of two_paths) in *. set (df := diffusion_of two_paths) in *.
  unfold two_paths_tape, two_paths.
  cbn [numSimulations timeHorizon currentPrice].
  unfold from_0_below, from_1_to.
  change (Z.to_nat 1) with 1%nat. change (Z.to_nat 2) with 2%nat. cbn [seq].
  unfold bind.
  rewrite for_each_cons, sim_body_run, for_each_cons.
  rewrite plain_day_run by lra. cbv beta iota zeta. rewrite for_each_nil.
  cbv beta iota zeta.
  rewrite for_each_cons, sim_body_run, for_each_cons.
  rewrite plain_day_run by lra. cbv beta iota zeta. rewrite for_each_nil.
  cbv beta iota zeta. rewrite for_each_nil.
  rewrite cos_quarter_turn, cos_half_turn.
  unfold finish, ret. cbn [app js_sort sort_insert].
  rewrite cmp_sub_after.
  destruct (Rlt_dec _ _) as [_ | Hn]; [| contradiction].
  reflexivity.
Qed.

Lemma two_paths_enhanced_run :
  let lo := 100 * exp (drift_of two_paths
                       + diffusion_of two_paths * (sqrt (-2 * ln 0.5) * -1)) in
  let hi := 100 * exp (drift_of two_paths
                       + diffusion_of two_paths * (sqrt (-2 * ln 0.5) * 0)) in
  lo < hi
  /\ Enhanced.runMonteCarloSimulation two_paths two_paths_gated_tape
     = Some (Returns {| paths := [[100; hi]; [100; lo]];
                        finalPrices := [lo; hi];
                        statistics := summarize 100 [lo; hi] |}, []).
Proof.
  intros lo hi.
  split; [exact (proj1 two_paths_run) |].
  pose proof (proj1 two_paths_run) as Hlt. cbv zeta in Hlt.
  rewrite enhanced_run_unfold. unfold lo, hi in *. clear lo hi.
  set (dr := drift_of two_paths) in *. set (df := diffusion_of two_paths) in *.
  unfold two_paths_gated_tape, two_paths.
  cbn [numSimulations timeHorizon currentPrice].
  unfold from_0_below, from_1_to.
  change (Z.to_nat 1) with 1%nat. change (Z.to_nat 2) with 2%nat. cbn [seq].
  unfold bind.
  rewrite for_each_cons, sim_body_run, for_each_cons.
  rewrite enhanced_day_gate_closed by (unfold Enhanced.jumpIntensity; lra).
  cbv beta iota zeta. rewrite for_each_nil.
  cbv beta iota zeta.
  rewrite for_each_cons, sim_body_run, for_each_cons.
  rewrite enhanced_day_gate_closed by (unfold Enhanced.jumpIntensity; lra).
  cbv beta iota zeta. rewrite for_each_nil.
  cbv beta iota zeta. rewrite for_each_nil.
  rewrite cos_quarter_turn, cos_half_turn.
  unfold finish, ret. cbn [app js_sort sort_insert].
  rewrite cmp_sub_after.
  destruct (Rlt_dec _ _) as [_ | Hn]; [| contradiction].
  reflexivity.
Qed.

Lemma finish_one_per_simulation (params : SimulationParams)
  (ps : list (list R)) (fs : list R) (t : tape) c t' :
  Forall2 (fun path price => last path 0 = price) ps fs ->
  length ps = Z.to_nat (numSimulations params) ->
  finish (currentPrice params) (ps, fs) t = Some (c, t') ->
  one_per_simulation params c.
Proof.
  intros HF Hlen Hfin. unfold finish, ret in Hfin. inversion Hfin; subst.
  clear Hfin. eexists. split; [reflexivity |]. cbn [paths finalPrices].
  split; [exact Hlen |].
  rewrite (Permutation_length (js_sort_perm cmp_sub fs)).
  rewrite <- (Forall2_length HF). exact Hlen.
Qed.

(** C10.  Both versions of [runMonteCarloSimulation] return [finalPrices]
    after the in-place sort: the result holds one path and one final price
    per simulation, the returned array of final prices is ascending and is
    a permutation of the last elements of the returned paths; and they do
    return once the tape holds five non-zero draws per simulated day.  The
    index correspondence with [paths] is lost: in the run [two_paths] of
    either version the first final price differs from the last element of
    the first path. *)
Theorem finalPrices_sorted_in_place :
  (forall params t c t',
      MonteCarlo.runMonteCarloSimulation params t = Some (c, t') ->
      sorted_view c /\ one_per_simulation params c)
  /\ (forall params t c t',
         Enhanced.runMonteCarloSimulation params t = Some (c, t') ->
         sorted_view c /\ one_per_simulation params c)
  /\ (forall params t,
         let n := Z.to_nat (numSimulations params) in
         let h := Z.to_nat (timeHorizon params) in
         zero_free t -> (n * (h * 5) <= length t)%nat ->
         (exists c t',
             MonteCarlo.runMonteCarloSimulation params t = Some (c, t'))
         /\ (exists c t',
                Enhanced.runMonteCarloSimulation params t = Some (c, t')))
  /\ (exists r,
         valid_tape two_paths_tape
         /\ MonteCarlo.runMonteCarloSimulation two_paths two_paths_tape
            = Some (Returns r, [])
         /\ first_price_displaced r)
  /\ (exists r,
         valid_tape two_paths_gated_tape
         /\ Enhanced.runMonteCarloSimulation two_paths two_paths_gated_tape
            = Some (Returns r, [])
         /\ first_price_displaced r).
Proof.
  split; [| split; [| split; [| split]]].
  - intros params t c t' Hrun.
    rewrite plain_run_unfold in Hrun. unfold bind in Hrun.
    destruct (for_each _ _ _ t) as [[[ps fs] t1] |] eqn:Hloop; [| discriminate].
    eapply sim_loop_inv
      with (suitable := fun _ => True)
           (good := fun path price => last path 0 = price)
      in Hloop; [| | exact I | constructor].
    + destruct Hloop as [HF Hlen]. split.
      * eapply finish_sorted_view; eassumption.
      * eapply finish_one_per_simulation; [exact HF | | exact Hrun].
        rewrite Hlen, from_0_below_length. reflexivity.
    + intros t0 price path t0' _ Hin. split; [| exact I].
      apply plain_days_shape in Hin; [apply Hin | reflexivity].
  - intros params t c t' Hrun.
    rewrite enhanced_run_unfold in Hrun. unfold bind in Hrun.
    destruct (for_each _ _ _ t) as [[[ps fs] t1] |] eqn:Hloop; [| discriminate].
    eapply sim_loop_inv
      with (suitable := fun _ => True)
           (good := fun path price => last path 0 = price)
      in Hloop; [| | exact I | constructor].
    + destruct Hloop as [HF Hlen]. split.
      * eapply finish_sorted_view; eassumption.
      * eapply finish_one_per_simulation; [exact HF | | exact Hrun].
        rewrite Hlen, from_0_below_length. reflexivity.
    + intros t0 price path t0' _ Hin. split; [| exact I].
      apply enhanced_days_shape in Hin; [apply Hin | reflexivity].
  - intros params t n h Hz Hlen.
    destruct (monte_carlo_returns params t Hz) as [Hplain Henh]. split.
    + destruct Hplain as (r & t' & Hrun & _); [fold n h; lia |]. eauto.
    + destruct Henh as (r & t' & Hrun & _); [exact Hlen |]. eauto.
  - destruct two_paths_run as [Hlt Hrun].
    eexists. split; [| split; [exact Hrun |]].
    + unfold valid_tape, two_paths_tape. repeat constructor; lra.
    + eexists. eexists. cbn [finalPrices paths nth_error option_map last].
      split; [reflexivity |]. split; [reflexivity |]. lra.
  - destruct two_paths_enhanced_run as [Hlt Hrun].
    eexists. split; [| split; [exact Hrun |]].
    + unfold valid_tape, two_paths_gated_tape. repeat constructor; lra.
    + eexists. eexists. cbn [finalPrices paths nth_error option_map last].
      split; [reflexivity |]. split; [reflexivity |]. lra.
Qed.

Lemma finalPrices_sorted_in_place_witness :
  exists r,
    Enhanced.runMonteCarloSimulation two_paths two_paths_gated_tape
    = Some (Returns r, [])
    /\ Sorted Rle (finalPrices r)
    /\ Permutation (finalPrices r) (terminal_prices (paths r))
    /\ length (finalPrices r) = 2%nat.
Proof.
  destruct two_paths_enhanced_run as [_ Hrun].
  destruct (proj1 (proj2 finalPrices_sorted_in_place) _ _ _ _ Hrun)
    as [(r & Heq & Hsorted & Hperm) (r' & Heq' & _ & Hlen)].
  exists r. rewrite Heq in Hrun. rewrite Heq in Heq'.
  inversion Heq'; subst r'.
  repeat split; assumption.
Defined.

(* ===================================================================== *)
(** ** C8: zero denominators in the Sharpe and Sortino ratios *)
(* ===================================================================== *)

Lemma nsqrt_zero (a : R) : a = 0 -> nsqrt (Fin a) = Fin 0.
Proof. intros ->. rewrite nsqrt_fin by lra. now rewrite sqrt_0. Qed.

(** The unguarded quotient [(averageReturn - 0.03) / returnStd] of the two
    versions of [calculateRiskMetrics], for the single final price 103
    against a current price of 100: the return is exactly 3%, its standard
    deviation is zero, and the quotient is [0 / 0]. *)
Lemma flat_return_sharpe_quotient :
  let returns := map (fractional_return 100) [103] in
  let averageReturn := ndiv (sumN returns) (Fin (js_length returns)) in
  let returnStd :=
    nsqrt (ndiv (sum_sq_dev averageReturn returns) (Fin (js_length returns))) in
  ndiv (nsub averageReturn (Fin 0.03)) returnStd = NaN.
Proof.
  cbv zeta. unfold fractional_return, js_length, sum_sq_dev.
  num_eval. rewrite nsqrt_zero by lra.
  apply ndiv_zero_zero; lra.
Qed.

(** C8 fails on the code: for [finalPrices = [103]] and
    [currentPrice = 100] both versions of [calculateRiskMetrics] return
    [NaN] as [sharpeRatio]; and the portfolio statistics of a single final
    value equal to the initial value have a [NaN] [sharpeRatio] too. *)
Theorem sharpe_ratio_nan_on_zero_volatility :
  RiskBasic.sharpeRatio
    (RiskBasic.calculateRiskMetrics [103] 100 default_confidence) = NaN
  /\ Enhanced.sharpeRatio
       (Enhanced.calculateRiskMetrics [103] 100 default_confidence) = NaN
  /\ Portfolio.sharpeRatio (Portfolio.portfolio_statistics [Fin 100] 100) = NaN.
Proof.
  split; [| split].
  - exact flat_return_sharpe_quotient.
  - exact flat_return_sharpe_quotient.
  - unfold Portfolio.portfolio_statistics. cbn [Portfolio.sharpeRatio].
    unfold js_length, sum_sq_dev.
    num_eval. rewrite nsqrt_zero by lra. cbn [nmul].
    apply ndiv_zero_zero; lra.
Qed.

(** The sibling implementation guards its quotients. *)
Lemma guarded_quotient (a : R) (y : num) :
  ngtb y (Fin 0) = true -> is_nan (ndiv (Fin a) y) = false.
Proof.
  unfold ngtb. destruct y as [v | | |]; cbn [nltb]; try discriminate.
  - destruct (Rlt_dec 0 v) as [Hv | _]; [| discriminate]. intros _.
    rewrite ndiv_fin by lra. reflexivity.
  - reflexivity.
Qed.

Lemma mean_of_nonempty (x : R) (returns : list R) :
  RiskManager.mean_of (x :: returns)
  = Fin (sumR (x :: returns) / INR (length (x :: returns))).
Proof.
  unfold RiskManager.mean_of, js_length. apply ndiv_fin.
  cbn [length]. rewrite S_INR. pose proof (pos_INR (length returns)). lra.
Qed.

Lemma empty_series_volatility (periods : R) :
  ngtb (RiskManager.calculateVolatility [] periods) (Fin 0) = false.
Proof.
  unfold RiskManager.calculateVolatility, RiskManager.mean_of, js_length.
  cbn [length INR fold_left sumR].
  rewrite (ndiv_fin 0 (0 - 1)) by lra. cbn [nmul].
  rewrite nsqrt_zero by lra. unfold ngtb. apply nltb_fin_false. lra.
Qed.

(** [RiskManager.calculateSharpeRatio] and [RiskManager.calculateSortino]
    never return [NaN]: a denominator that is not positive (zero, or [NaN]
    from an empty or one-element series) yields the sentinel 0. *)
Lemma RiskManager_ratios_never_nan (returns : list R) (rate periods : R) :
  is_nan (RiskManager.calculateSharpeRatio returns rate periods) = false
  /\ is_nan (RiskManager.calculateSortino returns rate periods) = false.
Proof.
  split.
  - unfold RiskManager.calculateSharpeRatio.
    destruct (ngtb (RiskManager.calculateVolatility returns periods) (Fin 0))
      eqn:Hpos; [| reflexivity].
    destruct returns as [| x returns].
    + now rewrite empty_series_volatility in Hpos.
    + rewrite mean_of_nonempty. cbn [nmul nsub nneg nadd].
      now apply guarded_quotient.
  - unfold RiskManager.calculateSortino.
    destruct (length (filter _ returns) =? 0)%nat eqn:Hlen; [reflexivity |].
    match goal with
    | |- is_nan (if ngtb ?d _ then _ else _) = false =>
        destruct (ngtb d (Fin 0)) eqn:Hpos; [| reflexivity]
    end.
    destruct returns as [| x returns]; [discriminate |].
    rewrite mean_of_nonempty. cbn [nmul nsub nneg nadd].
    now apply guarded_quotient.
Qed.

(* ===================================================================== *)
(** ** C6: no parameter is validated *)
(* ===================================================================== *)

Lemma returns_not_rejects {A : Type} (c : completion A) :
  returns_normally c -> ~ rejects c.
Proof. intros [r ->] [m Hm]. discriminate. Qed.

(** With no day to simulate, each path is the one-element array
    [[currentPrice]] and the tape is not read. *)
Lemma sim_loop_no_days (step : nat -> R * list R -> Rand (R * list R))
  (cur : R) (sims : list nat) :
  forall ps fs t,
    for_each sims (sim_body step [] cur) (ps, fs) t
    = Some ((ps ++ repeat [cur] (length sims), fs ++ repeat cur (length sims)), t).
Proof.
  induction sims as [| sim sims IH]; intros ps fs t.
  - simpl. now rewrite !app_nil_r.
  - rewrite for_each_cons, sim_body_run, for_each_nil. rewrite IH.
    cbn [length repeat]. now rewrite <- !app_assoc.
Qed.

Lemma no_days (h : Z) : (h <= 0)%Z -> from_1_to h = [].
Proof.
  intros Hh. unfold from_1_to.
  replace (Z.to_nat h) with 0%nat by lia. reflexivity.
Qed.

Lemma portfolio_run_unfold (assetData : list Portfolio.Asset)
  (timeHorizon numSimulations : Z) :
  Portfolio.runPortfolioSimulation assetData timeHorizon numSimulations
  = bind (for_each (from_0_below numSimulations)
            (portfolio_sim_body assetData
               (Portfolio.calculateCorrelationMatrix assetData) timeHorizon
               (portfolio_initial_value assetData))
            ([], [],
             fold_left (fun o asset => Portfolio.obj_set o (Portfolio.ticker asset) [])
                       assetData []))
         (portfolio_finish (portfolio_initial_value assetData)).
Proof. reflexivity. Qed.

Lemma portfolio_loop_no_days (assetData : list Portfolio.Asset)
  (correlations : list (list R)) (h : Z) (iv : R) (sims : list nat) :
  (h <= 0)%Z ->
  forall pp fv ap t,
    exists ap',
      for_each sims (portfolio_sim_body assetData correlations h iv) (pp, fv, ap) t
      = Some ((pp ++ repeat [Fin iv] (length sims),
               fv ++ repeat (Fin iv) (length sims), ap'), t).
Proof.
  intros Hh. induction sims as [| sim sims IH]; intros pp fv ap t.
  - exists ap. simpl. now rewrite !app_nil_r.
  - rewrite for_each_cons. unfold portfolio_sim_body at 1.
    rewrite (no_days h Hh). unfold bind at 1. rewrite for_each_nil.
    unfold ret at 1.
    match goal with
    | |- exists _, for_each _ _ (_, _, ?a) _ = _ =>
        destruct (IH (pp ++ [[Fin iv]]) (fv ++ [to_number (js_last [Fin iv])]) a t)
          as [ap' Hap']
    end.
    exists ap'. rewrite Hap'. cbn [length repeat].
    now rewrite <- !app_assoc.
Qed.

Lemma monte_carlo_no_days (params : SimulationParams) (t : tape) :
  (timeHorizon params <= 0)%Z ->
  let n := Z.to_nat (numSimulations params) in
  let r := {| paths := repeat [currentPrice params] n;
              finalPrices := repeat (currentPrice params) n;
              statistics :=
                summarize (currentPrice params) (repeat (currentPrice params) n) |} in
  MonteCarlo.runMonteCarloSimulation params t = Some (Returns r, t)
  /\ Enhanced.runMonteCarloSimulation params t = Some (Returns r, t).
Proof.
  intros Hh n r. rewrite plain_run_unfold, enhanced_run_unfold. unfold bind.
  rewrite (no_days _ Hh), !sim_loop_no_days, from_0_below_length.
  unfold finish, ret. cbn [app]. rewrite js_sort_repeat.
  split; reflexivity.
Qed.

Lemma portfolio_no_days (assetData : list Portfolio.Asset) (h n : Z) (t : tape) :
  (h <= 0)%Z ->
  exists r,
    Portfolio.runPortfolioSimulation assetData h n t = Some (Returns r, t)
    /\ Portfolio.paths r
       = repeat [Fin (portfolio_initial_value assetData)] (Z.to_nat n).
Proof.
  intros Hh. rewrite portfolio_run_unfold. unfold bind.
  match goal with
  | |- context [for_each ?sims ?body (?pp, ?fv, ?ap) t] =>
      destruct (portfolio_loop_no_days assetData
                  (Portfolio.calculateCorrelationMatrix assetData) h
                  (portfolio_initial_value assetData) sims Hh pp fv ap t)
        as [ap' Hap']
  end.
  rewrite Hap', from_0_below_length. unfold portfolio_finish, ret.
  eexists. split; reflexivity.
Qed.

(** C6, as stated, fails: with [currentPrice = -5] and [timeHorizon = 0]
    the three entry points return a complete result, the one path
    [[-5]]; none of them throws. *)
Lemma invalid_parameters_counterexample :
  currentPrice negative_price_no_days <= 0
  /\ (timeHorizon negative_price_no_days <= 0)%Z
  /\ (exists r,
         MonteCarlo.runMonteCarloSimulation negative_price_no_days []
         = Some (Returns r, [])
         /\ paths r = [[-5]] /\ finalPrices r = [-5])
  /\ (exists r,
         Enhanced.runMonteCarloSimulation negative_price_no_days []
         = Some (Returns r, [])
         /\ paths r = [[-5]] /\ finalPrices r = [-5])
  /\ (exists r,
         Portfolio.runPortfolioSimulation [worthless_asset] 0 1 []
         = Some (Returns r, [])
         /\ Portfolio.paths r = [[Fin (0 + -5 * 1)]]).
Proof.
  split; [simpl; lra |]. split; [simpl; lia |].
  destruct (monte_carlo_no_days negative_price_no_days []) as [Hplain Henh];
    [simpl; lia |].
  destruct (portfolio_no_days [worthless_asset] 0 1 []) as (r & Hrun & Hpaths);
    [lia |].
  split; [| split].
  - eexists. split; [exact Hplain |]. split; reflexivity.
  - eexists. split; [exact Henh |]. split; reflexivity.
  - exists r. split; [exact Hrun |]. rewrite Hpaths. reflexivity.
Qed.

(** C6, amended.  No entry point validates its parameters or throws:
    - whenever a run of [runMonteCarloSimulation] (either version) or of
      [runPortfolioSimulation] completes, it returns a result;
    - with [timeHorizon <= 0] the run completes without reading a random
      draw and returns [numSimulations] one-element paths, [[currentPrice]]
      or [[initialValue]];
    - for every [currentPrice], also a non-positive one, both versions of
      [runMonteCarloSimulation] return a result holding [numSimulations]
      paths once the tape holds five non-zero draws per simulated day. *)
Theorem parameters_are_not_validated :
  (forall params t c t',
      MonteCarlo.runMonteCarloSimulation params t = Some (c, t') ->
      returns_normally c)
  /\ (forall params t c t',
         Enhanced.runMonteCarloSimulation params t = Some (c, t') ->
         returns_normally c)
  /\ (forall assetData h n t c t',
         Portfolio.runPortfolioSimulation assetData h n t = Some (c, t') ->
         returns_normally c)
  /\ (forall params t,
         (timeHorizon params <= 0)%Z ->
         let n := Z.to_nat (numSimulations params) in
         exists r r',
           MonteCarlo.runMonteCarloSimulation params t = Some (Returns r, t)
           /\ Enhanced.runMonteCarloSimulation params t = Some (Returns r', t)
           /\ paths r = repeat [currentPrice params] n
           /\ paths r' = repeat [currentPrice params] n
           /\ finalPrices r = repeat (currentPrice params) n
           /\ finalPrices r' = repeat (currentPrice params) n)
  /\ (forall assetData h n t,
         (h <= 0)%Z ->
         exists r,
           Portfolio.runPortfolioSimulation assetData h n t = Some (Returns r, t)
           /\ Portfolio.paths r
              = repeat [Fin (portfolio_initial_value assetData)] (Z.to_nat n))
  /\ (forall params t,
         let n := Z.to_nat (numSimulations params) in
         let h := Z.to_nat (timeHorizon params) in
         zero_free t -> (n * (h * 5) <= length t)%nat ->
         (exists r t',
             MonteCarlo.runMonteCarloSimulation params t = Some (Returns r, t')
             /\ length (paths r) = n)
         /\ (exists r t',
                Enhanced.runMonteCarloSimulation params t = Some (Returns r, t')
                /\ length (paths r) = n)).
Proof.
  split; [| split; [| split; [| split; [| split]]]].
  - intros params t c t' Hrun. rewrite plain_run_unfold in Hrun.
    unfold bind in Hrun.
    destruct (for_each _ _ _ t) as [[[ps fs] t1] |]; [| discriminate].
    unfold finish, ret in Hrun. inversion Hrun. eexists. reflexivity.
  - intros params t c t' Hrun. rewrite enhanced_run_unfold in Hrun.
    unfold bind in Hrun.
    destruct (for_each _ _ _ t) as [[[ps fs] t1] |]; [| discriminate].
    unfold finish, ret in Hrun. inversion Hrun. eexists. reflexivity.
  - intros assetData h n t c t' Hrun. rewrite portfolio_run_unfold in Hrun.
    unfold bind in Hrun.
    destruct (for_each _ _ _ t) as [[[[pp fv] ap] t1] |]; [| discriminate].
    unfold portfolio_finish, ret in Hrun. inversion Hrun. eexists. reflexivity.
  - intros params t Hh n.
    destruct (monte_carlo_no_days params t Hh) as [Hplain Henh].
    eexists. eexists. split; [exact Hplain |]. split; [exact Henh |].
    repeat split; reflexivity.
  - intros assetData h n t Hh. now apply portfolio_no_days.
  - intros params t n h Hz Hlen.
    destruct (monte_carlo_returns params t Hz) as [Hplain Henh].
    split; [apply Hplain; fold n h; lia | apply Henh; exact Hlen].
Qed.

Lemma parameters_are_not_validated_witness :
  exists r,
    Portfolio.runPortfolioSimulation [worthless_asset] (-3) 2 [0.5]
    = Some (Returns r, [0.5])
    /\ Portfolio.paths r
       = repeat [Fin (portfolio_initial_value [worthless_asset])] 2.
Proof.
  destruct parameters_are_not_validated as (_ & _ & _ & _ & Hport & _).
  apply (Hport [worthless_asset] (-3)%Z 2%Z [0.5]).
  lia.
Defined.

(* ===================================================================== *)
(** ** C7: a correlation matrix that cannot be factored *)
(* ===================================================================== *)

Lemma nsqrt_one (a : R) : a = 1 -> nsqrt (Fin a) = Fin 1.
Proof. intros ->. rewrite nsqrt_fin by lra. now rewrite sqrt_1. Qed.

Ltac chol_unfold :=
  unfold Portfolio.cholesky_cell;
  cbn [Portfolio.cell Portfolio.cellR Portfolio.set_cell
       Portfolio.list_set nth_error Nat.eqb fold_left seq to_number option_map
       length repeat npow].

(** Settles one cell of a decomposition of a matrix of literals. *)
Ltac chol_cell :=
  chol_unfold;
  repeat first
    [ progress cbn [nadd nsub nneg nmul]
    | rewrite nsqrt_one by lra
    | rewrite nsqrt_zero by lra
    | rewrite nsqrt_neg by lra
    | rewrite ndiv_zero_zero by lra
    | rewrite ndiv_fin by lra ];
  repeat f_equal; try lra.

Lemma cholesky_non_psd :
  Portfolio.choleskyDecomposition [[1; 2]; [2; 1]]
  = [[Fin 1; Fin 0]; [Fin 2; NaN]].
Proof.
  unfold Portfolio.choleskyDecomposition. cbn [length repeat seq fold_left].
  replace (Portfolio.cholesky_cell [[1; 2]; [2; 1]] 0 _ 0)
    with [[Fin 1; Fin 0]; [Fin 0; Fin 0]] by (symmetry; chol_cell).
  replace (Portfolio.cholesky_cell [[1; 2]; [2; 1]] 1 _ 0)
    with [[Fin 1; Fin 0]; [Fin 2; Fin 0]] by (symmetry; chol_cell).
  chol_cell.
Qed.

Lemma cholesky_all_ones :
  Portfolio.choleskyDecomposition [[1.0; 1.0; 1.0]; [1.0; 1.0; 1.0]; [1.0; 1.0; 1.0]]
  = [[Fin 1; Fin 0; Fin 0]; [Fin 1; Fin 0; Fin 0]; [Fin 1; NaN; NaN]].
Proof.
  unfold Portfolio.choleskyDecomposition. cbn [length repeat seq fold_left].
  replace (Portfolio.cholesky_cell _ 0 _ 0)
    with [[Fin 1; Fin 0; Fin 0]; [Fin 0; Fin 0; Fin 0]; [Fin 0; Fin 0; Fin 0]]
    by (symmetry; chol_cell).
  replace (Portfolio.cholesky_cell _ 1 _ 0)
    with [[Fin 1; Fin 0; Fin 0]; [Fin 1; Fin 0; Fin 0]; [Fin 0; Fin 0; Fin 0]]
    by (symmetry; chol_cell).
  replace (Portfolio.cholesky_cell _ 1 _ 1)
    with [[Fin 1; Fin 0; Fin 0]; [Fin 1; Fin 0; Fin 0]; [Fin 0; Fin 0; Fin 0]]
    by (symmetry; chol_cell).
  replace (Portfolio.cholesky_cell _ 2 _ 0)
    with [[Fin 1; Fin 0; Fin 0]; [Fin 1; Fin 0; Fin 0]; [Fin 1; Fin 0; Fin 0]]
    by (symmetry; chol_cell).
  replace (Portfolio.cholesky_cell _ 2 _ 1)
    with [[Fin 1; Fin 0; Fin 0]; [Fin 1; Fin 0; Fin 0]; [Fin 1; NaN; Fin 0]]
    by (symmetry; chol_cell).
  chol_cell.
Qed.

(** [NaN] is absorbing for the running sums and products of the
    simulator. *)
Lemma nadd_nan_l (x : num) : nadd NaN x = NaN.
Proof. reflexivity. Qed.

Lemma nmul_nan_l (x : num) : nmul NaN x = NaN.
Proof. reflexivity. Qed.

Lemma sum_from_nan {A : Type} (f : A -> num) (l : list A) :
  fold_left (fun acc j => nadd acc (f j)) l NaN = NaN.
Proof. induction l as [| j l IH]; [reflexivity | exact IH]. Qed.

Lemma sum_with_nan_term {A : Type} (f : A -> num) (l : list A) (j : A) :
  In j l -> f j = NaN ->
  forall init, fold_left (fun acc j => nadd acc (f j)) l init = NaN.
Proof.
  intros Hin Hf. induction l as [| k l IH]; intros init; [contradiction |].
  cbn [fold_left]. destruct Hin as [-> | Hin].
  - rewrite Hf, nadd_nan_r. apply sum_from_nan.
  - now apply IH.
Qed.

(** A [NaN] anywhere in row [i] of the factor, on or left of the diagonal,
    makes the [i]-th correlated shock [NaN], whatever is drawn. *)
Lemma correlated_shock_nan (n : nat) (matrix : list (list R)) (i j : nat)
  (t : tape) (shocks : list num) (t' : tape) :
  (j <= i < n)%nat ->
  Portfolio.cell (Portfolio.choleskyDecomposition matrix) i j = NaN ->
  Portfolio.generateCorrelatedRandoms n matrix t = Some (shocks, t') ->
  nth_error shocks i = Some NaN.
Proof.
  intros Hij Hcell. unfold Portfolio.generateCorrelatedRandoms, bind.
  destruct (Portfolio.draw_normals n t) as [[zs t1] |]; [| discriminate].
  unfold ret. intros H. inversion H; subst. clear H.
  rewrite nth_error_map, nth_error_seq.
  destruct (Nat.ltb_spec i n) as [_ | Hge]; [| lia].
  change (0 + i)%nat with i. unfold option_map at 1.
  f_equal.
  refine (sum_with_nan_term
            (fun j => nmul (Portfolio.cell (Portfolio.choleskyDecomposition matrix) i j)
                           (to_number (option_map Fin (nth_error zs j))))
            (seq 0 (S i)) j _ _ (Fin 0)).
  - apply in_seq. lia.
  - now rewrite Hcell.
Qed.

(** One asset whose shock is [NaN] makes the day's portfolio value
    [NaN]. *)
Lemma asset_step_keeps_nan (day : nat) (shocks : list num)
  (cap : list (string * list num)) (ia : nat * Portfolio.Asset) :
  snd (Portfolio.asset_step day shocks (cap, NaN) ia) = NaN.
Proof. destruct ia as [index asset]. reflexivity. Qed.

Lemma asset_step_nan_shock (day : nat) (shocks : list num)
  (cap : list (string * list num)) (pv : num) (index : nat)
  (asset : Portfolio.Asset) :
  nth_error shocks index = Some NaN ->
  snd (Portfolio.asset_step day shocks (cap, pv) (index, asset)) = NaN.
Proof.
  intros Hs. unfold Portfolio.asset_step. rewrite Hs. cbn [to_number snd].
  rewrite nmul_nan_r, nadd_nan_r. cbn [nexp].
  now rewrite ?nmul_nan_r, ?nadd_nan_r.
Qed.

Lemma asset_fold_from_nan (day : nat) (shocks : list num)
  (ias : list (nat * Portfolio.Asset)) :
  forall cap,
    snd (fold_left (Portfolio.asset_step day shocks) ias (cap, NaN)) = NaN.
Proof.
  induction ias as [| ia ias IH]; intros cap; [reflexivity |].
  cbn [fold_left].
  destruct (Portfolio.asset_step day shocks (cap, NaN) ia) as [cap' pv'] eqn:Hs.
  pose proof (asset_step_keeps_nan day shocks cap ia) as Hk.
  rewrite Hs in Hk. cbn [snd] in Hk. subst pv'. apply IH.
Qed.

Lemma asset_fold_nan_shock (day : nat) (shocks : list num) (i : nat)
  (assetData : list Portfolio.Asset) :
  (i < length assetData)%nat ->
  nth_error shocks i = Some NaN ->
  forall cap pv,
    snd (fold_left (Portfolio.asset_step day shocks)
                   (Portfolio.indexed assetData) (cap, pv)) = NaN.
Proof.
  intros Hi Hs. unfold Portfolio.indexed.
  assert (Hgen : forall (assets : list Portfolio.Asset) (base : nat) cap pv,
             (base <= i < base + length assets)%nat ->
             snd (fold_left (Portfolio.asset_step day shocks)
                            (combine (seq base (length assets)) assets)
                            (cap, pv)) = NaN).
  { induction assets as [| a assets IH]; intros base cap pv Hb.
    - simpl in Hb. lia.
    - cbn [length seq combine fold_left].
      destruct (Portfolio.asset_step day shocks (cap, pv) (base, a))
        as [cap' pv'] eqn:Hstep.
      destruct (Nat.eq_dec base i) as [-> | Hne].
      + pose proof (asset_step_nan_shock day shocks cap pv i a Hs) as Hn.
        rewrite Hstep in Hn. cbn [snd] in Hn. subst pv'.
        apply asset_fold_from_nan.
      + apply IH. cbn [length] in Hb. lia. }
  intros cap pv. apply Hgen. lia.
Qed.

Section PoisonedPortfolio.

Variable assetData : list Portfolio.Asset.
Variable correlations : list (list R).
Variable row : nat.
Hypothesis row_in_range : (row < length assetData)%nat.
Hypothesis row_nan : factor_nan_in_row correlations row.

Lemma poisoned_day (day : nat) (pp : list num) (cap : list (string * list num))
  (t : tape) pp' cap' t' :
  Portfolio.day_step assetData correlations day (pp, cap) t
  = Some ((pp', cap'), t') ->
  pp' = pp ++ [NaN].
Proof.
  unfold Portfolio.day_step, bind.
  destruct (Portfolio.generateCorrelatedRandoms (length assetData) correlations t)
    as [[shocks t1] |] eqn:Hgen; [| discriminate].
  destruct row_nan as (j & Hj & Hcell).
  pose proof (correlated_shock_nan _ _ row j _ _ _ (conj Hj row_in_range) Hcell Hgen)
    as Hshock.
  pose proof (asset_fold_nan_shock day shocks row assetData row_in_range Hshock
                cap (Fin 0)) as Hfold.
  destruct (fold_left _ _ _) as [cap2 pv2]. cbn [snd] in Hfold. subst pv2.
  unfold ret. intros H. now inversion H.
Qed.

Lemma poisoned_days (days : list nat) :
  forall pp cap t pp' cap' t',
    for_each days (Portfolio.day_step assetData correlations) (pp, cap) t
    = Some ((pp', cap'), t') ->
    pp' = pp ++ repeat NaN (length days).
Proof.
  induction days as [| d days IH]; intros pp cap t pp' cap' t' Hrun.
  - rewrite for_each_nil in Hrun. inversion Hrun. simpl. now rewrite app_nil_r.
  - rewrite for_each_cons in Hrun.
    destruct (Portfolio.day_step assetData correlations d (pp, cap) t)
      as [[[pp1 cap1] t1] |] eqn:Hday; [| discriminate].
    apply poisoned_day in Hday. subst pp1.
    apply IH in Hrun. rewrite Hrun. cbn [length repeat].
    now rewrite <- app_assoc.
Qed.

Lemma poisoned_sims (h : Z) (iv : R) (sims : list nat) :
  forall pp fv ap t pp' fv' ap' t',
    for_each sims (portfolio_sim_body assetData correlations h iv) (pp, fv, ap) t
    = Some ((pp', fv', ap'), t') ->
    pp' = pp ++ repeat (Fin iv :: repeat NaN (Z.to_nat h)) (length sims).
Proof.
  induction sims as [| sim sims IH]; intros pp fv ap t pp' fv' ap' t' Hrun.
  - rewrite for_each_nil in Hrun. inversion Hrun. simpl. now rewrite app_nil_r.
  - rewrite for_each_cons in Hrun. unfold portfolio_sim_body at 1 in Hrun.
    unfold bind at 1 in Hrun.
    destruct (for_each (from_1_to h) _ _ t) as [[[path cap] t1] |] eqn:Hdays;
      [| discriminate].
    apply poisoned_days in Hdays. rewrite from_1_to_length in Hdays.
    unfold ret at 1 in Hrun. apply IH in Hrun. rewrite Hrun, Hdays.
    cbn [length repeat app]. now rewrite <- app_assoc.
Qed.

End PoisonedPortfolio.

Lemma portfolio_never_throws (assetData : list Portfolio.Asset) (h n : Z)
  (t : tape) c t' :
  Portfolio.runPortfolioSimulation assetData h n t = Some (c, t') ->
  returns_normally c.
Proof.
  intros Hrun. rewrite portfolio_run_unfold in Hrun. unfold bind in Hrun.
  destruct (for_each _ _ _ t) as [[[[pp fv] ap] t1] |]; [| discriminate].
  unfold portfolio_finish, ret in Hrun. inversion Hrun. eexists. reflexivity.
Qed.

(** Every path of a portfolio whose factor has a [NaN] row is the initial
    value followed by [NaN] on every simulated day. *)
Lemma poisoned_run (assetData : list Portfolio.Asset) (row : nat) (h n : Z)
  (t : tape) c t' :
  (row < length assetData)%nat ->
  factor_nan_in_row (Portfolio.calculateCorrelationMatrix assetData) row ->
  Portfolio.runPortfolioSimulation assetData h n t = Some (c, t') ->
  exists r,
    c = Returns r
    /\ Portfolio.paths r
       = repeat (Fin (portfolio_initial_value assetData)
                   :: repeat NaN (Z.to_nat h)) (Z.to_nat n).
Proof.
  intros Hrow Hnan Hrun. rewrite portfolio_run_unfold in Hrun.
  unfold bind in Hrun.
  destruct (for_each _ _ _ t) as [[[[pp fv] ap] t1] |] eqn:Hloop; [| discriminate].
  apply (poisoned_sims assetData _ row Hrow Hnan) in Hloop.
  rewrite from_0_below_length in Hloop. cbn [app] in Hloop. subst pp.
  unfold portfolio_finish, ret in Hrun. inversion Hrun.
  eexists. split; reflexivity.
Qed.

(* ===================================================================== *)
(** ** The equations of the Cholesky factor *)
(* ===================================================================== *)

Section ListSet.

Context {A : Type}.

Lemma list_set_length (a : list A) (i : nat) (v : A) :
  length (Portfolio.list_set a i v) = length a.
Proof.
  revert i. induction a as [| x a IH]; intros [| i]; simpl; auto.
Qed.

Lemma nth_error_list_set_same (a : list A) (i : nat) (v : A) :
  (i < length a)%nat -> nth_error (Portfolio.list_set a i v) i = Some v.
Proof.
  revert i. induction a as [| x a IH]; intros [| i] Hi; simpl in *;
    try lia; auto. apply IH. lia.
Qed.

Lemma nth_error_list_set_other (a : list A) (i k : nat) (v : A) :
  i <> k -> nth_error (Portfolio.list_set a i v) k = nth_error a k.
Proof.
  revert i k. induction a as [| x a IH]; intros [| i] [| k] Hne; simpl;
    try congruence; auto.
Qed.

End ListSet.

Lemma fold_left_ext_in {A B : Type} (f g : A -> B -> A) (l : list B) :
  (forall a x, In x l -> f a x = g a x) ->
  forall init, fold_left f l init = fold_left g l init.
Proof.
  induction l as [| x l IH]; intros Hfg init; [reflexivity |].
  cbn [fold_left]. rewrite Hfg by now left.
  apply IH. intros a y Hy. apply Hfg. now right.
Qed.

Section CholeskyEquations.

Variable matrix : list (list R).
Let n := length matrix.

Lemma cholesky_cell_assigns (i j : nat) (L : list (list num)) :
  Portfolio.cholesky_cell matrix i L j
  = Portfolio.set_cell L i j
      (if (i =? j)%nat then nsqrt (diagonal_term matrix L i) else off_diagonal matrix L i j).
Proof.
  unfold Portfolio.cholesky_cell, diagonal_term, off_diagonal.
  destruct (Nat.eqb_spec i j) as [-> | Hne]; reflexivity.
Qed.

Lemma set_cell_square (L : list (list num)) (i j : nat) (v : num) :
  square matrix L -> square matrix (Portfolio.set_cell L i j v).
Proof.
  intros [Hlen Hrows]. unfold Portfolio.set_cell.
  destruct (nth_error L i) as [row |] eqn:Hrow; [| now split].
  split; [now rewrite list_set_length |].
  rewrite Forall_forall in *. intros r Hr.
  apply In_nth_error in Hr. destruct Hr as [k Hk].
  destruct (Nat.eq_dec i k) as [-> | Hne].
  - rewrite nth_error_list_set_same in Hk
      by (apply nth_error_Some; congruence).
    inversion Hk; subst. rewrite list_set_length.
    apply Hrows. eapply nth_error_In; exact Hrow.
  - rewrite nth_error_list_set_other in Hk by exact Hne.
    apply Hrows. eapply nth_error_In; exact Hk.
Qed.

Lemma cell_set_cell_same (L : list (list num)) (i j : nat) (v : num) :
  square matrix L -> (i < n)%nat -> (j < n)%nat ->
  Portfolio.cell (Portfolio.set_cell L i j v) i j = v.
Proof.
  intros [Hlen Hrows] Hi Hj. unfold Portfolio.set_cell, Portfolio.cell.
  destruct (nth_error L i) as [row |] eqn:Hrow.
  - rewrite nth_error_list_set_same by lia.
    rewrite nth_error_list_set_same; [reflexivity |].
    rewrite Forall_forall in Hrows.
    rewrite (Hrows row) by (eapply nth_error_In; exact Hrow). exact Hj.
  - apply nth_error_None in Hrow. lia.
Qed.

Lemma cell_set_cell_other (L : list (list num)) (i j a b : nat) (v : num) :
  (a, b) <> (i, j) ->
  Portfolio.cell (Portfolio.set_cell L i j v) a b = Portfolio.cell L a b.
Proof.
  intros Hne. unfold Portfolio.set_cell, Portfolio.cell.
  destruct (nth_error L i) as [row |] eqn:Hrow; [| reflexivity].
  destruct (Nat.eq_dec i a) as [-> | Hia].
  - destruct (nth_error_Some L a) as [_ Hlt].
    rewrite nth_error_list_set_same by (apply nth_error_Some; congruence).
    rewrite Hrow. rewrite nth_error_list_set_other; [reflexivity |].
    intros ->. now apply Hne.
  - now rewrite nth_error_list_set_other by exact Hia.
Qed.

(** The right-hand side of cell [(a, b)] reads cells of rows [a] and [b]
    left of column [b], and the diagonal cell [(b, b)]. *)
Lemma right_hand_side_local (L L' : list (list num)) (a b : nat) :
  (forall k, (k < b)%nat -> Portfolio.cell L' a k = Portfolio.cell L a k) ->
  (forall k, (k <= b)%nat -> a <> b ->
             Portfolio.cell L' b k = Portfolio.cell L b k) ->
  (if (a =? b)%nat then nsqrt (diagonal_term matrix L' a) else off_diagonal matrix L' a b)
  = (if (a =? b)%nat then nsqrt (diagonal_term matrix L a) else off_diagonal matrix L a b).
Proof.
  intros Ha Hb. destruct (Nat.eqb_spec a b) as [-> | Hne].
  - unfold diagonal_term. do 2 f_equal.
    apply fold_left_ext_in. intros s k Hk. apply in_seq in Hk.
    rewrite Ha by lia. reflexivity.
  - unfold off_diagonal. rewrite (Hb b) by auto. do 2 f_equal.
    apply fold_left_ext_in. intros s k Hk. apply in_seq in Hk.
    rewrite Ha by lia. rewrite (Hb k) by (auto; lia). reflexivity.
Qed.

Lemma cholesky_cell_step (i j : nat) (L : list (list num)) :
  (j <= i)%nat -> (i < n)%nat ->
  factor_so_far matrix i j L ->
  factor_so_far matrix i (S j) (Portfolio.cholesky_cell matrix i L j).
Proof.
  intros Hji Hin [Hsq Heq]. rewrite cholesky_cell_assigns.
  split; [now apply set_cell_square |].
  intros a b (Hba & Han & Hdone). unfold cell_equation.
  set (L' := Portfolio.set_cell L i j _).
  rewrite (right_hand_side_local L L' a b); unfold L'.
  - destruct (Nat.eq_dec a i) as [-> | Hai].
    + destruct (Nat.eq_dec b j) as [-> | Hbj].
      * apply cell_set_cell_same; [exact Hsq | lia | lia].
      * rewrite cell_set_cell_other by congruence.
        apply Heq. unfold assigned_before. lia.
    + rewrite cell_set_cell_other by congruence.
      apply Heq. unfold assigned_before. lia.
  - intros k Hk. apply cell_set_cell_other. intros Hc. inversion Hc. lia.
  - intros k Hk Hne. apply cell_set_cell_other. intros Hc. inversion Hc. lia.
Qed.

Lemma cholesky_row (i : nat) :
  (i < n)%nat ->
  forall m j L,
    (j + m = S i)%nat ->
    factor_so_far matrix i j L ->
    factor_so_far matrix (S i) 0 (fold_left (Portfolio.cholesky_cell matrix i) (seq j m) L).
Proof.
  intros Hin. induction m as [| m IH]; intros j L Hjm HL.
  - cbn [seq fold_left]. destruct HL as [Hsq Heq]. split; [exact Hsq |].
    intros a b (Hba & Han & Hdone). apply Heq. unfold assigned_before. lia.
  - cbn [seq fold_left]. apply IH; [lia |].
    apply cholesky_cell_step; [lia | exact Hin | exact HL].
Qed.

Lemma cholesky_rows (m : nat) :
  forall i L,
    (i + m <= n)%nat ->
    factor_so_far matrix i 0 L ->
    factor_so_far matrix (i + m) 0
      (fold_left
         (fun L i => fold_left (Portfolio.cholesky_cell matrix i) (seq 0 (S i)) L)
         (seq i m) L).
Proof.
  induction m as [| m IH]; intros i L Him HL.
  - cbn [seq fold_left]. now rewrite Nat.add_0_r.
  - change (seq i (S m)) with (i :: seq (S i) m). cbn [fold_left].
    replace (i + S m)%nat with (S i + m)%nat by lia.
    apply IH; [lia |].
    apply cholesky_row with (j := 0%nat); [lia | lia | exact HL].
Qed.

Lemma zeros_square : square matrix (repeat (repeat (Fin 0) n) n).
Proof.
  split; [apply repeat_length |].
  apply Forall_forall. intros row Hrow. apply repeat_spec in Hrow. subst.
  apply repeat_length.
Qed.

(** Every cell on or below the diagonal of the returned factor satisfies
    the equation that assigned it. *)
Lemma cholesky_equations (a b : nat) :
  (b <= a)%nat -> (a < n)%nat ->
  cell_equation matrix (Portfolio.choleskyDecomposition matrix) a b.
Proof.
  intros Hba Han. unfold Portfolio.choleskyDecomposition. fold n.
  destruct (cholesky_rows n 0 (repeat (repeat (Fin 0) n) n)) as [_ Heq].
  - lia.
  - split; [apply zeros_square |].
    intros a' b' (_ & _ & Hdone). lia.
  - apply Heq. unfold assigned_before. lia.
Qed.

(** The returned factor has the size of the matrix, whatever the matrix
    holds. *)
Lemma cholesky_square :
  square matrix (Portfolio.choleskyDecomposition matrix).
Proof.
  unfold Portfolio.choleskyDecomposition. fold n.
  destruct (cholesky_rows n 0 (repeat (repeat (Fin 0) n) n)) as [Hsq _].
  - lia.
  - split; [apply zeros_square |].
    intros a' b' (_ & _ & Hdone). lia.
  - exact Hsq.
Qed.

End CholeskyEquations.

(** A non-positive diagonal term, in exact arithmetic: a negative one makes
    the diagonal cell [NaN]; a zero one makes the diagonal cell zero, the
    cells below it [NaN] or infinite, and the diagonal cell of every later
    row [NaN]. *)
Lemma divided_by_zero (x : num) :
  ndiv x (Fin 0) = NaN \/ ndiv x (Fin 0) = PInf \/ ndiv x (Fin 0) = NInf.
Proof.
  destruct x as [a | | |]; cbn [ndiv].
  - destruct (Req_dec_T 0 0) as [_ | H]; [| now elim H].
    unfold scale_inf. destruct (total_order_T a 0) as [[? | ?] | ?]; auto.
  - destruct (Rlt_dec 0 0); [lra | auto].
  - destruct (Rlt_dec 0 0); [lra | auto].
  - auto.
Qed.

Lemma overflowed_add (acc y : num) : overflowed acc -> overflowed (nadd acc y).
Proof.
  intros [-> | ->]; destruct y; cbn; unfold overflowed; auto.
Qed.

Lemma overflowed_add_square (acc y : num) :
  y = NaN \/ y = PInf \/ y = NInf -> overflowed (nadd acc (npow y 2)).
Proof.
  intros [-> | [-> | ->]]; destruct acc; cbn; unfold overflowed; auto.
Qed.

Lemma sum_overflowed {A : Type} (f : A -> num) (l : list A) :
  forall acc, overflowed acc ->
              overflowed (fold_left (fun sum k => nadd sum (f k)) l acc).
Proof.
  induction l as [| k l IH]; intros acc Hacc; [exact Hacc |].
  cbn [fold_left]. apply IH. now apply overflowed_add.
Qed.

Lemma sum_of_squares_overflowed (c : nat -> num) (l : list nat) (i : nat) :
  In i l -> (c i = NaN \/ c i = PInf \/ c i = NInf) ->
  forall acc,
    overflowed (fold_left (fun sum k => nadd sum (npow (c k) 2)) l acc).
Proof.
  intros Hin Hc. induction l as [| k l IH]; intros acc; [contradiction |].
  cbn [fold_left]. destruct Hin as [-> | Hin].
  - apply (sum_overflowed (fun k => npow (c k) 2)).
    now apply overflowed_add_square.
  - now apply IH.
Qed.

Lemma cellR_minus_overflow (matrix : list (list R)) (a : nat) (s : num) :
  overflowed s -> nsqrt (nsub (Portfolio.cellR matrix a a) s) = NaN.
Proof.
  unfold Portfolio.cellR.
  destruct (nth_error matrix a) as [row |]; [| now destruct s].
  destruct (nth_error row a) as [m |]; cbn [option_map to_number];
    intros [-> | ->]; reflexivity.
Qed.

Lemma non_positive_diagonal_term (matrix : list (list R)) (i : nat) (x : R) :
  let L := Portfolio.choleskyDecomposition matrix in
  (i < length matrix)%nat ->
  diagonal_term matrix L i = Fin x ->
  (x < 0 -> Portfolio.cell L i i = NaN)
  /\ (x = 0 ->
      Portfolio.cell L i i = Fin 0
      /\ forall a, (i < a < length matrix)%nat -> Portfolio.cell L a a = NaN).
Proof.
  intros L Hi Hterm.
  pose proof (cholesky_equations matrix i i (le_n i) Hi) as Hii.
  unfold cell_equation in Hii. rewrite Nat.eqb_refl in Hii. fold L in Hii.
  rewrite Hterm in Hii. split.
  - intros Hx. rewrite Hii. now apply nsqrt_neg.
  - intros Hx. assert (Hzero : Portfolio.cell L i i = Fin 0)
      by (rewrite Hii; now apply nsqrt_zero).
    split; [exact Hzero |].
    intros a [Hia Han].
    assert (Hai : Portfolio.cell L a i = NaN \/ Portfolio.cell L a i = PInf
                  \/ Portfolio.cell L a i = NInf).
    { pose proof (cholesky_equations matrix a i ltac:(lia) Han) as Heq.
      unfold cell_equation in Heq. fold L in Heq.
      destruct (Nat.eqb_spec a i) as [-> | _]; [lia |].
      rewrite Heq. unfold off_diagonal. rewrite Hzero. apply divided_by_zero. }
    pose proof (cholesky_equations matrix a a (le_n a) Han) as Haa.
    unfold cell_equation in Haa. rewrite Nat.eqb_refl in Haa. fold L in Haa.
    rewrite Haa. unfold diagonal_term. apply cellR_minus_overflow.
    apply (sum_of_squares_overflowed (fun k => Portfolio.cell L a k) (seq 0 a) i).
    + apply in_seq. lia.
    + exact Hai.
Qed.

(* ===================================================================== *)
(** ** Portfolio runs on a tape without zeros *)
(* ===================================================================== *)

Lemma for_each_total {St : Type} (body : nat -> St -> Rand St) (k : nat) :
  (forall i s t, zero_free t -> (k <= length t)%nat ->
                 exists s', body i s t = Some (s', skipn k t)) ->
  forall idx s t,
    zero_free t -> (length idx * k <= length t)%nat ->
    exists s', for_each idx body s t = Some (s', skipn (length idx * k) t).
Proof.
  intros Hbody. induction idx as [| i idx IH]; intros s t Hz Hlen.
  - exists s. reflexivity.
  - cbn [length] in Hlen.
    destruct (Hbody i s t Hz ltac:(lia)) as [s1 Hs1].
    rewrite for_each_cons, Hs1.
    destruct (IH s1 (skipn k t)) as [s' Hs'].
    + now apply zero_free_skipn.
    + rewrite length_skipn. lia.
    + exists s'. rewrite Hs', skipn_skipn_add. cbn [length].
      replace (S (length idx) * k)%nat with (k + length idx * k)%nat by lia.
      reflexivity.
Qed.

Lemma draw_normals_total (n : nat) :
  forall t,
    zero_free t -> (2 * n <= length t)%nat ->
    exists zs, Portfolio.draw_normals n t = Some (zs, skipn (2 * n) t).
Proof.
  induction n as [| n IH]; intros t Hz Hlen.
  - exists []. reflexivity.
  - destruct (randomNormal_total t Hz ltac:(lia)) as [z Hzr].
    destruct (IH (skipn 2 t)) as [zs Hzs].
    + now apply zero_free_skipn.
    + rewrite length_skipn. lia.
    + exists (z :: zs). cbn [Portfolio.draw_normals]. unfold bind at 1.
      rewrite Hzr. unfold bind at 1. rewrite Hzs. unfold ret.
      rewrite skipn_skipn_add.
      replace (2 * S n)%nat with (2 + 2 * n)%nat by lia. reflexivity.
Qed.

Lemma portfolio_day_total (assetData : list Portfolio.Asset)
  (correlations : list (list R)) (day : nat)
  (s : list num * list (string * list num)) (t : tape) :
  zero_free t -> (2 * length assetData <= length t)%nat ->
  exists s',
    Portfolio.day_step assetData correlations day s t
    = Some (s', skipn (2 * length assetData) t).
Proof.
  intros Hz Hlen. destruct s as [pp cap].
  destruct (draw_normals_total (length assetData) t Hz Hlen) as [zs Hzs].
  unfold Portfolio.day_step, bind, Portfolio.generateCorrelatedRandoms, bind.
  rewrite Hzs. unfold ret.
  destruct (fold_left _ _ _) as [cap' pv']. eexists. reflexivity.
Qed.

Lemma portfolio_run_total (assetData : list Portfolio.Asset) (h n : Z) (t : tape) :
  let k := (Z.to_nat h * (2 * length assetData))%nat in
  zero_free t -> (Z.to_nat n * k <= length t)%nat ->
  exists c,
    Portfolio.runPortfolioSimulation assetData h n t
    = Some (c, skipn (Z.to_nat n * k) t).
Proof.
  intros k Hz Hlen. rewrite portfolio_run_unfold. unfold bind.
  match goal with
  | |- context [for_each ?sims ?body ?s0 t] =>
      destruct (fun H => for_each_total body k H sims s0 t)
        as [[[pp fv] ap] Hloop]
  end.
  - intros sim [[pp fv] ap] t0 Hz0 Hlen0. unfold portfolio_sim_body, bind.
    match goal with
    | |- context [for_each ?days ?body ?s0 t0] =>
        destruct (fun H => for_each_total body (2 * length assetData)%nat H
                             days s0 t0) as [[path cap] Hdays]
    end.
    + intros day s1 t1 Hz1 Hlen1. now apply portfolio_day_total.
    + exact Hz0.
    + rewrite from_1_to_length. exact Hlen0.
    + rewrite Hdays, from_1_to_length. unfold ret. eexists. reflexivity.
  - exact Hz.
  - rewrite from_0_below_length. exact Hlen.
  - rewrite Hloop, from_0_below_length. unfold portfolio_finish, ret.
    eexists. reflexivity.
Qed.

(* ===================================================================== *)
(** ** C4: nearest-rank percentiles and value at risk *)
(* ===================================================================== *)

Lemma js_index_map {A B : Type} (f : A -> B) (a : list A) (i : Z) :
  js_index (map f a) i = option_map f (js_index a i).
Proof.
  unfold js_index. destruct (i <? 0)%Z; [reflexivity |].
  apply nth_error_map.
Qed.

Lemma js_at_map {A B : Type} (f : A -> B) (a : list A) (k : integral) :
  js_at (map f a) k = option_map f (js_at a k).
Proof. destruct k; [apply js_index_map | reflexivity ..]. Qed.

Lemma js_slice_to_map {A B : Type} (f : A -> B) (a : list A) (k : integral) :
  js_slice_to (map f a) k = map f (js_slice_to a k).
Proof.
  destruct k as [z | | |]; try reflexivity.
  cbn [js_slice_to]. unfold js_slice0. rewrite length_map.
  destruct (z <? 0)%Z; now rewrite firstn_map.
Qed.

Lemma summarize_percentiles (cur : R) (s : list R) :
  percentile5 (summarize cur s) = nearest_rank s 0.05
  /\ percentile95 (summarize cur s) = nearest_rank s 0.95.
Proof. split; reflexivity. Qed.

Lemma finish_percentiles (cur : R) (s : list (list R) * list R) (t : tape) c t' :
  finish cur s t = Some (c, t') -> percentiles_by_rank c.
Proof.
  destruct s as [ps fs]. unfold finish, ret. intros H. inversion H; subst.
  eexists. split; [reflexivity |]. cbn [finalPrices statistics].
  split; [apply js_sort_sorted | apply summarize_percentiles].
Qed.

(** What a run of [runPortfolioSimulation] returns as [statistics] and
    [riskMetrics]: the two blocks, applied to the returned final values. *)
Lemma portfolio_run_blocks (assetData : list Portfolio.Asset) (h n : Z)
  (t : tape) (r : Portfolio.PortfolioResults) (t' : tape) :
  Portfolio.runPortfolioSimulation assetData h n t = Some (Returns r, t') ->
  Portfolio.statistics r
  = Portfolio.portfolio_statistics (Portfolio.finalValues r)
                                   (Portfolio.initialValue r)
  /\ Portfolio.riskMetrics r
     = Portfolio.portfolio_riskMetrics (Portfolio.paths r)
                                       (Portfolio.finalValues r)
                                       (Portfolio.initialValue r).
Proof.
  intros Hrun. rewrite portfolio_run_unfold in Hrun. unfold bind in Hrun.
  destruct (for_each _ _ _ t) as [[[[pp fv] ap] t1] |]; [| discriminate].
  unfold portfolio_finish, ret in Hrun. inversion Hrun; subst.
  split; reflexivity.
Qed.

(** The ranks of the examples, computed on doubles. *)
Lemma rank_50_at_58 : rank 50 0.58 = Whole 28.
Proof. vm_compute. reflexivity. Qed.

Lemma rank_3_at_third : rank 3 0.3333333333333333 = Whole 1.
Proof. vm_compute. reflexivity. Qed.

Lemma rank_3_at_half : rank 3 0.5 = Whole 1.
Proof. vm_compute. reflexivity. Qed.

(** The double written [0.3333333333333333] is
    [6004799503160661 * 2^-54], just below one third. *)
Lemma value_of_third :
  value_of 0.3333333333333333 = 6004799503160661 / 18014398509481984.
Proof.
  unfold value_of.
  replace (Prim2SF 0.3333333333333333)
    with (S754_finite false 6004799503160661 (-54))
    by (vm_compute; reflexivity).
  change (powerRZ 2 (-54)) with (/ 2 ^ 54). lra.
Qed.

Lemma one_to_sorted (n : nat) : Sorted Rle (one_to n).
Proof.
  unfold one_to. generalize 1%nat as from.
  induction n as [| n IH]; intros from; cbn [seq map]; constructor.
  - apply IH.
  - destruct n as [| n]; cbn [seq map]; constructor.
    apply IZR_le. lia.
Qed.

Lemma one_to_index (n : nat) (i : Z) :
  (0 <= i < Z.of_nat n)%Z -> js_index (one_to n) i = Some (IZR (i + 1)).
Proof.
  intros Hi. unfold js_index, one_to.
  destruct (Z.ltb_spec i 0) as [Hneg | _]; [lia |].
  rewrite nth_error_map.
  rewrite (nth_error_nth' (seq 1 n) 0%nat) by (rewrite length_seq; lia).
  rewrite seq_nth by lia. cbn [option_map]. do 2 f_equal. lia.
Qed.

(** C4, as stated, fails: the index is the floor of the product as the
    code computes it, in double precision, and that product is rounded.
    - For fifty prices [1 .. 50] and [confidence = 0.58] the claim's index
      [floor(0.58 * 50)] is 29 (value at risk [100 - 30]); the double
      nearest to 0.58 is below it, the product rounds to
      [28.999999999999996], and the code reads index 28 ([100 - 29]).
    - For three prices and [confidence = 0.3333333333333333] the exact
      product of the double with 3 is below 1, so its floor is 0 (value at
      risk [100 - 10]); the double product rounds to 1, and the code reads
      index 1 ([100 - 20]). *)
Lemma rank_counterexample :
  RiskBasic.valueAtRisk (RiskBasic.calculateRiskMetrics (one_to 50) 100 0.58)
  <> var_as_claimed (one_to 50) 100 0.58
  /\ RiskBasic.valueAtRisk
       (RiskBasic.calculateRiskMetrics [10; 20; 30] 100 0.3333333333333333)
     <> var_as_claimed [10; 20; 30] 100 (value_of 0.3333333333333333).
Proof.
  split.
  - unfold RiskBasic.calculateRiskMetrics, var_as_claimed.
    cbn [RiskBasic.valueAtRisk].
    rewrite (js_sort_of_sorted _ (one_to_sorted 50)).
    assert (Hlen : length (one_to 50) = 50%nat)
      by (unfold one_to; now rewrite length_map, length_seq).
    rewrite Hlen, rank_50_at_58. cbn [js_at].
    assert (Hexact : exact_rank 0.58 50 = 29%Z).
    { unfold exact_rank. apply Zfloor_eq. simpl. lra. }
    rewrite Hexact, !one_to_index by lia. cbn [option_map to_number Z.add Pos.add Pos.succ].
    unfold nsub. cbn [nneg nadd]. intros H. apply Fin_inj in H. lra.
  - unfold RiskBasic.calculateRiskMetrics, var_as_claimed.
    cbn [RiskBasic.valueAtRisk].
    assert (Hsort : js_sort cmp_sub [10; 20; 30] = [10; 20; 30]).
    { apply js_sort_of_sorted. repeat constructor; lra. }
    rewrite Hsort. change (length [10; 20; 30]) with 3%nat.
    rewrite rank_3_at_third. cbn [js_at].
    assert (Hexact : exact_rank (value_of 0.3333333333333333) 3 = 0%Z).
    { unfold exact_rank. rewrite value_of_third. apply Zfloor_eq. simpl. lra. }
    rewrite Hexact. cbn.
    unfold nsub. cbn [nneg nadd]. intros H. apply Fin_inj in H. lra.
Qed.

(** C4, amended.  Percentiles are nearest-rank on the ascending array and
    value at risk is the initial value minus the element of that rank, the
    rank being [Math.floor] of the double-precision product of the length
    and the percentile:
    - both versions of [runMonteCarloSimulation] return the ascending
      [finalPrices] with [percentile5] and [percentile95] its elements at
      [Math.floor(N * 0.05)] and [Math.floor(N * 0.95)], and they do
      return once the tape holds five non-zero draws per simulated day;
    - both versions of [calculateRiskMetrics] return
      [currentPrice - s[Math.floor(N * confidence)]], [s] being the
      ascending arrangement of the supplied prices;
    - [runPortfolioSimulation] returns, for finite final values with
      ascending arrangement [s], the percentiles [s[Math.floor(0.05 * N)]]
      and [s[Math.floor(0.95 * N)]] and the values at risk
      [initialValue - s[Math.floor(0.05 * N)]] ([var95]) and
      [initialValue - s[Math.floor(0.01 * N)]] ([var99]), and it does
      return once the tape holds two non-zero draws per asset and
      simulated day. *)
Theorem percentiles_are_nearest_rank :
  (forall params t c t',
      MonteCarlo.runMonteCarloSimulation params t = Some (c, t') ->
      percentiles_by_rank c)
  /\ (forall params t c t',
         Enhanced.runMonteCarloSimulation params t = Some (c, t') ->
         percentiles_by_rank c)
  /\ (forall params t,
         let n := Z.to_nat (numSimulations params) in
         let h := Z.to_nat (timeHorizon params) in
         zero_free t -> (n * (h * 5) <= length t)%nat ->
         (exists c t',
             MonteCarlo.runMonteCarloSimulation params t = Some (c, t'))
         /\ (exists c t',
                Enhanced.runMonteCarloSimulation params t = Some (c, t')))
  /\ (forall finalPrices currentPrice confidence s,
         Sorted Rle s -> Permutation s finalPrices ->
         RiskBasic.valueAtRisk
           (RiskBasic.calculateRiskMetrics finalPrices currentPrice confidence)
         = var_at s currentPrice confidence
         /\ Enhanced.valueAtRisk
              (Enhanced.calculateRiskMetrics finalPrices currentPrice confidence)
            = var_at s currentPrice confidence)
  /\ (forall assetData timeHorizon numSimulations t r t' finalValues s,
         Portfolio.runPortfolioSimulation assetData timeHorizon numSimulations t
         = Some (Returns r, t') ->
         Portfolio.finalValues r = map Fin finalValues ->
         Sorted Rle s -> Permutation s finalValues ->
         Portfolio.percentile5 (Portfolio.statistics r)
         = option_map Fin (nearest_rank_of 0.05 s)
         /\ Portfolio.percentile95 (Portfolio.statistics r)
            = option_map Fin (nearest_rank_of 0.95 s)
         /\ Portfolio.var95 (Portfolio.riskMetrics r)
            = var_of 0.05 s (Portfolio.initialValue r)
         /\ Portfolio.var99 (Portfolio.riskMetrics r)
            = var_of 0.01 s (Portfolio.initialValue r))
  /\ (forall assetData timeHorizon numSimulations t,
         zero_free t ->
         (Z.to_nat numSimulations
          * (Z.to_nat timeHorizon * (2 * length assetData)) <= length t)%nat ->
         exists c t',
           Portfolio.runPortfolioSimulation assetData timeHorizon
                                            numSimulations t
           = Some (c, t')).
Proof.
  split; [| split; [| split; [| split; [| split]]]].
  - intros params t c t' Hrun. rewrite plain_run_unfold in Hrun.
    unfold bind in Hrun.
    destruct (for_each _ _ _ t) as [[s t1] |]; [| discriminate].
    eapply finish_percentiles; exact Hrun.
  - intros params t c t' Hrun. rewrite enhanced_run_unfold in Hrun.
    unfold bind in Hrun.
    destruct (for_each _ _ _ t) as [[s t1] |]; [| discriminate].
    eapply finish_percentiles; exact Hrun.
  - intros params t n h Hz Hlen.
    destruct (monte_carlo_returns params t Hz) as [Hplain Henh]. split.
    + destruct Hplain as (r & t' & Hrun & _); [fold n h; lia |]. eauto.
    + destruct Henh as (r & t' & Hrun & _); [exact Hlen |]. eauto.
  - intros fp cur conf s Hs Hp.
    pose proof (js_sort_is_the_ascending fp s Hs Hp) as Hsort.
    unfold RiskBasic.calculateRiskMetrics, Enhanced.calculateRiskMetrics.
    cbn [RiskBasic.valueAtRisk Enhanced.valueAtRisk].
    rewrite Hsort. split; reflexivity.
  - intros assetData h n t r t' fv s Hrun Hfv Hs Hp.
    destruct (portfolio_run_blocks _ _ _ _ _ _ Hrun) as [-> ->].
    rewrite Hfv.
    pose proof (js_sort_is_the_ascending fv s Hs Hp) as Hsort.
    assert (Hlen : length fv = length s)
      by (symmetry; now apply Permutation_length).
    unfold Portfolio.portfolio_statistics, Portfolio.portfolio_riskMetrics.
    cbn [Portfolio.percentile5 Portfolio.percentile95 Portfolio.var95
         Portfolio.var99].
    rewrite js_sort_map_Fin, Hsort, !js_at_map.
    unfold var_of, nearest_rank_of.
    rewrite length_map, Hlen. repeat split; reflexivity.
  - intros assetData h n t Hz Hlen.
    destruct (portfolio_run_total assetData h n t Hz Hlen) as [c Hrun].
    eauto.
Qed.

Lemma percentiles_are_nearest_rank_witness :
  RiskBasic.valueAtRisk (RiskBasic.calculateRiskMetrics [30; 10; 20] 100 0.5)
  = Fin (100 + - 20).
Proof.
  destruct percentiles_are_nearest_rank as (_ & _ & _ & Hvar & _).
  destruct (Hvar [30; 10; 20] 100 0.5%float [10; 20; 30]) as [Hbasic _].
  - repeat constructor; lra.
  - apply perm_trans with [10; 30; 20].
    + apply perm_skip. apply perm_swap.
    + apply perm_swap.
  - rewrite Hbasic. unfold var_at, nearest_rank.
    change (length [10; 20; 30]) with 3%nat. rewrite rank_3_at_half.
    reflexivity.
Defined.

(* ===================================================================== *)
(** ** C5: expected shortfall *)
(* ===================================================================== *)

Lemma ascending_returns (initialValue : R) (finalValues : list R) :
  0 < initialValue ->
  js_sort cmp_nsub (map (fractional_return initialValue) finalValues)
  = map (fractional_return initialValue) (js_sort cmp_sub finalValues).
Proof.
  intros Hiv.
  assert (Hret : forall l,
             map (fractional_return initialValue) l
             = map Fin (map (fun v => (v - initialValue) / initialValue) l)).
  { intros l. rewrite map_map. apply map_ext. intros v.
    unfold fractional_return. apply ndiv_fin. lra. }
  rewrite !Hret, js_sort_map_Fin, js_sort_map_increasing; [reflexivity |].
  intros x y. split; intros H.
  - apply Rmult_lt_compat_r; [now apply Rinv_0_lt_compat | lra].
  - apply Rmult_lt_reg_r in H; [lra | now apply Rinv_0_lt_compat].
Qed.

(** For a positive initial value the smallest returns are the returns of
    the smallest values. *)
Lemma cvar_as_claimed_of_values (finalValues : list R)
  (initialValue confidence : R) :
  0 < initialValue ->
  cvar_as_claimed finalValues initialValue confidence
  = let ascending := js_sort cmp_sub finalValues in
    let k := Zfloor (confidence * INR (length finalValues)) in
    let worst :=
      js_slice0 (map (fractional_return initialValue) ascending) (k + 1) in
    ndiv (sumN worst) (Fin (INR (length worst))).
Proof.
  intros Hiv. unfold cvar_as_claimed. cbv zeta.
  now rewrite ascending_returns.
Qed.

Lemma cvar_by_rank_of_values (finalValues : list R) (initialValue : R)
  (confidence : float) :
  0 < initialValue ->
  cvar_by_rank finalValues initialValue confidence
  = let ascending := js_sort cmp_sub finalValues in
    let worst :=
      js_slice_to (map (fractional_return initialValue) ascending)
                  (next (rank (length finalValues) confidence)) in
    ndiv (sumN worst) (Fin (INR (length worst))).
Proof.
  intros Hiv. unfold cvar_by_rank. cbv zeta.
  now rewrite ascending_returns.
Qed.

(** What [calculateRiskMetrics] computes: the mean of the first
    [Math.floor(N * confidence) + 1] returns in the order supplied. *)
Lemma expectedShortfall_in_supplied_order (finalPrices : list R)
  (currentPrice : R) (confidence : float) :
  let worst :=
    js_slice_to (map (fractional_return currentPrice) finalPrices)
                (next (rank (length finalPrices) confidence)) in
  RiskBasic.expectedShortfall
    (RiskBasic.calculateRiskMetrics finalPrices currentPrice confidence)
  = ndiv (sumN worst) (Fin (INR (length worst)))
  /\ Enhanced.expectedShortfall
       (Enhanced.calculateRiskMetrics finalPrices currentPrice confidence)
     = ndiv (sumN worst) (Fin (INR (length worst))).
Proof.
  intros worst. unfold worst.
  unfold RiskBasic.calculateRiskMetrics, Enhanced.calculateRiskMetrics.
  cbn [RiskBasic.expectedShortfall Enhanced.expectedShortfall].
  unfold js_length. rewrite js_sort_length.
  split; reflexivity.
Qed.

Lemma portfolio_expectedShortfall_unfold (portfolioPaths : list (list num))
  (finalValues : list R) (initialValue : R) :
  let k := rank_of 0.05 (length finalValues) in
  Portfolio.expectedShortfall
    (Portfolio.portfolio_riskMetrics portfolioPaths (map Fin finalValues)
                                     initialValue)
  = nsub (Fin initialValue)
         (ndiv (sumN (map Fin (js_slice_to (js_sort cmp_sub finalValues) k)))
               (number_of k)).
Proof.
  intros k. unfold k, Portfolio.portfolio_riskMetrics.
  cbn [Portfolio.expectedShortfall].
  now rewrite js_sort_map_Fin, length_map, js_slice_to_map.
Qed.

Lemma js_slice0_nonneg {A : Type} (a : list A) (e : Z) :
  (0 <= e)%Z -> js_slice0 a e = firstn (Z.to_nat e) a.
Proof.
  intros He. unfold js_slice0.
  destruct (e <? 0)%Z eqn:Hlt; [| reflexivity].
  apply Z.ltb_lt in Hlt. lia.
Qed.

Lemma floor_twentieth : Zfloor (0.05 * INR 20) = 1%Z.
Proof. apply Zfloor_eq. simpl. lra. Qed.

Lemma rank_of_twentieth : rank_of 0.05 20 = Whole 1.
Proof. vm_compute. reflexivity. Qed.

(** C5, as stated, fails on the portfolio, which follows another
    convention: its risk block returns the money amount
    [initialValue - mean] of the [Math.floor(0.05 * N)] smallest values,
    10 for twenty final values of 90 against an initial 100, where the
    mean of the two smallest fractional returns is [-1/10]. *)
Lemma expected_shortfall_counterexample :
  Portfolio.expectedShortfall
    (Portfolio.portfolio_riskMetrics [] (map Fin (repeat 90 20)) 100)
  <> cvar_as_claimed (repeat 90 20) 100 0.05.
Proof.
  rewrite portfolio_expectedShortfall_unfold.
  rewrite cvar_as_claimed_of_values by lra. cbv zeta.
  rewrite js_sort_repeat, repeat_length, floor_twentieth, rank_of_twentieth.
  change (1 + 1)%Z with 2%Z. cbn [js_slice_to number_of].
  rewrite !js_slice0_nonneg by lia.
  change (Z.to_nat 1) with 1%nat. change (Z.to_nat 2) with 2%nat.
  unfold fractional_return. cbn [repeat map firstn].
  rewrite !ndiv_fin by lra. cbn [sumN fold_left nadd length INR].
  rewrite !ndiv_fin by lra. cbn [nsub nneg nadd].
  intros H. apply Fin_inj in H. lra.
Qed.

(** C5, amended.  When [finalPrices] is supplied in ascending order (as
    [runMonteCarloSimulation] returns it) and [currentPrice] is positive,
    both versions of [calculateRiskMetrics] return as [expectedShortfall]
    the mean of the [Math.floor(N * confidence) + 1] smallest fractional
    returns, the product being the double-precision one.
    [runPortfolioSimulation] returns, for finite final values in any
    order, [initialValue] minus the mean of the [Math.floor(0.05 * N)]
    smallest final values: a money amount, over the values strictly below
    the rank of [var95]. *)
Theorem expected_shortfall_of_ascending_prices :
  (forall finalPrices currentPrice confidence,
      Sorted Rle finalPrices ->
      0 < currentPrice ->
      RiskBasic.expectedShortfall
        (RiskBasic.calculateRiskMetrics finalPrices currentPrice confidence)
      = cvar_by_rank finalPrices currentPrice confidence
      /\ Enhanced.expectedShortfall
           (Enhanced.calculateRiskMetrics finalPrices currentPrice confidence)
         = cvar_by_rank finalPrices currentPrice confidence)
  /\ (forall assetData timeHorizon numSimulations t r t' finalValues s,
         Portfolio.runPortfolioSimulation assetData timeHorizon numSimulations t
         = Some (Returns r, t') ->
         Portfolio.finalValues r = map Fin finalValues ->
         Sorted Rle s -> Permutation s finalValues ->
         let k := rank_of 0.05 (length finalValues) in
         Portfolio.expectedShortfall (Portfolio.riskMetrics r)
         = nsub (Fin (Portfolio.initialValue r))
                (ndiv (sumN (map Fin (js_slice_to s k))) (number_of k))).
Proof.
  split.
  - intros fp cur conf Hs Hcur.
    destruct (expectedShortfall_in_supplied_order fp cur conf) as [Hb He].
    rewrite Hb, He, (cvar_by_rank_of_values fp cur conf Hcur). cbv zeta.
    rewrite (js_sort_of_sorted fp Hs). split; reflexivity.
  - intros assetData h n t r t' fv s Hrun Hfv Hs Hp k.
    destruct (portfolio_run_blocks _ _ _ _ _ _ Hrun) as [_ ->].
    rewrite Hfv, portfolio_expectedShortfall_unfold.
    now rewrite (js_sort_is_the_ascending fv s Hs Hp).
Qed.

Lemma expected_shortfall_of_ascending_prices_witness :
  RiskBasic.expectedShortfall (RiskBasic.calculateRiskMetrics [50; 200] 100 0.05)
  = cvar_by_rank [50; 200] 100 0.05.
Proof.
  apply (proj1 expected_shortfall_of_ascending_prices [50; 200] 100 0.05%float).
  - repeat constructor. lra.
  - lra.
Defined.

(* ===================================================================== *)
(** ** C7: the statement, its failure and what holds instead *)
(* ===================================================================== *)

Lemma or_default_nonzero (v d : R) : v <> 0 -> Portfolio.or_default v d = v.
Proof.
  intros Hv. unfold Portfolio.or_default.
  destruct (Req_dec_T v 0); [contradiction | reflexivity].
Qed.

(** Stocks of one sector are given correlation 1.0 with each other. *)
Lemma three_tech_correlations :
  Portfolio.calculateCorrelationMatrix three_tech
  = [[1.0; 1.0; 1.0]; [1.0; 1.0; 1.0]; [1.0; 1.0; 1.0]].
Proof.
  unfold Portfolio.calculateCorrelationMatrix, three_tech.
  cbn [length seq combine map fst snd Nat.eqb Portfolio.ticker].
  change (Portfolio.getSector "AAPL") with Portfolio.tech.
  change (Portfolio.getSector "MSFT") with Portfolio.tech.
  change (Portfolio.getSector "GOOGL") with Portfolio.tech.
  cbn [Portfolio.sectorCorrelations].
  rewrite !or_default_nonzero by lra. reflexivity.
Qed.

Lemma three_tech_factor_nan :
  factor_nan_in_row (Portfolio.calculateCorrelationMatrix three_tech) 2.
Proof.
  exists 1%nat. split; [lia |].
  rewrite three_tech_correlations, cholesky_all_ones. reflexivity.
Qed.

Lemma non_psd_diagonal_term :
  diagonal_term non_psd (Portfolio.choleskyDecomposition non_psd) 1
  = Fin (1 + - (0 + 2 * 2)).
Proof.
  unfold non_psd. rewrite cholesky_non_psd. reflexivity.
Qed.

Lemma three_tech_diagonal_term :
  diagonal_term (Portfolio.calculateCorrelationMatrix three_tech)
    (Portfolio.choleskyDecomposition
       (Portfolio.calculateCorrelationMatrix three_tech)) 1
  = Fin (1.0 + - (0 + 1 * 1)).
Proof.
  rewrite three_tech_correlations, cholesky_all_ones. reflexivity.
Qed.


Lemma correlated_randoms_total (n : nat) (matrix : list (list R)) (t : tape) :
  zero_free t -> (2 * n <= length t)%nat ->
  exists shocks,
    Portfolio.generateCorrelatedRandoms n matrix t
    = Some (shocks, skipn (2 * n) t)
    /\ length shocks = n.
Proof.
  intros Hz Hlen. destruct (draw_normals_total n t Hz Hlen) as [zs Hzs].
  unfold Portfolio.generateCorrelatedRandoms, bind. rewrite Hzs. unfold ret.
  eexists. split; [reflexivity |]. now rewrite length_map, length_seq.
Qed.



(* ===================================================================== *)
(** ** C3: put-call parity *)
(* ===================================================================== *)

Lemma sqrt2_pos : 0 < sqrt 2.
Proof. apply sqrt_lt_R0. lra. Qed.

Lemma normCDF_fin (x : R) : OC.normCDF (Fin x) = Fin (normCDF_real x).
Proof.
  pose proof sqrt2_pos as Hs.
  assert (Hx : 0 <= Rabs x / sqrt 2).
  { apply Rmult_le_pos; [apply Rabs_pos |]. left. now apply Rinv_0_lt_compat. }
  unfold OC.normCDF. cbn [nabs].
  rewrite nsqrt_fin by lra. rewrite ndiv_fin by lra.
  cbn [nmul nadd].
  rewrite ndiv_fin by (unfold OC.p; nra).
  cbn [nmul nadd nsub nneg nexp].
  unfold normCDF_real, normCDF_tail, normCDF_poly.
  unfold nltb. destruct (Rlt_dec x 0); cbn [nmul nadd]; f_equal; ring.
Qed.

(** The approximation is symmetric away from zero... *)
Lemma normCDF_real_symmetry (x : R) :
  x <> 0 -> normCDF_real x + normCDF_real (- x) = 1.
Proof.
  intros Hx. unfold normCDF_real, normCDF_tail. rewrite Rabs_Ropp.
  destruct (Rlt_dec x 0), (Rlt_dec (- x) 0); try lra.
Qed.

(** ... and overshoots at zero, where the coefficients sum to
    [0.999999999]. *)
Lemma normCDF_real_zero : normCDF_real 0 = 0.5 * (1 + 0.000000001).
Proof.
  unfold normCDF_real, normCDF_tail, normCDF_poly.
  destruct (Rlt_dec 0 0) as [H | _]; [lra |].
  rewrite Rabs_R0.
  replace (0 / sqrt 2) with 0 by (unfold Rdiv; ring).
  replace (- 0 * 0) with 0 by ring. rewrite exp_0.
  replace (1 / (1 + OC.p * 0)) with 1 by (unfold OC.p; field).
  unfold OC.a1, OC.a2, OC.a3, OC.a4, OC.a5. lra.
Qed.

Lemma d1_d2_fin (params : OC.OptionParameters) :
  valid_option params -> 0 < OC.volatility params ->
  OC.d1_of params = Fin (d1_real params)
  /\ OC.d2_of params = Fin (d2_real params).
Proof.
  intros (HS & HK & HT & _ & _) Hv.
  assert (Hsq : 0 < sqrt (OC.timeToExpiry params)) by now apply sqrt_lt_R0.
  assert (Hd1 : OC.d1_of params = Fin (d1_real params)).
  { unfold OC.d1_of, d1_real.
    rewrite ndiv_fin by lra.
    rewrite nlog_fin by (apply Rdiv_lt_0_compat; lra).
    rewrite nsqrt_fin by lra. cbn [nmul nadd nsub nneg].
    rewrite ndiv_fin by nra. reflexivity. }
  split; [exact Hd1 |].
  unfold OC.d2_of, d2_real. rewrite Hd1, nsqrt_fin by lra. reflexivity.
Qed.

Lemma blackScholes_fin (params : OC.OptionParameters) :
  valid_option params -> 0 < OC.volatility params ->
  OC.blackScholes params
  = {| OC.call := Fin (Rmax (call_unclamped params) 0);
       OC.put := Fin (Rmax (put_unclamped params) 0) |}.
Proof.
  intros Hvalid Hv. destruct (d1_d2_fin params Hvalid Hv) as [Hd1 Hd2].
  destruct Hvalid as (HS & HK & HT & _ & _).
  unfold OC.blackScholes. rewrite nleb_fin_false by lra.
  rewrite Hd1, Hd2. cbn [nneg]. rewrite !normCDF_fin.
  cbn [nmul nneg nexp nsub nadd nmax].
  unfold call_unclamped, put_unclamped, forward_spot, discounted_strike.
  f_equal; f_equal; f_equal; ring.
Qed.

(** Bounds for the approximation on the arguments used below. *)
Lemma sqrt2_bounds : 1.4 < sqrt 2 < 1.5.
Proof.
  split.
  - replace 1.4 with (sqrt (1.4 * 1.4)) by (apply sqrt_square; lra).
    apply sqrt_lt_1; lra.
  - replace 1.5 with (sqrt (1.5 * 1.5)) by (apply sqrt_square; lra).
    apply sqrt_lt_1; lra.
Qed.

Lemma normCDF_poly_below_one (t : R) :
  0.85 <= t <= 0.98 -> normCDF_poly t <= 0.99.
Proof.
  intros Ht. unfold normCDF_poly, OC.a1, OC.a2, OC.a3, OC.a4, OC.a5.
  set (u1 := 1.061405429 * t + -1.453152027).
  assert (H1 : -0.552 <= u1 <= -0.412) by (unfold u1; lra).
  set (u2 := u1 * t + 1.421413741).
  assert (H2 : 0.88 <= u2 <= 1.0713) by (unfold u2; nra).
  set (u3 := u2 * t + -0.284496736).
  assert (H3 : 0.463 <= u3 <= 0.7655) by (unfold u3; nra).
  set (u4 := u3 * t + 0.254829592).
  assert (H4 : 0.648 <= u4 <= 1.0051) by (unfold u4; nra).
  nra.
Qed.

Lemma scaled_argument_range (a : R) :
  0.1 <= a <= 0.7 -> 0.066 <= a / sqrt 2 <= 0.5.
Proof.
  intros Ha. pose proof sqrt2_bounds as Hs. unfold Rdiv. split.
  - apply Rmult_le_reg_r with (sqrt 2); [lra |].
    rewrite Rmult_assoc, Rinv_l by lra. lra.
  - apply Rmult_le_reg_r with (sqrt 2); [lra |].
    rewrite Rmult_assoc, Rinv_l by lra. lra.
Qed.

Lemma normCDF_t_range (x' : R) :
  0.066 <= x' <= 0.5 -> 0.85 <= 1 / (1 + OC.p * x') <= 0.98.
Proof.
  intros Hx'.
  assert (Hden : 1.0216 <= 1 + OC.p * x' <= 1.164) by (unfold OC.p; nra).
  set (den := 1 + OC.p * x') in *.
  assert (Hinv : 1 / den * den = 1) by (field; lra).
  split.
  - apply Rmult_le_reg_r with den; [lra |]. rewrite Hinv. nra.
  - apply Rmult_le_reg_r with den; [lra |]. rewrite Hinv. nra.
Qed.

Lemma normCDF_tail_positive (x : R) :
  0.1 <= Rabs x <= 0.7 -> 0.01 <= normCDF_tail x.
Proof.
  intros Hx. pose proof sqrt2_bounds as Hs. unfold normCDF_tail.
  set (x' := Rabs x / sqrt 2).
  assert (Hx' : 0.066 <= x' <= 0.5) by (now apply scaled_argument_range).
  set (t := 1 / (1 + OC.p * x')).
  assert (Ht : 0.85 <= t <= 0.98) by (now apply normCDF_t_range).
  pose proof (normCDF_poly_below_one t Ht) as Hq.
  assert (He : 0 < exp (- x' * x') <= 1).
  { split; [apply exp_pos |].
    rewrite <- exp_0. destruct (Req_dec (- x' * x') 0) as [-> | Hne]; [lra |].
    left. apply exp_increasing. nra. }
  assert (Hpos : 0 <= normCDF_poly t).
  { unfold normCDF_poly, OC.a1, OC.a2, OC.a3, OC.a4, OC.a5.
    set (u1 := 1.061405429 * t + -1.453152027).
    assert (H1 : -0.552 <= u1 <= -0.412) by (unfold u1; lra).
    set (u2 := u1 * t + 1.421413741).
    assert (H2 : 0.88 <= u2 <= 1.0713) by (unfold u2; nra).
    set (u3 := u2 * t + -0.284496736).
    assert (H3 : 0.463 <= u3 <= 0.7655) by (unfold u3; nra).
    set (u4 := u3 * t + 0.254829592).
    assert (H4 : 0.648 <= u4 <= 1.0051) by (unfold u4; nra).
    nra. }
  nra.
Qed.

Lemma normCDF_real_right (x : R) :
  0 <= x -> normCDF_real x = 0.5 * (1 + normCDF_tail x).
Proof.
  intros Hx. unfold normCDF_real. destruct (Rlt_dec x 0); [lra | ring].
Qed.

Lemma normCDF_real_left (x : R) :
  0 < x -> normCDF_real (- x) = 0.5 * (1 - normCDF_tail x).
Proof.
  intros Hx. unfold normCDF_real, normCDF_tail. rewrite Rabs_Ropp.
  destruct (Rlt_dec (- x) 0); [ring | lra].
Qed.

(** The gap when neither price is clamped: what the approximation misses
    of [Phi(d) + Phi(-d) = 1] at [d1] and at [d2]. *)
Lemma parity_gap_unclamped (params : OC.OptionParameters) :
  valid_option params -> 0 < OC.volatility params ->
  0 <= call_unclamped params -> 0 <= put_unclamped params ->
  parity_gap params
  = Fin (forward_spot params
         * (normCDF_real (d1_real params) + normCDF_real (- d1_real params) - 1)
         - discounted_strike params
           * (normCDF_real (d2_real params) + normCDF_real (- d2_real params) - 1)).
Proof.
  intros Hvalid Hv Hc Hp. unfold parity_gap.
  rewrite (blackScholes_fin params Hvalid Hv). cbn [OC.call OC.put].
  rewrite !Rmax_left by assumption. cbn [nsub nneg nadd]. f_equal.
  unfold call_unclamped, put_unclamped. ring.
Qed.

Lemma positive_price_unclamped (u : R) :
  ngtb (Fin (Rmax u 0)) (Fin 0) = true -> 0 <= u.
Proof.
  unfold ngtb, nltb. destruct (Rlt_dec 0 (Rmax u 0)) as [H | _]; [| discriminate].
  intros _. unfold Rmax in H. destruct (Rle_dec u 0); lra.
Qed.

(** C3, amended.  For valid parameters with a positive volatility, with
    [d1] and [d2] both different from zero and with both returned prices
    positive (neither was clamped to zero), the returned prices satisfy
    put-call parity exactly: [call - put = spot * exp(-q T) - strike *
    exp(-r T)]. *)
Theorem put_call_parity_when_unclamped (params : OC.OptionParameters) :
  valid_option params ->
  0 < OC.volatility params ->
  d1_real params <> 0 ->
  d2_real params <> 0 ->
  ngtb (OC.call (OC.blackScholes params)) (Fin 0) = true ->
  ngtb (OC.put (OC.blackScholes params)) (Fin 0) = true ->
  parity_gap params = Fin 0 /\ within 0.000001 (parity_gap params).
Proof.
  intros Hvalid Hv Hd1 Hd2 Hcall Hput.
  rewrite (blackScholes_fin params Hvalid Hv) in Hcall, Hput.
  cbn [OC.call OC.put] in Hcall, Hput.
  apply positive_price_unclamped in Hcall, Hput.
  assert (Hgap : parity_gap params = Fin 0).
  { rewrite (parity_gap_unclamped params Hvalid Hv Hcall Hput).
    rewrite (normCDF_real_symmetry _ Hd1), (normCDF_real_symmetry _ Hd2).
    f_equal. ring. }
  split; [exact Hgap |]. rewrite Hgap. cbn [within]. rewrite Rabs_R0. lra.
Qed.

Lemma at_the_money_d1 : d1_real at_the_money = 0.2.
Proof.
  unfold d1_real, at_the_money.
  cbn [OC.spot OC.strike OC.timeToExpiry OC.riskFreeRate OC.volatility OC.dividend
       OC.dividendYield].
  replace (100 / 100) with 1 by lra. rewrite ln_1, sqrt_1. lra.
Qed.

Lemma at_the_money_d2 : d2_real at_the_money = Ropp 0.2.
Proof.
  unfold d2_real. rewrite at_the_money_d1. unfold at_the_money.
  cbn [OC.timeToExpiry OC.volatility]. rewrite sqrt_1. lra.
Qed.

Lemma at_the_money_valid : valid_option at_the_money /\ 0 < OC.volatility at_the_money.
Proof.
  unfold valid_option, at_the_money.
  cbn [OC.spot OC.strike OC.timeToExpiry OC.volatility OC.dividend
       OC.dividendYield].
  lra.
Qed.

Lemma at_the_money_prices :
  0.5 <= call_unclamped at_the_money /\ 0.5 <= put_unclamped at_the_money.
Proof.
  unfold call_unclamped, put_unclamped.
  rewrite at_the_money_d1, at_the_money_d2. rewrite Ropp_involutive.
  rewrite (normCDF_real_right 0.2) by lra.
  rewrite (normCDF_real_left 0.2) by lra.
  assert (Htail : 0.01 <= normCDF_tail 0.2).
  { apply normCDF_tail_positive. rewrite Rabs_right by lra. lra. }
  unfold forward_spot, discounted_strike, at_the_money.
  cbn [OC.spot OC.strike OC.timeToExpiry OC.riskFreeRate OC.dividend
       OC.dividendYield].
  replace (- 0 * 1) with 0 by ring. rewrite exp_0. lra.
Qed.

Lemma put_call_parity_when_unclamped_witness :
  parity_gap at_the_money = Fin 0 /\ within 0.000001 (parity_gap at_the_money).
Proof.
  destruct at_the_money_valid as [Hvalid Hv].
  destruct at_the_money_prices as [Hc Hp].
  apply (put_call_parity_when_unclamped at_the_money Hvalid Hv).
  - rewrite at_the_money_d1. lra.
  - rewrite at_the_money_d2. lra.
  - rewrite (blackScholes_fin _ Hvalid Hv). cbn [OC.call].
    unfold ngtb. apply nltb_fin_true.
    apply Rlt_le_trans with (call_unclamped at_the_money); [lra | apply Rmax_l].
  - rewrite (blackScholes_fin _ Hvalid Hv). cbn [OC.put].
    unfold ngtb. apply nltb_fin_true.
    apply Rlt_le_trans with (put_unclamped at_the_money); [lra | apply Rmax_l].
Defined.

Lemma zero_volatility_d1 : OC.d1_of zero_volatility_option = NaN.
Proof.
  unfold OC.d1_of, zero_volatility_option.
  cbn [OC.spot OC.strike OC.timeToExpiry OC.riskFreeRate OC.volatility OC.dividend
       OC.dividendYield].
  rewrite ndiv_fin by lra. rewrite nlog_fin by lra.
  rewrite nsqrt_fin by lra. cbn [nmul nadd nsub nneg].
  replace (100 / 100) with 1 by lra. rewrite ln_1.
  apply ndiv_zero_zero; lra.
Qed.

Lemma zero_volatility_prices :
  OC.blackScholes zero_volatility_option = {| OC.call := NaN; OC.put := NaN |}.
Proof.
  unfold OC.blackScholes, OC.d2_of. rewrite zero_volatility_d1.
  unfold zero_volatility_option at 1. cbn [OC.timeToExpiry].
  rewrite nleb_fin_false by lra.
  cbn [nsub nneg nadd]. change (OC.normCDF NaN) with NaN.
  now rewrite !nmul_nan_r.
Qed.

Lemma high_dividend_valid :
  valid_option high_dividend_option /\ 0 < OC.volatility high_dividend_option.
Proof.
  unfold valid_option, high_dividend_option.
  cbn [OC.spot OC.strike OC.timeToExpiry OC.volatility OC.dividend
       OC.dividendYield].
  lra.
Qed.

Lemma high_dividend_d1 : d1_real high_dividend_option = 0.
Proof.
  unfold d1_real, high_dividend_option.
  cbn [OC.spot OC.strike OC.timeToExpiry OC.riskFreeRate OC.volatility OC.dividend
       OC.dividendYield].
  replace (10000 / 10000) with 1 by lra. rewrite ln_1, sqrt_1. lra.
Qed.

Lemma high_dividend_d2 : d2_real high_dividend_option = Ropp 0.5.
Proof.
  unfold d2_real. rewrite high_dividend_d1. unfold high_dividend_option.
  cbn [OC.timeToExpiry OC.volatility]. rewrite sqrt_1. lra.
Qed.

Lemma half_tail :
  normCDF_tail 0.5
  = 1 - normCDF_poly (1 / (1 + OC.p * (0.5 / sqrt 2))) * exp (-0.125).
Proof.
  pose proof sqrt2_pos as Hs. unfold normCDF_tail.
  rewrite Rabs_right by lra. do 2 f_equal. f_equal.
  assert (Hss : sqrt 2 * sqrt 2 = 2) by (apply sqrt_sqrt; lra).
  assert (Hq : 0.5 / sqrt 2 = 0.25 * sqrt 2).
  { apply Rmult_eq_reg_r with (sqrt 2); [| lra].
    unfold Rdiv. rewrite Rmult_assoc, Rinv_l by lra. nra. }
  rewrite Hq. nra.
Qed.

Lemma high_dividend_gap :
  0 <= call_unclamped high_dividend_option
  /\ 0 <= put_unclamped high_dividend_option
  /\ parity_gap high_dividend_option
     = Fin (10000 * exp (-0.125) * 0.000000001).
Proof.
  destruct high_dividend_valid as [Hvalid Hv].
  assert (HE : 0.875 <= exp (-0.125) <= 1).
  { split.
    - pose proof (exp_ineq1_le (-0.125)). lra.
    - rewrite <- exp_0. left. apply exp_increasing. lra. }
  assert (Hq : normCDF_poly (1 / (1 + OC.p * (0.5 / sqrt 2))) * exp (-0.125)
               <= 0.99 * exp (-0.125)).
  { pose proof (normCDF_tail_positive 0.5) as Htail.
    rewrite half_tail in Htail.
    apply Rmult_le_compat_r; [lra |].
    apply normCDF_poly_below_one, normCDF_t_range, scaled_argument_range. lra. }
  assert (HF : forward_spot high_dividend_option = 10000 * exp (-0.125)).
  { unfold forward_spot, high_dividend_option.
    cbn [OC.spot OC.timeToExpiry OC.dividend OC.dividendYield].
    do 2 f_equal. lra. }
  assert (HD : discounted_strike high_dividend_option = 10000).
  { unfold discounted_strike, high_dividend_option.
    cbn [OC.strike OC.timeToExpiry OC.riskFreeRate].
    replace (- 0 * 1) with 0 by ring. rewrite exp_0. lra. }
  assert (Hc : 0 <= call_unclamped high_dividend_option).
  { unfold call_unclamped. rewrite HF, HD, high_dividend_d1, high_dividend_d2.
    rewrite normCDF_real_zero, (normCDF_real_left 0.5) by lra.
    rewrite half_tail. nra. }
  assert (Hp : 0 <= put_unclamped high_dividend_option).
  { unfold put_unclamped. rewrite HF, HD, high_dividend_d1, high_dividend_d2.
    rewrite Ropp_involutive, Ropp_0.
    rewrite normCDF_real_zero, (normCDF_real_right 0.5) by lra.
    rewrite half_tail. nra. }
  split; [exact Hc |]. split; [exact Hp |].
  rewrite (parity_gap_unclamped _ Hvalid Hv Hc Hp).
  rewrite HF, HD, high_dividend_d1, high_dividend_d2.
  rewrite Ropp_involutive, Ropp_0, normCDF_real_zero.
  rewrite (normCDF_real_left 0.5), (normCDF_real_right 0.5) by lra.
  f_equal. lra.
Qed.

(** C3, as stated, fails on valid parameters.
    - With [volatility = 0], at the money and without rates, [d1] is
      [0 / 0]: both prices are [NaN] and no tolerance is met.
    - With a positive volatility and [d1 = 0], the approximation gives
      [normCDF(0) + normCDF(-0) = 1 + 1e-9], and for a spot of 10000 the
      gap is [10000 * exp(-0.125) * 1e-9 > 8e-6]. *)
Lemma put_call_parity_counterexample :
  (valid_option zero_volatility_option
   /\ ~ within 0.000001 (parity_gap zero_volatility_option))
  /\ (valid_option high_dividend_option
      /\ 0 < OC.volatility high_dividend_option
      /\ ~ within 0.000001 (parity_gap high_dividend_option)).
Proof.
  split.
  - split.
    + unfold valid_option, zero_volatility_option.
      cbn [OC.spot OC.strike OC.timeToExpiry OC.volatility OC.dividend
           OC.dividendYield].
      lra.
    + unfold parity_gap. rewrite zero_volatility_prices.
      cbn [OC.call OC.put nsub nneg nadd within]. tauto.
  - destruct high_dividend_valid as [Hvalid Hv].
    destruct high_dividend_gap as (_ & _ & Hgap).
    split; [exact Hvalid |]. split; [exact Hv |].
    rewrite Hgap. cbn [within].
    pose proof (exp_ineq1_le (-0.125)) as HE.
    rewrite Rabs_right by nra. nra.
Qed.

(* ===================================================================== *)
(** ** RiskManager: value at risk and expected shortfall of a series *)
(* ===================================================================== *)

Lemma sumR_from (a : list R) (x : R) : fold_left Rplus a x = x + sumR a.
Proof.
  unfold sumR. revert x.
  induction a as [| y a IH]; intros x; cbn [fold_left]; [lra |].
  rewrite IH, (IH (0 + y)). lra.
Qed.

Lemma sumR_cons (x : R) (a : list R) : sumR (x :: a) = x + sumR a.
Proof. unfold sumR at 1. cbn [fold_left]. rewrite sumR_from. lra. Qed.

Lemma sumR_nil : sumR [] = 0.
Proof. reflexivity. Qed.

Lemma js_index_outside {A : Type} (a : list A) (i : Z) :
  (i < 0 \/ Z.of_nat (length a) <= i)%Z -> js_index a i = None.
Proof.
  intros H. unfold js_index. destruct (i <? 0)%Z eqn:Hneg; [reflexivity |].
  apply Z.ltb_ge in Hneg. apply nth_error_None. lia.
Qed.

Lemma three_losses_sorted : Sorted Rle [-3; -2; -1].
Proof. repeat constructor; lra. Qed.

(** X1.  [RiskManager.calculateVaR] returns the magnitude of the return at
    index [Math.floor(N * confidence)] of the ascending series (whatever
    ascending arrangement [s] of the series one takes), the product being
    the double-precision one, and 0 when that index falls outside the
    series; so it is never negative, and it is 0 for an empty series.  For
    the returns [-3, -2, -1] and the confidence [0.3333333333333333] the
    product rounds to 1 and the result is 2. *)
Theorem calculateVaR_rank_magnitude (returns : list R) (confidence : float) :
  (forall s, Sorted Rle s -> Permutation s returns ->
     RiskMeasures.calculateVaR returns confidence
     = Rabs (RiskMeasures.or_zero
               (js_at s (rank (length returns) confidence))))
  /\ 0 <= RiskMeasures.calculateVaR returns confidence
  /\ RiskMeasures.calculateVaR [] confidence = 0
  /\ RiskMeasures.calculateVaR [-3; -2; -1] 0.3333333333333333 = 2.
Proof.
  split; [| split; [| split]].
  - intros s Hs Hp. unfold RiskMeasures.calculateVaR.
    now rewrite (js_sort_is_the_ascending returns s Hs Hp).
  - apply Rabs_pos.
  - unfold RiskMeasures.calculateVaR. cbn [js_sort].
    destruct (rank _ confidence) as [z | | |]; cbn [js_at RiskMeasures.or_zero];
      try apply Rabs_R0.
    unfold js_index. destruct (z <? 0)%Z; [apply Rabs_R0 |].
    destruct (Z.to_nat z); cbn [nth_error RiskMeasures.or_zero]; apply Rabs_R0.
  - unfold RiskMeasures.calculateVaR.
    rewrite (js_sort_is_the_ascending [-3; -2; -1] [-3; -2; -1]
               three_losses_sorted (Permutation_refl _)).
    cbn [length]. rewrite rank_3_at_third.
    cbn [js_at]. change (js_index [-3; -2; -1] 1) with (Some (-2)).
    cbn [RiskMeasures.or_zero]. rewrite Rabs_left by lra. lra.
Qed.

Lemma sum_of_bounded (b : R) (a : list R) :
  Forall (fun r => r <= b) a -> sumR a <= b * INR (length a).
Proof.
  induction 1 as [| x a Hx _ IH].
  - rewrite sumR_nil. cbn [length INR]. lra.
  - rewrite sumR_cons. change (length (x :: a)) with (S (length a)).
    rewrite S_INR. lra.
Qed.

(** X2.  [RiskManager.calculateCVaR] is the magnitude of the mean of the
    returns that are at or below [-VaR]: it is never negative, and it is 0
    when the series has no such return.  In exact arithmetic, when the
    series has such a return the result is at least the value at risk. *)
Theorem calculateCVaR_beyond_VaR_or_zero (returns : list R) (confidence : float) :
  let VaR := RiskMeasures.calculateVaR returns confidence in
  0 <= RiskMeasures.calculateCVaR returns confidence
  /\ (Forall (fun r => - VaR < r) returns ->
      RiskMeasures.calculateCVaR returns confidence = 0)
  /\ (Exists (fun r => r <= - VaR) returns ->
      VaR <= RiskMeasures.calculateCVaR returns confidence).
Proof.
  intros VaR.
  assert (HVaR : 0 <= VaR) by apply Rabs_pos.
  unfold RiskMeasures.calculateCVaR. fold VaR.
  set (worst := filter (fun r => if Rle_dec r (- VaR) then true else false)
                       returns).
  assert (Hall : Forall (fun r => r <= - VaR) worst).
  { apply Forall_forall. intros r Hr. apply filter_In in Hr.
    destruct Hr as [_ Hr]. now destruct (Rle_dec r (- VaR)). }
  split; [| split].
  - destruct (0 <? length worst)%nat; [apply Rabs_pos | lra].
  - intros Hnone.
    assert (Hnil : worst = []).
    { destruct worst as [| w worst'] eqn:Hw; [reflexivity |].
      assert (Hin : In w (w :: worst')) by now left.
      rewrite <- Hw in Hin. apply filter_In in Hin. destruct Hin as [Hin Hle].
      rewrite Forall_forall in Hnone. specialize (Hnone w Hin).
      destruct (Rle_dec w (- VaR)); [lra | discriminate]. }
    now rewrite Hnil.
  - intros Hex. apply Exists_exists in Hex. destruct Hex as (r & Hin & Hr).
    assert (Hw : In r worst).
    { apply filter_In. split; [exact Hin |].
      destruct (Rle_dec r (- VaR)); [reflexivity | contradiction]. }
    destruct worst as [| w worst']; [contradiction |].
    cbn [length Nat.ltb Nat.leb]. unfold js_length.
    pose proof (sum_of_bounded _ _ Hall) as Hsum.
    assert (Hn : 0 < INR (length (w :: worst')))
      by (apply lt_0_INR; cbn [length]; lia).
    assert (Hmean : sumR (w :: worst') / INR (length (w :: worst')) <= - VaR).
    { apply Rmult_le_reg_r with (INR (length (w :: worst'))); [exact Hn |].
      unfold Rdiv. rewrite Rmult_assoc, Rinv_l by lra. lra. }
    rewrite Rabs_left1 by lra. lra.
Qed.


(* ===================================================================== *)
(** ** RiskManager: drawdown of a return series *)
(* ===================================================================== *)

Lemma drawdown_ratio_range (peak cumulative : R) :
  0 < cumulative <= peak -> 0 <= (peak - cumulative) / peak < 1.
Proof.
  intros [Hc Hp]. split.
  - apply Rmult_le_pos; [lra |]. left. apply Rinv_0_lt_compat. lra.
  - apply Rmult_lt_reg_r with peak; [lra |].
    unfold Rdiv. rewrite Rmult_assoc, Rinv_l by lra. lra.
Qed.

(** While the compounded value stays positive, the running maximum
    drawdown is, in exact arithmetic, a finite number in [0, 1). *)
Lemma drawdown_fold_range (returns : list R) :
  forall peak m cumulative,
    Forall (fun r => -1 < r) returns ->
    0 < cumulative -> 0 <= m < 1 ->
    exists peak' m' cumulative',
      fold_left RiskMeasures.drawdown_step returns (peak, Fin m, cumulative)
      = (peak', Fin m', cumulative')
      /\ 0 <= m' < 1.
Proof.
  induction returns as [| r returns IH]; intros peak m c Hall Hc Hm.
  - exists peak, m, c. split; [reflexivity | exact Hm].
  - inversion Hall as [| ? ? Hr Hall']; subst.
    cbn [fold_left RiskMeasures.drawdown_step].
    assert (Hc' : 0 < c * (1 + r)) by (apply Rmult_lt_0_compat; lra).
    set (c' := c * (1 + r)) in *.
    set (peak' := if Rlt_dec peak c' then c' else peak).
    assert (Hpeak : 0 < c' <= peak').
    { unfold peak'. destruct (Rlt_dec peak c'); lra. }
    rewrite ndiv_fin by lra.
    pose proof (drawdown_ratio_range peak' c' Hpeak) as Hd.
    unfold ngtb. cbn [nltb].
    destruct (Rlt_dec m ((peak' - c') / peak')).
    + apply IH; [exact Hall' | exact Hc' | exact Hd].
    + apply IH; [exact Hall' | exact Hc' | exact Hm].
Qed.

Lemma drawdown_fold_gains (returns : list R) :
  forall peak cumulative,
    Forall (fun r => 0 <= r) returns ->
    0 < cumulative -> peak <= cumulative ->
    exists peak' cumulative',
      fold_left RiskMeasures.drawdown_step returns (peak, Fin 0, cumulative)
      = (peak', Fin 0, cumulative').
Proof.
  induction returns as [| r returns IH]; intros peak c Hall Hc Hp.
  - now exists peak, c.
  - inversion Hall as [| ? ? Hr Hall']; subst.
    cbn [fold_left RiskMeasures.drawdown_step].
    assert (Hc' : c <= c * (1 + r)) by nra.
    set (c' := c * (1 + r)) in *.
    assert (Hpeak : (if Rlt_dec peak c' then c' else peak) = c').
    { destruct (Rlt_dec peak c'); lra. }
    rewrite Hpeak. rewrite ndiv_fin by lra.
    replace ((c' - c') / c') with 0 by (unfold Rdiv; lra).
    unfold ngtb. rewrite nltb_fin_false by lra.
    apply IH; [exact Hall' | lra | lra].
Qed.

Lemma drawdown_fold_ruined (returns : list R) :
  fold_left RiskMeasures.drawdown_step returns (0, Fin 0, 0) = (0, Fin 0, 0).
Proof.
  induction returns as [| r returns IH]; [reflexivity |].
  cbn [fold_left RiskMeasures.drawdown_step].
  rewrite Rmult_0_l. destruct (Rlt_dec 0 0) as [H | _]; [lra |].
  rewrite ndiv_zero_zero by lra. exact IH.
Qed.

(** X3.  [RiskManager.calculateMaxDrawdown] on a return series: when
    every return is above -100% the result is a number between 0 and 1;
    when no return is negative it is 0; and when the first return is
    exactly -100% it is 0 as well, whatever follows (the peak never leaves
    0 and every drawdown is [0 / 0]). *)
Theorem calculateMaxDrawdown_of_returns (returns : list R) :
  (Forall (fun r => -1 < r) returns ->
   exists m, RiskMeasures.calculateMaxDrawdown returns = Fin m /\ 0 <= m <= 1)
  /\ (Forall (fun r => 0 <= r) returns ->
      RiskMeasures.calculateMaxDrawdown returns = Fin 0)
  /\ RiskMeasures.calculateMaxDrawdown (-1 :: returns) = Fin 0.
Proof.
  unfold RiskMeasures.calculateMaxDrawdown. split; [| split].
  - intros Hall.
    destruct (drawdown_fold_range returns 0 0 1 Hall) as (p & m & c & -> & Hm);
      [lra | lra |].
    exists m. split; [reflexivity | lra].
  - intros Hall.
    destruct (drawdown_fold_gains returns 0 1 Hall) as (p & c & ->);
      [lra | lra |].
    reflexivity.
  - cbn [fold_left RiskMeasures.drawdown_step].
    replace (1 * (1 + -1)) with 0 by lra.
    destruct (Rlt_dec 0 0) as [H | _]; [lra |].
    rewrite ndiv_zero_zero by lra. cbn [ngtb nltb].
    now rewrite drawdown_fold_ruined.
Qed.

(* ===================================================================== *)
(** ** RiskManager: the guarded ratios *)
(* ===================================================================== *)

(** A quotient of a finite numerator taken only when its denominator
    compares as positive is a finite number: the denominator is then
    finite and non-zero, or [Infinity]. *)
Lemma guarded_quotient_finite (a : R) (y : num) :
  ngtb y (Fin 0) = true -> is_finite (ndiv (Fin a) y) = true.
Proof.
  unfold ngtb. destruct y as [v | | |]; cbn [nltb]; try discriminate.
  - destruct (Rlt_dec 0 v) as [Hv | _]; [| discriminate]. intros _.
    rewrite ndiv_fin by lra. reflexivity.
  - reflexivity.
Qed.

Lemma mean_of_fin (returns : list R) :
  returns <> [] ->
  RiskManager.mean_of returns = Fin (sumR returns / INR (length returns)).
Proof.
  destruct returns as [| x returns]; [congruence | intros _].
  apply mean_of_nonempty.
Qed.

Lemma at_index_inside (a : list R) (i : nat) :
  (i < length a)%nat -> RiskMeasures.at_index a i = Fin (nth i a 0).
Proof.
  intros Hi. unfold RiskMeasures.at_index.
  destruct (nth_error a i) as [x |] eqn:Hx.
  - cbn [option_map to_number]. f_equal. symmetry.
    now apply nth_error_nth.
  - apply nth_error_None in Hx. lia.
Qed.

(** The two sums of [calculateBeta], as real sums over the indices. *)
Lemma beta_fold (a b : list R) (ma mb : R) (idx : list nat) :
  forall c v,
    Forall (fun i => (i < length a)%nat /\ (i < length b)%nat) idx ->
    fold_left (RiskMeasures.beta_step a b (Fin ma) (Fin mb)) idx (Fin c, Fin v)
    = (Fin (c + sumR (map (fun i => (nth i a 0 - ma) * (nth i b 0 - mb)) idx)),
       Fin (v + sumR (map (fun i => (nth i b 0 - mb) * (nth i b 0 - mb)) idx))).
Proof.
  induction idx as [| i idx IH]; intros c v Hall.
  - cbn [map fold_left]. rewrite sumR_nil, !Rplus_0_r. reflexivity.
  - inversion Hall as [| ? ? [Hia Hib] Hall']; subst.
    cbn [map fold_left RiskMeasures.beta_step].
    rewrite !at_index_inside by assumption.
    cbn [nsub nneg nadd nmul npow].
    rewrite IH by exact Hall'. rewrite !sumR_cons.
    f_equal; f_equal; lra.
Qed.

Lemma seq_inside (n : nat) :
  Forall (fun i => (i < n)%nat /\ (i < n)%nat) (seq 0 n).
Proof.
  apply Forall_forall. intros i Hi. apply in_seq in Hi. lia.
Qed.

Lemma map_nth_seq {A B : Type} (g : A -> B) (d : A) (l : list A) :
  map (fun i => g (nth i l d)) (seq 0 (length l)) = map g l.
Proof.
  induction l as [| x l IH]; [reflexivity |].
  cbn [length seq map nth]. f_equal.
  rewrite <- seq_shift, map_map. exact IH.
Qed.

Lemma sharpe_finite (returns : list R) (rate periods : R) :
  is_finite (RiskManager.calculateSharpeRatio returns rate periods) = true.
Proof.
  unfold RiskManager.calculateSharpeRatio.
  destruct (ngtb (RiskManager.calculateVolatility returns periods) (Fin 0))
    eqn:Hpos; [| reflexivity].
  destruct returns as [| x returns].
  - now rewrite empty_series_volatility in Hpos.
  - rewrite mean_of_nonempty. cbn [nmul nsub nneg nadd].
    now apply guarded_quotient_finite.
Qed.

Lemma sortino_finite (returns : list R) (target periods : R) :
  is_finite (RiskManager.calculateSortino returns target periods) = true.
Proof.
  unfold RiskManager.calculateSortino.
  destruct (length (filter _ returns) =? 0)%nat eqn:Hlen; [reflexivity |].
  match goal with
  | |- is_finite (if ngtb ?d _ then _ else _) = true =>
      destruct (ngtb d (Fin 0)) eqn:Hpos; [| reflexivity]
  end.
  destruct returns as [| x returns]; [discriminate |].
  rewrite mean_of_nonempty. cbn [nmul nsub nneg nadd].
  now apply guarded_quotient_finite.
Qed.

Lemma calmar_finite (returns : list R) (periods : R) :
  is_finite (RiskMeasures.calculateCalmar returns periods) = true.
Proof.
  unfold RiskMeasures.calculateCalmar.
  destruct (ngtb (RiskMeasures.calculateMaxDrawdown returns) (Fin 0))
    eqn:Hpos; [| reflexivity].
  destruct returns as [| x returns].
  - unfold RiskMeasures.calculateMaxDrawdown, ngtb in Hpos.
    cbn [fold_left] in Hpos.
    rewrite nltb_fin_false in Hpos by lra. discriminate.
  - rewrite mean_of_nonempty. cbn [nmul].
    now apply guarded_quotient_finite.
Qed.

Lemma beta_finite (returns benchmarkReturns : list R) :
  is_finite (RiskMeasures.calculateBeta returns benchmarkReturns) = true.
Proof.
  unfold RiskMeasures.calculateBeta.
  destruct (length returns =? length benchmarkReturns)%nat eqn:Hlen;
    [| reflexivity].
  apply Nat.eqb_eq in Hlen. cbn [negb].
  destruct returns as [| x returns].
  - cbn [length seq fold_left]. unfold ngtb.
    now rewrite nltb_fin_false by lra.
  - destruct benchmarkReturns as [| y benchmarkReturns]; [discriminate |].
    rewrite !mean_of_nonempty. rewrite beta_fold.
    + match goal with
      | |- is_finite (if ngtb ?d _ then _ else _) = true =>
          destruct (ngtb d (Fin 0)) eqn:Hpos; [| reflexivity]
      end.
      now apply guarded_quotient_finite.
    + rewrite <- Hlen. apply seq_inside.
Qed.

Lemma information_ratio_finite (returns benchmarkReturns : list R) :
  is_finite (RiskMeasures.calculateInformationRatio returns benchmarkReturns)
  = true.
Proof.
  unfold RiskMeasures.calculateInformationRatio.
  destruct (length returns =? length benchmarkReturns)%nat eqn:Hlen;
    [| reflexivity].
  cbn [negb].
  match goal with
  | |- is_finite (if ngtb ?d _ then _ else _) = true =>
      destruct (ngtb d (Fin 0)) eqn:Hpos; [| reflexivity]
  end.
  destruct (RiskMeasures.excess returns benchmarkReturns) as [| e es].
  - now rewrite empty_series_volatility in Hpos.
  - rewrite mean_of_nonempty. cbn [nmul].
    now apply guarded_quotient_finite.
Qed.

(** X4.  In exact arithmetic (no intermediate value overflows or is
    rounded), the ratios of [RiskManager] that divide behind a guard --
    [calculateSharpeRatio], [calculateSortino], [calculateCalmar],
    [calculateBeta] and [calculateInformationRatio] -- return a finite
    number for every input: never [NaN], never an infinity. *)
Theorem guarded_ratios_are_finite
  (returns benchmarkReturns : list R) (rate target periods : R) :
  is_finite (RiskManager.calculateSharpeRatio returns rate periods) = true
  /\ is_finite (RiskManager.calculateSortino returns target periods) = true
  /\ is_finite (RiskMeasures.calculateCalmar returns periods) = true
  /\ is_finite (RiskMeasures.calculateBeta returns benchmarkReturns) = true
  /\ is_finite (RiskMeasures.calculateInformationRatio returns benchmarkReturns)
     = true.
Proof.
  split; [apply sharpe_finite |].
  split; [apply sortino_finite |].
  split; [apply calmar_finite |].
  split; [apply beta_finite | apply information_ratio_finite].
Qed.

(* ===================================================================== *)
(** ** RiskManager: beta and alpha against a benchmark *)
(* ===================================================================== *)

Lemma sumR_map_scale {A : Type} (k : R) (g : A -> R) (l : list A) :
  sumR (map (fun x => k * g x) l) = k * sumR (map g l).
Proof.
  induction l as [| x l IH]; cbn [map].
  - rewrite sumR_nil. lra.
  - rewrite !sumR_cons, IH. lra.
Qed.

Lemma sumR_map_affine (c k : R) (l : list R) :
  sumR (map (fun b => c + k * b) l) = c * INR (length l) + k * sumR l.
Proof.
  induction l as [| x l IH]; cbn [map].
  - rewrite sumR_nil. cbn [length INR]. lra.
  - rewrite !sumR_cons, IH. change (length (x :: l)) with (S (length l)).
    rewrite S_INR. lra.
Qed.

Lemma sumR_squares_nonneg (m : R) (l : list R) :
  0 <= sumR (map (fun x => (x - m) * (x - m)) l).
Proof.
  induction l as [| x l IH]; cbn [map].
  - rewrite sumR_nil. lra.
  - rewrite sumR_cons. pose proof (Rle_0_sqr (x - m)) as Hsq.
    unfold Rsqr in Hsq. lra.
Qed.

Lemma sumR_squares_positive (m x : R) (l : list R) :
  In x l -> x <> m -> 0 < sumR (map (fun x => (x - m) * (x - m)) l).
Proof.
  induction l as [| y l IH]; intros Hin Hx; [contradiction |].
  cbn [map]. rewrite sumR_cons.
  pose proof (sumR_squares_nonneg m l) as Hrest.
  destruct Hin as [-> | Hin].
  - assert (0 < (x - m) * (x - m)).
    { pose proof (Rsqr_pos_lt (x - m)) as Hsq. unfold Rsqr in Hsq.
      apply Hsq. lra. }
    lra.
  - specialize (IH Hin Hx). pose proof (Rle_0_sqr (y - m)) as Hsq.
    unfold Rsqr in Hsq. lra.
Qed.

Lemma not_constant_off_mean (m : R) (l : list R) :
  not_constant l -> exists x, In x l /\ x <> m.
Proof.
  intros (x & y & Hx & Hy & Hxy).
  destruct (Req_dec_T x m) as [-> | Hm]; [exists y | exists x]; split; auto.
Qed.

Lemma not_constant_nonempty (l : list R) : not_constant l -> l <> [].
Proof. intros (x & y & Hx & _) ->. contradiction. Qed.

Lemma mean_of_linear (intercept slope : R) (b : list R) :
  b <> [] ->
  RiskManager.mean_of (linear_in intercept slope b)
  = Fin (intercept + slope * (sumR b / INR (length b))).
Proof.
  intros Hb. rewrite mean_of_fin.
  - unfold linear_in. rewrite sumR_map_affine, length_map. f_equal.
    assert (Hn : INR (length b) <> 0).
    { destruct b as [| x b]; [congruence |].
      apply not_0_INR. discriminate. }
    field. exact Hn.
  - unfold linear_in. destruct b; [congruence | discriminate].
Qed.

(** The slope of an exactly linear asset, as [calculateBeta] computes it in
    exact arithmetic. *)
Lemma beta_of_linear (intercept slope : R) (benchmarkReturns : list R) :
  not_constant benchmarkReturns ->
  RiskMeasures.calculateBeta (linear_in intercept slope benchmarkReturns)
                             benchmarkReturns
  = Fin slope.
Proof.
  intros Hnc. pose proof (not_constant_nonempty _ Hnc) as Hne.
  set (b := benchmarkReturns) in *. set (mb := sumR b / INR (length b)).
  unfold RiskMeasures.calculateBeta.
  assert (Hlen : length (linear_in intercept slope b) = length b)
    by apply length_map.
  rewrite Hlen, Nat.eqb_refl. cbn [negb].
  rewrite mean_of_linear by exact Hne. rewrite (mean_of_fin b Hne). fold mb.
  rewrite beta_fold by (rewrite Hlen; apply seq_inside).
  rewrite !Rplus_0_l.
  set (V := sumR (map (fun i => (nth i b 0 - mb) * (nth i b 0 - mb))
                      (seq 0 (length b)))).
  assert (HV : 0 < V).
  { unfold V. rewrite (map_nth_seq (fun x => (x - mb) * (x - mb)) 0 b).
    destruct (not_constant_off_mean mb b Hnc) as (x & Hx & Hxm).
    now apply sumR_squares_positive with x. }
  assert (Hcov :
    sumR (map (fun i => (nth i (linear_in intercept slope b) 0
                         - (intercept + slope * mb)) * (nth i b 0 - mb))
              (seq 0 (length b)))
    = slope * V).
  { unfold V. rewrite <- sumR_map_scale. f_equal.
    apply map_ext_in. intros i Hi. apply in_seq in Hi.
    unfold linear_in.
    rewrite (nth_indep _ 0 (intercept + slope * 0)) by (rewrite length_map; lia).
    rewrite (map_nth (fun b => intercept + slope * b)). ring. }
  rewrite Hcov. unfold ngtb. rewrite nltb_fin_true by exact HV.
  rewrite ndiv_fin by lra. f_equal. field. lra.
Qed.

(** X5.  In exact arithmetic, for an asset whose returns are the linear
    function [intercept + slope * b] of the benchmark returns, and a
    benchmark that is not constant, [calculateBeta] returns [slope]; in
    particular the beta of a series against itself is 1. *)
Theorem calculateBeta_recovers_slope
  (intercept slope : R) (benchmarkReturns : list R) :
  not_constant benchmarkReturns ->
  RiskMeasures.calculateBeta (linear_in intercept slope benchmarkReturns)
                             benchmarkReturns
  = Fin slope.
Proof. apply beta_of_linear. Qed.

Lemma two_values_not_constant : not_constant [0.01; 0.03].
Proof.
  exists 0.01, 0.03. repeat split; [now left | right; now left | lra].
Qed.

Lemma calculateBeta_recovers_slope_witness :
  RiskMeasures.calculateBeta (linear_in 0.001 2 [0.01; 0.03]) [0.01; 0.03]
  = Fin 2.
Proof.
  apply (calculateBeta_recovers_slope 0.001 2 [0.01; 0.03]).
  exact two_values_not_constant.
Defined.

(** In exact arithmetic, for the same linear asset [calculateAlpha]
    returns [252 * intercept - (1 - slope) * riskFreeRate]: the annualised
    intercept, corrected for the risk-free rate.  The alpha of a
    non-constant series against itself is therefore 0. *)
Theorem calculateAlpha_of_linear_asset
  (intercept slope riskFreeRate : R) (benchmarkReturns : list R) :
  not_constant benchmarkReturns ->
  RiskMeasures.calculateAlpha (linear_in intercept slope benchmarkReturns)
                              benchmarkReturns riskFreeRate
  = Fin (252 * intercept - (1 - slope) * riskFreeRate).
Proof.
  intros Hnc. pose proof (not_constant_nonempty _ Hnc) as Hne.
  unfold RiskMeasures.calculateAlpha.
  rewrite beta_of_linear by exact Hnc.
  rewrite mean_of_linear by exact Hne.
  rewrite (mean_of_fin benchmarkReturns Hne).
  cbn [nmul nsub nneg nadd]. f_equal. ring.
Qed.

Lemma calculateAlpha_of_linear_asset_witness :
  RiskMeasures.calculateAlpha (linear_in 0 1 [0.01; 0.03]) [0.01; 0.03] 0.02
  = Fin (252 * 0 - (1 - 1) * 0.02).
Proof.
  apply (calculateAlpha_of_linear_asset 0 1 0.02 [0.01; 0.03]).
  exact two_values_not_constant.
Defined.

(* ===================================================================== *)
(** ** RiskManager: tracking error and the complete record *)
(* ===================================================================== *)

Lemma sq_dev_fold (m : R) (l : list R) :
  forall a,
    fold_left (fun acc ret => nadd acc (npow (nsub (Fin ret) (Fin m)) 2))
              l (Fin a)
    = Fin (a + sumR (map (fun r => (r - m) * (r - m)) l)).
Proof.
  induction l as [| x l IH]; intros a; cbn [fold_left map].
  - rewrite sumR_nil, Rplus_0_r. reflexivity.
  - cbn [nsub nneg nadd nmul npow]. rewrite IH, sumR_cons. f_equal. lra.
Qed.

(** The annualised volatility of a series, once it has a value. *)
Lemma volatility_unfold (returns : list R) (periods : R) :
  returns <> [] ->
  let m := sumR returns / INR (length returns) in
  RiskManager.calculateVolatility returns periods
  = nsqrt (nmul (ndiv (Fin (0 + sumR (map (fun r => (r - m) * (r - m)) returns)))
                      (Fin (INR (length returns) - 1)))
                (Fin periods)).
Proof.
  intros Hne m. unfold RiskManager.calculateVolatility.
  rewrite mean_of_fin by exact Hne. fold m. now rewrite sq_dev_fold.
Qed.

Lemma volatility_finite (returns : list R) (periods : R) :
  (2 <= length returns)%nat -> 0 <= periods ->
  is_finite (RiskManager.calculateVolatility returns periods) = true.
Proof.
  intros Hlen Hp.
  assert (Hne : returns <> []) by (destruct returns; [cbn in Hlen; lia | discriminate]).
  rewrite volatility_unfold by exact Hne. cbv zeta.
  assert (Hn : 1 <= INR (length returns) - 1).
  { apply le_INR in Hlen. cbn [INR] in Hlen. lra. }
  rewrite ndiv_fin by lra. cbn [nmul].
  pose proof (sumR_squares_nonneg
                (sumR returns / INR (length returns)) returns) as Hs.
  rewrite nsqrt_fin; [reflexivity |].
  apply Rmult_le_pos; [| exact Hp].
  apply Rmult_le_pos; [lra |]. left. apply Rinv_0_lt_compat. lra.
Qed.

(** The volatility of a one-element series is [NaN]: its variance is
    [0 / 0]. *)
Lemma single_period_volatility (x periods : R) :
  RiskManager.calculateVolatility [x] periods = NaN.
Proof.
  rewrite volatility_unfold by discriminate. cbv zeta.
  cbn [map length INR]. rewrite sumR_cons, sumR_nil.
  replace (0 + ((x - (x + 0) / 1) * (x - (x + 0) / 1) + 0)) with 0
    by (unfold sumR; cbn [fold_left]; field).
  unfold sumR. cbn [fold_left].
  replace (0 + x) with x by ring.
  rewrite ndiv_zero_zero by lra. reflexivity.
Qed.

(** X6.  [calculateTrackingError] and [calculateInformationRatio] on
    series too short to have a variance: over a single period the tracking
    error is [NaN] (a [0 / 0] variance) and the information ratio is the
    sentinel 0, whatever the two returns are; with no period at all, or
    with series of different lengths, both are 0. *)
Theorem tracking_error_of_short_series :
  (forall a b,
      RiskMeasures.calculateTrackingError [a] [b] = NaN
      /\ RiskMeasures.calculateInformationRatio [a] [b] = Fin 0)
  /\ (RiskMeasures.calculateTrackingError [] [] = Fin 0
      /\ RiskMeasures.calculateInformationRatio [] [] = Fin 0)
  /\ (forall assetReturns benchmarkReturns,
         length assetReturns <> length benchmarkReturns ->
         RiskMeasures.calculateTrackingError assetReturns benchmarkReturns
         = Fin 0
         /\ RiskMeasures.calculateInformationRatio assetReturns benchmarkReturns
            = Fin 0).
Proof.
  split; [| split].
  - intros a b.
    unfold RiskMeasures.calculateTrackingError,
      RiskMeasures.calculateInformationRatio, RiskMeasures.excess.
    cbn [length Nat.eqb negb combine map].
    rewrite single_period_volatility. now split.
  - unfold RiskMeasures.calculateTrackingError,
      RiskMeasures.calculateInformationRatio, RiskMeasures.excess.
    cbn [length Nat.eqb negb combine map].
    rewrite empty_series_volatility. split; [| reflexivity].
    unfold RiskManager.calculateVolatility, RiskManager.mean_of, js_length.
    cbn [length INR fold_left sumR].
    rewrite (ndiv_fin 0 (0 - 1)) by lra. cbn [nmul].
    apply nsqrt_zero. lra.
  - intros assetReturns benchmarkReturns Hlen.
    unfold RiskMeasures.calculateTrackingError,
      RiskMeasures.calculateInformationRatio.
    apply Nat.eqb_neq in Hlen. rewrite Hlen. now split.
Qed.

Lemma maxDrawdown_finite (returns : list R) :
  Forall (fun r => -1 < r) returns ->
  is_finite (RiskMeasures.calculateMaxDrawdown returns) = true.
Proof.
  intros Hall. unfold RiskMeasures.calculateMaxDrawdown.
  destruct (drawdown_fold_range returns 0 0 1 Hall) as (p & m & c & -> & Hm);
    [lra | lra |].
  reflexivity.
Qed.

Lemma alpha_finite (assetReturns benchmarkReturns : list R) (rate : R) :
  assetReturns <> [] -> benchmarkReturns <> [] ->
  is_finite (RiskMeasures.calculateAlpha assetReturns benchmarkReturns rate)
  = true.
Proof.
  intros Ha Hb. unfold RiskMeasures.calculateAlpha.
  rewrite (mean_of_fin _ Ha), (mean_of_fin _ Hb).
  pose proof (beta_finite assetReturns benchmarkReturns) as Hbeta.
  destruct (RiskMeasures.calculateBeta assetReturns benchmarkReturns);
    try discriminate.
  reflexivity.
Qed.

(** X7.  In exact arithmetic (no intermediate value overflows or is
    rounded), for a series of at least two returns, all above -100%,
    [RiskManager.calculateRiskMetrics] returns a record in which every
    number is finite, with or without a benchmark (a benchmark of another
    length is ignored). *)
Theorem calculateRiskMetrics_all_finite
  (assetReturns : list R) (benchmarkReturns : option (list R)) :
  (2 <= length assetReturns)%nat ->
  Forall (fun r => -1 < r) assetReturns ->
  all_finite (RiskMeasures.calculateRiskMetrics assetReturns benchmarkReturns).
Proof.
  intros Hlen Hall.
  assert (Hne : assetReturns <> [])
    by (destruct assetReturns; [cbn in Hlen; lia | discriminate]).
  assert (Hp : 0 <= RiskManager.default_periods)
    by (unfold RiskManager.default_periods; lra).
  unfold all_finite, RiskMeasures.calculateRiskMetrics.
  destruct benchmarkReturns as [b |].
  - destruct (length b =? length assetReturns)%nat eqn:Hb.
    + apply Nat.eqb_eq in Hb.
      cbn [RiskMeasures.maxDrawdown RiskMeasures.volatility
           RiskMeasures.sharpeRatio RiskMeasures.sortino RiskMeasures.calmar
           RiskMeasures.beta RiskMeasures.alpha RiskMeasures.informationRatio
           RiskMeasures.trackingError].
      repeat split.
      * now apply maxDrawdown_finite.
      * now apply volatility_finite.
      * apply sharpe_finite.
      * apply sortino_finite.
      * apply calmar_finite.
      * apply beta_finite.
      * apply alpha_finite; [exact Hne |].
        destruct b; [cbn in Hb; lia | discriminate].
      * apply information_ratio_finite.
      * unfold RiskMeasures.calculateTrackingError.
        rewrite <- Hb, Nat.eqb_refl. cbn [negb].
        apply volatility_finite; [| exact Hp].
        unfold RiskMeasures.excess.
        rewrite length_map, length_combine, <- Hb, Nat.min_id. lia.
    + cbn [RiskMeasures.maxDrawdown RiskMeasures.volatility
           RiskMeasures.sharpeRatio RiskMeasures.sortino RiskMeasures.calmar
           RiskMeasures.beta RiskMeasures.alpha RiskMeasures.informationRatio
           RiskMeasures.trackingError].
      repeat split;
        [ now apply maxDrawdown_finite | now apply volatility_finite
        | apply sharpe_finite | apply sortino_finite | apply calmar_finite ].
  - cbn [RiskMeasures.maxDrawdown RiskMeasures.volatility
         RiskMeasures.sharpeRatio RiskMeasures.sortino RiskMeasures.calmar
         RiskMeasures.beta RiskMeasures.alpha RiskMeasures.informationRatio
         RiskMeasures.trackingError].
    repeat split;
      [ now apply maxDrawdown_finite | now apply volatility_finite
      | apply sharpe_finite | apply sortino_finite | apply calmar_finite ].
Qed.

Lemma calculateRiskMetrics_all_finite_witness :
  all_finite (RiskMeasures.calculateRiskMetrics [0.02; -0.01]
                                                (Some [0.01; 0.03])).
Proof.
  apply (calculateRiskMetrics_all_finite [0.02; -0.01] (Some [0.01; 0.03])).
  - cbn [length]. lia.
  - repeat constructor; lra.
Defined.

(* ===================================================================== *)
(** ** PositionSizer: the Kelly fraction *)
(* ===================================================================== *)

Lemma clamp_to_unit (y : num) :
  nmax (Fin 0) (nmin (Fin 1) y) = NaN
  \/ exists k, nmax (Fin 0) (nmin (Fin 1) y) = Fin k /\ 0 <= k <= 1.
Proof.
  destruct y as [a | | |]; cbn [nmin nmax].
  - right. eexists. split; [reflexivity |]. split; [apply Rmax_l |].
    apply Rmax_lub; [lra | apply Rmin_l].
  - right. exists (Rmax 0 1). split; [reflexivity |].
    rewrite Rmax_right by lra. lra.
  - right. exists 0. split; [reflexivity | lra].
  - now left.
Qed.

(** X8.  [kellyCalculation] returns 0 when [avgLoss <= 0]; for a positive
    [avgLoss] the result is [NaN] or a number between 0 and 1, and it is
    [NaN] for [avgWin = 0] and [winRate = 1], where the quotient is
    [0 / 0] and the clamp lets the [NaN] through.  In exact arithmetic,
    for a positive [avgLoss] and a non-zero [avgWin] it is the Kelly
    fraction [winRate - (1 - winRate) * avgLoss / avgWin] clamped to
    [0, 1]. *)
Theorem kellyCalculation_clamped (winRate avgWin avgLoss : R) :
  (avgLoss <= 0 ->
   PositionSizer.kellyCalculation winRate avgWin avgLoss = Fin 0)
  /\ (0 < avgLoss ->
      PositionSizer.kellyCalculation winRate avgWin avgLoss = NaN
      \/ exists k,
           PositionSizer.kellyCalculation winRate avgWin avgLoss = Fin k
           /\ 0 <= k <= 1)
  /\ (0 < avgLoss -> PositionSizer.kellyCalculation 1 0 avgLoss = NaN)
  /\ (0 < avgLoss -> avgWin <> 0 ->
      PositionSizer.kellyCalculation winRate avgWin avgLoss
      = Fin (Rmax 0 (Rmin 1 (winRate - (1 - winRate) * avgLoss / avgWin)))).
Proof.
  unfold PositionSizer.kellyCalculation. split; [| split; [| split]].
  - intros H. destruct (Rle_dec avgLoss 0); [reflexivity | lra].
  - intros Hl. destruct (Rle_dec avgLoss 0); [lra |]. apply clamp_to_unit.
  - intros Hl. destruct (Rle_dec avgLoss 0); [lra |].
    cbn [nabs]. rewrite Rabs_right by lra.
    rewrite ndiv_fin by lra. cbn [nmul nsub nneg nadd].
    rewrite ndiv_zero_zero; [reflexivity | lra | unfold Rdiv; lra].
  - intros Hl Hw. destruct (Rle_dec avgLoss 0); [lra |].
    cbn [nabs]. rewrite Rabs_right by lra.
    rewrite ndiv_fin by lra. cbn [nmul nsub nneg nadd].
    assert (Hratio : avgWin / avgLoss <> 0).
    { unfold Rdiv. apply Rmult_integral_contrapositive_currified;
        [exact Hw | apply Rinv_neq_0_compat; lra]. }
    rewrite ndiv_fin by exact Hratio. cbn [nmin nmax].
    f_equal. f_equal. f_equal. field. split; lra.
Qed.

(* ===================================================================== *)
(** ** PortfolioOptimizer: the weights *)
(* ===================================================================== *)

Lemma sumN_from (a : list R) (x : R) :
  fold_left nadd (map Fin a) (Fin x) = Fin (x + sumR a).
Proof.
  revert x. induction a as [| y a IH]; intros x; cbn [map fold_left].
  - rewrite sumR_nil, Rplus_0_r. reflexivity.
  - cbn [nadd]. rewrite IH, sumR_cons. f_equal. lra.
Qed.

Lemma sumN_map_Fin (a : list R) : sumN (map Fin a) = Fin (sumR a).
Proof. unfold sumN. rewrite sumN_from. f_equal. lra. Qed.

Lemma sumR_nonneg (a : list R) : Forall (fun w => 0 <= w) a -> 0 <= sumR a.
Proof.
  induction 1 as [| x a Hx _ IH]; [rewrite sumR_nil; lra |].
  rewrite sumR_cons. lra.
Qed.

Lemma sumR_map_div (s : R) (a : list R) :
  sumR (map (fun r => r / s) a) = sumR a / s.
Proof.
  induction a as [| x a IH]; cbn [map].
  - rewrite sumR_nil. unfold Rdiv. lra.
  - rewrite !sumR_cons, IH. unfold Rdiv. lra.
Qed.

Lemma sumR_repeat (x : R) (n : nat) : sumR (repeat x n) = x * INR n.
Proof.
  induction n as [| n IH]; [cbn [repeat INR]; rewrite sumR_nil; lra |].
  cbn [repeat]. rewrite sumR_cons, IH, S_INR. lra.
Qed.

Lemma equal_weights_fin (n : nat) :
  n <> 0%nat ->
  PortfolioOptimizer.equal_weights n = map Fin (repeat (1 / INR n) n).
Proof.
  intros Hn. unfold PortfolioOptimizer.equal_weights.
  rewrite ndiv_fin by (apply not_0_INR; exact Hn).
  now rewrite map_repeat.
Qed.

Lemma equal_weights_fully_invested (n : nat) :
  n <> 0%nat -> fully_invested n (PortfolioOptimizer.equal_weights n).
Proof.
  intros Hn. exists (repeat (1 / INR n) n).
  assert (Hpos : 0 < INR n) by (apply lt_0_INR; lia).
  split; [now apply equal_weights_fin |].
  split; [apply repeat_length |]. split.
  - apply Forall_forall. intros w Hw. apply repeat_spec in Hw. subst w.
    left. unfold Rdiv. rewrite Rmult_1_l. now apply Rinv_0_lt_compat.
  - rewrite sumR_repeat. field. lra.
Qed.

(** In exact arithmetic, a list of finite non-negative numbers is
    normalised into weights. *)
Lemma normalised_fully_invested (n : nat) (xs : list R) :
  n <> 0%nat -> length xs = n -> Forall (fun x => 0 <= x) xs ->
  fully_invested n (PortfolioOptimizer.normalised n (map Fin xs)).
Proof.
  intros Hn Hlen Hall. unfold PortfolioOptimizer.normalised.
  rewrite sumN_map_Fin. unfold ngtb. cbn [nltb].
  destruct (Rlt_dec 0 (sumR xs)) as [Hs | _].
  - exists (map (fun r => r / sumR xs) xs). split; [| split; [| split]].
    + rewrite !map_map. apply map_ext. intros r. apply ndiv_fin. lra.
    + now rewrite length_map.
    + apply Forall_forall. intros w Hw. apply in_map_iff in Hw.
      destruct Hw as (r & <- & Hr). rewrite Forall_forall in Hall.
      specialize (Hall r Hr). apply Rmult_le_pos; [exact Hall |].
      left. now apply Rinv_0_lt_compat.
    + rewrite sumR_map_div. field. lra.
  - now apply equal_weights_fully_invested.
Qed.

(** The inverse of a number behind the guard [v > 0]. *)
Lemma guarded_inverse (v : num) :
  exists x, (if ngtb v (Fin 0) then ndiv (Fin 1) v else Fin 0) = Fin x
            /\ 0 <= x.
Proof.
  unfold ngtb. destruct v as [r | | |]; cbn [nltb].
  - destruct (Rlt_dec 0 r) as [Hr | _].
    + exists (1 / r). rewrite ndiv_fin by lra. split; [reflexivity |].
      left. unfold Rdiv. rewrite Rmult_1_l. now apply Rinv_0_lt_compat.
    + exists 0. split; [reflexivity | lra].
  - exists 0. split; [reflexivity | lra].
  - exists 0. split; [reflexivity | lra].
  - exists 0. split; [reflexivity | lra].
Qed.

Lemma map_guarded_finite {A : Type} (f : A -> num) (l : list A) :
  (forall a, exists x, f a = Fin x /\ 0 <= x) ->
  exists xs, map f l = map Fin xs
             /\ length xs = length l
             /\ Forall (fun x => 0 <= x) xs.
Proof.
  intros Hf. induction l as [| a l (xs & Hmap & Hlen & Hall)].
  - exists []. repeat split. constructor.
  - destruct (Hf a) as (x & Hx & Hpos). exists (x :: xs).
    cbn [map length]. rewrite Hmap, Hx, Hlen. repeat split.
    now constructor.
Qed.

Lemma fully_invested_length (n : nat) (weights : list num) :
  fully_invested n weights -> length weights = n.
Proof. intros (ws & -> & Hlen & _). now rewrite length_map. Qed.

Lemma heuristic_weights_invested (covarianceMatrix : list (list R)) :
  covarianceMatrix <> [] ->
  let n := length covarianceMatrix in
  fully_invested n (PortfolioOptimizer.riskParityWeights covarianceMatrix)
  /\ fully_invested n
       (PortfolioOptimizer.minimumVarianceWeights covarianceMatrix).
Proof.
  intros Hne n.
  assert (Hn : n <> 0%nat)
    by (unfold n; destruct covarianceMatrix; [congruence | discriminate]).
  unfold PortfolioOptimizer.riskParityWeights,
    PortfolioOptimizer.minimumVarianceWeights.
  fold n. rewrite (proj2 (Nat.eqb_neq n 0) Hn).
  assert (Hidx : length (combine (seq 0 n) covarianceMatrix) = n).
  { rewrite length_combine, length_seq. apply Nat.min_id. }
  split.
  - unfold PortfolioOptimizer.map_diagonal. fold n. rewrite map_map.
    destruct (map_guarded_finite
                (fun ir : nat * list R =>
                   if ngtb (nsqrt (to_number
                                     (option_map Fin
                                        (nth_error (snd ir) (fst ir)))))
                           (Fin 0)
                   then ndiv (Fin 1)
                             (nsqrt (to_number
                                       (option_map Fin
                                          (nth_error (snd ir) (fst ir)))))
                   else Fin 0)
                (combine (seq 0 n) covarianceMatrix))
      as (xs & -> & Hlen & Hall).
    + intros ir. apply guarded_inverse.
    + apply normalised_fully_invested; [exact Hn | lia | exact Hall].
  - unfold PortfolioOptimizer.map_diagonal. fold n.
    destruct (map_guarded_finite
                (fun ir : nat * list R =>
                   (fun v => if ngtb v (Fin 0) then ndiv (Fin 1) v else Fin 0)
                     (to_number (option_map Fin (nth_error (snd ir) (fst ir)))))
                (combine (seq 0 n) covarianceMatrix))
      as (xs & -> & Hlen & Hall).
    + intros ir. apply guarded_inverse.
    + apply normalised_fully_invested; [exact Hn | lia | exact Hall].
Qed.

(** X9.  For every covariance matrix, whatever its entries (negative or
    missing diagonal cells included), [riskParityWeights] and
    [minimumVarianceWeights] return one weight per row, and no weight for
    the empty matrix.  In exact arithmetic the weights of a non-empty
    matrix are finite and non-negative and add up to 1. *)
Theorem heuristic_weights_fully_invested (covarianceMatrix : list (list R)) :
  let n := length covarianceMatrix in
  length (PortfolioOptimizer.riskParityWeights covarianceMatrix) = n
  /\ length (PortfolioOptimizer.minimumVarianceWeights covarianceMatrix) = n
  /\ (covarianceMatrix <> [] ->
      fully_invested n (PortfolioOptimizer.riskParityWeights covarianceMatrix)
      /\ fully_invested n
           (PortfolioOptimizer.minimumVarianceWeights covarianceMatrix)).
Proof.
  intros n. destruct covarianceMatrix as [| row rows].
  - split; [reflexivity |]. split; [reflexivity |]. intros H. now elim H.
  - destruct (heuristic_weights_invested (row :: rows)) as [Hp Hm];
      [discriminate |].
    split; [exact (fully_invested_length _ _ Hp) |].
    split; [exact (fully_invested_length _ _ Hm) |].
    intros _. split; assumption.
Qed.

Lemma heuristic_weights_fully_invested_witness :
  fully_invested 2 (PortfolioOptimizer.riskParityWeights [[0.04; 0.01]; [0.01]])
  /\ fully_invested 2
       (PortfolioOptimizer.minimumVarianceWeights [[0.04; 0.01]; [0.01]]).
Proof.
  apply (heuristic_weights_fully_invested [[0.04; 0.01]; [0.01]]).
  discriminate.
Defined.

Lemma weighted_sum_equal (w : R) (g : nat -> R) (f : nat -> num) (m : nat) :
  forall k acc,
    (forall i, (k <= i < k + m)%nat -> f i = Fin (g i)) ->
    fold_left (fun sum wi => nadd sum (nmul (snd wi) (f (fst wi))))
              (combine (seq k m) (map Fin (repeat w m))) (Fin acc)
    = Fin (acc + w * sumR (map g (seq k m))).
Proof.
  induction m as [| m IH]; intros k acc Hf.
  - cbn [seq repeat map combine fold_left]. rewrite sumR_nil. f_equal. lra.
  - cbn [seq repeat map combine fold_left fst snd].
    rewrite (Hf k) by lia. cbn [nmul nadd].
    rewrite IH by (intros i Hi; apply Hf; lia).
    rewrite sumR_cons. f_equal. lra.
Qed.

Lemma sumR_by_index (l : list R) :
  sumR (map (fun i => nth i l 0) (seq 0 (length l))) = sumR l.
Proof.
  rewrite (map_nth_seq (fun x => x) 0 l). now rewrite map_id.
Qed.

(** X10.  [meanVarianceOptimization] does not optimise: unless there are
    no assets or the matrix has another number of rows (it then returns
    the empty record), the weights are [1 / n] each, whatever the returns
    and covariances.  In exact arithmetic these weights add up to 1, the
    expected return is the plain average of the asset returns, and the
    Sharpe ratio is a finite number. *)
Theorem meanVarianceOptimization_equal_weight
  (expectedReturns : list R) (covarianceMatrix : list (list R))
  (riskFreeRate : R) :
  let n := length expectedReturns in
  let result :=
    PortfolioOptimizer.meanVarianceOptimization expectedReturns
      covarianceMatrix riskFreeRate in
  (n = 0%nat \/ length covarianceMatrix <> n ->
   result
   = {| PortfolioOptimizer.weights := [];
        PortfolioOptimizer.expectedReturn := Fin 0;
        PortfolioOptimizer.volatility := Fin 0;
        PortfolioOptimizer.sharpeRatio := Fin 0;
        PortfolioOptimizer.diversificationRatio := Fin 0 |})
  /\ (n <> 0%nat -> length covarianceMatrix = n ->
      PortfolioOptimizer.weights result = map Fin (repeat (1 / INR n) n)
      /\ fully_invested n (PortfolioOptimizer.weights result)
      /\ PortfolioOptimizer.expectedReturn result
         = Fin (sumR expectedReturns / INR n)
      /\ is_finite (PortfolioOptimizer.sharpeRatio result) = true).
Proof.
  intros n result. unfold result, PortfolioOptimizer.meanVarianceOptimization.
  fold n. split.
  - intros [H | H].
    + rewrite H. reflexivity.
    + rewrite (proj2 (Nat.eqb_neq _ _) H). cbn [negb].
      now rewrite orb_true_r.
  - intros Hn Hlen.
    rewrite (proj2 (Nat.eqb_neq n 0) Hn), Hlen, Nat.eqb_refl.
    cbn [negb orb PortfolioOptimizer.weights PortfolioOptimizer.expectedReturn
         PortfolioOptimizer.sharpeRatio].
    assert (Hmean :
      PortfolioOptimizer.weighted_sum (PortfolioOptimizer.equal_weights n)
        (RiskMeasures.at_index expectedReturns)
      = Fin (sumR expectedReturns / INR n)).
    { unfold PortfolioOptimizer.weighted_sum.
      rewrite equal_weights_fin by exact Hn.
      rewrite length_map, repeat_length.
      rewrite (weighted_sum_equal (1 / INR n) (fun i => nth i expectedReturns 0)).
      - unfold n. rewrite sumR_by_index. f_equal. unfold Rdiv. lra.
      - intros i Hi. apply at_index_inside. fold n. lia. }
    split; [now apply equal_weights_fin |].
    split; [now apply equal_weights_fully_invested |].
    split; [exact Hmean |].
    rewrite Hmean. cbn [nsub nneg nadd].
    match goal with
    | |- is_finite (if ngtb ?d _ then _ else _) = true =>
        destruct (ngtb d (Fin 0)) eqn:Hpos; [| reflexivity]
    end.
    now apply guarded_quotient_finite.
Qed.

Lemma meanVarianceOptimization_equal_weight_witness :
  PortfolioOptimizer.weights
    (PortfolioOptimizer.meanVarianceOptimization
       [0.1; 0.3] [[0.04; 0.01]; [0.01; 0.09]] 0.02)
  = map Fin (repeat (1 / INR 2) 2)
  /\ PortfolioOptimizer.expectedReturn
       (PortfolioOptimizer.meanVarianceOptimization
          [0.1; 0.3] [[0.04; 0.01]; [0.01; 0.09]] 0.02)
     = Fin (sumR [0.1; 0.3] / INR 2).
Proof.
  destruct (proj2 (meanVarianceOptimization_equal_weight
                     [0.1; 0.3] [[0.04; 0.01]; [0.01; 0.09]] 0.02))
    as (Hw & _ & Hr & _).
  - cbn [length]. discriminate.
  - reflexivity.
  - split; [exact Hw | exact Hr].
Defined.

(* ===================================================================== *)
(** ** OptionsStrategyBuilder: payoffs and Greeks of a strategy *)
(* ===================================================================== *)

Lemma calculatePayoff_pointwise (legs : list OSB.OptionLeg) (spots : list R) :
  OSB.calculatePayoff (strategy_of legs) spots
  = map (fun spot => (spot, payoff_at legs spot)) spots.
Proof. reflexivity. Qed.

Lemma payoff_fold_from (spot : R) (legs : list OSB.OptionLeg) :
  forall total,
    fold_left (OSB.add_leg_payoff spot) legs total
    = total + payoff_at legs spot.
Proof.
  unfold payoff_at.
  induction legs as [| leg legs IH]; intros total; cbn [fold_left]; [lra |].
  rewrite IH, (IH (OSB.add_leg_payoff spot 0 leg)).
  unfold OSB.add_leg_payoff. lra.
Qed.

Lemma payoff_at_app (legs1 legs2 : list OSB.OptionLeg) (spot : R) :
  payoff_at (legs1 ++ legs2) spot = payoff_at legs1 spot + payoff_at legs2 spot.
Proof.
  unfold payoff_at at 1. rewrite fold_left_app, payoff_fold_from.
  reflexivity.
Qed.

Lemma payoff_at_opposite (legs : list OSB.OptionLeg) (spot : R) :
  payoff_at (map opposite legs) spot = - payoff_at legs spot.
Proof.
  induction legs as [| leg legs IH].
  - unfold payoff_at. cbn [map fold_left]. lra.
  - change (map opposite (leg :: legs))
      with ([opposite leg] ++ map opposite legs).
    change (leg :: legs) with ([leg] ++ legs).
    rewrite !payoff_at_app, IH.
    unfold payoff_at, OSB.add_leg_payoff, opposite.
    cbn [fold_left OSB.type OSB.action OSB.strike OSB.quantity OSB.premium].
    destruct (OSB.type leg), (OSB.action leg); lra.
Qed.

(** X11.  How [calculatePayoff] composes.  It reports one point per spot
    price, in order.  In exact arithmetic the payoff of a strategy made of
    two lists of legs is the sum of their payoffs; a strategy followed by
    the opposite side of each of its legs pays 0 at every spot; and a long
    call with a short put at the same strike (one contract each) pays
    [spot - strike] plus the net premium received, at every spot: a
    synthetic forward. *)
Theorem calculatePayoff_composes
  (legs1 legs2 : list OSB.OptionLeg) (spots : list R) (strike paid received : R) :
  map fst (OSB.calculatePayoff (strategy_of (legs1 ++ legs2)) spots) = spots
  /\ map snd (OSB.calculatePayoff (strategy_of (legs1 ++ legs2)) spots)
     = map (fun spot => payoff_at legs1 spot + payoff_at legs2 spot) spots
  /\ map snd (OSB.calculatePayoff
                (strategy_of (legs1 ++ map opposite legs1)) spots)
     = map (fun _ => 0) spots
  /\ map snd (OSB.calculatePayoff
                (strategy_of [long_call strike paid; short_put strike received])
                spots)
     = map (fun spot => spot - strike + (received - paid)) spots.
Proof.
  rewrite !calculatePayoff_pointwise, !map_map. cbn [fst snd].
  split; [apply map_id |]. split; [| split].
  - apply map_ext. intros spot. apply payoff_at_app.
  - apply map_ext. intros spot. rewrite payoff_at_app, payoff_at_opposite. lra.
  - apply map_ext. intros spot.
    unfold payoff_at, OSB.add_leg_payoff, long_call, short_put.
    cbn [fold_left OSB.type OSB.action OSB.strike OSB.quantity OSB.premium].
    unfold Rmax.
    destruct (Rle_dec (spot - strike) 0), (Rle_dec (strike - spot) 0); lra.
Qed.

(** At expiry the two halves of the library agree: for option
    parameters with [timeToExpiry <= 0], the payoff that [calculatePayoff]
    reports for one long call at the option's strike, at the option's
    spot, is the call price of [blackScholes] less the premium paid. *)
Theorem long_call_payoff_matches_blackScholes
  (params : OC.OptionParameters) (paid : R) :
  OC.timeToExpiry params <= 0 ->
  exists c,
    OC.call (OC.blackScholes params) = Fin c
    /\ OSB.calculatePayoff (strategy_of [long_call (OC.strike params) paid])
                           [OC.spot params]
       = [(OC.spot params, c - paid)].
Proof.
  intros HT. exists (Rmax (OC.spot params - OC.strike params) 0). split.
  - unfold OC.blackScholes. rewrite nleb_fin_true by exact HT.
    cbn [OC.call nsub nneg nadd nmax]. reflexivity.
  - rewrite calculatePayoff_pointwise. cbn [map]. f_equal. f_equal.
    unfold payoff_at, OSB.add_leg_payoff, long_call.
    cbn [fold_left OSB.type OSB.action OSB.strike OSB.quantity OSB.premium].
    lra.
Qed.

Lemma long_call_payoff_matches_blackScholes_witness :
  exists c,
    OC.call (OC.blackScholes expiring_itm_call) = Fin c
    /\ OSB.calculatePayoff
         (strategy_of [long_call (OC.strike expiring_itm_call) 4])
         [OC.spot expiring_itm_call]
       = [(OC.spot expiring_itm_call, c - 4)].
Proof.
  apply (long_call_payoff_matches_blackScholes expiring_itm_call 4).
  cbn [OC.timeToExpiry expiring_itm_call]. lra.
Defined.

Lemma expired_leg_greeks (params : OC.OptionParameters) (leg : OSB.OptionLeg) :
  OC.timeToExpiry params <= 0 ->
  OSB.add_leg_greeks params zero_greeks leg = zero_greeks.
Proof.
  intros HT. unfold OSB.add_leg_greeks, OC.calculateGreeks, OSB.with_strike.
  cbn [OC.timeToExpiry]. rewrite nleb_fin_true by exact HT.
  unfold zero_greeks.
  cbn [OC.delta OC.gamma OC.theta OC.vega OC.rho].
  destruct (OSB.action leg); cbn [nmul nadd];
    f_equal; f_equal; ring.
Qed.

Lemma unit_position (g : num) : nadd (Fin 0) (nmul (nmul g (Fin 1)) (Fin 1)) = g.
Proof.
  destruct g as [r | | |]; cbn [nmul nadd].
  - f_equal. ring.
  - unfold scale_inf. destruct (total_order_T 1 0) as [[H | H] | H]; try lra.
    cbn [nmul]. unfold scale_inf.
    destruct (total_order_T 1 0) as [[H' | H'] | H']; try lra. reflexivity.
  - unfold scale_inf. destruct (total_order_T 1 0) as [[H | H] | H]; try lra.
    cbn [nmul]. unfold scale_inf.
    destruct (total_order_T 1 0) as [[H' | H'] | H']; try lra. reflexivity.
  - reflexivity.
Qed.

(** [calculateStrategyGreeks] adds the Greeks of the legs, each
    priced at its own strike.  For parameters with [timeToExpiry <= 0]
    every total is 0, whatever the legs; and for a strategy of one bought
    leg of quantity 1 the totals are the Greeks that [calculateGreeks]
    gives for that leg's type and strike. *)
Theorem calculateStrategyGreeks_of_legs
  (params : OC.OptionParameters) (legs : list OSB.OptionLeg)
  (type : OC.OptionType) (strike premium : R) :
  (OC.timeToExpiry params <= 0 ->
   OSB.calculateStrategyGreeks (strategy_of legs) params = zero_greeks)
  /\ OSB.calculateStrategyGreeks
       (strategy_of [{| OSB.type := type; OSB.action := OSB.buy;
                        OSB.strike := strike; OSB.quantity := 1;
                        OSB.premium := premium |}])
       params
     = OC.calculateGreeks (OSB.with_strike params strike) type.
Proof.
  unfold OSB.calculateStrategyGreeks, strategy_of. cbn [OSB.legs].
  fold zero_greeks. split.
  - intros HT. induction legs as [| leg legs IH]; [reflexivity |].
    cbn [fold_left]. now rewrite expired_leg_greeks.
  - cbn [fold_left]. unfold OSB.add_leg_greeks, zero_greeks.
    cbn [OSB.type OSB.action OSB.strike OSB.quantity
         OC.delta OC.gamma OC.theta OC.vega OC.rho].
    rewrite !unit_position.
    now destruct (OC.calculateGreeks (OSB.with_strike params strike) type).
Qed.

(* ===================================================================== *)
(** ** OptionsCalculator: implied volatility *)
(* ===================================================================== *)

Lemma clamp_range (x : num) :
  x <> NaN ->
  exists v, nmax (Fin 0.001) (nmin x (Fin 5.0)) = Fin v /\ 0.001 <= v <= 5.
Proof.
  intros Hx. destruct x as [r | | |]; cbn [nmin nmax].
  - exists (Rmax 0.001 (Rmin r 5.0)). split; [reflexivity |]. split.
    + apply Rmax_l.
    + apply Rmax_lub; [lra |]. pose proof (Rmin_r r 5.0). lra.
  - exists (Rmax 0.001 5.0). split; [reflexivity |].
    unfold Rmax. destruct (Rle_dec 0.001 5.0); lra.
  - exists 0.001. split; [reflexivity | lra].
  - congruence.
Qed.

Lemma with_volatility_valid (params : OC.OptionParameters) (v : R) :
  0 < OC.spot params -> 0 < OC.strike params -> 0 < OC.timeToExpiry params ->
  0 <= OC.dividend params -> 0 < v ->
  valid_option (ImpliedVolatility.with_volatility params v).
Proof.
  intros HS HK HT Hq Hv. unfold valid_option, ImpliedVolatility.with_volatility.
  unfold OC.dividend in *.
  cbn [OC.spot OC.strike OC.timeToExpiry OC.volatility OC.dividendYield].
  repeat split; lra.
Qed.

(** In exact arithmetic vega is a finite number for valid parameters. *)
Lemma vega_fin (params : OC.OptionParameters) (type : OC.OptionType) :
  valid_option params -> 0 < OC.volatility params ->
  exists g, OC.vega (OC.calculateGreeks params type) = Fin g.
Proof.
  intros Hvalid Hv. destruct (d1_d2_fin params Hvalid Hv) as [Hd1 _].
  destruct Hvalid as (HS & HK & HT & _ & _).
  unfold OC.calculateGreeks. rewrite nleb_fin_false by lra.
  cbn [OC.vega]. rewrite Hd1. unfold OC.normPDF.
  cbn [nmul nneg nexp].
  assert (Hpi : 0 < 2 * PI) by (pose proof PI_RGT_0; lra).
  rewrite (nsqrt_fin (2 * PI)) by lra.
  rewrite ndiv_fin by (apply Rgt_not_eq, sqrt_lt_R0; exact Hpi).
  rewrite nsqrt_fin by lra. cbn [nmul].
  rewrite ndiv_fin by lra. eexists. reflexivity.
Qed.

Lemma iteration_range (marketPrice : R) (params : OC.OptionParameters)
  (type : OC.OptionType) (v : R) :
  0 < OC.spot params -> 0 < OC.strike params -> 0 < OC.timeToExpiry params ->
  0 <= OC.dividend params -> 0.001 <= v <= 5 ->
  ImpliedVolatility.iteration marketPrice params type v = ImpliedVolatility.Leave (Fin v)
  \/ exists v', ImpliedVolatility.iteration marketPrice params type v
                = ImpliedVolatility.Continue (Fin v')
                /\ 0.001 <= v' <= 5.
Proof.
  intros HS HK HT Hq Hv.
  assert (Hvalid : valid_option (ImpliedVolatility.with_volatility params v))
    by (apply with_volatility_valid; lra).
  assert (Hvol : 0 < OC.volatility (ImpliedVolatility.with_volatility params v))
    by (cbn [OC.volatility ImpliedVolatility.with_volatility]; lra).
  unfold ImpliedVolatility.iteration.
  rewrite (blackScholes_fin _ Hvalid Hvol).
  destruct (vega_fin _ type Hvalid Hvol) as (g & Hg). rewrite Hg.
  set (diff := nsub match type with
                    | OC.Call => OC.call _
                    | OC.Put => OC.put _
                    end (Fin marketPrice)).
  assert (Hdiff : exists d, diff = Fin d).
  { unfold diff. destruct type; cbn [OC.call OC.put nsub nneg nadd];
      eexists; reflexivity. }
  destruct Hdiff as (d & ->).
  destruct (nltb (nabs (Fin d)) (Fin ImpliedVolatility.tolerance));
    [now left |].
  cbn [nmul neqb]. destruct (Req_dec_T (g * 100) 0) as [Hz | Hnz]; [now left |].
  right. rewrite ndiv_fin by exact Hnz. cbn [nsub nneg nadd].
  destruct (clamp_range (Fin (v + - (d / (g * 100))))) as (v' & Hc & Hr);
    [discriminate |].
  exists v'. rewrite Hc. now split.
Qed.

Lemma iterate_range (marketPrice : R) (params : OC.OptionParameters)
  (type : OC.OptionType) (iterations : nat) :
  0 < OC.spot params -> 0 < OC.strike params -> 0 < OC.timeToExpiry params ->
  0 <= OC.dividend params ->
  forall v, 0.001 <= v <= 5 ->
    exists v', ImpliedVolatility.iterate iterations marketPrice params type (Fin v)
               = Fin v'
               /\ 0.001 <= v' <= 5.
Proof.
  intros HS HK HT Hq.
  induction iterations as [| k IH]; intros v Hv; cbn [ImpliedVolatility.iterate].
  - now exists v.
  - destruct (iteration_range marketPrice params type v HS HK HT Hq Hv)
      as [-> | (v' & -> & Hv')].
    + now exists v.
    + now apply IH.
Qed.

Lemma clamp_nan_or_range (x : num) :
  nmax (Fin 0.001) (nmin x (Fin 5.0)) = NaN
  \/ exists v, nmax (Fin 0.001) (nmin x (Fin 5.0)) = Fin v /\ 0.001 <= v <= 5.
Proof.
  destruct x as [r | | |]; [right | right | right | now left];
    apply clamp_range; discriminate.
Qed.

Lemma iterate_nan (marketPrice : R) (params : OC.OptionParameters)
  (type : OC.OptionType) (iterations : nat) :
  ImpliedVolatility.iterate iterations marketPrice params type NaN = NaN.
Proof. destruct iterations; reflexivity. Qed.

(** Whatever the parameters, the loop returns [NaN] or a volatility within
    the clamp. *)
Lemma iterate_nan_or_range (marketPrice : R) (params : OC.OptionParameters)
  (type : OC.OptionType) (iterations : nat) :
  forall v, 0.001 <= v <= 5 ->
    ImpliedVolatility.iterate iterations marketPrice params type (Fin v) = NaN
    \/ exists v',
         ImpliedVolatility.iterate iterations marketPrice params type (Fin v)
         = Fin v'
         /\ 0.001 <= v' <= 5.
Proof.
  induction iterations as [| k IH]; intros v Hv; cbn [ImpliedVolatility.iterate].
  - right. now exists v.
  - unfold ImpliedVolatility.iteration.
    match goal with
    | |- context [if nltb ?a ?b then _ else _] => destruct (nltb a b)
    end; [right; now exists v |].
    match goal with
    | |- context [if neqb ?a ?b then _ else _] => destruct (neqb a b)
    end; [right; now exists v |].
    match goal with
    | |- context [nmax (Fin 0.001) (nmin ?x (Fin 5.0))] =>
        destruct (clamp_nan_or_range x) as [-> | (v' & -> & Hv')]
    end.
    + left. apply iterate_nan.
    + now apply IH.
Qed.

(** X12.  [impliedVolatility] returns, whatever the market price, the
    parameters and the option type, [NaN] or a volatility between 0.001
    and 5: the starting guess 0.2 lies in that range and every Newton step
    is clamped to it.  In exact arithmetic, for a positive spot, strike and
    time to expiry and a non-negative dividend yield the result is never
    [NaN] (vega is then a finite number). *)
Theorem impliedVolatility_within_clamp
  (marketPrice : R) (params : OC.OptionParameters) (type : OC.OptionType) :
  (ImpliedVolatility.impliedVolatility marketPrice params type = NaN
   \/ exists vol,
        ImpliedVolatility.impliedVolatility marketPrice params type = Fin vol
        /\ 0.001 <= vol <= 5)
  /\ (0 < OC.spot params -> 0 < OC.strike params ->
      0 < OC.timeToExpiry params -> 0 <= OC.dividend params ->
      exists vol,
        ImpliedVolatility.impliedVolatility marketPrice params type = Fin vol
        /\ 0.001 <= vol <= 5).
Proof.
  unfold ImpliedVolatility.impliedVolatility. split.
  - apply iterate_nan_or_range. lra.
  - intros HS HK HT Hq. apply iterate_range; try assumption. lra.
Qed.

Lemma impliedVolatility_within_clamp_witness :
  exists vol,
    ImpliedVolatility.impliedVolatility 8 one_year_option OC.Call = Fin vol
    /\ 0.001 <= vol <= 5.
Proof.
  apply (proj2 (impliedVolatility_within_clamp 8 one_year_option OC.Call));
    unfold one_year_option, OC.dividend;
    cbn [OC.spot OC.strike OC.timeToExpiry OC.dividendYield]; lra.
Defined.

(** X13.  For an option at or past expiry ([timeToExpiry <= 0])
    [impliedVolatility] returns its starting guess 0.2 for every market
    price: either the intrinsic value is within the tolerance, or vega is
    0 and the loop is left at once. *)
Theorem impliedVolatility_expired_is_initial_guess
  (marketPrice : R) (params : OC.OptionParameters) (type : OC.OptionType) :
  OC.timeToExpiry params <= 0 ->
  ImpliedVolatility.impliedVolatility marketPrice params type = Fin 0.2.
Proof.
  intros HT. unfold ImpliedVolatility.impliedVolatility,
    ImpliedVolatility.maxIterations.
  change 100%nat with (S 99). cbn [ImpliedVolatility.iterate].
  unfold ImpliedVolatility.iteration.
  match goal with
  | |- context [if nltb ?a ?b then _ else _] => destruct (nltb a b)
  end; [reflexivity |].
  unfold OC.calculateGreeks.
  cbn [OC.timeToExpiry ImpliedVolatility.with_volatility].
  rewrite nleb_fin_true by exact HT. cbn [OC.vega nmul neqb].
  destruct (Req_dec_T (0 * 100) 0) as [_ | H]; [reflexivity | lra].
Qed.

Lemma impliedVolatility_expired_is_initial_guess_witness :
  ImpliedVolatility.impliedVolatility 3 expired_option OC.Put = Fin 0.2.
Proof.
  apply (impliedVolatility_expired_is_initial_guess 3 expired_option OC.Put).
  cbn [OC.timeToExpiry expired_option]. lra.
Defined.

(* ===================================================================== *)
(** ** OptionsCalculator: the two deltas *)
(* ===================================================================== *)

(** X14.  The gamma and the vega that [calculateGreeks] returns do not
    depend on the option type.  In exact arithmetic, for valid parameters
    with a positive volatility and [d1 <> 0], the call delta and the put
    delta differ by [exp(-dividendYield * timeToExpiry)]. *)
Theorem call_and_put_delta_differ_by_discount (params : OC.OptionParameters) :
  OC.gamma (OC.calculateGreeks params OC.Call)
  = OC.gamma (OC.calculateGreeks params OC.Put)
  /\ OC.vega (OC.calculateGreeks params OC.Call)
     = OC.vega (OC.calculateGreeks params OC.Put)
  /\ (valid_option params -> 0 < OC.volatility params ->
      d1_real params <> 0 ->
      nsub (OC.delta (OC.calculateGreeks params OC.Call))
           (OC.delta (OC.calculateGreeks params OC.Put))
      = Fin (exp (- OC.dividend params * OC.timeToExpiry params))).
Proof.
  split; [| split].
  { unfold OC.calculateGreeks.
    destruct (nleb (Fin (OC.timeToExpiry params)) (Fin 0)); reflexivity. }
  { unfold OC.calculateGreeks.
    destruct (nleb (Fin (OC.timeToExpiry params)) (Fin 0)); reflexivity. }
  intros Hvalid Hv Hd. destruct (d1_d2_fin params Hvalid Hv) as [Hd1 _].
  pose proof (normCDF_real_symmetry _ Hd) as Hsym.
  destruct Hvalid as (HS & HK & HT & _ & _).
  unfold OC.calculateGreeks. rewrite nleb_fin_false by lra.
  cbn [OC.delta].
  rewrite Hd1. cbn [nneg]. rewrite !normCDF_fin.
  cbn [nmul nneg nexp nsub nadd]. f_equal.
  set (E := exp (- OC.dividend params * OC.timeToExpiry params)).
  replace (E * normCDF_real (d1_real params)
           + - (- E * normCDF_real (- d1_real params)))
    with (E * (normCDF_real (d1_real params) + normCDF_real (- d1_real params)))
    by ring.
  rewrite Hsym. ring.
Qed.

Lemma call_and_put_delta_differ_by_discount_witness :
  nsub (OC.delta (OC.calculateGreeks at_the_money OC.Call))
       (OC.delta (OC.calculateGreeks at_the_money OC.Put))
  = Fin (exp (- OC.dividend at_the_money * OC.timeToExpiry at_the_money)).
Proof.
  destruct at_the_money_valid as [Hvalid Hv].
  apply (proj2 (proj2 (call_and_put_delta_differ_by_discount at_the_money))
           Hvalid Hv).
  rewrite at_the_money_d1. lra.
Defined.

(* ===================================================================== *)
(** ** The correlation matrix *)
(* ===================================================================== *)

Lemma nth_error_combine_seq {A : Type} (l : list A) :
  forall k i a,
    nth_error l i = Some a ->
    nth_error (combine (seq k (length l)) l) i = Some ((k + i)%nat, a).
Proof.
  induction l as [| x l IH]; intros k [| i] a H; cbn in H |- *; try discriminate.
  - inversion H. now rewrite Nat.add_0_r.
  - rewrite IH with (a := a) by exact H. do 2 f_equal. lia.
Qed.

Lemma sectorCorrelations_range (s1 s2 : Portfolio.Sector) :
  0 < Portfolio.sectorCorrelations s1 s2 <= 1
  /\ Portfolio.sectorCorrelations s1 s2 = Portfolio.sectorCorrelations s2 s1.
Proof. destruct s1, s2; cbn [Portfolio.sectorCorrelations]; lra. Qed.

(** The entry that [calculateCorrelationMatrix] writes at [(i, j)]. *)
Lemma correlation_entry (assets : list Portfolio.Asset) (i j : nat)
  (ai aj : Portfolio.Asset) :
  nth_error assets i = Some ai -> nth_error assets j = Some aj ->
  Portfolio.cellR (Portfolio.calculateCorrelationMatrix assets) i j
  = Fin (if (i =? j)%nat then 1.0
         else Portfolio.sectorCorrelations
                (Portfolio.getSector (Portfolio.ticker ai))
                (Portfolio.getSector (Portfolio.ticker aj))).
Proof.
  intros Hi Hj. unfold Portfolio.cellR, Portfolio.calculateCorrelationMatrix.
  rewrite nth_error_map, (nth_error_combine_seq assets 0 i ai Hi).
  cbn [option_map]. rewrite nth_error_map.
  rewrite (nth_error_combine_seq assets 0 j aj Hj).
  cbn [option_map to_number fst snd Nat.add].
  destruct (i =? j)%nat; [reflexivity |].
  rewrite or_default_nonzero; [reflexivity |].
  pose proof (sectorCorrelations_range
                (Portfolio.getSector (Portfolio.ticker ai))
                (Portfolio.getSector (Portfolio.ticker aj))). lra.
Qed.

(** X15.  [calculateCorrelationMatrix] returns a square matrix with one
    row per asset; every entry is a finite number in (0, 1], the diagonal
    is 1, and the matrix is symmetric. *)
Theorem calculateCorrelationMatrix_is_symmetric (assets : list Portfolio.Asset) :
  let m := Portfolio.calculateCorrelationMatrix assets in
  let n := length assets in
  length m = n
  /\ Forall (fun row => length row = n) m
  /\ forall i j, (i < n)%nat -> (j < n)%nat ->
       exists c,
         Portfolio.cellR m i j = Fin c
         /\ 0 < c <= 1
         /\ Portfolio.cellR m j i = Fin c
         /\ (i = j -> c = 1).
Proof.
  intros m n.
  assert (Hidx : length (combine (seq 0 n) assets) = n).
  { rewrite length_combine, length_seq. apply Nat.min_id. }
  split; [| split].
  - unfold m, Portfolio.calculateCorrelationMatrix. fold n.
    now rewrite length_map.
  - unfold m, Portfolio.calculateCorrelationMatrix. fold n.
    apply Forall_forall. intros row Hrow. apply in_map_iff in Hrow.
    destruct Hrow as (ai & <- & _). now rewrite length_map.
  - intros i j Hi Hj.
    destruct (nth_error assets i) as [ai |] eqn:Hai;
      [| apply nth_error_None in Hai; unfold n in Hi; lia].
    destruct (nth_error assets j) as [aj |] eqn:Haj;
      [| apply nth_error_None in Haj; unfold n in Hj; lia].
    unfold m.
    rewrite (correlation_entry assets i j ai aj Hai Haj).
    rewrite (correlation_entry assets j i aj ai Haj Hai).
    pose proof (sectorCorrelations_range
                  (Portfolio.getSector (Portfolio.ticker ai))
                  (Portfolio.getSector (Portfolio.ticker aj))) as [Hr Hs].
    rewrite (Nat.eqb_sym j i).
    destruct (Nat.eqb_spec i j) as [Heq | Hne].
    + exists 1.0. repeat split; try lra.
    + eexists. split; [reflexivity |]. split; [exact Hr |].
      split; [now rewrite Hs | intros; contradiction].
Qed.

(* ===================================================================== *)
(** ** The Cholesky factor: shape and product *)
(* ===================================================================== *)

Section CholeskyShape.

Variable matrix : list (list R).
Let n := length matrix.

Variable P : list (list num) -> Prop.
Hypothesis step :
  forall i j L, (j <= i)%nat -> (i < n)%nat -> P L ->
                P (Portfolio.cholesky_cell matrix i L j).

Lemma cholesky_row_keeps (i : nat) :
  (i < n)%nat ->
  forall m j L,
    (j + m = S i)%nat -> P L ->
    P (fold_left (Portfolio.cholesky_cell matrix i) (seq j m) L).
Proof.
  intros Hi. induction m as [| m IH]; intros j L Hjm HL; [exact HL |].
  cbn [seq fold_left]. apply IH; [lia |]. apply step; [lia | exact Hi | exact HL].
Qed.

Lemma cholesky_rows_keep (m : nat) :
  forall i L,
    (i + m <= n)%nat -> P L ->
    P (fold_left
         (fun L i => fold_left (Portfolio.cholesky_cell matrix i) (seq 0 (S i)) L)
         (seq i m) L).
Proof.
  induction m as [| m IH]; intros i L Him HL; [exact HL |].
  change (seq i (S m)) with (i :: seq (S i) m). cbn [fold_left].
  apply IH; [lia |].
  apply cholesky_row_keeps with (j := 0%nat); [lia | lia | exact HL].
Qed.

Lemma cholesky_keeps :
  P (repeat (repeat (Fin 0) n) n) -> P (Portfolio.choleskyDecomposition matrix).
Proof.
  intros H0. unfold Portfolio.choleskyDecomposition. fold n.
  apply cholesky_rows_keep; [lia | exact H0].
Qed.

End CholeskyShape.

Lemma zeros_cell (n a b : nat) :
  (a < n)%nat -> (b < n)%nat ->
  Portfolio.cell (repeat (repeat (Fin 0) n) n) a b = Fin 0.
Proof.
  intros Ha Hb. unfold Portfolio.cell.
  rewrite (nth_error_repeat _ Ha), (nth_error_repeat _ Hb). reflexivity.
Qed.

(** X16.  [choleskyDecomposition] returns a lower-triangular square
    array: it has the dimensions of the matrix, and every cell above the
    diagonal is the 0 it was initialised with. *)
Theorem choleskyDecomposition_is_lower_triangular (matrix : list (list R)) :
  let L := Portfolio.choleskyDecomposition matrix in
  square matrix L
  /\ forall a b, (a < b < length matrix)%nat -> Portfolio.cell L a b = Fin 0.
Proof.
  apply (cholesky_keeps matrix
           (fun L => square matrix L
                     /\ forall a b, (a < b < length matrix)%nat ->
                                    Portfolio.cell L a b = Fin 0)).
  - intros i j L Hji Hi [Hsq Hup]. rewrite cholesky_cell_assigns. split.
    + now apply set_cell_square.
    + intros a b Hab. rewrite cell_set_cell_other; [now apply Hup |].
      intros Heq. inversion Heq. lia.
  - split; [apply zeros_square |].
    intros a b Hab. apply zeros_cell; lia.
Qed.

Lemma nadd_fin_inv (x y : num) (z : R) :
  nadd x y = Fin z -> exists a b, x = Fin a /\ y = Fin b /\ z = a + b.
Proof.
  destruct x as [a | | |], y as [b | | |]; cbn [nadd]; try discriminate.
  intros H. apply Fin_inj in H. now exists a, b.
Qed.

Lemma nsub_fin_inv (x y : num) (z : R) :
  nsub x y = Fin z -> exists a b, x = Fin a /\ y = Fin b /\ z = a - b.
Proof.
  unfold nsub. intros H. apply nadd_fin_inv in H.
  destruct H as (a & b' & -> & Hy & ->).
  destruct y as [b | | |]; cbn [nneg] in Hy; try discriminate.
  apply Fin_inj in Hy. exists a, b. repeat split. lra.
Qed.

Lemma nsqrt_fin_inv (x : num) (l : R) :
  nsqrt x = Fin l -> exists r, x = Fin r /\ 0 <= r /\ l = sqrt r.
Proof.
  destruct x as [r | | |]; cbn [nsqrt]; try discriminate.
  destruct (Rlt_dec r 0) as [Hr | Hr]; [discriminate |].
  intros H. apply Fin_inj in H. exists r. repeat split; [lra | now symmetry].
Qed.

Lemma ndiv_fin_inv (x : num) (d q : R) :
  ndiv x (Fin d) = Fin q -> exists y, x = Fin y /\ d <> 0 /\ q = y / d.
Proof.
  destruct x as [y | | |]; cbn [ndiv]; try discriminate.
  - destruct (Req_dec_T d 0) as [Hd | Hd].
    + unfold scale_inf. destruct (total_order_T y 0) as [[H | H] | H];
        discriminate.
    + intros H. apply Fin_inj in H. exists y. repeat split; [exact Hd | now symmetry].
  - destruct (Rlt_dec d 0); discriminate.
  - destruct (Rlt_dec d 0); discriminate.
Qed.

Lemma is_finite_inv (x : num) : is_finite x = true -> exists r, x = Fin r.
Proof. destruct x; try discriminate. intros _. now eexists. Qed.

(** X17.  Whenever every cell on and below the diagonal of the factor [L]
    returned by [choleskyDecomposition] is a finite number, [L] times its
    transpose gives the matrix back on and below the diagonal (in exact
    arithmetic): the diagonals of such a factor cannot be zero where a
    later row divides by them. *)
Theorem cholesky_factor_reproduces_matrix (matrix : list (list R)) :
  let L := Portfolio.choleskyDecomposition matrix in
  (forall a b, (b <= a < length matrix)%nat ->
               is_finite (Portfolio.cell L a b) = true) ->
  forall a b, (b <= a < length matrix)%nat ->
              factor_product L a b = Portfolio.cellR matrix a b.
Proof.
  intros L Hfin a b Hab.
  assert (Heq := cholesky_equations matrix a b ltac:(lia) ltac:(lia)).
  fold L in Heq. unfold cell_equation in Heq.
  unfold factor_product. rewrite seq_S, fold_left_app. cbn [fold_left Nat.add].
  destruct (is_finite_inv _ (Hfin a b Hab)) as (x & Hx).
  destruct (Nat.eqb_spec a b) as [<- | Hne].
  - unfold diagonal_term in Heq. rewrite Hx in Heq. symmetry in Heq.
    apply nsqrt_fin_inv in Heq. destruct Heq as (r & Hr & Hpos & ->).
    apply nsub_fin_inv in Hr. destruct Hr as (c & s & Hc & Hs & ->).
    cbn [npow] in Hs. rewrite Hs, Hx, Hc. cbn [nmul nadd]. f_equal.
    rewrite sqrt_sqrt by exact Hpos. lra.
  - destruct (is_finite_inv _ (Hfin b b ltac:(lia))) as (d & Hd).
    unfold off_diagonal in Heq. rewrite Hx, Hd in Heq. symmetry in Heq.
    apply ndiv_fin_inv in Heq. destruct Heq as (y & Hy & Hd0 & ->).
    apply nsub_fin_inv in Hy. destruct Hy as (c & s & Hc & Hs & ->).
    rewrite Hs, Hx, Hd, Hc. cbn [nmul nadd]. f_equal. field. exact Hd0.
Qed.

Lemma tech_and_bank_factor :
  exists d,
    Portfolio.choleskyDecomposition tech_and_bank
    = [[Fin 1; Fin 0]; [Fin 0.3; Fin d]].
Proof.
  eexists. unfold Portfolio.choleskyDecomposition, tech_and_bank.
  cbn [length repeat seq fold_left].
  replace (Portfolio.cholesky_cell _ 0 _ 0)
    with [[Fin 1; Fin 0]; [Fin 0; Fin 0]] by (symmetry; chol_cell).
  replace (Portfolio.cholesky_cell _ 1 _ 0)
    with [[Fin 1; Fin 0]; [Fin 0.3; Fin 0]] by (symmetry; chol_cell).
  chol_unfold. cbn [nadd nsub nneg nmul].
  rewrite nsqrt_fin by lra. reflexivity.
Qed.

Lemma cholesky_factor_reproduces_matrix_witness :
  factor_product (Portfolio.choleskyDecomposition tech_and_bank) 1 0
  = Portfolio.cellR tech_and_bank 1 0.
Proof.
  apply (cholesky_factor_reproduces_matrix tech_and_bank).
  - intros a b Hab. destruct tech_and_bank_factor as [d ->].
    cbn [length tech_and_bank] in Hab.
    destruct a as [| [| a]], b as [| [| b]]; try lia; reflexivity.
  - cbn [length tech_and_bank]. lia.
Defined.

(* ===================================================================== *)
(** ** The drawdown of portfolio paths *)
(* ===================================================================== *)

Lemma path_fold_range (path : list num) :
  forall p m,
    Forall (fun v => exists r, v = Fin r /\ 0 < r) path ->
    0 < p -> 0 <= m < 1 ->
    exists p' m',
      fold_left
        (fun '(peak, maxDD) value =>
           let peak := if ngtb value peak then value else peak in
           let drawdown := ndiv (nsub peak value) peak in
           let maxDD := if ngtb drawdown maxDD then drawdown else maxDD in
           (peak, maxDD))
        path (Fin p, Fin m)
      = (Fin p', Fin m')
      /\ 0 <= m' < 1.
Proof.
  induction path as [| v path IH]; intros p m Hall Hp Hm.
  - exists p, m. now split.
  - inversion Hall as [| ? ? (r & -> & Hr) Hall']; subst.
    cbn [fold_left].
    assert (Hstep :
      exists p1 m1,
        (let peak := if ngtb (Fin r) (Fin p) then Fin r else Fin p in
         let drawdown := ndiv (nsub peak (Fin r)) peak in
         let maxDD := if ngtb drawdown (Fin m) then drawdown else Fin m in
         (peak, maxDD)) = (Fin p1, Fin m1)
        /\ 0 < p1 /\ 0 <= m1 < 1).
    { cbv zeta. destruct (Rlt_dec p r) as [Hpr | Hpr].
      - assert (Hg : ngtb (Fin r) (Fin p) = true)
          by (unfold ngtb; apply nltb_fin_true; exact Hpr).
        rewrite Hg. cbn [nsub nneg nadd]. rewrite ndiv_fin by lra.
        pose proof (drawdown_ratio_range r r ltac:(lra)) as Hd.
        replace (r + - r) with (r - r) by lra.
        unfold ngtb. cbn [nltb].
        destruct (Rlt_dec m ((r - r) / r)); eexists; eexists;
          (split; [reflexivity | split; [lra | assumption]]).
      - assert (Hg : ngtb (Fin r) (Fin p) = false)
          by (unfold ngtb; apply nltb_fin_false; lra).
        rewrite Hg. cbn [nsub nneg nadd]. rewrite ndiv_fin by lra.
        pose proof (drawdown_ratio_range p r ltac:(lra)) as Hd.
        replace (p + - r) with (p - r) by lra.
        unfold ngtb. cbn [nltb].
        destruct (Rlt_dec m ((p - r) / p)); eexists; eexists;
          (split; [reflexivity | split; [lra | assumption]]). }
    destruct Hstep as (p1 & m1 & Hstep & Hp1 & Hm1).
    cbv zeta in Hstep. rewrite Hstep.
    now apply IH.
Qed.

(** In exact arithmetic the drawdown of a path of positive values stays
    below 1. *)
Lemma path_drawdown_range (path : list num) :
  Forall (fun v => exists r, v = Fin r /\ 0 < r) path ->
  exists m, Portfolio.path_drawdown path = Fin m /\ 0 <= m < 1.
Proof.
  intros Hall. unfold Portfolio.path_drawdown.
  destruct path as [| v path].
  - exists 0. cbn. split; [reflexivity | lra].
  - inversion Hall as [| ? ? (r & Hv & Hr) _]. subst v.
    change (to_number (nth_error (Fin r :: path) 0)) with (Fin r).
    destruct (path_fold_range (Fin r :: path) r 0 Hall Hr ltac:(lra))
      as (p' & m' & Hfold & Hm').
    match goal with
    | |- context [snd ?X] =>
        replace X with (Fin p', Fin m') by (symmetry; exact Hfold)
    end.
    now exists m'.
Qed.

Lemma portfolio_maxDrawdown_below_one (paths : list (list num)) :
  positive_paths paths ->
  exists m, Portfolio.calculateMaxDrawdown paths = Fin m /\ 0 <= m < 1.
Proof.
  intros Hall. unfold Portfolio.calculateMaxDrawdown.
  assert (Hgen : forall acc, 0 <= acc < 1 ->
    exists m,
      fold_left
        (fun maxDrawdown path =>
           let maxDD := Portfolio.path_drawdown path in
           if ngtb maxDD maxDrawdown then maxDD else maxDrawdown)
        paths (Fin acc) = Fin m /\ 0 <= m < 1).
  { induction Hall as [| path paths Hpath _ IH]; intros acc Hacc.
    - now exists acc.
    - cbn [fold_left].
      destruct (path_drawdown_range path Hpath) as (d & -> & Hd).
      cbv zeta. destruct (ngtb (Fin d) (Fin acc)); now apply IH. }
  apply Hgen. lra.
Qed.

(** X18.  On paths of finite, positive values the portfolio module's
    [calculateMaxDrawdown] returns a number between 0 and 1: the largest
    relative fall from a running peak, over all paths. *)
Theorem portfolio_maxDrawdown_within_unit (paths : list (list num)) :
  positive_paths paths ->
  exists m, Portfolio.calculateMaxDrawdown paths = Fin m /\ 0 <= m <= 1.
Proof.
  intros Hall.
  destruct (portfolio_maxDrawdown_below_one paths Hall) as (m & Hm & Hr).
  exists m. split; [exact Hm | lra].
Qed.

Lemma portfolio_maxDrawdown_within_unit_witness :
  exists m,
    Portfolio.calculateMaxDrawdown [[Fin 100; Fin 90; Fin 120]] = Fin m
    /\ 0 <= m <= 1.
Proof.
  apply (portfolio_maxDrawdown_within_unit [[Fin 100; Fin 90; Fin 120]]).
  repeat constructor; eexists; (split; [reflexivity | lra]).
Defined.

(* ===================================================================== *)
(** ** The efficient frontier *)
(* ===================================================================== *)

Lemma nsub_self_not_positive (v : num) : ngtb (nsub v v) (Fin 0) = false.
Proof.
  destruct v as [r | | |]; cbn; try reflexivity.
  destruct (Rlt_dec 0 (r + - r)); [lra | reflexivity].
Qed.

Lemma js_sort_of_copies {A : Type} (cmp : A -> A -> num) (x : A) (n : nat) :
  ngtb (cmp x x) (Fin 0) = false ->
  js_sort cmp (repeat x n) = repeat x n.
Proof.
  intros Hx. induction n as [| n IH]; [reflexivity |].
  cbn [repeat js_sort]. rewrite IH.
  destruct n as [| n]; [reflexivity |].
  cbn [repeat sort_insert]. now rewrite Hx.
Qed.

Lemma map_constant_seq {A : Type} (f : nat -> A) (x : A) (n : nat) :
  forall k, (forall i, f i = x) -> map f (seq k n) = repeat x n.
Proof.
  induction n as [| n IH]; intros k Hf; [reflexivity |].
  cbn [seq map repeat]. rewrite Hf. f_equal. now apply IH.
Qed.

(** X19.  [calculateEfficientFrontier] returns [numPoints + 1] copies of
    one and the same point: [optimizePortfolio] ignores the target return
    and always gives the weights [1 / n] each, so expected return,
    volatility and weights do not vary along the "frontier". *)
Theorem calculateEfficientFrontier_is_one_point
  (assetData : list Portfolio.Asset) (numPoints : Z) :
  let correlations := Portfolio.calculateCorrelationMatrix assetData in
  let point := Frontier.frontier_point assetData correlations numPoints 0 in
  Frontier.calculateEfficientFrontier assetData numPoints
  = repeat point (Z.to_nat (numPoints + 1))
  /\ (assetData <> [] ->
      Frontier.weights point
      = map Fin (repeat (1 / INR (length assetData)) (length assetData))).
Proof.
  intros correlations point. split.
  - unfold Frontier.calculateEfficientFrontier. fold correlations.
    rewrite (map_constant_seq _ point) by (intros i; reflexivity).
    apply js_sort_of_copies. apply nsub_self_not_positive.
  - intros Hne. unfold point, Frontier.frontier_point, Frontier.optimizePortfolio.
    cbn [Frontier.weights].
    apply equal_weights_fin.
    destruct assetData; [congruence | discriminate].
Qed.

(* ===================================================================== *)
(** ** Monte Carlo runs from a positive price *)
(* ===================================================================== *)

Section PositivePaths.

Variable step : nat -> R * list R -> Rand (R * list R).
Variable cur : R.
Hypothesis cur_positive : 0 < cur.

Hypothesis step_appends :
  forall day price path t price' path' t',
    step day (price, path) t = Some ((price', path'), t') ->
    path' = path ++ [price'] /\ (0 < price -> 0 < price').

Lemma days_keep_positive (days : list nat) :
  forall price path t price' path' t',
    for_each days step (price, path) t = Some ((price', path'), t') ->
    0 < price -> Forall (fun p => 0 < p) path -> path <> [] ->
    0 < price'
    /\ Forall (fun p => 0 < p) path'
    /\ hd 0 path' = hd 0 path
    /\ length path' = (length path + length days)%nat.
Proof.
  induction days as [| d days IH];
    intros price path t price' path' t' Hrun Hp Hall Hne.
  - rewrite for_each_nil in Hrun. inversion Hrun; subst.
    repeat split; try assumption. cbn [length]. lia.
  - rewrite for_each_cons in Hrun.
    destruct (step d (price, path) t) as [[[p1 path1] t1] |] eqn:Hday;
      [| discriminate].
    apply step_appends in Hday. destruct Hday as [-> Hp1].
    apply IH in Hrun.
    + destruct Hrun as (Hp' & Hall' & Hhd & Hlen).
      repeat split; try assumption.
      * rewrite Hhd. destruct path; [congruence | reflexivity].
      * rewrite Hlen, length_app. cbn [length]. lia.
    + now apply Hp1.
    + apply Forall_app. split; [exact Hall |].
      constructor; [now apply Hp1 | constructor].
    + destruct path; discriminate.
Qed.

Lemma run_keeps_positive (h n : Z) :
  forall t c t',
    bind (for_each (from_0_below n) (sim_body step (from_1_to h) cur) ([], []))
         (finish cur) t = Some (c, t') ->
    exists r,
      c = Returns r
      /\ length (paths r) = Z.to_nat n
      /\ Forall (fun path =>
                   length path = S (Z.to_nat h)
                   /\ hd 0 path = cur
                   /\ Forall (fun price => 0 < price) path)
                (paths r)
      /\ length (finalPrices r) = Z.to_nat n
      /\ Forall (fun price => 0 < price) (finalPrices r).
Proof.
  intros t c t' Hrun. unfold bind in Hrun.
  destruct (for_each _ _ _ t) as [[[ps fs] t1] |] eqn:Hloop; [| discriminate].
  apply (sim_loop_inv step (from_1_to h) cur
           (fun path price =>
              (length path = S (Z.to_nat h) /\ hd 0 path = cur
               /\ Forall (fun p => 0 < p) path) /\ 0 < price)
           (fun _ => True)) in Hloop; [| | exact I | constructor].
  - destruct Hloop as [HF Hlen]. rewrite from_0_below_length in Hlen.
    cbn [length Nat.add] in Hlen.
    unfold finish, ret in Hrun. inversion Hrun; subst. clear Hrun.
    eexists. split; [reflexivity |]. cbn [paths finalPrices].
    assert (Hfs : length fs = length ps) by (symmetry; eapply Forall2_length; exact HF).
    assert (Hpos : Forall (fun p => 0 < p) fs).
    { clear -HF. induction HF as [| path price ps fs [_ Hp] _ IH];
        constructor; assumption. }
    repeat split.
    + exact Hlen.
    + clear -HF. induction HF as [| path price ps fs [Hg _] _ IH];
        constructor; assumption.
    + rewrite js_sort_length. lia.
    + apply Forall_forall. intros p Hin.
      rewrite Forall_forall in Hpos. apply Hpos.
      eapply Permutation_in; [apply js_sort_perm | exact Hin].
  - intros t0 price path t0' _ Hdays.
    apply days_keep_positive in Hdays;
      [| exact cur_positive | repeat constructor; exact cur_positive
       | discriminate].
    destruct Hdays as (Hp & Hall & Hhd & Hlen).
    rewrite from_1_to_length in Hlen. cbn [length hd] in Hlen, Hhd.
    repeat split; try assumption.
Qed.

End PositivePaths.

Lemma plain_day_appends (drift diffusion : R) (day : nat) (price : R)
  (path : list R) (t : tape) price' path' t' :
  MonteCarlo.day_step drift diffusion day (price, path) t
  = Some ((price', path'), t') ->
  path' = path ++ [price'] /\ (0 < price -> 0 < price').
Proof.
  unfold MonteCarlo.day_step, bind.
  destruct (randomNormal t) as [[z t1] |]; [| discriminate].
  unfold ret. intros H. inversion H; subst. split; [reflexivity |].
  intros Hp. apply Rmult_lt_0_compat; [exact Hp | apply exp_pos].
Qed.

Lemma enhanced_day_appends (drift diffusion : R) (day : nat) (price : R)
  (path : list R) (t : tape) price' path' t' :
  Enhanced.day_step drift diffusion day (price, path) t
  = Some ((price', path'), t') ->
  path' = path ++ [price'] /\ (0 < price -> 0 < price').
Proof.
  intros Hday. split; [now apply enhanced_day_shape in Hday |].
  revert Hday. unfold Enhanced.day_step. unfold bind at 1.
  destruct (randomNormal t) as [[z t1] |]; [| discriminate].
  unfold bind at 1. destruct (random t1) as [[g t2] |]; [| discriminate].
  unfold bind at 1.
  destruct (Rlt_dec g Enhanced.jumpIntensity).
  - unfold bind at 1. destruct (randomNormal t2) as [[z' t3] |]; [| discriminate].
    unfold ret. intros H Hp. inversion H; subst.
    apply Rmult_lt_0_compat; [exact Hp | apply exp_pos].
  - unfold ret. intros H Hp. inversion H; subst.
    apply Rmult_lt_0_compat; [exact Hp | apply exp_pos].
Qed.

Lemma both_runs_complete (params : SimulationParams) (t : tape) :
  zero_free t ->
  (Z.to_nat (numSimulations params)
   * (Z.to_nat (timeHorizon params) * 5) <= length t)%nat ->
  (exists c t', MonteCarlo.runMonteCarloSimulation params t = Some (c, t'))
  /\ (exists c t', Enhanced.runMonteCarloSimulation params t = Some (c, t')).
Proof.
  intros Hz Hlen.
  destruct (monte_carlo_returns params t Hz) as [Hplain Henh]. split.
  - destruct Hplain as (r & t' & Hrun & _); [lia |]. eauto.
  - destruct Henh as (r & t' & Hrun & _); [exact Hlen |]. eauto.
Qed.

(** X20.  With a positive [currentPrice], every run of either version of
    [runMonteCarloSimulation] returns [numSimulations] paths, each of
    [timeHorizon + 1] prices that starts at [currentPrice], and
    [numSimulations] final prices; in exact arithmetic every price of
    every path and every final price is positive, whatever the return, the
    volatility and the random draws are.  Both versions do return once the
    tape holds five non-zero draws per simulated day. *)
Theorem simulated_prices_stay_positive (params : SimulationParams) :
  0 < currentPrice params ->
  (forall t c t',
      MonteCarlo.runMonteCarloSimulation params t = Some (c, t') ->
      positive_price_paths params c)
  /\ (forall t c t',
         Enhanced.runMonteCarloSimulation params t = Some (c, t') ->
         positive_price_paths params c)
  /\ (forall t,
         zero_free t ->
         (Z.to_nat (numSimulations params)
          * (Z.to_nat (timeHorizon params) * 5) <= length t)%nat ->
         (exists c t',
             MonteCarlo.runMonteCarloSimulation params t = Some (c, t'))
         /\ (exists c t',
                Enhanced.runMonteCarloSimulation params t = Some (c, t'))).
Proof.
  intros Hcur. split; [| split]; [intros t c t' Hrun .. |].
  - rewrite plain_run_unfold in Hrun.
    apply (run_keeps_positive _ _ Hcur) in Hrun; [exact Hrun |].
    intros day price path t0 price' path' t0' Hday.
    exact (plain_day_appends _ _ _ _ _ _ _ _ _ Hday).
  - rewrite enhanced_run_unfold in Hrun.
    apply (run_keeps_positive _ _ Hcur) in Hrun; [exact Hrun |].
    intros day price path t0 price' path' t0' Hday.
    exact (enhanced_day_appends _ _ _ _ _ _ _ _ _ Hday).
  - intros t Hz Hlen. exact (both_runs_complete params t Hz Hlen).
Qed.

Lemma simulated_prices_stay_positive_witness :
  exists c, MonteCarlo.runMonteCarloSimulation two_paths two_paths_tape
            = Some (c, [])
            /\ positive_price_paths two_paths c.
Proof.
  destruct two_paths_run as [_ Hrun]. eexists. split; [exact Hrun |].
  apply (proj1 (simulated_prices_stay_positive two_paths ltac:(cbn; lra))
               _ _ _ Hrun).
Defined.

(* ===================================================================== *)
(** ** The statistics block agrees with itself *)
(* ===================================================================== *)

Lemma min_fold (l : list R) :
  forall a,
    exists m,
      fold_left nmin (map Fin l) (Fin a) = Fin m
      /\ m <= a /\ Forall (fun x => m <= x) l /\ (m = a \/ In m l).
Proof.
  induction l as [| x l IH]; intros a.
  - exists a. repeat split; [lra | constructor | now left].
  - cbn [map fold_left nmin].
    destruct (IH (Rmin a x)) as (m & Hm & Hle & Hall & Hin).
    exists m. rewrite Hm. split; [reflexivity |].
    pose proof (Rmin_l a x). pose proof (Rmin_r a x).
    repeat split; [lra | constructor; [lra | exact Hall] |].
    destruct Hin as [-> | Hin]; [| right; now right].
    unfold Rmin. destruct (Rle_dec a x); [now left | right; now left].
Qed.

Lemma max_fold (l : list R) :
  forall a,
    exists m,
      fold_left nmax (map Fin l) (Fin a) = Fin m
      /\ a <= m /\ Forall (fun x => x <= m) l /\ (m = a \/ In m l).
Proof.
  induction l as [| x l IH]; intros a.
  - exists a. repeat split; [lra | constructor | now left].
  - cbn [map fold_left nmax].
    destruct (IH (Rmax a x)) as (m & Hm & Hle & Hall & Hin).
    exists m. rewrite Hm. split; [reflexivity |].
    pose proof (Rmax_l a x). pose proof (Rmax_r a x).
    repeat split; [lra | constructor; [lra | exact Hall] |].
    destruct Hin as [-> | Hin]; [| right; now right].
    unfold Rmax. destruct (Rle_dec a x); [right; now left | now left].
Qed.

Lemma min_of_finite (x : R) (l : list R) :
  exists m, min_of (map Fin (x :: l)) = Fin m
            /\ Forall (fun y => m <= y) (x :: l) /\ In m (x :: l).
Proof.
  unfold min_of. cbn [map fold_left nmin].
  destruct (min_fold l x) as (m & Hm & Hle & Hall & Hin).
  exists m. split; [exact Hm |]. split; [now constructor |].
  destruct Hin as [-> | Hin]; [now left | now right].
Qed.

Lemma max_of_finite (x : R) (l : list R) :
  exists m, max_of (map Fin (x :: l)) = Fin m
            /\ Forall (fun y => y <= m) (x :: l) /\ In m (x :: l).
Proof.
  unfold max_of. cbn [map fold_left nmax].
  destruct (max_fold l x) as (m & Hm & Hle & Hall & Hin).
  exists m. split; [exact Hm |]. split; [now constructor |].
  destruct Hin as [-> | Hin]; [now left | now right].
Qed.

Lemma sorted_nth_le (s : list R) :
  Sorted Rle s ->
  forall i j, (i <= j < length s)%nat -> nth i s 0 <= nth j s 0.
Proof.
  intros Hs. apply Sorted_StronglySorted in Hs; [| exact Rle_transitive].
  induction Hs as [| x s Hs IH Hall]; intros i j Hij; [cbn in Hij; lia |].
  destruct i as [| i], j as [| j]; cbn [nth length] in *; try lia.
  - lra.
  - rewrite Forall_forall in Hall. apply Hall. apply nth_In. lia.
  - apply IH. lia.
Qed.

(** The percentile indices, as the double-precision products give them,
    checked for every array length the simulator's form accepts. *)
Lemma ranks_in_order_checked :
  ranks_in_order_from most_simulations 1 = true.
Proof. vm_compute. reflexivity. Qed.

Lemma ranks_in_order_from_spec (count : nat) :
  forall n, ranks_in_order_from count n = true ->
    forall k, (n <= k < n + Z.of_nat count)%Z ->
              ranks_in_order_at k = true.
Proof.
  induction count as [| count IH]; intros n Hall k Hk; [lia |].
  cbn [ranks_in_order_from] in Hall.
  apply andb_prop in Hall. destruct Hall as [Hn Hrest].
  destruct (Z.eq_dec k n) as [-> | Hne]; [exact Hn |].
  apply (IH (n + 1)%Z Hrest). lia.
Qed.

Lemma ranks_inside (n : nat) :
  (1 <= n <= most_simulations)%nat ->
  exists k5 k95,
    rank n 0.05 = Whole k5 /\ rank n 0.95 = Whole k95
    /\ (0 <= k5 <= k95)%Z /\ (k95 < Z.of_nat n)%Z.
Proof.
  intros Hn.
  pose proof (ranks_in_order_from_spec _ _ ranks_in_order_checked
                (Z.of_nat n) ltac:(lia)) as Hall.
  change (ranks_in_order_at (Z.of_nat n)) with (ranks_in_order n) in Hall.
  unfold ranks_in_order in Hall.
  destruct (rank n 0.05) as [k5 | | |]; try discriminate.
  destruct (rank n 0.95) as [k95 | | |]; try discriminate.
  apply andb_prop in Hall. destruct Hall as [Hall H3].
  apply andb_prop in Hall. destruct Hall as [H1 H2].
  apply Z.leb_le in H1, H2. apply Z.ltb_lt in H3.
  exists k5, k95. repeat split; assumption.
Qed.

Lemma js_index_inside (s : list R) (k : Z) :
  (0 <= k < Z.of_nat (length s))%Z ->
  js_index s k = Some (nth (Z.to_nat k) s 0).
Proof.
  intros Hk. unfold js_index.
  destruct (k <? 0)%Z eqn:Hneg; [apply Z.ltb_lt in Hneg; lia |].
  apply nth_error_nth'. lia.
Qed.

Lemma sum_of_bounded_below (b : R) (a : list R) :
  Forall (fun r => b <= r) a -> b * INR (length a) <= sumR a.
Proof.
  induction 1 as [| x a Hx _ IH].
  - rewrite sumR_nil. cbn [length INR]. lra.
  - rewrite sumR_cons. change (length (x :: a)) with (S (length a)).
    rewrite S_INR. lra.
Qed.

(** The statistics of a non-empty ascending array of final prices, in
    exact arithmetic. *)
Lemma summarize_consistent (cur : R) (s : list R) :
  Sorted Rle s -> s <> [] -> (length s <= most_simulations)%nat ->
  consistent_statistics (summarize cur s).
Proof.
  intros Hs Hne Hmost. destruct s as [| x s]; [congruence |].
  set (l := x :: s) in *.
  assert (Hn : (0 < length l)%nat) by (cbn; lia).
  assert (HN : 0 < INR (length l)) by now apply lt_0_INR.
  destruct (min_of_finite x s) as (lo & Hlo & Hlo_all & _).
  destruct (max_of_finite x s) as (hi & Hhi & Hhi_all & _).
  fold l in Hlo, Hhi, Hlo_all, Hhi_all.
  destruct (ranks_inside (length l) ltac:(lia))
    as (k5 & k95 & Hk5 & Hk95 & Hmono & H95).
  exists lo, (nth (Z.to_nat k5) l 0), (nth (Z.to_nat k95) l 0), hi,
    (sumR l / INR (length l)),
    (INR (length (filter (fun price => ngtb (Fin price) (Fin cur)) l))
     / INR (length l)).
  unfold summarize, js_length.
  cbn [minPrice percentile5 percentile95 maxPrice averageEndingPrice
       probabilityOfGain].
  rewrite Hk5, Hk95. cbn [js_at].
  rewrite Forall_forall in Hlo_all, Hhi_all.
  split; [exact Hlo |].
  split; [apply js_index_inside; lia |].
  split; [apply js_index_inside; lia |].
  split; [exact Hhi |].
  split; [apply ndiv_fin; lra |].
  split; [apply ndiv_fin; lra |].
  split; [apply Hlo_all, nth_In; lia |].
  split; [apply sorted_nth_le; [exact Hs | lia] |].
  split; [apply Hhi_all, nth_In; lia |].
  split.
  - pose proof (sum_of_bounded_below lo l
                  (proj2 (Forall_forall _ _) Hlo_all)) as Hlow.
    pose proof (sum_of_bounded hi l
                  (proj2 (Forall_forall _ _) Hhi_all)) as Hhigh.
    split.
    + apply Rmult_le_reg_r with (INR (length l)); [exact HN |].
      unfold Rdiv. rewrite Rmult_assoc, Rinv_l by lra. lra.
    + apply Rmult_le_reg_r with (INR (length l)); [exact HN |].
      unfold Rdiv. rewrite Rmult_assoc, Rinv_l by lra. lra.
  - pose proof (filter_length_le (fun price => ngtb (Fin price) (Fin cur)) l)
      as Hf.
    apply le_INR in Hf.
    pose proof (pos_INR (length (filter (fun price => ngtb (Fin price) (Fin cur)) l)))
      as Hf0.
    split.
    + apply Rmult_le_pos; [exact Hf0 |]. left. now apply Rinv_0_lt_compat.
    + apply Rmult_le_reg_r with (INR (length l)); [exact HN |].
      unfold Rdiv. rewrite Rmult_assoc, Rinv_l by lra. lra.
Qed.

Lemma run_statistics_consistent
  (step : nat -> R * list R -> Rand (R * list R)) (cur : R) (h n : Z) :
  (1 <= n <= Z.of_nat most_simulations)%Z ->
  forall t c t',
    bind (for_each (from_0_below n) (sim_body step (from_1_to h) cur) ([], []))
         (finish cur) t = Some (c, t') ->
    exists r, c = Returns r /\ consistent_statistics (statistics r).
Proof.
  intros Hn t c t' Hrun. unfold bind in Hrun.
  destruct (for_each _ _ _ t) as [[[ps fs] t1] |] eqn:Hloop; [| discriminate].
  apply (sim_loop_inv step (from_1_to h) cur (fun _ _ => True) (fun _ => True))
    in Hloop; [| auto | exact I | constructor].
  destruct Hloop as [HF Hlen]. rewrite from_0_below_length in Hlen.
  cbn [length Nat.add] in Hlen.
  assert (Hfs : length fs = length ps)
    by (symmetry; eapply Forall2_length; exact HF).
  unfold finish, ret in Hrun. inversion Hrun; subst. clear Hrun.
  eexists. split; [reflexivity |]. cbn [statistics].
  apply summarize_consistent; [apply js_sort_sorted | |].
  - intros Hnil. apply (f_equal (@length R)) in Hnil.
    rewrite js_sort_length in Hnil. cbn [length] in Hnil. lia.
  - rewrite js_sort_length. lia.
Qed.



(* ===================================================================== *)
(** ** Portfolio runs: the paths and their final values *)
(* ===================================================================== *)

Lemma portfolio_day_appends (assetData : list Portfolio.Asset)
  (correlations : list (list R)) (day : nat) (pp : list num)
  (cap : list (string * list num)) (t : tape) pp' cap' t' :
  Portfolio.day_step assetData correlations day (pp, cap) t
  = Some ((pp', cap'), t') ->
  exists v, pp' = pp ++ [v].
Proof.
  unfold Portfolio.day_step, bind.
  destruct (Portfolio.generateCorrelatedRandoms (length assetData) correlations t)
    as [[shocks t1] |]; [| discriminate].
  destruct (fold_left _ _ _) as [cap2 pv2].
  unfold ret. intros H. inversion H. now exists pv2.
Qed.

Lemma portfolio_days_shape (assetData : list Portfolio.Asset)
  (correlations : list (list R)) (days : list nat) :
  forall pp cap t pp' cap' t',
    for_each days (Portfolio.day_step assetData correlations) (pp, cap) t
    = Some ((pp', cap'), t') ->
    length pp' = (length pp + length days)%nat
    /\ (pp <> [] -> nth_error pp' 0 = nth_error pp 0).
Proof.
  induction days as [| d days IH]; intros pp cap t pp' cap' t' Hrun.
  - rewrite for_each_nil in Hrun. inversion Hrun; subst.
    split; [cbn [length]; lia | reflexivity].
  - rewrite for_each_cons in Hrun.
    destruct (Portfolio.day_step assetData correlations d (pp, cap) t)
      as [[[pp1 cap1] t1] |] eqn:Hday; [| discriminate].
    apply portfolio_day_appends in Hday. destruct Hday as [v ->].
    apply IH in Hrun. destruct Hrun as [Hlen Hhd]. split.
    + rewrite Hlen, length_app. cbn [length]. lia.
    + intros Hne. rewrite Hhd by (destruct pp; discriminate).
      destruct pp; [congruence | reflexivity].
Qed.

Lemma js_last_is_last (a : list num) : to_number (js_last a) = last a NaN.
Proof.
  unfold js_last, js_index.
  destruct a as [| x a]; [reflexivity |].
  destruct (Z.of_nat (length (x :: a)) - 1 <? 0)%Z eqn:Hneg;
    [apply Z.ltb_lt in Hneg; cbn [length] in Hneg; lia |].
  replace (Z.to_nat (Z.of_nat (length (x :: a)) - 1)) with (length a)
    by (cbn [length]; lia).
  assert (H : nth_error (x :: a) (length a) = Some (last (x :: a) NaN)).
  { clear. revert x. induction a as [| y a IH]; intros x; [reflexivity |].
    cbn [length nth_error]. rewrite IH. reflexivity. }
  now rewrite H.
Qed.

Lemma portfolio_sims_shape (assetData : list Portfolio.Asset)
  (correlations : list (list R)) (h : Z) (iv : R) (sims : list nat) :
  forall pp fv ap t pp' fv' ap' t',
    for_each sims (portfolio_sim_body assetData correlations h iv) (pp, fv, ap) t
    = Some ((pp', fv', ap'), t') ->
    exists new,
      pp' = pp ++ new
      /\ fv' = fv ++ map (fun path => last path NaN) new
      /\ length new = length sims
      /\ Forall (fun path => length path = S (Z.to_nat h)
                             /\ nth_error path 0 = Some (Fin iv)) new.
Proof.
  induction sims as [| sim sims IH]; intros pp fv ap t pp' fv' ap' t' Hrun.
  - rewrite for_each_nil in Hrun. inversion Hrun; subst.
    exists []. cbn [map length]. rewrite !app_nil_r. repeat split. constructor.
  - rewrite for_each_cons in Hrun. unfold portfolio_sim_body at 1 in Hrun.
    unfold bind at 1 in Hrun.
    destruct (for_each (from_1_to h) _ _ t) as [[[path cap] t1] |] eqn:Hdays;
      [| discriminate].
    apply portfolio_days_shape in Hdays. destruct Hdays as [Hlen Hhd].
    rewrite from_1_to_length in Hlen. cbn [length] in Hlen.
    specialize (Hhd ltac:(discriminate)). cbn [nth_error] in Hhd.
    unfold ret at 1 in Hrun. apply IH in Hrun.
    destruct Hrun as (new & -> & -> & Hnew & Hall).
    exists (path :: new). cbn [map length].
    rewrite <- !app_assoc, js_last_is_last. cbn [app].
    repeat split; [lia |].
    constructor; [split; [lia | exact Hhd] | exact Hall].
Qed.

(** X22.  [runPortfolioSimulation] returns [numSimulations] paths of
    [timeHorizon + 1] values, each starting at the initial value (the sum
    of price times weight over the assets), and, unlike
    [runMonteCarloSimulation], leaves [finalValues] in simulation order:
    [finalValues[i]] is the last value of [paths[i]].  It does return once
    the tape holds two non-zero draws per asset and simulated day. *)
Theorem portfolio_final_values_follow_paths
  (assetData : list Portfolio.Asset) (timeHorizon numSimulations : Z)
  (t : tape) :
  (forall c t',
      Portfolio.runPortfolioSimulation assetData timeHorizon numSimulations t
      = Some (c, t') ->
      exists r,
        c = Returns r
        /\ Portfolio.initialValue r = portfolio_initial_value assetData
        /\ length (Portfolio.paths r) = Z.to_nat numSimulations
        /\ Forall (fun path =>
                     length path = S (Z.to_nat timeHorizon)
                     /\ nth_error path 0
                        = Some (Fin (Portfolio.initialValue r)))
                  (Portfolio.paths r)
        /\ Portfolio.finalValues r
           = map (fun path => last path NaN) (Portfolio.paths r))
  /\ (zero_free t ->
      (Z.to_nat numSimulations
       * (Z.to_nat timeHorizon * (2 * length assetData)) <= length t)%nat ->
      exists c t',
        Portfolio.runPortfolioSimulation assetData timeHorizon numSimulations t
        = Some (c, t')).
Proof.
  split.
  - intros c t' Hrun. rewrite portfolio_run_unfold in Hrun. unfold bind in Hrun.
    destruct (for_each _ _ _ t) as [[[[pp fv] ap] t1] |] eqn:Hloop;
      [| discriminate].
    apply portfolio_sims_shape in Hloop.
    destruct Hloop as (new & Hpp & Hfv & Hlen & Hall).
    rewrite from_0_below_length in Hlen. cbn [app] in Hpp, Hfv. subst pp fv.
    unfold portfolio_finish, ret in Hrun. inversion Hrun; subst. clear Hrun.
    eexists. split; [reflexivity |].
    cbn [Portfolio.initialValue Portfolio.paths Portfolio.finalValues].
    repeat split; assumption.
  - intros Hz Hlen.
    destruct (portfolio_run_total assetData timeHorizon numSimulations t Hz Hlen)
      as [c Hrun].
    eauto.
Qed.

Lemma portfolio_final_values_follow_paths_witness :
  exists r t',
    Portfolio.runPortfolioSimulation three_tech 1 1 (repeat 0.5 6)
    = Some (Returns r, t')
    /\ length (Portfolio.paths r) = 1%nat
    /\ Portfolio.finalValues r
       = map (fun path => last path NaN) (Portfolio.paths r).
Proof.
  destruct (portfolio_run_total three_tech 1 1 (repeat 0.5 6)) as [c Hrun].
  - apply zero_free_repeat. lra.
  - cbn. lia.
  - destruct (proj1 (portfolio_final_values_follow_paths _ _ _ _) _ _ Hrun)
      as (r & Heq & _ & Hlen & _ & Hfinal).
    exists r. eexists. rewrite Heq in Hrun.
    split; [exact Hrun |]. split; [exact Hlen | exact Hfinal].
Defined.

(* ===================================================================== *)
(** ** TechnicalAnalysis: loops over index ranges *)
(* ===================================================================== *)

Lemma indices_nil (from to : Z) : (to <= from)%Z -> indices from to = [].
Proof.
  intros H. unfold indices. replace (Z.to_nat (to - from)) with 0%nat by lia.
  reflexivity.
Qed.

Lemma indices_cons (from to : Z) :
  (from < to)%Z -> indices from to = from :: indices (from + 1) to.
Proof.
  intros H. unfold indices.
  replace (Z.to_nat (to - from)) with (S (Z.to_nat (to - (from + 1)))) by lia.
  cbn [seq map]. f_equal; [lia |].
  rewrite <- seq_shift, map_map. apply map_ext. intros k. lia.
Qed.

Lemma indices_length (from to : Z) :
  length (indices from to) = Z.to_nat (to - from).
Proof. unfold indices. now rewrite length_map, length_seq. Qed.

Lemma indices_inside (from to i : Z) :
  In i (indices from to) -> (from <= i < to)%Z.
Proof.
  unfold indices. intros Hin. apply in_map_iff in Hin.
  destruct Hin as (k & <- & Hk). apply in_seq in Hk. lia.
Qed.

Lemma js_index_nth {A : Type} (d : A) (a : list A) (i : Z) :
  (0 <= i < Z.of_nat (length a))%Z ->
  js_index a i = Some (nth (Z.to_nat i) a d).
Proof.
  intros Hi. unfold js_index.
  destruct (i <? 0)%Z eqn:Hneg; [apply Z.ltb_lt in Hneg; lia |].
  apply nth_error_nth'. lia.
Qed.

Lemma js_index_negative {A : Type} (a : list A) (i : Z) :
  (i < 0)%Z -> js_index a i = None.
Proof. intros Hi. apply js_index_outside. now left. Qed.

Lemma js_slice_inside {A : Type} (a : list A) (s e : Z) :
  (0 <= s <= e)%Z -> (e <= Z.of_nat (length a))%Z ->
  js_slice a s e = firstn (Z.to_nat (e - s)) (skipn (Z.to_nat s) a).
Proof.
  intros Hs He. unfold js_slice.
  destruct (s <? 0)%Z eqn:Hs0; [apply Z.ltb_lt in Hs0; lia |].
  destruct (e <? 0)%Z eqn:He0; [apply Z.ltb_lt in He0; lia |].
  now rewrite !Z.min_l by lia.
Qed.

Lemma js_slice_subset {A : Type} (a : list A) (s e : Z) (x : A) :
  In x (js_slice a s e) -> In x a.
Proof.
  unfold js_slice. intros H.
  match type of H with
  | In _ (firstn ?n (skipn ?m _)) =>
      rewrite <- (firstn_skipn m a); apply in_or_app; right;
      rewrite <- (firstn_skipn n (skipn m a)); apply in_or_app; now left
  end.
Qed.

(** A loop that pushes one value per index and cannot throw. *)
Lemma for_indices_push {A : Type} (body : Z -> list A -> completion (list A))
  (g : Z -> A) (idx : list Z) :
  (forall i result, In i idx -> body i result = Returns (result ++ [g i])) ->
  forall result,
    for_indices idx body result = Returns (result ++ map g idx).
Proof.
  induction idx as [| i idx IH]; intros Hbody result.
  - cbn [for_indices map]. now rewrite app_nil_r.
  - cbn [for_indices map]. rewrite Hbody by now left.
    rewrite IH by (intros j r Hj; apply Hbody; now right).
    now rewrite <- app_assoc.
Qed.

Lemma sum_of_closes (l : list TA.CandlestickData) :
  forall x,
    fold_left (fun acc candle => acc + TA.close candle) l x
    = x + sumR (map TA.close l).
Proof.
  induction l as [| c l IH]; intros x; cbn [fold_left map].
  - rewrite sumR_nil. lra.
  - rewrite IH, sumR_cons. lra.
Qed.

(** The average that [sma] pushes at index [period - 1 + k]. *)
Lemma sma_average (data : list TA.CandlestickData) (period : Z) (k : nat) :
  (1 <= period)%Z -> (Z.of_nat k + period <= Z.of_nat (length data))%Z ->
  let i := (period - 1 + Z.of_nat k)%Z in
  ndiv (Fin (fold_left (fun acc candle => acc + TA.close candle)
                       (js_slice data (i - period + 1) (i + 1)) 0))
       (Fin (IZR period))
  = Fin (sumR (window data k (Z.to_nat period)) / IZR period).
Proof.
  intros Hp Hk i. subst i. rewrite js_slice_inside by lia.
  rewrite sum_of_closes, Rplus_0_l.
  rewrite ndiv_fin by (apply not_0_IZR; lia).
  unfold window.
  replace (Z.to_nat (period - 1 + Z.of_nat k + 1
                     - (period - 1 + Z.of_nat k - period + 1)))
    with (Z.to_nat period) by lia.
  replace (Z.to_nat (period - 1 + Z.of_nat k - period + 1)) with k by lia.
  reflexivity.
Qed.

(* ===================================================================== *)
(** ** TechnicalAnalysis: the simple moving average *)
(* ===================================================================== *)

Lemma sma_returns (data : list TA.CandlestickData) (period : Z) :
  (1 <= period)%Z ->
  TA.sma data period
  = Returns
      (map (fun k =>
              {| TA.stamp :=
                   TA.time (nth (k + Z.to_nat period - 1) data blank_candle);
                 TA.value :=
                   Fin (sumR (window data k (Z.to_nat period)) / IZR period) |})
           (seq 0 (length data + 1 - Z.to_nat period))).
Proof.
  intros Hp. unfold TA.sma. set (p := Z.to_nat period).
  rewrite (for_indices_push _
             (fun i =>
                {| TA.stamp := TA.time (nth (Z.to_nat i) data blank_candle);
                   TA.value :=
                     ndiv (Fin (fold_left
                                  (fun acc candle => acc + TA.close candle)
                                  (js_slice data (i - period + 1) (i + 1)) 0))
                          (Fin (IZR period)) |})).
  - cbn [app]. f_equal. unfold indices. rewrite map_map.
    replace (Z.to_nat (Z.of_nat (length data) - (period - 1)))
      with (length data + 1 - p)%nat by lia.
    apply map_ext_in. intros k Hk. apply in_seq in Hk.
    rewrite sma_average by lia. f_equal. f_equal. f_equal. lia.
  - intros i result Hi. apply indices_inside in Hi.
    now rewrite (js_index_nth blank_candle) by lia.
Qed.

(** X23.  [TechnicalAnalysis.sma] with a period of 1 or more returns one
    point per window of [period] consecutive candles, in order: the point
    carries the time of the window's last candle and the arithmetic mean
    of the window's closing prices (no point at all when the data are
    shorter than the period).  With a period of 0 or less it throws a
    [TypeError], even on empty data, because it reads [data[-1].time]. *)
Theorem sma_is_window_mean (data : list TA.CandlestickData) (period : Z) :
  ((period <= 0)%Z -> TA.sma data period = Throws type_error)
  /\ ((1 <= period)%Z ->
      let p := Z.to_nat period in
      TA.sma data period
      = Returns
          (map (fun k =>
                  {| TA.stamp := TA.time (nth (k + p - 1) data blank_candle);
                     TA.value := Fin (sumR (window data k p) / IZR period) |})
               (seq 0 (length data + 1 - p)))).
Proof.
  split.
  - intros Hp. unfold TA.sma. rewrite indices_cons by lia. cbn [for_indices].
    now rewrite js_index_negative by lia.
  - intros Hp p. now apply sma_returns.
Qed.

Lemma sma_is_window_mean_witness :
  TA.sma three_candles 2
  = Returns
      (map (fun k =>
              {| TA.stamp := TA.time (nth (k + 2 - 1) three_candles blank_candle);
                 TA.value := Fin (sumR (window three_candles k 2) / IZR 2) |})
           (seq 0 (length three_candles + 1 - 2))).
Proof.
  apply (proj2 (sma_is_window_mean three_candles 2)). lia.
Defined.

(* ===================================================================== *)
(** ** TechnicalAnalysis: the exponential moving average *)
(* ===================================================================== *)

Lemma window_length (data : list TA.CandlestickData) (k p : nat) :
  (k + p <= length data)%nat -> length (window data k p) = p.
Proof.
  intros H. unfold window. rewrite length_map, length_firstn, length_skipn. lia.
Qed.

Lemma window_within (lo hi : R) (data : list TA.CandlestickData) (k p : nat) :
  closes_within lo hi data ->
  Forall (fun c => lo <= c <= hi) (window data k p).
Proof.
  intros Hall. unfold window. apply Forall_forall. intros c Hc.
  apply in_map_iff in Hc. destruct Hc as (candle & <- & Hin).
  unfold closes_within in Hall. rewrite Forall_forall in Hall. apply Hall.
  rewrite <- (firstn_skipn k data). apply in_or_app. right.
  rewrite <- (firstn_skipn p (skipn k data)). apply in_or_app. now left.
Qed.

Lemma mean_within (lo hi : R) (l : list R) :
  l <> [] -> Forall (fun c => lo <= c <= hi) l ->
  lo <= sumR l / INR (length l) <= hi.
Proof.
  intros Hne Hall.
  assert (Hn : 0 < INR (length l)).
  { apply lt_0_INR. destruct l; [congruence | cbn; lia]. }
  assert (Hlow : Forall (fun c => lo <= c) l)
    by (eapply Forall_impl; [| exact Hall]; cbn; intros; lra).
  assert (Hhigh : Forall (fun c => c <= hi) l)
    by (eapply Forall_impl; [| exact Hall]; cbn; intros; lra).
  apply sum_of_bounded_below in Hlow. apply sum_of_bounded in Hhigh.
  split.
  - apply Rmult_le_reg_r with (INR (length l)); [exact Hn |].
    unfold Rdiv. rewrite Rmult_assoc, Rinv_l by lra. lra.
  - apply Rmult_le_reg_r with (INR (length l)); [exact Hn |].
    unfold Rdiv. rewrite Rmult_assoc, Rinv_l by lra. lra.
Qed.

Lemma smoothing_factor (period : Z) :
  (1 <= period)%Z ->
  ndiv (Fin 2) (Fin (IZR period + 1)) = Fin (2 / (IZR period + 1))
  /\ 0 < 2 / (IZR period + 1) <= 1.
Proof.
  intros Hp. apply IZR_le in Hp. split; [apply ndiv_fin; lra |]. split.
  - apply Rdiv_lt_0_compat; lra.
  - apply Rmult_le_reg_r with (IZR period + 1); [lra |].
    unfold Rdiv. rewrite Rmult_assoc, Rinv_l by lra. lra.
Qed.

Lemma ema_loop (data : list TA.CandlestickData) (period : Z) (idx : list Z) :
  (1 <= period)%Z ->
  (forall i, In i idx -> (0 <= i < Z.of_nat (length data))%Z) ->
  forall e result,
    exists e' result',
      for_indices idx
        (fun i '(ema, result) =>
           match js_index data i with
           | Some candle =>
               let ema :=
                 nadd (nmul (nsub (Fin (TA.close candle)) ema)
                            (ndiv (Fin 2) (Fin (IZR period + 1))))
                      ema in
               Returns (ema,
                        result ++ [{| TA.stamp := TA.time candle;
                                      TA.value := ema |}])
           | None => Throws type_error
           end)
        (Fin e, result)
      = Returns (Fin e', result')
      /\ length result' = (length result + length idx)%nat
      /\ (result <> [] -> nth_error result' 0 = nth_error result 0)
      /\ forall lo hi,
           closes_within lo hi data -> lo <= e <= hi ->
           values_within lo hi result ->
           lo <= e' <= hi /\ values_within lo hi result'.
Proof.
  intros Hp. destruct (smoothing_factor period Hp) as [Hm Hmr].
  induction idx as [| i idx IH]; intros Hidx e result.
  - exists e, result. cbn [for_indices length].
    split; [reflexivity |]. split; [lia |]. split; [reflexivity |].
    intros lo hi _ He Hres. now split.
  - cbn [for_indices].
    rewrite (js_index_nth blank_candle) by (apply Hidx; now left).
    set (c := nth (Z.to_nat i) data blank_candle).
    set (e1 := (TA.close c + - e) * (2 / (IZR period + 1)) + e).
    assert (Hstep :
      nadd (nmul (nsub (Fin (TA.close c)) (Fin e))
                 (ndiv (Fin 2) (Fin (IZR period + 1))))
           (Fin e) = Fin e1) by (rewrite Hm; reflexivity).
    cbv beta iota zeta. rewrite Hstep.
    destruct (IH (fun j Hj => Hidx j (or_intror Hj)) e1
                 (result ++ [{| TA.stamp := TA.time c; TA.value := Fin e1 |}]))
      as (e' & result' & Hrun & Hlen & Hhd & Hbound).
    exists e', result'. split; [exact Hrun |]. split; [| split].
    + rewrite Hlen, length_app. cbn [length]. lia.
    + intros Hne. rewrite Hhd by (destruct result; discriminate).
      destruct result; [congruence | reflexivity].
    + intros lo hi Hdata He Hres.
      assert (Hc : lo <= TA.close c <= hi).
      { unfold closes_within in Hdata. rewrite Forall_forall in Hdata.
        apply Hdata. unfold c. apply nth_In.
        specialize (Hidx i (or_introl eq_refl)). lia. }
      assert (He1 : lo <= e1 <= hi) by (unfold e1; nra).
      apply Hbound; [exact Hdata | exact He1 |].
      apply Forall_app. split; [exact Hres |].
      constructor; [| constructor]. exists e1. now split.
Qed.

(** X24.  [TechnicalAnalysis.ema] returns no point for empty data.  On
    non-empty data it throws a [TypeError] when the period is 0 or less,
    or larger than the number of candles.  Otherwise it returns one point
    per candle from the [period]-th on, and the first is the first point
    of [sma] for that period; in exact arithmetic every value is a finite
    number within any bounds that hold for all the closing prices. *)
Theorem ema_is_seeded_and_bounded (data : list TA.CandlestickData) (period : Z) :
  (data = [] -> TA.ema data period = Returns [])
  /\ (data <> [] ->
      (period <= 0 \/ Z.of_nat (length data) < period)%Z ->
      TA.ema data period = Throws type_error)
  /\ ((1 <= period <= Z.of_nat (length data))%Z ->
      exists points smas,
        TA.ema data period = Returns points
        /\ TA.sma data period = Returns smas
        /\ length points = (length data + 1 - Z.to_nat period)%nat
        /\ nth_error points 0 = nth_error smas 0
        /\ forall lo hi,
             closes_within lo hi data -> values_within lo hi points).
Proof.
  split; [| split].
  - intros ->. reflexivity.
  - intros Hne Hp. unfold TA.ema.
    destruct data as [| c data]; [congruence |].
    cbn [length Nat.eqb].
    rewrite js_index_outside; [reflexivity |].
    cbn [length] in Hp |- *. lia.
  - intros Hp. unfold TA.ema.
    destruct (length data =? 0)%nat eqn:Hlen;
      [apply Nat.eqb_eq in Hlen; lia |].
    rewrite (js_index_nth blank_candle) by lia.
    rewrite js_slice_inside by lia.
    rewrite sum_of_closes, Rplus_0_l.
    rewrite (ndiv_fin _ (IZR period)) by (apply not_0_IZR; lia).
    replace (Z.to_nat (period - 0)) with (Z.to_nat period) by lia.
    change (skipn (Z.to_nat 0) data) with data.
    set (p := Z.to_nat period).
    assert (Hwin : map TA.close (firstn p data) = window data 0 p)
      by reflexivity.
    rewrite Hwin.
    set (e0 := sumR (window data 0 p) / IZR period).
    set (pt0 := {| TA.stamp := TA.time (nth (Z.to_nat (period - 1)) data
                                            blank_candle);
                   TA.value := Fin e0 |}).
    destruct (ema_loop data period (indices period (Z.of_nat (length data)))
                ltac:(lia)
                (fun i Hi => ltac:(apply indices_inside in Hi; lia))
                e0 ([] ++ [pt0]))
      as (e' & result' & Hrun & Hlen' & Hhd & Hbound).
    match goal with
    | |- context [match ?X with Returns _ => _ | Throws _ => _ end] =>
        replace X with (@Returns (num * list TA.IndicatorPoint)
                                 (Fin e', result'))
          by (symmetry; exact Hrun)
    end.
    exists result'. eexists.
    split; [reflexivity |].
    split; [apply sma_returns; lia |].
    split; [| split].
    + rewrite Hlen', indices_length. cbn [app length]. lia.
    + rewrite Hhd by discriminate. cbn [app nth_error].
      fold p.
      replace (length data + 1 - p)%nat with (S (length data - p)) by lia.
      cbn [seq map nth_error]. unfold pt0, e0.
      replace (0 + p - 1)%nat with (Z.to_nat (period - 1)) by (unfold p; lia).
      reflexivity.
    + intros lo hi Hdata.
      assert (He0 : lo <= e0 <= hi).
      { unfold e0.
        assert (Hlp : length (window data 0 p) = p)
          by (apply window_length; lia).
        replace (IZR period) with (INR (length (window data 0 p)))
          by (rewrite Hlp; unfold p; rewrite INR_IZR_INZ; f_equal; lia).
        apply mean_within; [| now apply window_within].
        intros Hnil. rewrite Hnil in Hlp. cbn in Hlp. lia. }
      apply (Hbound lo hi Hdata He0).
      constructor; [| constructor]. exists e0. now split.
Qed.

Lemma three_candles_closes : closes_within 9 12 three_candles.
Proof. unfold closes_within, three_candles. repeat constructor; cbn; lra. Qed.

Lemma ema_is_seeded_and_bounded_witness :
  exists points,
    TA.ema three_candles 2 = Returns points
    /\ length points = 2%nat
    /\ values_within 9 12 points.
Proof.
  destruct (proj2 (proj2 (ema_is_seeded_and_bounded three_candles 2)))
    as (points & smas & Hrun & _ & Hlen & _ & Hbound).
  - cbn [length three_candles]. lia.
  - exists points. split; [exact Hrun |]. split; [exact Hlen |].
    apply Hbound. exact three_candles_closes.
Defined.

(* ===================================================================== *)
(** ** TechnicalAnalysis: Bollinger bands *)
(* ===================================================================== *)

Lemma for_indices_push2 {A : Type}
  (body : Z -> list A * list A -> completion (list A * list A))
  (g h : Z -> A) (idx : list Z) :
  (forall i u l, In i idx -> body i (u, l) = Returns (u ++ [g i], l ++ [h i])) ->
  forall u l,
    for_indices idx body (u, l) = Returns (u ++ map g idx, l ++ map h idx).
Proof.
  induction idx as [| i idx IH]; intros Hbody u l.
  - cbn [for_indices map]. now rewrite !app_nil_r.
  - cbn [for_indices map]. rewrite Hbody by now left.
    rewrite IH by (intros j u' l' Hj; apply Hbody; now right).
    now rewrite <- !app_assoc.
Qed.

Lemma nth_indices (from to : Z) (k : nat) (d : Z) :
  (k < Z.to_nat (to - from))%nat ->
  nth k (indices from to) d = (from + Z.of_nat k)%Z.
Proof.
  intros Hk. unfold indices.
  rewrite (nth_indep _ d ((fun j => (from + Z.of_nat j)%Z) 0%nat))
    by (rewrite length_map, length_seq; exact Hk).
  rewrite (map_nth (fun j => (from + Z.of_nat j)%Z)).
  rewrite seq_nth by exact Hk. reflexivity.
Qed.

Lemma nth_map_inside {A B : Type} (f : A -> B) (l : list A) (k : nat)
  (d : A) (d' : B) :
  (k < length l)%nat -> nth k (map f l) d' = f (nth k l d).
Proof.
  intros Hk. rewrite (nth_indep _ d' (f d)) by (now rewrite length_map).
  apply map_nth.
Qed.

Lemma sq_dev_of_closes (m : R) (l : list TA.CandlestickData) :
  forall a,
    fold_left (fun acc candle =>
                 nadd acc (npow (nsub (Fin (TA.close candle)) (Fin m)) 2))
              l (Fin a)
    = Fin (a + sumR (map (fun r => (r - m) * (r - m)) (map TA.close l))).
Proof.
  induction l as [| c l IH]; intros a; cbn [fold_left map].
  - rewrite sumR_nil, Rplus_0_r. reflexivity.
  - cbn [nsub nneg nadd nmul npow]. rewrite IH, sumR_cons. f_equal. lra.
Qed.

(** The two values pushed around a finite mean, in exact arithmetic: the
    mean plus and minus a non-negative multiple of a standard deviation. *)
Lemma band_values (mean stdDev period : R) (slice : list TA.CandlestickData) :
  0 <= stdDev -> 0 < period ->
  let variance :=
    ndiv (fold_left (fun acc candle =>
                       nadd acc (npow (nsub (Fin (TA.close candle)) (Fin mean)) 2))
                    slice (Fin 0))
         (Fin period) in
  exists width,
    0 <= width
    /\ nadd (Fin mean) (nmul (Fin stdDev) (nsqrt variance)) = Fin (mean + width)
    /\ nsub (Fin mean) (nmul (Fin stdDev) (nsqrt variance)) = Fin (mean - width).
Proof.
  intros Hsd Hp variance. unfold variance. rewrite sq_dev_of_closes.
  rewrite ndiv_fin by lra.
  pose proof (sumR_squares_nonneg mean (map TA.close slice)) as Hs.
  assert (Hv : 0 <= (0 + sumR (map (fun r => (r - mean) * (r - mean))
                                   (map TA.close slice))) / period).
  { apply Rmult_le_pos; [lra |]. left. now apply Rinv_0_lt_compat. }
  rewrite nsqrt_fin by lra. cbn [nmul nadd nsub nneg].
  eexists. split; [| split; [reflexivity | f_equal; lra]].
  apply Rmult_le_pos; [exact Hsd | apply sqrt_pos].
Qed.

(** X25.  For a period of 1 or more and a non-negative [stdDev],
    [bollingerBands] returns [sma] as the middle band and an upper and a
    lower band of the same length; in exact arithmetic, at every point
    the three values are finite, the lower value is at most the average,
    the average at most the upper value, and the two bands lie at the same
    distance from the average. *)
Theorem bollingerBands_enclose_the_average
  (data : list TA.CandlestickData) (period : Z) (stdDev : R) :
  (1 <= period)%Z -> 0 <= stdDev ->
  exists bands smas,
    TA.bollingerBands data period stdDev = Returns bands
    /\ TA.sma data period = Returns smas
    /\ TA.middle bands = smas
    /\ length (TA.upper bands) = length smas
    /\ length (TA.lower bands) = length smas
    /\ forall k, (k < length smas)%nat ->
         exists lo mid up,
           TA.value (nth k (TA.lower bands) blank_point) = Fin lo
           /\ TA.value (nth k smas blank_point) = Fin mid
           /\ TA.value (nth k (TA.upper bands) blank_point) = Fin up
           /\ lo <= mid <= up
           /\ up - mid = mid - lo.
Proof.
  intros Hp Hsd. pose proof (sma_returns data period Hp) as Hsma.
  set (smas := map _ _) in Hsma.
  assert (Hmean : forall k, (k < length smas)%nat ->
                            exists m, TA.value (nth k smas blank_point) = Fin m).
  { intros k Hk. unfold smas in *. rewrite length_map, length_seq in Hk.
    rewrite (nth_map_inside _ _ _ 0%nat) by (now rewrite length_seq).
    cbn [TA.value]. eexists. reflexivity. }
  set (variance_at := fun (i : Z) (point : TA.IndicatorPoint) =>
    ndiv (fold_left
            (fun acc candle =>
               nadd acc (npow (nsub (Fin (TA.close candle)) (TA.value point)) 2))
            (js_slice data (i + period - 1 - period + 1) (i + period - 1 + 1))
            (Fin 0))
         (Fin (IZR period))).
  set (up_at := fun i =>
    let point := nth (Z.to_nat i) smas blank_point in
    {| TA.stamp := TA.stamp point;
       TA.value := nadd (TA.value point)
                        (nmul (Fin stdDev) (nsqrt (variance_at i point))) |}).
  set (low_at := fun i =>
    let point := nth (Z.to_nat i) smas blank_point in
    {| TA.stamp := TA.stamp point;
       TA.value := nsub (TA.value point)
                        (nmul (Fin stdDev) (nsqrt (variance_at i point))) |}).
  unfold TA.bollingerBands. rewrite Hsma.
  rewrite (for_indices_push2 _ up_at low_at).
  - cbn [app]. eexists. exists smas. split; [reflexivity |].
    cbn [TA.upper TA.middle TA.lower].
    split; [reflexivity |]. split; [reflexivity |].
    assert (Hcount : length (indices 0 (Z.of_nat (length smas))) = length smas)
      by (rewrite indices_length; lia).
    split; [now rewrite length_map |]. split; [now rewrite length_map |].
    intros k Hk. destruct (Hmean k Hk) as (m & Hm).
    rewrite !(nth_map_inside _ _ _ 0%Z) by (rewrite Hcount; exact Hk).
    rewrite nth_indices by lia. cbn [Z.add].
    unfold up_at, low_at. cbv zeta. cbn [TA.value].
    rewrite Nat2Z.id, Hm. unfold variance_at. rewrite Hm.
    destruct (band_values m stdDev (IZR period)
                (js_slice data (Z.of_nat k + period - 1 - period + 1)
                               (Z.of_nat k + period - 1 + 1))
                Hsd ltac:(apply IZR_lt; lia))
      as (width & Hw & Hup & Hlow).
    cbv zeta in Hup, Hlow. rewrite Hup, Hlow.
    exists (m - width), m, (m + width).
    repeat split; try reflexivity; lra.
  - intros i u l Hi. apply indices_inside in Hi.
    rewrite (js_index_nth blank_point) by lia. reflexivity.
Qed.

Lemma bollingerBands_enclose_the_average_witness :
  exists bands smas,
    TA.bollingerBands three_candles 2 2 = Returns bands
    /\ TA.sma three_candles 2 = Returns smas
    /\ TA.middle bands = smas
    /\ length (TA.upper bands) = length smas
    /\ length (TA.lower bands) = length smas.
Proof.
  destruct (bollingerBands_enclose_the_average three_candles 2 2)
    as (bands & smas & H1 & H2 & H3 & H4 & H5 & _); [lia | lra |].
  exists bands, smas. repeat split; assumption.
Defined.

(* ===================================================================== *)
(** ** TechnicalAnalysis: the relative strength index *)
(* ===================================================================== *)

Lemma rsi_of_averages (g l : R) :
  0 <= g -> 0 <= l ->
  rsi_value (nsub (Fin 100)
                  (ndiv (Fin 100) (nadd (Fin 1) (ndiv (Fin g) (Fin l))))).
Proof.
  intros Hg Hl. unfold rsi_value.
  destruct (Req_dec_T l 0) as [-> | Hl0].
  - cbn [ndiv]. destruct (Req_dec_T 0 0) as [_ | H]; [| congruence].
    unfold scale_inf. destruct (total_order_T g 0) as [[H | H] | H].
    + lra.
    + left. reflexivity.
    + right. cbn [nadd ndiv nsub nneg]. eexists. split; [reflexivity | lra].
  - right. rewrite ndiv_fin by exact Hl0. cbn [nadd].
    assert (Hq : 0 <= g / l).
    { apply Rmult_le_pos; [exact Hg |]. left. apply Rinv_0_lt_compat. lra. }
    rewrite ndiv_fin by lra. cbn [nsub nneg nadd].
    eexists. split; [reflexivity |].
    assert (Hd : 0 < 100 / (1 + g / l) <= 100).
    { split.
      - apply Rdiv_lt_0_compat; lra.
      - apply Rmult_le_reg_r with (1 + g / l); [lra |].
        unfold Rdiv at 1. rewrite Rmult_assoc, Rinv_l by lra. nra. }
    lra.
Qed.

Lemma smoothed_average (a x period : R) :
  0 <= a -> 0 <= x -> 1 <= period ->
  exists a',
    ndiv (nadd (nmul (Fin a) (Fin (period - 1))) (Fin x)) (Fin period) = Fin a'
    /\ 0 <= a'.
Proof.
  intros Ha Hx Hp. cbn [nmul nadd]. rewrite ndiv_fin by lra.
  eexists. split; [reflexivity |].
  apply Rmult_le_pos; [nra |]. left. apply Rinv_0_lt_compat. lra.
Qed.

Lemma change_at_inside (a : list R) (i : Z) :
  Forall (fun x => 0 <= x) a -> (0 <= i < Z.of_nat (length a))%Z ->
  exists x, TA.change_at a i = Fin x /\ 0 <= x.
Proof.
  intros Hall Hi. unfold TA.change_at. rewrite (js_index_nth 0) by exact Hi.
  cbn [option_map to_number]. eexists. split; [reflexivity |].
  rewrite Forall_forall in Hall. apply Hall, nth_In. lia.
Qed.

Lemma rsi_loop (data : list TA.CandlestickData) (gains losses : list R)
  (period : Z) (idx : list Z) :
  (1 <= period)%Z ->
  Forall (fun x => 0 <= x) gains -> Forall (fun x => 0 <= x) losses ->
  (forall i, In i idx ->
             (0 <= i < Z.of_nat (length data))%Z
             /\ (0 <= i - 1 < Z.of_nat (length gains))%Z
             /\ (0 <= i - 1 < Z.of_nat (length losses))%Z) ->
  forall g l result,
    0 <= g -> 0 <= l ->
    Forall (fun point => rsi_value (TA.value point)) result ->
    exists g' l' result',
      for_indices idx
        (fun i '(avgGain, avgLoss, result) =>
           let avgGain :=
             ndiv (nadd (nmul avgGain (Fin (IZR period - 1)))
                        (TA.change_at gains (i - 1)))
                  (Fin (IZR period)) in
           let avgLoss :=
             ndiv (nadd (nmul avgLoss (Fin (IZR period - 1)))
                        (TA.change_at losses (i - 1)))
                  (Fin (IZR period)) in
           let rs := ndiv avgGain avgLoss in
           let rsi := nsub (Fin 100) (ndiv (Fin 100) (nadd (Fin 1) rs)) in
           match js_index data i with
           | Some candle =>
               Returns (avgGain, avgLoss,
                        result ++ [{| TA.stamp := TA.time candle;
                                      TA.value := rsi |}])
           | None => Throws type_error
           end)
        (Fin g, Fin l, result)
      = Returns (Fin g', Fin l', result')
      /\ length result' = (length result + length idx)%nat
      /\ Forall (fun point => rsi_value (TA.value point)) result'.
Proof.
  intros Hp Hgains Hlosses. apply IZR_le in Hp.
  induction idx as [| i idx IH]; intros Hidx g l result Hg Hl Hres.
  - exists g, l, result. cbn [for_indices length].
    split; [reflexivity |]. split; [lia | exact Hres].
  - destruct (Hidx i (or_introl eq_refl)) as (Hi & Hig & Hil).
    destruct (change_at_inside gains (i - 1) Hgains Hig) as (x & Hx & Hx0).
    destruct (change_at_inside losses (i - 1) Hlosses Hil) as (y & Hy & Hy0).
    destruct (smoothed_average g x (IZR period) Hg Hx0 Hp) as (g1 & Hg1 & Hg10).
    destruct (smoothed_average l y (IZR period) Hl Hy0 Hp) as (l1 & Hl1 & Hl10).
    cbn [for_indices]. rewrite (js_index_nth blank_candle) by exact Hi.
    cbv beta iota zeta. rewrite Hx, Hy, Hg1, Hl1.
    destruct (IH (fun j Hj => Hidx j (or_intror Hj)) g1 l1
                 (result ++
                  [{| TA.stamp := TA.time (nth (Z.to_nat i) data blank_candle);
                      TA.value :=
                        nsub (Fin 100)
                             (ndiv (Fin 100)
                                   (nadd (Fin 1) (ndiv (Fin g1) (Fin l1)))) |}])
                 Hg10 Hl10)
      as (g' & l' & result' & Hrun & Hlen & Hall).
    + apply Forall_app. split; [exact Hres |].
      constructor; [| constructor]. cbn [TA.value].
      now apply rsi_of_averages.
    + exists g', l', result'. split; [exact Hrun |]. split; [| exact Hall].
      rewrite Hlen, length_app. cbn [length]. lia.
Qed.

Lemma slice_sum_nonneg (a : list R) (s e : Z) :
  Forall (fun x => 0 <= x) a -> 0 <= sumR (js_slice a s e).
Proof.
  intros Hall. apply sumR_nonneg. apply Forall_forall. intros x Hx.
  rewrite Forall_forall in Hall. apply Hall.
  eapply js_slice_subset; exact Hx.
Qed.

(** X26.  For a period of 1 or more [TechnicalAnalysis.rsi] returns one
    point per candle from index [period] on, and every value is either a
    number between 0 and 100 or [NaN]. *)
Theorem rsi_stays_between_0_and_100
  (data : list TA.CandlestickData) (period : Z) :
  (1 <= period)%Z ->
  exists points,
    TA.rsi data period = Returns points
    /\ length points = (length data - Z.to_nat period)%nat
    /\ Forall (fun point => rsi_value (TA.value point)) points.
Proof.
  intros Hp. unfold TA.rsi.
  set (changes := map _ (combine data (tl data))).
  set (gains := map _ changes). set (losses := map _ changes).
  assert (Hchanges : length changes = (length data - 1)%nat).
  { unfold changes. rewrite length_map, length_combine.
    destruct data as [| c data]; [reflexivity |]. cbn [tl length]. lia. }
  assert (Hgains : Forall (fun x => 0 <= x) gains).
  { apply Forall_forall. intros x Hx. apply in_map_iff in Hx.
    destruct Hx as (ch & <- & _). destruct (Rlt_dec 0 ch); lra. }
  assert (Hlosses : Forall (fun x => 0 <= x) losses).
  { apply Forall_forall. intros x Hx. apply in_map_iff in Hx.
    destruct Hx as (ch & <- & _).
    destruct (Rlt_dec ch 0); [apply Rabs_pos | lra]. }
  assert (HP : 1 <= IZR period) by (apply IZR_le in Hp; exact Hp).
  rewrite !(ndiv_fin _ (IZR period)) by lra.
  pose proof (slice_sum_nonneg gains 0 period Hgains) as Hg0.
  pose proof (slice_sum_nonneg losses 0 period Hlosses) as Hl0.
  destruct (rsi_loop data gains losses period
              (indices period (Z.of_nat (length data))) Hp Hgains Hlosses)
    with (g := sumR (js_slice gains 0 period) / IZR period)
         (l := sumR (js_slice losses 0 period) / IZR period)
         (result := @nil TA.IndicatorPoint)
    as (g' & l' & result' & Hrun & Hlen & Hall).
  - intros i Hi. apply indices_inside in Hi.
    unfold gains, losses. rewrite !length_map, Hchanges. lia.
  - apply Rmult_le_pos; [exact Hg0 |]. left. apply Rinv_0_lt_compat. lra.
  - apply Rmult_le_pos; [exact Hl0 |]. left. apply Rinv_0_lt_compat. lra.
  - constructor.
  - match goal with
    | |- context [match ?X with Returns _ => _ | Throws _ => _ end] =>
        replace X with (@Returns (num * num * list TA.IndicatorPoint)
                                 (Fin g', Fin l', result'))
          by (symmetry; exact Hrun)
    end.
    exists result'. split; [reflexivity |]. split; [| exact Hall].
    rewrite Hlen, indices_length. cbn [length]. lia.
Qed.

Lemma rsi_stays_between_0_and_100_witness :
  exists points,
    TA.rsi three_candles 1 = Returns points
    /\ length points = 2%nat
    /\ Forall (fun point => rsi_value (TA.value point)) points.
Proof.
  apply (rsi_stays_between_0_and_100 three_candles 1). lia.
Defined.

(* ===================================================================== *)
(** ** Backtesting: strategies *)
(* ===================================================================== *)

Lemma truthy_fin (r : R) : r <> 0 -> truthy (Some (Fin r)) = true.
Proof. intros Hr. unfold truthy. destruct (Req_dec_T r 0); [contradiction | reflexivity]. Qed.

Lemma truthy_zero : truthy (Some (Fin 0)) = false.
Proof. unfold truthy. destruct (Req_dec_T 0 0); [reflexivity | contradiction]. Qed.

Lemma or_0_positive (v : R) : 0 < v -> or_0 (Some (Fin v)) = Fin v.
Proof. intros Hv. unfold or_0. rewrite truthy_fin by lra. reflexivity. Qed.

(** In a falling window the loop of [rsi] never adds to [gains] and adds
    every fall to [losses]. *)
Lemma rsi_fold_falling (prices : list R) (idx : list Z) :
  (forall i, In i idx ->
     exists now before,
       js_index prices i = Some now
       /\ js_index prices (i - 1) = Some before /\ now < before) ->
  forall l, 0 <= l ->
  exists l',
    fold_left (BT.rsi_step prices) idx (Fin 0, Fin l) = (Fin 0, Fin l')
    /\ l <= l' /\ (idx <> [] -> l < l').
Proof.
  induction idx as [| i idx IH]; intros Hall l Hl.
  - exists l. cbn. repeat split; [lra | congruence].
  - destruct (Hall i (or_introl eq_refl)) as (now & before & Hn & Hb & Hlt).
    cbn [fold_left]. unfold BT.rsi_step at 2. unfold BT.price_at.
    rewrite Hn, Hb. cbn [option_map to_number fst snd].
    unfold nsub at 1. cbn [nneg nadd].
    assert (Hg : ngtb (Fin (now + - before)) (Fin 0) = false).
    { unfold ngtb. apply nltb_fin_false. lra. }
    rewrite Hg. unfold nsub. cbn [nneg nadd].
    destruct (IH (fun j Hj => Hall j (or_intror Hj)) (l + - (now + - before)))
      as (l' & Hfold & Hle & _); [lra |].
    exists l'. split; [exact Hfold |]. split; [lra |]. intros _. lra.
Qed.

Lemma rsi_of_falling_window (prices : list R) (period index : Z) :
  (1 <= period)%Z -> (period <= index)%Z ->
  falling_window prices period index ->
  BT.rsi prices period index = Some (Fin 0).
Proof.
  intros Hp Hi Hfall. unfold BT.rsi.
  destruct (Z.ltb_spec index period) as [Hlt | _]; [lia |].
  destruct (rsi_fold_falling prices (indices (index - period + 1) (index + 1)))
    with (l := 0) as (l' & Hfold & _ & Hpos); [| lra |].
  { intros i Hin. apply Hfall. apply indices_inside in Hin. lia. }
  assert (Hl : 0 < l').
  { apply Hpos. unfold indices.
    replace (Z.to_nat (index + 1 - (index - period + 1))) with
      (Datatypes.S (Z.to_nat (period - 1))) by lia.
    cbn. discriminate. }
  cbv zeta. rewrite Hfold. cbn [fst snd].
  assert (HP : 0 < IZR period) by (apply IZR_lt; lia).
  rewrite !ndiv_fin by lra.
  assert (Hq : l' / IZR period <> 0).
  { apply Rgt_not_eq. apply Rdiv_lt_0_compat; lra. }
  unfold neqb. destruct (Req_dec_T (l' / IZR period) 0) as [He | _]; [contradiction |].
  rewrite ndiv_fin by exact Hq. cbn [nadd].
  rewrite ndiv_fin.
  2:{ replace (0 / IZR period / (l' / IZR period)) with 0 by (field; lra). lra. }
  unfold nsub. cbn [nneg nadd]. do 2 f_equal. field. split; lra.
Qed.

Lemma falling_bars_window :
  falling_window (map BT.HistoricalPrice.close falling_bars) 2 2.
Proof.
  intros i Hi.
  assert (Hc : i = 1%Z \/ i = 2%Z) by lia.
  destruct Hc as [-> | ->]; cbn.
  - exists 11, 12. repeat split; lra.
  - exists 10, 11. repeat split; lra.
Qed.

(** X27.  [TradingStrategy.rsi], [RSIMeanReversion.generateSignal]: when
    every close in the look-back window is below the close before it, the
    helper [rsi] returns exactly 0, the most oversold reading there is; the
    strategy's test [!rsi] takes that 0 for a missing value, so it answers
    HOLD whatever the oversold level and whether or not a position is
    open. *)
Theorem rsi_reversion_holds_in_straight_decline
  (this : BT.RSIMeanReversion.parameters)
  (prices : list BT.HistoricalPrice.t) (currentIndex : Z) :
  (1 <= BT.RSIMeanReversion.rsiPeriod this)%Z ->
  (BT.RSIMeanReversion.rsiPeriod this <= currentIndex)%Z ->
  falling_window (map BT.HistoricalPrice.close prices)
                 (BT.RSIMeanReversion.rsiPeriod this) currentIndex ->
  BT.rsi (map BT.HistoricalPrice.close prices)
         (BT.RSIMeanReversion.rsiPeriod this) currentIndex = Some (Fin 0)
  /\ forall position,
       BT.generateSignal this prices currentIndex position = Returns BT.HOLD.
Proof.
  intros Hp Hi Hfall.
  pose proof (rsi_of_falling_window _ _ _ Hp Hi Hfall) as Hrsi.
  split; [exact Hrsi |].
  intros position. cbn [BT.generateSignal BT.RSIMeanReversion_strategy].
  unfold BT.RSIMeanReversion.generateSignal. cbv zeta.
  rewrite Hrsi, truthy_zero. reflexivity.
Qed.

Lemma rsi_reversion_holds_in_straight_decline_witness :
  BT.rsi (map BT.HistoricalPrice.close falling_bars) 2 2 = Some (Fin 0)
  /\ forall position,
       BT.generateSignal (BT.RSIMeanReversion.make (Some 2%Z) None None)
                         falling_bars 2 position = Returns BT.HOLD.
Proof.
  apply (rsi_reversion_holds_in_straight_decline
           (BT.RSIMeanReversion.make (Some 2%Z) None None) falling_bars 2).
  - cbn. lia.
  - cbn. lia.
  - exact falling_bars_window.
Defined.

(** [Math.floor(cash * fraction / price)] shares cost at most the cash. *)
Lemma position_size_buy (fraction price cash : R) (pos : option BT.Position.t) :
  0 <= fraction <= 1 -> 0 < price -> 0 <= cash ->
  exists q : Z,
    BT.position_size fraction BT.BUY price (Fin cash) pos = Fin (IZR q)
    /\ (0 <= q)%Z /\ IZR q * price <= cash.
Proof.
  intros Hf Hp Hc. exists (js_floor (cash * fraction / price)).
  unfold BT.position_size. cbn [nmul]. rewrite ndiv_fin by lra. cbn [nfloor].
  split; [reflexivity |].
  assert (H0 : 0 <= cash * fraction / price).
  { apply Rmult_le_pos; [apply Rmult_le_pos; lra |].
    apply Rlt_le, Rinv_0_lt_compat, Hp. }
  unfold js_floor.
  pose proof (Zfloor_bound (cash * fraction / price)) as [Hlo _].
  pose proof (Zfloor_lub 0 (cash * fraction / price) H0) as Hge.
  split; [exact Hge |].
  assert (Hq : IZR (Zfloor (cash * fraction / price)) * price
               <= cash * fraction / price * price).
  { apply Rmult_le_compat_r; lra. }
  replace (cash * fraction / price * price) with (cash * fraction) in Hq
    by (field; lra).
  assert (cash * fraction <= cash * 1) by (apply Rmult_le_compat_l; lra).
  lra.
Qed.

Lemma createStrategy_cases (name : string)
  (parameters : option BT.FactoryParameters) (s : BT.Strategy) :
  BT.createStrategy name parameters = Some s ->
  (name = "Moving Average Crossover"%string
   /\ s = BT.MovingAverage
            (BT.MovingAverageCrossover.make
               (BT.field parameters BT.p_fastPeriod)
               (BT.field parameters BT.p_slowPeriod)))
  \/ (name = "RSI Mean Reversion"%string
      /\ s = BT.RSI
               (BT.RSIMeanReversion.make
                  (BT.field parameters BT.p_rsiPeriod)
                  (BT.field parameters BT.p_oversoldLevel)
                  (BT.field parameters BT.p_overboughtLevel)))
  \/ (name = "Bollinger Bands"%string
      /\ s = BT.Bollinger
               (BT.BollingerBands.make
                  (BT.field parameters BT.p_period)
                  (BT.field parameters BT.p_stdDev))).
Proof.
  unfold BT.createStrategy.
  destruct (String.eqb_spec name "Moving Average Crossover") as [-> | _].
  { intros [= <-]. left. split; reflexivity. }
  destruct (String.eqb_spec name "RSI Mean Reversion") as [-> | _].
  { intros [= <-]. right. left. split; reflexivity. }
  destruct (String.eqb_spec name "Bollinger Bands") as [-> | _].
  { intros [= <-]. right. right. split; reflexivity. }
  discriminate.
Qed.

(** X28.  [getPositionSize of the three strategies], [createStrategy]: every
    strategy that the factory makes sizes a SELL to the whole quantity of
    the open position, and to 0 without a position; a HOLD to 0.  In exact
    arithmetic it sizes a BUY, for a positive price and cash that is not
    negative, to a whole number of shares, not negative, whose cost at
    that price is at most the cash. *)
Theorem factory_strategies_size_orders (name : string)
  (parameters : option BT.FactoryParameters) (s : BT.Strategy)
  (price cash : R) (pos : option BT.Position.t) :
  BT.createStrategy name parameters = Some s ->
  0 < price -> 0 <= cash ->
  (exists q : Z,
      BT.getPositionSize s BT.BUY price (Fin cash) pos = Fin (IZR q)
      /\ (0 <= q)%Z /\ IZR q * price <= cash)
  /\ (forall p, BT.getPositionSize s BT.SELL price (Fin cash) (Some p)
                = BT.Position.quantity p)
  /\ BT.getPositionSize s BT.SELL price (Fin cash) None = Fin 0
  /\ BT.getPositionSize s BT.HOLD price (Fin cash) pos = Fin 0.
Proof.
  intros Hmake Hp Hc.
  destruct (createStrategy_cases _ _ _ Hmake)
    as [[_ ->] | [[_ ->] | [_ ->]]];
    (split; [apply position_size_buy; cbn; lra |]);
    repeat split; destruct pos; reflexivity.
Qed.

Lemma factory_strategies_size_orders_witness :
  (exists q : Z,
      BT.getPositionSize (BT.RSI (BT.RSIMeanReversion.make None None None))
                         BT.BUY 100 (Fin 1000) None = Fin (IZR q)
      /\ (0 <= q)%Z /\ IZR q * 100 <= 1000)
  /\ (forall p,
        BT.getPositionSize (BT.RSI (BT.RSIMeanReversion.make None None None))
                           BT.SELL 100 (Fin 1000) (Some p)
        = BT.Position.quantity p)
  /\ BT.getPositionSize (BT.RSI (BT.RSIMeanReversion.make None None None))
                        BT.SELL 100 (Fin 1000) None = Fin 0
  /\ BT.getPositionSize (BT.RSI (BT.RSIMeanReversion.make None None None))
                        BT.HOLD 100 (Fin 1000) None = Fin 0.
Proof.
  apply (factory_strategies_size_orders "RSI Mean Reversion" None).
  - reflexivity.
  - lra.
  - lra.
Defined.

(** [getAvailableStrategies], [createStrategy]: creating a strategy by
    the name of a listed one, without parameters, gives the listed strategy
    back; whatever the parameters, a created strategy carries the name it
    was asked by; and the factory answers [null] exactly for the names that
    no listed strategy has. *)
Theorem createStrategy_round_trip :
  (forall s, In s BT.getAvailableStrategies ->
             BT.createStrategy (BT.name s) None = Some s)
  /\ (forall name parameters s,
        BT.createStrategy name parameters = Some s -> BT.name s = name)
  /\ (forall name parameters,
        BT.createStrategy name parameters = None
        <-> ~ In name (map BT.name BT.getAvailableStrategies)).
Proof.
  split; [| split].
  - intros s [<- | [<- | [<- | []]]]; reflexivity.
  - intros name parameters s Hmake.
    destruct (createStrategy_cases _ _ _ Hmake)
      as [[-> ->] | [[-> ->] | [-> ->]]]; reflexivity.
  - intros name parameters. unfold BT.createStrategy. cbn [map BT.getAvailableStrategies In].
    cbn [BT.name BT.Strategy_strategy BT.MovingAverageCrossover_strategy
         BT.RSIMeanReversion_strategy BT.BollingerBands_strategy].
    destruct (String.eqb_spec name "Moving Average Crossover") as [-> | N1].
    { split; [discriminate | intros Hn; exfalso; apply Hn; left; reflexivity]. }
    destruct (String.eqb_spec name "RSI Mean Reversion") as [-> | N2].
    { split; [discriminate | intros Hn; exfalso; apply Hn; right; left; reflexivity]. }
    destruct (String.eqb_spec name "Bollinger Bands") as [-> | N3].
    { split; [discriminate |
              intros Hn; exfalso; apply Hn; right; right; left; reflexivity]. }
    split; [| reflexivity].
    intros _ [H | [H | [H | []]]]; congruence.
Qed.

(* ===================================================================== *)
(** ** Backtesting: trade statistics *)
(* ===================================================================== *)

Lemma js_last_nonempty {A : Type} (x : A) (a : list A) :
  exists y, js_last (x :: a) = Some y.
Proof.
  unfold js_last. eexists.
  apply (js_index_nth x). cbn [length]. lia.
Qed.

Lemma includes_member (a : list BT.TradeObject) (t : BT.TradeObject) :
  In t a -> BT.includes a t = true.
Proof.
  intros Hin. unfold BT.includes. apply existsb_exists.
  exists t. split; [exact Hin | apply Nat.eqb_refl].
Qed.

(** No trade of an array is missing from that array. *)
Lemma none_missing (a : list BT.TradeObject) :
  filter (fun trade => negb (BT.includes a trade)) a = [].
Proof.
  assert (H : forall l, incl l a ->
                filter (fun trade => negb (BT.includes a trade)) l = []).
  { induction l as [| t l IH]; intros Hl; [reflexivity |].
    cbn [filter]. rewrite includes_member by (apply Hl; left; reflexivity).
    cbn [negb]. apply IH. intros u Hu. apply Hl. right. exact Hu. }
  apply H, incl_refl.
Qed.

Lemma filter_some {A : Type} (f : A -> bool) (a : list A) :
  existsb f a = true -> (0 < length (filter f a))%nat.
Proof.
  intros H. apply existsb_exists in H. destruct H as (x & Hin & Hx).
  assert (Hf : In x (filter f a)) by (apply filter_In; split; assumption).
  destruct (filter f a); [destruct Hf | cbn [length]; lia].
Qed.

Lemma filter_none {A : Type} (f : A -> bool) (a : list A) :
  existsb f a = false -> filter f a = [].
Proof.
  induction a as [| x a IH]; [reflexivity |].
  cbn [existsb filter]. intros H. apply orb_false_iff in H.
  destruct H as [Hx Ha]. rewrite Hx. apply IH, Ha.
Qed.

(** X29.  [BacktestEngine.calculatePerformanceMetrics]: the metrics of a
    run with at least one portfolio value count every SELL as a winning
    trade and nothing as a losing one.  So the win rate is 1 as soon as one
    trade is a SELL, NaN when there are trades but no SELL and 0 without
    trades; the average losing trade is always 0; the profit factor is
    either Infinity or 0, never a ratio. *)
Theorem win_rate_counts_every_sale (trades : list BT.TradeObject)
  (v : BT.PortfolioValue.t) (rest : list BT.PortfolioValue.t)
  (initialCapital : R) :
  let m := BT.calculatePerformanceMetrics trades (v :: rest) initialCapital in
  BT.avgLosingTrade m = Fin 0
  /\ (BT.profitFactor m = PInf \/ BT.profitFactor m = Fin 0)
  /\ (existsb BT.is_sell trades = true -> BT.winRate m = Fin 1)
  /\ (trades <> [] -> existsb BT.is_sell trades = false ->
      BT.winRate m = NaN)
  /\ (trades = [] -> BT.winRate m = Fin 0).
Proof.
  cbv zeta. unfold BT.calculatePerformanceMetrics.
  destruct (js_last_nonempty v rest) as (y & ->).
  cbv zeta.
  cbn [BT.avgLosingTrade BT.profitFactor BT.winRate].
  rewrite !none_missing.
  change (js_length (@nil BT.TradeObject)) with 0.
  change (0 <? length (@nil BT.TradeObject))%nat with false.
  cbn [fold_left].
  split; [reflexivity |]. split; [| split; [| split]].
  - assert (H0 : ngtb (Fin 0) (Fin 0) = false)
      by (unfold ngtb; apply nltb_fin_false; lra).
    rewrite H0. clear H0.
    match goal with
    | |- context [ngtb ?p (Fin 0)] => destruct (ngtb p (Fin 0))
    end; [left | right]; reflexivity.
  - intros Hsell. apply filter_some in Hsell.
    assert (Hlen : (0 < length trades)%nat).
    { pose proof (filter_length_le BT.is_sell trades). lia. }
    apply Nat.ltb_lt in Hlen. rewrite Hlen.
    assert (Hk : 0 < js_length (filter BT.is_sell trades)).
    { unfold js_length. apply lt_0_INR. exact Hsell. }
    rewrite ndiv_fin by lra. f_equal. field. lra.
  - intros Hne Hnone. rewrite (filter_none _ _ Hnone).
    destruct trades as [| t trades]; [congruence |].
    change (0 <? length (t :: trades))%nat with true.
    change (js_length (@nil BT.TradeObject)) with 0.
    unfold ndiv. destruct (Req_dec_T (0 + 0) 0) as [_ | Hn]; [| lra].
    unfold scale_inf. destruct (total_order_T 0 0) as [[H | _] | H]; [lra | | lra].
    reflexivity.
  - intros ->. reflexivity.
Qed.

(* ===================================================================== *)
(** ** Backtesting: the engine *)
(* ===================================================================== *)

Lemma positive_num (q : num) :
  ngtb q (Fin 0) = true -> positive_quantity q \/ q = PInf.
Proof.
  unfold ngtb, nltb, positive_quantity. destruct q as [v | | |]; try discriminate.
  - destruct (Rlt_dec 0 v) as [Hv | _]; [| discriminate].
    intros _. left. exists v. split; [reflexivity | exact Hv].
  - intros _. right. reflexivity.
Qed.

Lemma scale_inf_positive (r : R) : 0 < r -> scale_inf true r = PInf.
Proof.
  intros Hr. unfold scale_inf.
  destruct (total_order_T r 0) as [[H | H] | H]; [lra | lra | reflexivity].
Qed.

Lemma sound_run_ext {S : Type} (params : BT.Params.t S) (r r' : BT.Run) :
  BT.cash r' = BT.cash r -> BT.peak r' = BT.peak r ->
  BT.position r' = BT.position r ->
  BT.run_values r' = BT.run_values r ->
  BT.run_trades r' = BT.run_trades r ->
  sound_run params r -> sound_run params r'.
Proof.
  unfold sound_run. intros -> -> -> -> ->. exact (fun H => H).
Qed.

Lemma js_index_some_range {A : Type} (a : list A) (i : Z) (x : A) :
  js_index a i = Some x -> (0 <= i < Z.of_nat (length a))%Z.
Proof.
  unfold js_index. destruct (Z.ltb_spec i 0) as [Hneg | Hpos]; [discriminate |].
  intros Hx. assert (Hlt : (Z.to_nat i < length a)%nat).
  { apply nth_error_Some. rewrite Hx. discriminate. }
  lia.
Qed.

Section EngineFacts.
Context {S : Type} `{BT.TradingStrategy S}.
Variable generateTradeId : nat -> string.
Variable params : BT.Params.t S.
Hypothesis commission_ok : 0 <= BT.Params.commission params.
Hypothesis slippage_ok : 0 <= BT.Params.slippage params < 1.

Lemma execute_shape (signal : BT.TradeType) (b : BT.HistoricalPrice.t)
  (q : num) (r : BT.Run) :
  BT.run_signals (BT.execute generateTradeId params signal b q r)
  = BT.run_signals r
  /\ BT.run_values (BT.execute generateTradeId params signal b q r)
     = BT.run_values r.
Proof.
  unfold BT.execute. cbv zeta. cbn [BT.cash BT.position].
  destruct signal.
  - destruct (nleb _ _); split; reflexivity.
  - destruct (BT.position r) as [p |]; [| split; reflexivity].
    destruct (nleb _ _); split; reflexivity.
Qed.

Lemma trade_on_shape (signal : BT.Signal) (b : BT.HistoricalPrice.t)
  (r : BT.Run) :
  BT.run_signals (BT.trade_on generateTradeId params signal b r)
  = BT.run_signals r
  /\ BT.run_values (BT.trade_on generateTradeId params signal b r)
     = BT.run_values r.
Proof.
  unfold BT.trade_on.
  destruct signal; try (split; reflexivity);
    cbv zeta; destruct (ngtb _ _); try (split; reflexivity);
    apply execute_shape.
Qed.

Lemma execute_sound (signal : BT.TradeType) (b : BT.HistoricalPrice.t)
  (q : num) (r : BT.Run) :
  0 < BT.HistoricalPrice.close b ->
  ngtb q (Fin 0) = true ->
  sound_run params r ->
  sound_run params (BT.execute generateTradeId params signal b q r).
Proof.
  intros Hclose Hq Hr.
  pose proof Hr as (c & pk & Hc & Hpk & Hcap & Hfree & Hpos & Hvals & Htrades).
  unfold BT.execute. cbv zeta. cbn [BT.cash BT.position snd BT.Trade.price].
  destruct signal.
  - (* BUY *)
    assert (Hprice : 0 < BT.HistoricalPrice.close b
                         * (1 + BT.Params.slippage params))
      by (apply Rmult_lt_0_compat; lra).
    destruct (nleb _ (BT.cash r)) eqn:Hafford.
    2:{ apply (sound_run_ext params r); [reflexivity .. | exact Hr]. }
    destruct (positive_num q Hq) as [(v & -> & Hv) | ->].
    2:{ exfalso. revert Hafford. cbn [nmul].
        rewrite scale_inf_positive by exact Hprice. rewrite Hc.
        cbn [nadd nleb]. discriminate. }
    revert Hafford. rewrite Hc. cbn [nmul nadd]. unfold nleb.
    destruct (Rle_dec _ c) as [Hle | _]; [intros _ | discriminate].
    exists (c - (BT.HistoricalPrice.close b
                 * (1 + BT.Params.slippage params) * v
                 + BT.Params.commission params)), pk.
    cbn [BT.cash BT.peak BT.position BT.run_values BT.run_trades].
    split; [unfold nsub; cbn [nneg nadd]; f_equal; lra |].
    split; [exact Hpk |]. split; [exact Hcap |].
    split; [intros _; lra |].
    split; [| split; [exact Hvals |]].
    + intros p [= <-]. cbn [BT.Position.quantity].
      destruct (BT.position r) as [p0 |] eqn:Hp0; cbn [option_map].
      * destruct (Hpos p0 eq_refl) as (pq & Hpq & Hpqpos).
        rewrite Hpq, or_0_positive by exact Hpqpos.
        exists (pq + v). split; [reflexivity | lra].
      * unfold or_0. cbn [truthy nadd].
        exists (0 + v). split; [reflexivity | lra].
    + apply Forall_app. split; [exact Htrades |].
      constructor; [| constructor].
      cbn [snd BT.Trade.quantity]. exists v. split; [reflexivity | exact Hv].
  - (* SELL *)
    assert (Hprice : 0 < BT.HistoricalPrice.close b
                         * (1 + - BT.Params.slippage params))
      by (apply Rmult_lt_0_compat; lra).
    destruct (BT.position r) as [p |] eqn:Hp.
    2:{ apply (sound_run_ext params r);
          [reflexivity | reflexivity | symmetry; exact Hp
          | reflexivity | reflexivity | exact Hr]. }
    destruct (nleb q (BT.Position.quantity p)) eqn:Hcover.
    2:{ apply (sound_run_ext params r);
          [reflexivity | reflexivity | symmetry; exact Hp
          | reflexivity | reflexivity | exact Hr]. }
    destruct (Hpos p eq_refl) as (pq & Hpq & Hpqpos).
    revert Hcover. rewrite Hpq.
    destruct (positive_num q Hq) as [(v & -> & Hv) | ->];
      [| cbn [nleb]; discriminate].
    unfold nleb. destruct (Rle_dec v pq) as [Hle | _]; [intros _ | discriminate].
    exists (c + (BT.HistoricalPrice.close b
                 * (1 + - BT.Params.slippage params) * v
                 - BT.Params.commission params)), pk.
    cbn [BT.cash BT.peak BT.position BT.run_values BT.run_trades
         BT.Position.quantity].
    split; [rewrite Hc; unfold nsub; cbn [nmul nneg nadd]; f_equal; lra |].
    split; [exact Hpk |]. split; [exact Hcap |].
    split.
    { intros H0. specialize (Hfree H0).
      assert (0 <= BT.HistoricalPrice.close b
                   * (1 + - BT.Params.slippage params) * v)
        by (apply Rmult_le_pos; lra).
      lra. }
    split; [| split; [exact Hvals |]].
    + intros p0. unfold nsub at 1. cbn [nneg nadd]. unfold neqb.
      destruct (Req_dec_T (pq + - v) 0) as [_ | Hne]; [discriminate |].
      intros [= <-]. cbn [BT.Position.quantity].
      unfold nsub. cbn [nneg nadd].
      exists (pq + - v). split; [reflexivity | lra].
    + apply Forall_app. split; [exact Htrades |].
      constructor; [| constructor].
      cbn [snd BT.Trade.quantity]. exists v. split; [reflexivity | exact Hv].
Qed.

Lemma trade_on_sound (signal : BT.Signal) (b : BT.HistoricalPrice.t)
  (r : BT.Run) :
  0 < BT.HistoricalPrice.close b ->
  sound_run params r ->
  sound_run params (BT.trade_on generateTradeId params signal b r).
Proof.
  intros Hclose Hr. unfold BT.trade_on.
  destruct signal; [| | exact Hr]; cbv zeta;
    (destruct (ngtb _ (Fin 0)) eqn:Hq; [| exact Hr]);
    apply execute_sound; assumption.
Qed.

Lemma mark_sound (b : BT.HistoricalPrice.t) (r : BT.Run) :
  0 < BT.Params.initialCapital params ->
  0 < BT.HistoricalPrice.close b ->
  sound_run params r ->
  sound_run params (BT.mark b r)
  /\ BT.run_signals (BT.mark b r) = BT.run_signals r
  /\ BT.run_trades (BT.mark b r) = BT.run_trades r
  /\ exists v,
       BT.run_values (BT.mark b r) = BT.run_values r ++ [v]
       /\ BT.PortfolioValue.date v = BT.HistoricalPrice.date b.
Proof.
  intros Hcap0 Hclose (c & pk & Hc & Hpk & Hcap & Hfree & Hpos & Hvals & Htrades).
  assert (Hval : exists pv,
             match BT.position r with
             | Some p => nmul (BT.Position.quantity p)
                              (Fin (BT.HistoricalPrice.close b))
             | None => Fin 0
             end = Fin pv /\ 0 <= pv).
  { destruct (BT.position r) as [p |].
    - destruct (Hpos p eq_refl) as (pq & -> & Hpq). cbn [nmul].
      eexists. split; [reflexivity |]. apply Rmult_le_pos; lra.
    - exists 0. split; [reflexivity | lra]. }
  destruct Hval as (pv & Hpv & Hpv0).
  unfold BT.mark. cbv zeta. rewrite Hpv, Hc, Hpk. cbn [nadd].
  set (value := c + pv).
  assert (Hpeak : exists pk',
             (if ngtb (Fin value) (Fin pk) then Fin value else Fin pk) = Fin pk'
             /\ pk <= pk' /\ value <= pk').
  { unfold ngtb, nltb. destruct (Rlt_dec pk value) as [Hlt | Hge].
    - exists value. split; [reflexivity | lra].
    - exists pk. split; [reflexivity | lra]. }
  destruct Hpeak as (pk' & -> & Hpk' & Hvalue).
  unfold nsub. cbn [nneg nadd]. rewrite ndiv_fin by lra.
  split; [| split; [reflexivity | split; [reflexivity |]]].
  - exists c, pk'.
    cbn [BT.cash BT.peak BT.position BT.run_values BT.run_trades].
    split; [reflexivity |]. split; [reflexivity |]. split; [lra |].
    split; [exact Hfree |]. split; [| split; [| exact Htrades]].
    + intros p0. destruct (BT.position r) as [p |]; [| discriminate].
      intros [= <-]. cbn [BT.Position.quantity]. apply Hpos. reflexivity.
    + apply Forall_app. split; [exact Hvals |].
      constructor; [| constructor].
      exists value, ((pk' + - value) / pk').
      cbn [BT.PortfolioValue.value BT.PortfolioValue.drawdown].
      split; [reflexivity |]. split; [reflexivity |].
      assert (Hinv : 0 < / pk') by (apply Rinv_0_lt_compat; lra).
      split.
      * unfold Rdiv. apply Rmult_le_pos; lra.
      * intros H0. specialize (Hfree H0).
        split; [unfold value; lra |].
        apply Rmult_le_reg_r with pk'; [lra |].
        unfold Rdiv. rewrite Rmult_assoc, Rinv_l by lra. unfold value. lra.
  - eexists. cbn [BT.run_values]. split; reflexivity.
Qed.

Lemma bar_step_sound (data : list BT.HistoricalPrice.t) (i : Z)
  (b : BT.HistoricalPrice.t) (r : BT.Run) :
  0 < BT.Params.initialCapital params ->
  js_index data i = Some b ->
  0 < BT.HistoricalPrice.close b ->
  (exists s, BT.generateSignal (BT.Params.strategy params) data i
                               (BT.position r) = Returns s) ->
  sound_run params r ->
  exists r',
    BT.bar_step generateTradeId params data i r = Returns r'
    /\ sound_run params r'
    /\ map BT.SignalPoint.date (BT.run_signals r')
       = map BT.SignalPoint.date (BT.run_signals r)
         ++ [BT.HistoricalPrice.date b]
    /\ map BT.SignalPoint.price (BT.run_signals r')
       = map BT.SignalPoint.price (BT.run_signals r)
         ++ [BT.HistoricalPrice.close b]
    /\ map BT.PortfolioValue.date (BT.run_values r')
       = map BT.PortfolioValue.date (BT.run_values r)
         ++ [BT.HistoricalPrice.date b].
Proof.
  intros Hcap Hb Hclose (s & Hs) Hr.
  unfold BT.bar_step. rewrite Hb, Hs. cbv zeta.
  set (r1 := {| BT.cash := BT.cash r; BT.position := BT.position r;
                BT.peak := BT.peak r; BT.run_trades := BT.run_trades r;
                BT.run_signals := _; BT.run_values := BT.run_values r;
                BT.created := BT.created r |}).
  assert (Hr1 : sound_run params r1)
    by (apply (sound_run_ext params r); [reflexivity .. | exact Hr]).
  pose proof (trade_on_sound s b r1 Hclose Hr1) as Hr2.
  destruct (trade_on_shape s b r1) as [Hsig2 Hval2].
  destruct (mark_sound b _ Hcap Hclose Hr2)
    as (Hr3 & Hsig3 & _ & v & Hval3 & Hdate).
  eexists. split; [reflexivity |]. split; [exact Hr3 |].
  rewrite Hsig3, Hsig2, Hval3, Hval2. unfold r1. cbn [BT.run_signals BT.run_values].
  rewrite !map_app. cbn [map BT.SignalPoint.date BT.SignalPoint.price].
  rewrite Hdate. repeat split; reflexivity.
Qed.

Lemma bars_sound (data : list BT.HistoricalPrice.t) :
  0 < BT.Params.initialCapital params ->
  (forall i p, (0 <= i < Z.of_nat (length data))%Z ->
     exists s,
       BT.generateSignal (BT.Params.strategy params) data i p = Returns s) ->
  forall (idx : list Z) (bars : list BT.HistoricalPrice.t) (r : BT.Run),
    Forall2 (fun i b => js_index data i = Some b) idx bars ->
    Forall (fun b => 0 < BT.HistoricalPrice.close b) bars ->
    sound_run params r ->
    exists r',
      for_indices idx (BT.bar_step generateTradeId params data) r = Returns r'
      /\ sound_run params r'
      /\ map BT.SignalPoint.date (BT.run_signals r')
         = map BT.SignalPoint.date (BT.run_signals r)
           ++ map BT.HistoricalPrice.date bars
      /\ map BT.SignalPoint.price (BT.run_signals r')
         = map BT.SignalPoint.price (BT.run_signals r)
           ++ map BT.HistoricalPrice.close bars
      /\ map BT.PortfolioValue.date (BT.run_values r')
         = map BT.PortfolioValue.date (BT.run_values r)
           ++ map BT.HistoricalPrice.date bars.
Proof.
  intros Hcap Hsignal idx bars r Hbars. revert r.
  induction Hbars as [| i b idx bars Hb _ IH]; intros r Hpos Hr.
  - exists r. cbn [for_indices map]. rewrite !app_nil_r.
    repeat split; [exact Hr].
  - inversion Hpos as [| ? ? Hclose Hrest]; subst.
    destruct (bar_step_sound data i b r Hcap Hb Hclose
                (Hsignal i _ (js_index_some_range _ _ _ Hb)) Hr)
      as (r1 & Hstep & Hr1 & Hd1 & Hp1 & Hv1).
    destruct (IH r1 Hrest Hr1) as (r' & Hloop & Hr' & Hd & Hp & Hv).
    exists r'. cbn [for_indices]. rewrite Hstep.
    split; [exact Hloop |]. split; [exact Hr' |].
    rewrite Hd, Hp, Hv, Hd1, Hp1, Hv1. cbn [map].
    rewrite <- !app_assoc. repeat split; reflexivity.
Qed.

End EngineFacts.

Lemma indices_enumerate {A : Type} (data pre : list A) :
  Forall2 (fun i b => js_index (pre ++ data) i = Some b)
          (indices (Z.of_nat (length pre))
                   (Z.of_nat (length pre) + Z.of_nat (length data)))
          data.
Proof.
  revert pre. induction data as [| b data IH]; intros pre.
  - rewrite indices_nil by (cbn [length]; lia). constructor.
  - rewrite indices_cons by (cbn [length]; lia). constructor.
    + unfold js_index.
      destruct (Z.ltb_spec (Z.of_nat (length pre)) 0) as [Hneg | _]; [lia |].
      rewrite Nat2Z.id, nth_error_app2 by lia.
      rewrite Nat.sub_diag. reflexivity.
    + specialize (IH (pre ++ [b])).
      rewrite <- app_assoc, length_app in IH. cbn [app length] in IH.
      replace (Z.of_nat (length pre) + 1)%Z
        with (Z.of_nat (length pre + 1)) by lia.
      replace (Z.of_nat (length pre) + Z.of_nat (length (b :: data)))%Z
        with (Z.of_nat (length pre + 1) + Z.of_nat (length data))%Z
        by (cbn [length]; lia).
      exact IH.
Qed.

Lemma initial_run_sound {S : Type} (params : BT.Params.t S) :
  0 < BT.Params.initialCapital params ->
  sound_run params (BT.initial_run params).
Proof.
  intros Hcap.
  exists (BT.Params.initialCapital params), (BT.Params.initialCapital params).
  cbn [BT.initial_run BT.cash BT.peak BT.position BT.run_values BT.run_trades].
  split; [reflexivity |]. split; [reflexivity |]. split; [lra |].
  split; [intros _; lra |]. split; [intros p; discriminate |].
  split; constructor.
Qed.

Lemma rsi_reversion_never_throws (this : BT.RSIMeanReversion.parameters)
  (prices : list BT.HistoricalPrice.t) (i : Z) (p : option BT.Position.t) :
  exists s, BT.RSIMeanReversion.generateSignal this prices i p = Returns s.
Proof.
  unfold BT.RSIMeanReversion.generateSignal. cbv zeta.
  destruct (negb _); [eexists; reflexivity |].
  destruct (_ && _)%bool; [eexists; reflexivity |].
  destruct (_ && _)%bool; eexists; reflexivity.
Qed.

Lemma one_bar_bands :
  BT.bollinger [100] 1 2 0
  = Some {| BT.upper := Fin 100; BT.middle := Fin 100; BT.lower := Fin 100 |}.
Proof.
  unfold BT.bollinger, BT.sma.
  change (0 <? 1 - 1)%Z with false. cbv iota.
  change (js_slice [100] (0 - 1 + 1) (0 + 1)) with [100].
  assert (Hm : ndiv (Fin (sumR [100])) (Fin 1) = Fin 100).
  { rewrite ndiv_fin by lra. f_equal. unfold sumR. cbn [fold_left]. lra. }
  rewrite Hm. cbn [truthy to_number].
  destruct (Req_dec_T 100 0) as [H | _]; [lra |]. cbn [negb].
  cbn [fold_left nsub nneg nadd nmul npow].
  rewrite ndiv_fin by lra. rewrite nsqrt_zero by lra.
  cbn [nmul nadd nsub nneg]. f_equal. f_equal; f_equal; lra.
Qed.

Lemma one_bar_signal :
  BT.generateSignal (BT.Params.strategy trading_params) [bar 100] 0 None
  = Returns BT.BUY.
Proof.
  cbn [BT.generateSignal BT.Strategy_strategy BT.BollingerBands_strategy
       trading_params BT.Params.strategy].
  unfold BT.BollingerBands.generateSignal, BT.BollingerBands.make.
  cbn [BT.BollingerBands.period BT.BollingerBands.stdDev map bar
       BT.HistoricalPrice.close].
  rewrite one_bar_bands.
  change (js_index [bar 100] 0) with (Some (bar 100)). cbv iota beta.
  cbn [bar BT.HistoricalPrice.close BT.lower BT.flat].
  rewrite nleb_fin_true by lra. reflexivity.
Qed.

Lemma one_bar_quantity :
  BT.getPositionSize (BT.Params.strategy trading_params) BT.BUY 100
                     (Fin 10000) None = Fin 80.
Proof.
  cbn [BT.getPositionSize BT.Strategy_strategy BT.BollingerBands_strategy
       trading_params BT.Params.strategy].
  unfold BT.position_size, BT.BollingerBands.make.
  cbn [BT.BollingerBands.positionSize nmul].
  rewrite ndiv_fin by lra. cbn [nfloor]. f_equal.
  unfold js_floor. change 80 with (IZR 80). f_equal.
  apply Zfloor_eq. change (IZR 80) with 80. lra.
Qed.

Lemma one_bar_backtest (generateTradeId : nat -> string) :
  exists result,
    BT.runBacktest generateTradeId trading_params [bar 100] = Returns result
    /\ length (BT.trades result) = 1%nat
    /\ length (BT.positions result) = 1%nat.
Proof.
  unfold BT.runBacktest.
  change (indices 0 (Z.of_nat (length [bar 100]))) with [0%Z].
  cbn [for_indices]. unfold BT.bar_step.
  change (js_index [bar 100] 0) with (Some (bar 100)). cbv iota beta.
  cbn [BT.initial_run BT.position]. rewrite one_bar_signal.
  cbv iota beta zeta.
  unfold BT.trade_on. cbn [BT.cash BT.position bar BT.HistoricalPrice.close
                           trading_params BT.Params.initialCapital].
  change (BT.cash (BT.initial_run trading_params)) with (Fin 10000).
  rewrite one_bar_quantity.
  assert (Hq : ngtb (Fin 80) (Fin 0) = true)
    by (unfold ngtb; apply nltb_fin_true; lra).
  rewrite Hq. unfold BT.execute. cbv zeta.
  cbn [BT.cash BT.position BT.Trade.price snd bar BT.HistoricalPrice.close
       trading_params BT.Params.commission BT.Params.slippage nmul nadd].
  rewrite nleb_fin_true by lra.
  eexists. split; [reflexivity |].
  cbn [BT.trades BT.positions BT.mark BT.run_trades BT.position].
  split; [| reflexivity].
  rewrite length_app. reflexivity.
Qed.

(** None of the three strategy classes throws at an index inside the
    history. *)
Lemma factory_strategy_signals_in_range (s : BT.Strategy)
  (prices : list BT.HistoricalPrice.t) (i : Z) (p : option BT.Position.t) :
  (0 <= i < Z.of_nat (length prices))%Z ->
  exists signal, BT.generateSignal s prices i p = Returns signal.
Proof.
  intros Hi. destruct s as [this | this | this];
    cbn [BT.generateSignal BT.Strategy_strategy
         BT.MovingAverageCrossover_strategy BT.RSIMeanReversion_strategy
         BT.BollingerBands_strategy].
  - unfold BT.MovingAverageCrossover.generateSignal. cbv zeta.
    destruct (_ || _)%bool; [eexists; reflexivity |].
    destruct (_ && _)%bool; [eexists; reflexivity |].
    destruct (_ && _)%bool; eexists; reflexivity.
  - apply rsi_reversion_never_throws.
  - unfold BT.BollingerBands.generateSignal. cbv zeta.
    destruct (BT.bollinger _ _ _ _) as [bands |]; [| eexists; reflexivity].
    rewrite (js_index_nth (bar 0)) by exact Hi.
    destruct (_ && _)%bool; [eexists; reflexivity |].
    destruct (_ && _)%bool; eexists; reflexivity.
Qed.

(** X30.  [BacktestEngine.runBacktest]: for a history of positive closes,
    a positive initial capital, a commission that is not negative and a
    slippage in [0, 1), with any strategy that does not throw at the
    indices of the history (none of the three strategy classes does), the
    backtest returns and records one signal and one portfolio value per
    bar, with the bar's date and close.  In exact arithmetic every
    recorded value is finite and every drawdown is a finite number that is
    not negative (and, when the commission is 0, no value is negative and
    no drawdown exceeds 1); every executed trade and the position that is
    left open have a finite positive quantity. *)
Theorem runBacktest_keeps_books {S : Type} `{BT.TradingStrategy S}
  (generateTradeId : nat -> string) (params : BT.Params.t S)
  (historicalData : list BT.HistoricalPrice.t) :
  0 < BT.Params.initialCapital params ->
  0 <= BT.Params.commission params ->
  0 <= BT.Params.slippage params < 1 ->
  Forall (fun b => 0 < BT.HistoricalPrice.close b) historicalData ->
  (forall i p, (0 <= i < Z.of_nat (length historicalData))%Z ->
     exists s,
       BT.generateSignal (BT.Params.strategy params) historicalData i p
       = Returns s) ->
  exists result,
    BT.runBacktest generateTradeId params historicalData = Returns result
    /\ one_entry_per_bar historicalData result
    /\ Forall (sound_value (BT.Params.commission params))
              (BT.portfolioValues result)
    /\ Forall (fun t => positive_quantity (BT.Trade.quantity (snd t)))
              (BT.trades result)
    /\ Forall (fun p => positive_quantity (BT.Position.quantity p))
              (BT.positions result).
Proof.
  intros Hcap Hcom Hslip Hpos Hsignal.
  destruct (bars_sound generateTradeId params Hcom Hslip historicalData Hcap
              Hsignal _ _ (BT.initial_run params)
              (indices_enumerate historicalData []) Hpos
              (initial_run_sound params Hcap))
    as (r & Hloop & Hr & Hd & Hp & Hv).
  unfold BT.runBacktest.
  change (Z.of_nat (length (@nil BT.HistoricalPrice.t))
          + Z.of_nat (length historicalData))%Z
    with (Z.of_nat (length historicalData)) in Hloop.
  change (@nil BT.HistoricalPrice.t ++ historicalData) with historicalData in Hloop.
  change (Z.of_nat (length (@nil BT.HistoricalPrice.t))) with 0%Z in Hloop.
  rewrite Hloop.
  eexists. split; [reflexivity |].
  cbn [BT.signals BT.portfolioValues BT.trades BT.positions].
  destruct Hr as (c & pk & _ & _ & _ & _ & Hposn & Hvals & Htrades).
  split; [| split; [exact Hvals | split; [exact Htrades |]]].
  - unfold one_entry_per_bar.
    cbn [BT.signals BT.portfolioValues]. rewrite Hd, Hp, Hv.
    repeat split; reflexivity.
  - destruct (BT.position r) as [p |]; constructor; [| constructor].
    apply Hposn. reflexivity.
Qed.

Lemma runBacktest_keeps_books_witness :
  exists result,
    BT.runBacktest (fun _ => "trade_1"%string) trading_params [bar 100]
    = Returns result
    /\ length (BT.trades result) = 1%nat
    /\ one_entry_per_bar [bar 100] result
    /\ Forall (sound_value 1) (BT.portfolioValues result)
    /\ Forall (fun t => positive_quantity (BT.Trade.quantity (snd t)))
              (BT.trades result)
    /\ Forall (fun p => positive_quantity (BT.Position.quantity p))
              (BT.positions result).
Proof.
  destruct (runBacktest_keeps_books (fun _ => "trade_1"%string) trading_params
                                    [bar 100])
    as (result & Hrun & Hbooks).
  - cbn. lra.
  - cbn. lra.
  - cbn. lra.
  - repeat constructor; cbn; lra.
  - intros i p Hi. apply factory_strategy_signals_in_range. exact Hi.
  - destruct (one_bar_backtest (fun _ => "trade_1"%string))
      as (result' & Hrun' & Hlen & _).
    rewrite Hrun in Hrun'. inversion Hrun'; subst result'.
    exists result. split; [exact Hrun |]. split; [exact Hlen | exact Hbooks].
Defined.
